(** * Patient-flow simulation (DTA1.py, uniform.py): model and properties

    The two scripts drive a simpy discrete-event simulation of a hospital:
    patients arrive, request one of [NUM_DOCTORS] doctors (a
    [simpy.Resource]), are treated or leave, and statistics are collected in
    module-level lists.  [DTA1.py] draws exponential durations, [uniform.py]
    uniform integer ones and keeps a [simpy.Store] of names.

    The scripts are embedded as state machines over an explicit simulation
    state.  The part of simpy they exercise (event heap, [Process],
    [Timeout], [Resource], [Store]) is modelled next to them; Python's
    [random] module is an abstract deterministic generator.  Float
    arithmetic is idealised to exact rationals ([Q]). *)

From Stdlib Require Import List Arith ZArith QArith Bool Lia Lqa Sorted.
Import ListNotations.

Set Implicit Arguments.

(** ** Small list helpers *)

(** [list.remove(x)]: drops the first occurrence of [x]; simpy swallows the
    [ValueError] raised when [x] is absent. *)
Fixpoint list_remove (x : nat) (l : list nat) : list nat :=
  match l with
  | [] => []
  | y :: l' => if Nat.eqb x y then l' else y :: list_remove x l'
  end.

(** [l[i] = f(l[i])]; nothing happens when [i] is out of range (the scripts
    never index out of range). *)
Fixpoint list_upd {A : Type} (i : nat) (f : A -> A) (l : list A) : list A :=
  match l, i with
  | [], _ => []
  | x :: l', O => f x :: l'
  | x :: l', S i' => x :: list_upd i' f l'
  end.

(** ** simpy.Resource *)

Module Resource.

(** Requests are identified by the number of their event object.
    [put_queue] is the queue of pending requests ([Resource.queue]);
    [users] holds the granted ones.  The [get_queue] of release events is
    empty between any two operations, because [_do_get] always succeeds. *)
Record t : Type := mk {
  capacity : nat;
  users : list nat;
  put_queue : list nat
}.

(** [simpy.Resource(env, capacity)] *)
Definition init (cap : nat) : t := mk cap [] [].

(** [Resource.count] *)
Definition count (r : t) : nat := length (users r).

(** [_trigger_put]: walks [put_queue] from index 0 and calls [_do_put] on
    the request there.  [Resource._do_put] appends the request to [users]
    and succeeds it when [len(users) < capacity]; it returns [None], so
    the walk stops after the first request whatever the outcome.  The
    result also tells which request was succeeded (it has to be
    scheduled). *)
Definition trigger_put (r : t) : t * option nat :=
  match put_queue r with
  | [] => (r, None)
  | ev :: q =>
      if length (users r) <? capacity r
      then (mk (capacity r) (users r ++ [ev]) q, Some ev)
      else (r, None)
  end.

(** [resource.request()]: [Put.__init__] appends the new request to
    [put_queue] and calls [_trigger_put]. *)
Definition request (ev : nat) (r : t) : t * option nat :=
  trigger_put (mk (capacity r) (users r) (put_queue r ++ [ev])).

(** [resource.release(req)]: [_do_get] removes [req] from [users] and
    succeeds the release event at once. *)
Definition release (req : nat) (r : t) : t :=
  mk (capacity r) (list_remove req (users r)) (put_queue r).

End Resource.

(** ** simpy.Store (uniform.py only) *)

Module Store.

(** [simpy.Store(env)] has infinite capacity: every [put] is accepted at
    once, so the store's own put queue is empty between operations.  The
    script never calls [get]. *)
Record t : Type := mk { items : list nat }.

Definition init : t := mk [].

(** [store.put(item)]: [_do_put] appends the item ([len(items) < inf]). *)
Definition put (item : nat) (s : t) : t := mk (items s ++ [item]).

End Store.

(** ** Python's random module *)

(** The generator behind [random.seed], [random.random],
    [random.expovariate] and [random.randint]: every call maps the hidden
    generator state to a result and a new state.  The range fields are the
    documented contract of the three functions; with them no [Timeout] of
    the scripts is created with a negative delay, the one case in which
    simpy raises [ValueError]. *)
Record Random : Type := {
  rng : Type;
  rng_seed : Z -> rng;
  rng_random : rng -> Q * rng;
  rng_expovariate : Q -> rng -> Q * rng;
  rng_randint : Z -> Z -> rng -> Z * rng;
  random_range : forall g, 0 <= fst (rng_random g) /\ fst (rng_random g) < 1;
  expovariate_nonneg : forall lambd g, 0 <= fst (rng_expovariate lambd g);
  randint_range : forall a b g,
    (a <= b)%Z -> (a <= fst (rng_randint a b g) <= b)%Z
}.

(** A generator that replays a tape of raw draws and then repeats a default
    one; it drives the concrete runs below.  A raw draw [x] is turned into
    [(x mod 10) / 10] by [random], [x + 1] by [expovariate] and
    [a + x mod (b - a + 1)] by [randint]. *)
Definition tape_next (default : nat) (g : list nat) : nat * list nat :=
  match g with
  | [] => (default, [])
  | x :: g' => (x, g')
  end.

Definition tape_random (default : nat) (g : list nat) : Q * list nat :=
  (inject_Z (Z.of_nat (fst (tape_next default g)) mod 10) / 10,
   snd (tape_next default g)).

Definition tape_expovariate (default : nat) (lambd : Q) (g : list nat)
    : Q * list nat :=
  (inject_Z (Z.of_nat (S (fst (tape_next default g)))),
   snd (tape_next default g)).

Definition tape_randint (default : nat) (a b : Z) (g : list nat)
    : Z * list nat :=
  ((a + Z.of_nat (fst (tape_next default g)) mod (b - a + 1))%Z,
   snd (tape_next default g)).

Lemma tape_random_range default g :
  0 <= fst (tape_random default g) /\ fst (tape_random default g) < 1.
Proof.
  unfold tape_random. simpl.
  pose proof (Z.mod_pos_bound (Z.of_nat (fst (tape_next default g))) 10 eq_refl).
  unfold Qle, Qlt, Qdiv, Qmult, Qinv, inject_Z. simpl. lia.
Qed.

Lemma tape_expovariate_nonneg default lambd g :
  0 <= fst (tape_expovariate default lambd g).
Proof. unfold tape_expovariate, Qle, inject_Z. simpl. lia. Qed.

Lemma tape_randint_range default a b g :
  (a <= b)%Z -> (a <= fst (tape_randint default a b g) <= b)%Z.
Proof.
  intros H. unfold tape_randint. simpl.
  pose proof (Z.mod_pos_bound (Z.of_nat (fst (tape_next default g))) (b - a + 1)).
  lia.
Qed.

Definition TapeRandom (tape : list nat) (default : nat) : Random :=
  {| rng := list nat;
     rng_seed := fun _ => tape;
     rng_random := tape_random default;
     rng_expovariate := tape_expovariate default;
     rng_randint := tape_randint default;
     random_range := @tape_random_range default;
     expovariate_nonneg := @tape_expovariate_nonneg default;
     randint_range := @tape_randint_range default |}.

(** ** Constants of the scripts (identical in both) *)

Definition RANDOM_SEED : Z := 48.
Definition NUM_DOCTORS : nat := 2.
Definition TREATMENT_TIME : Z := 5.
Definition T_INTER : Z := 7.
Definition SIM_TIME : Z := 200.
Definition TREAT_PROBABILITY : Q := 8 # 10.

(** The two scripts. *)
Inductive Script : Type := DTA1 | Uniform.

(** ** Objects of a run *)

(** [class Hospital].  [queue_length] is the counter of DTA1.py, [queue]
    the [simpy.Store] of uniform.py; each script uses its own field. *)
Record Hospital : Type := {
  doctor : Resource.t;
  treatment_time : Z;
  queue_length : Z;
  queue : Store.t
}.

(** [Hospital.__init__] *)
Definition Hospital_init (num_doctors : nat) (treatment_time : Z) : Hospital :=
  {| doctor := Resource.init num_doctors;
     treatment_time := treatment_time;
     queue_length := 0;
     queue := Store.init |}.

(** [Hospital] objects live in a store and are referred to by their index in
    it.  A run has two of them: the module-level [hospital], created first
    and the one handed to [add_doctors], and the local [hospital] that
    [setup] creates and hands to every patient. *)
Definition hospital_ref : nat := 0.

(** Callbacks found on the events of a run. *)
Inductive Callback : Type :=
| CbResume (pid : nat)            (* Process._resume of process [pid] *)
| CbTriggerPut (h : nat)         (* doctor._trigger_put, on release events *)
| CbTriggerGet (h : nat)         (* doctor._trigger_get, on request events *)
| CbStoreTriggerGet (h : nat)    (* queue._trigger_get, on store puts *)
| CbStop.                         (* StopSimulation.callback *)

(** Priorities of [Environment.schedule]. *)
Definition URGENT : nat := 0.
Definition NORMAL : nat := 1.

(** An entry of the event heap: [(time, priority, eid, event)]. *)
Record Entry : Type := {
  e_time : Q;
  e_prio : nat;
  e_eid : nat;
  e_event : nat
}.

(** [simpy.Environment]: [_now], [_queue], [_eid]. *)
Record Environment : Type := {
  now : Q;
  heap : list Entry;
  eid : nat
}.

(** Where a generator is suspended, with its live locals. *)
Inductive Pc : Type :=
| PatientStart (name : nat) (h : nat)
| PatientPut (name : nat) (h : nat) (arrival_time : Q)
| PatientRequest (name : nat) (h : nat) (arrival_time : Q) (request : nat)
| PatientTreat (name : nat) (h : nat) (request : nat)
| TreatStart (h : nat) (patient : nat)
| TreatWait (h : nat) (patient : nat)
| SetupStart (num_doctors : nat) (treatment_time t_inter : Z)
| SetupLoop (hospital : nat) (t_inter : Z) (i : nat)
| AddDoctors (h : nat) (remaining : nat)
| Finished.

(** [simpy.Process]: the generator and the event the process itself is. *)
Record Process : Type := {
  pc : Pc;
  proc_event : nat
}.

(** The module-level result lists. *)
Record Lists : Type := {
  arrival_times : list Q;
  treated_times : list Q;
  left_without_treatment_times : list Q;
  wait_times : list Q;
  queue_lengths : list Z;
  time_stamps : list Q
}.

(** The chronological record of a run: one entry where the scripts append to
    [arrival_times], [wait_times], [treated_times] and
    [left_without_treatment_times]. *)
Inductive LogEvent : Type :=
| Arrived (name : nat) (t : Q)
| Granted (name : nat) (t : Q)
| Treated (name : nat) (t : Q)
| LeftWithoutTreatment (name : nat) (t : Q).

Section Simulation.

Variable R : Random.
Variable script : Script.

(** The whole state of a run.  [events] maps an event object to its
    callback list, [None] once the event has been processed; [hospitals]
    is the store of [Hospital] objects. *)
Record State : Type := {
  env : Environment;
  events : list (option (list Callback));
  procs : list Process;
  hospitals : list Hospital;
  lists : Lists;
  random_state : rng R;
  log : list LogEvent
}.

Definition set_env (e : Environment) (s : State) : State :=
  {| env := e; events := events s; procs := procs s;
     hospitals := hospitals s; lists := lists s;
     random_state := random_state s; log := log s |}.

Definition set_events (ev : list (option (list Callback))) (s : State) : State :=
  {| env := env s; events := ev; procs := procs s;
     hospitals := hospitals s; lists := lists s;
     random_state := random_state s; log := log s |}.

Definition set_procs (p : list Process) (s : State) : State :=
  {| env := env s; events := events s; procs := p;
     hospitals := hospitals s; lists := lists s;
     random_state := random_state s; log := log s |}.

Definition set_hospitals (hs : list Hospital) (s : State) : State :=
  {| env := env s; events := events s; procs := procs s;
     hospitals := hs; lists := lists s;
     random_state := random_state s; log := log s |}.

Definition set_lists (l : Lists) (s : State) : State :=
  {| env := env s; events := events s; procs := procs s;
     hospitals := hospitals s; lists := l;
     random_state := random_state s; log := log s |}.

Definition set_random_state (g : rng R) (s : State) : State :=
  {| env := env s; events := events s; procs := procs s;
     hospitals := hospitals s; lists := lists s;
     random_state := g; log := log s |}.

Definition set_log (l : list LogEvent) (s : State) : State :=
  {| env := env s; events := events s; procs := procs s;
     hospitals := hospitals s; lists := lists s;
     random_state := random_state s; log := l |}.

(** *** A state monad for the statements of the scripts *)

Definition M (A : Type) : Type := State -> A * State.

Definition ret {A : Type} (a : A) : M A := fun s => (a, s).

Definition bind {A B : Type} (m : M A) (k : A -> M B) : M B :=
  fun s => let r := m s in k (fst r) (snd r).

Definition gets {A : Type} (f : State -> A) : M A := fun s => (f s, s).

Definition modify (f : State -> State) : M unit := fun s => (tt, f s).

Definition exec {A : Type} (m : M A) (s : State) : State := snd (m s).

Notation "x <- m ;; k" := (bind m (fun x => k))
  (at level 61, m at next level, right associativity).
Notation "m ;; k" := (bind m (fun _ => k))
  (at level 61, right associativity).

(** *** The simpy kernel *)

(** [env.now] *)
Definition env_now : M Q := gets (fun s => now (env s)).

(** [Event(env)]: a new event object with the given callbacks. *)
Definition new_event (cbs : list Callback) : M nat :=
  fun s => (length (events s), set_events (events s ++ [Some cbs]) s).

(** [heappush(queue, (now + delay, priority, next(eid), event))] *)
Definition env_push (ev prio : nat) (delay : Q) (e : Environment) : Environment :=
  {| now := now e;
     heap := heap e ++
       [{| e_time := now e + delay; e_prio := prio;
           e_eid := eid e; e_event := ev |}];
     eid := S (eid e) |}.

(** [env.schedule(event, priority, delay)] *)
Definition schedule (ev prio : nat) (delay : Q) : M unit :=
  modify (fun s => set_env (env_push ev prio delay (env s)) s).

(** [event.callbacks.append(cb)] on an event that is not yet processed. *)
Definition add_callback (ev : nat) (cb : Callback) : M unit :=
  modify (fun s =>
    set_events (list_upd ev (option_map (fun cbs => cbs ++ [cb])) (events s)) s).

(** [env.timeout(delay)]: a new event, scheduled at [now + delay]. *)
Definition timeout (delay : Q) : M nat :=
  ev <- new_event [] ;;
  schedule ev NORMAL delay ;;
  ret ev.

(** [env.process(generator)]: the process object (itself an event) and its
    [Initialize] event, which is scheduled as urgent and starts the
    generator when processed. *)
Definition process (start : Pc) : M nat :=
  pid <- gets (fun s => length (procs s)) ;;
  pev <- new_event [] ;;
  modify (fun s =>
    set_procs (procs s ++ [{| pc := start; proc_event := pev |}]) s) ;;
  init <- new_event [CbResume pid] ;;
  schedule init URGENT 0 ;;
  ret pev.

Definition set_pc (pid : nat) (p : Pc) : M unit :=
  modify (fun s =>
    set_procs
      (list_upd pid (fun pr => {| pc := p; proc_event := proc_event pr |})
         (procs s)) s).

(** [yield ev] in process [pid]: the generator is suspended at [next] and
    [_resume] is appended to the callbacks of [ev].  (Every event the
    scripts yield was created in the same segment, so it is never already
    processed.) *)
Definition yield (pid ev : nat) (next : Pc) : M unit :=
  set_pc pid next ;;
  add_callback ev (CbResume pid).

(** The generator of [pid] returns: [_resume] catches [StopIteration] and
    schedules the process, whose event is [pev]. *)
Definition finish (pid pev : nat) : M unit :=
  set_pc pid Finished ;;
  schedule pev NORMAL 0.

(** *** Hospitals *)

(** Dereferencing; no generator holds a dangling reference, the default
    is never read. *)
Definition get_hospital (h : nat) : M Hospital :=
  gets (fun s => nth h (hospitals s) (Hospital_init 0 0)).

Definition upd_hospital (h : nat) (f : Hospital -> Hospital) : M unit :=
  modify (fun s => set_hospitals (list_upd h f (hospitals s)) s).

(** [Hospital(env, num_doctors, treatment_time)]: a new object. *)
Definition new_hospital (num_doctors : nat) (treatment_time : Z) : M nat :=
  fun s =>
    (length (hospitals s),
     set_hospitals (hospitals s ++ [Hospital_init num_doctors treatment_time]) s).

Definition with_doctor (r : Resource.t) (H : Hospital) : Hospital :=
  {| doctor := r; treatment_time := treatment_time H;
     queue_length := queue_length H; queue := queue H |}.

Definition with_queue_length (n : Z) (H : Hospital) : Hospital :=
  {| doctor := doctor H; treatment_time := treatment_time H;
     queue_length := n; queue := queue H |}.

Definition with_queue (q : Store.t) (H : Hospital) : Hospital :=
  {| doctor := doctor H; treatment_time := treatment_time H;
     queue_length := queue_length H; queue := q |}.

(** When a resource grants a request, [event.succeed()] schedules it. *)
Definition succeed_granted (g : option nat) : M unit :=
  modify (fun s =>
    set_env
      match g with
      | Some ev => env_push ev NORMAL 0 (env s)
      | None => env s
      end s).

(** [hospital.doctor.request()] *)
Definition request (h : nat) : M nat :=
  ev <- new_event [CbTriggerGet h] ;;
  H <- get_hospital h ;;
  upd_hospital h (with_doctor (fst (Resource.request ev (doctor H)))) ;;
  succeed_granted (snd (Resource.request ev (doctor H))) ;;
  ret ev.

(** [hospital.doctor.release(req)], called by [Request.__exit__]: the
    release event carries [_trigger_put] and succeeds at once. *)
Definition release (h req : nat) : M unit :=
  ev <- new_event [CbTriggerPut h] ;;
  H <- get_hospital h ;;
  upd_hospital h (with_doctor (Resource.release req (doctor H))) ;;
  schedule ev NORMAL 0.

(** [doctor._trigger_put(event)], run when a release event is processed. *)
Definition trigger_put (h : nat) : M unit :=
  H <- get_hospital h ;;
  upd_hospital h (with_doctor (fst (Resource.trigger_put (doctor H)))) ;;
  succeed_granted (snd (Resource.trigger_put (doctor H))).

(** [hospital.queue.put(name)] *)
Definition store_put (h name : nat) : M unit :=
  ev <- new_event [CbStoreTriggerGet h] ;;
  H <- get_hospital h ;;
  upd_hospital h (with_queue (Store.put name (queue H))) ;;
  schedule ev NORMAL 0.

(** *** The module-level lists and the log *)

Definition append_arrival_times (t : Q) : M unit :=
  modify (fun s =>
    let l := lists s in
    set_lists
      {| arrival_times := arrival_times l ++ [t];
         treated_times := treated_times l;
         left_without_treatment_times := left_without_treatment_times l;
         wait_times := wait_times l;
         queue_lengths := queue_lengths l;
         time_stamps := time_stamps l |} s).

Definition append_treated_times (t : Q) : M unit :=
  modify (fun s =>
    let l := lists s in
    set_lists
      {| arrival_times := arrival_times l;
         treated_times := treated_times l ++ [t];
         left_without_treatment_times := left_without_treatment_times l;
         wait_times := wait_times l;
         queue_lengths := queue_lengths l;
         time_stamps := time_stamps l |} s).

Definition append_left_without_treatment_times (t : Q) : M unit :=
  modify (fun s =>
    let l := lists s in
    set_lists
      {| arrival_times := arrival_times l;
         treated_times := treated_times l;
         left_without_treatment_times := left_without_treatment_times l ++ [t];
         wait_times := wait_times l;
         queue_lengths := queue_lengths l;
         time_stamps := time_stamps l |} s).

Definition append_wait_times (t : Q) : M unit :=
  modify (fun s =>
    let l := lists s in
    set_lists
      {| arrival_times := arrival_times l;
         treated_times := treated_times l;
         left_without_treatment_times := left_without_treatment_times l;
         wait_times := wait_times l ++ [t];
         queue_lengths := queue_lengths l;
         time_stamps := time_stamps l |} s).

Definition append_queue_lengths (n : Z) : M unit :=
  modify (fun s =>
    let l := lists s in
    set_lists
      {| arrival_times := arrival_times l;
         treated_times := treated_times l;
         left_without_treatment_times := left_without_treatment_times l;
         wait_times := wait_times l;
         queue_lengths := queue_lengths l ++ [n];
         time_stamps := time_stamps l |} s).

Definition append_time_stamps (t : Q) : M unit :=
  modify (fun s =>
    let l := lists s in
    set_lists
      {| arrival_times := arrival_times l;
         treated_times := treated_times l;
         left_without_treatment_times := left_without_treatment_times l;
         wait_times := wait_times l;
         queue_lengths := queue_lengths l;
         time_stamps := time_stamps l ++ [t] |} s).

Definition add_log (e : LogEvent) : M unit :=
  modify (fun s => set_log (log s ++ [e]) s).

(** *** Draws *)

Definition random_random : M Q :=
  fun s =>
    let r := rng_random R (random_state s) in
    (fst r, set_random_state (snd r) s).

Definition random_expovariate (lambd : Q) : M Q :=
  fun s =>
    let r := rng_expovariate R lambd (random_state s) in
    (fst r, set_random_state (snd r) s).

Definition random_randint (a b : Z) : M Z :=
  fun s =>
    let r := rng_randint R a b (random_state s) in
    (fst r, set_random_state (snd r) s).

Definition Qlt_bool (a b : Q) : bool := negb (Qle_bool b a).

(** *** The generators, one action per segment between two yields *)

(** [len(hospital.queue.items)] *)
Definition len_items (H : Hospital) : Z :=
  Z.of_nat (length (Store.items (queue H))).

(** [patient], from its start to the first [yield]. *)
Definition patient_arrive (pid name h : nat) : M unit :=
  arrival_time <- env_now ;;
  append_arrival_times arrival_time ;;
  add_log (Arrived name arrival_time) ;;
  match script with
  | DTA1 =>
      H <- get_hospital h ;;
      upd_hospital h (with_queue_length (queue_length H + 1)) ;;
      H <- get_hospital h ;;
      append_queue_lengths (queue_length H) ;;
      append_time_stamps arrival_time ;;
      req <- request h ;;
      yield pid req (PatientRequest name h arrival_time req)
  | Uniform =>
      H <- get_hospital h ;;
      append_queue_lengths (len_items H) ;;
      store_put h name ;;
      t <- timeout 0 ;;
      yield pid t (PatientPut name h arrival_time)
  end.

(** uniform.py, after [yield env.timeout(0)]: the [with] block of the put
    is left (its [cancel] does nothing, the put was accepted) and the
    doctor is requested. *)
Definition patient_request (pid name h : nat) (arrival_time : Q) : M unit :=
  req <- request h ;;
  yield pid req (PatientRequest name h arrival_time req).

(** [patient], after [yield request].  Leaving the [with] block calls
    [Request.__exit__]: [cancel] does nothing on a request that has been
    granted, then the request is released. *)
Definition patient_granted (pid pev name h : nat) (arrival_time : Q)
    (req : nat) : M unit :=
  match script with
  | DTA1 =>
      H <- get_hospital h ;;
      upd_hospital h (with_queue_length (queue_length H - 1)) ;;
      H <- get_hospital h ;;
      append_queue_lengths (queue_length H) ;;
      t <- env_now ;;
      append_time_stamps t
  | Uniform =>
      H <- get_hospital h ;;
      append_queue_lengths (len_items H)
  end ;;
  t <- env_now ;;
  append_wait_times (t - arrival_time) ;;
  add_log (Granted name t) ;;
  u <- random_random ;;
  if Qlt_bool u TREAT_PROBABILITY then
    p <- process (TreatStart h name) ;;
    yield pid p (PatientTreat name h req)
  else
    t <- env_now ;;
    append_left_without_treatment_times t ;;
    add_log (LeftWithoutTreatment name t) ;;
    release h req ;;
    finish pid pev.

(** [patient], after [yield env.process(hospital.treat(name))]. *)
Definition patient_treated (pid pev name h req : nat) : M unit :=
  t <- env_now ;;
  append_treated_times t ;;
  add_log (Treated name t) ;;
  release h req ;;
  finish pid pev.

(** [Hospital.treat], up to its [yield]. *)
Definition treat_start (pid h patient : nat) : M unit :=
  H <- get_hospital h ;;
  match script with
  | DTA1 =>
      treatment_duration <-
        random_expovariate (1 / inject_Z (treatment_time H)) ;;
      t <- timeout treatment_duration ;;
      yield pid t (TreatWait h patient)
  | Uniform =>
      d <- random_randint (treatment_time H - 2) (treatment_time H + 2) ;;
      t <- timeout (inject_Z d) ;;
      yield pid t (TreatWait h patient)
  end.

(** The body of the [while True] loop of [setup], up to its [yield]. *)
Definition setup_wait (pid hospital : nat) (t_inter : Z) (i : nat) : M unit :=
  match script with
  | DTA1 =>
      inter_arrival_time <- random_expovariate (1 / inject_Z t_inter) ;;
      t <- timeout inter_arrival_time ;;
      yield pid t (SetupLoop hospital t_inter i)
  | Uniform =>
      d <- random_randint (t_inter - 2) (t_inter + 2) ;;
      t <- timeout (inject_Z d) ;;
      yield pid t (SetupLoop hospital t_inter i)
  end.

(** The number of patients [setup] starts with: [range(1, 5)] in DTA1.py,
    [range(1, 4)] in uniform.py. *)
Definition initial_patients : nat :=
  match script with DTA1 => 4 | Uniform => 3 end.

(** [for i in names: env.process(patient(env, 'Patient i', hospital))] *)
Fixpoint spawn_patients (hospital : nat) (names : list nat) : M unit :=
  match names with
  | [] => ret tt
  | i :: names' =>
      process (PatientStart i hospital) ;;
      spawn_patients hospital names'
  end.

(** [setup], from its start to the first [yield]. *)
Definition setup_start (pid num_doctors : nat) (treatment_time t_inter : Z)
    : M unit :=
  hospital <- new_hospital num_doctors treatment_time ;;
  spawn_patients hospital (seq 1 initial_patients) ;;
  setup_wait pid hospital t_inter (S initial_patients).

(** [setup], after the [yield] of its loop. *)
Definition setup_loop (pid hospital : nat) (t_inter : Z) (i : nat) : M unit :=
  process (PatientStart i hospital) ;;
  setup_wait pid hospital t_inter (S i).

(** [add_doctors]: one turn of its [for] loop, or its end. *)
Definition add_doctors_loop (pid pev h remaining : nat) : M unit :=
  match remaining with
  | O => finish pid pev
  | S n =>
      request h ;;
      t <- timeout 0 ;;
      yield pid t (AddDoctors h n)
  end.

(** The segment a process runs when it is resumed. *)
Definition segment (pid : nat) (pr : Process) : M unit :=
  match pc pr with
  | PatientStart name h => patient_arrive pid name h
  | PatientPut name h arrival_time => patient_request pid name h arrival_time
  | PatientRequest name h arrival_time req =>
      patient_granted pid (proc_event pr) name h arrival_time req
  | PatientTreat name h req => patient_treated pid (proc_event pr) name h req
  | TreatStart h patient => treat_start pid h patient
  | TreatWait h patient => finish pid (proc_event pr)
  | SetupStart num_doctors treatment_time t_inter =>
      setup_start pid num_doctors treatment_time t_inter
  | SetupLoop hospital t_inter i => setup_loop pid hospital t_inter i
  | AddDoctors h remaining => add_doctors_loop pid (proc_event pr) h remaining
  | Finished => ret tt
  end.

(** [Process._resume]: runs the generator of [pid] to its next yield. *)
Definition resume (pid : nat) : M unit :=
  fun s =>
    match nth_error (procs s) pid with
    | None => (tt, s)
    | Some pr => segment pid pr s
    end.

(** *** The event loop *)

(** Order of heap entries: Python compares the tuples
    [(time, priority, eid, event)] lexicographically. *)
Definition key_lt (a b : Entry) : bool :=
  match e_time a ?= e_time b with
  | Lt => true
  | Gt => false
  | Eq => (e_prio a <? e_prio b)
          || ((e_prio a =? e_prio b) && (e_eid a <? e_eid b))
  end.

Fixpoint heap_min (e : Entry) (l : list Entry) : Entry :=
  match l with
  | [] => e
  | x :: l' => heap_min (if key_lt x e then x else e) l'
  end.

Fixpoint heap_remove (n : nat) (l : list Entry) : list Entry :=
  match l with
  | [] => []
  | x :: l' => if e_eid x =? n then l' else x :: heap_remove n l'
  end.

(** [heappop]: the least entry and the heap without it. *)
Definition heappop (l : list Entry) : option (Entry * list Entry) :=
  match l with
  | [] => None
  | e :: l' => let m := heap_min e l' in Some (m, heap_remove (e_eid m) l)
  end.

(** One callback; the result tells whether [StopSimulation] was raised. *)
Definition run_callback (cb : Callback) : M bool :=
  match cb with
  | CbResume pid => resume pid ;; ret false
  | CbTriggerPut h => trigger_put h ;; ret false
  | CbTriggerGet _ => ret false       (* no release is ever pending *)
  | CbStoreTriggerGet _ => ret false  (* no get is ever pending *)
  | CbStop => ret true
  end.

Fixpoint run_callbacks (cbs : list Callback) : M bool :=
  match cbs with
  | [] => ret false
  | cb :: cbs' =>
      stop <- run_callback cb ;;
      if stop then ret true else run_callbacks cbs'
  end.

Inductive Outcome : Type := Continue | Stop | EmptySchedule.

Definition callbacks_of (ev : nat) (evs : list (option (list Callback)))
    : list Callback :=
  match nth_error evs ev with
  | Some (Some cbs) => cbs
  | _ => []
  end.

(** [env.step()], once the entry [e] has been popped and [rest] is left
    in the heap: moves the clock to its time, takes its callbacks
    ([event.callbacks = None]) and calls them in order. *)
Definition fire (e : Entry) (rest : list Entry) (s : State) : Outcome * State :=
  let s1 := set_env {| now := e_time e; heap := rest; eid := eid (env s) |} s in
  let cbs := callbacks_of (e_event e) (events s1) in
  let s2 := set_events (list_upd (e_event e) (fun _ => None) (events s1)) s1 in
  let r := run_callbacks cbs s2 in
  (if fst r then Stop else Continue, snd r).

(** [env.step()]: pops the next event and fires it. *)
Definition step (s : State) : Outcome * State :=
  match heappop (heap (env s)) with
  | None => (EmptySchedule, s)
  | Some (e, rest) => fire e rest s
  end.

(** [env.run(until=at)], first half: the stop event is scheduled as urgent
    at time [at]; [ValueError] ([None]) when [at <= now]. *)
Definition run_start (at_ : Q) (s : State) : option State :=
  if Qle_bool at_ (now (env s)) then None
  else Some (exec (ev <- new_event [CbStop] ;;
                   schedule ev URGENT (at_ - now (env s))) s).

(** [env.run], second half: [while True: self.step()].  [None] when the
    fuel runs out before the loop is left. *)
Fixpoint run_loop (fuel : nat) (s : State) : option State :=
  match fuel with
  | O => None
  | S f =>
      match step s with
      | (Continue, s') => run_loop f s'
      | (_, s') => Some s'
      end
  end.

Definition run (at_ : Q) (fuel : nat) (s : State) : option State :=
  match run_start at_ s with
  | None => None
  | Some s' => run_loop fuel s'
  end.

(** *** The script *)

Definition no_lists : Lists :=
  {| arrival_times := []; treated_times := [];
     left_without_treatment_times := []; wait_times := [];
     queue_lengths := []; time_stamps := [] |}.

(** The state after [random.seed(seed)], [simpy.Environment()] and
    [hospital = Hospital(env, NUM_DOCTORS, TREATMENT_TIME)]. *)
Definition fresh (seed : Z) : State :=
  {| env := {| now := 0; heap := []; eid := 0 |};
     events := [];
     procs := [];
     hospitals := [Hospital_init NUM_DOCTORS TREATMENT_TIME];
     lists := no_lists;
     random_state := rng_seed R seed;
     log := [] |}.

(** ... and after [env.process(setup(env, NUM_DOCTORS, ...))]. *)
Definition boot (seed : Z) : State :=
  exec (process (SetupStart NUM_DOCTORS TREATMENT_TIME T_INTER)) (fresh seed).

(** [env.process(add_doctors(env, hospital, num_doctors_to_add))] *)
Definition spawn_add_doctors (h num_doctors_to_add : nat) (s : State) : State :=
  exec (process (AddDoctors h num_doctors_to_add)) s.

(** The script up to the results: run to [SIM_TIME], start [add_doctors]
    on the module-level hospital, run to 300. *)
Definition main (fuel1 fuel2 : nat) : option State :=
  match run (inject_Z SIM_TIME) fuel1 (boot RANDOM_SEED) with
  | None => None
  | Some s1 => run 300 fuel2 (spawn_add_doctors hospital_ref 2 s1)
  end.

(** *** Executions, whichever way the heap is laid out

    [heapq.heappop] promises the least entry of the heap, not where in
    the list it sits.  The relations below describe the event loop from
    that promise alone: a step may fire any entry that is in the heap and
    has none before it. *)

Definition is_next (e : Entry) (l : list Entry) : Prop :=
  In e l /\ forall e', In e' l -> key_lt e' e = false.

Inductive next_step (s : State) : Outcome * State -> Prop :=
| next_empty : heap (env s) = [] -> next_step s (EmptySchedule, s)
| next_fire e :
    is_next e (heap (env s)) ->
    next_step s (fire e (heap_remove (e_eid e) (heap (env s))) s).

(** [while True: self.step()], left by [StopSimulation] or
    [EmptySchedule]. *)
Inductive run_to : State -> State -> Prop :=
| run_continue s s1 s' :
    next_step s (Continue, s1) -> run_to s1 s' -> run_to s s'
| run_stop s s' : next_step s (Stop, s') -> run_to s s'
| run_empty s s' : next_step s (EmptySchedule, s') -> run_to s s'.

(** An execution of the script from [random.seed(seed)] to the results. *)
Inductive execution (seed : Z) : State -> Prop :=
| execution_intro s0 s1 s2 s :
    run_start (inject_Z SIM_TIME) (boot seed) = Some s0 ->
    run_to s0 s1 ->
    run_start 300 (spawn_add_doctors hospital_ref 2 s1) = Some s2 ->
    run_to s2 s ->
    execution seed s.

(** *** Results *)

Definition total_patients (s : State) : nat := length (arrival_times (lists s)).
Definition treated_count (s : State) : nat := length (treated_times (lists s)).
Definition left_without_treatment_count (s : State) : nat :=
  length (left_without_treatment_times (lists s)).

Definition Qsum (l : list Q) : Q := fold_left Qplus l 0.
Definition Zsum (l : list Z) : Z := fold_left Z.add l 0%Z.

(** A float that may be [float('inf')]. *)
Inductive PyFloat : Type := Finite (q : Q) | Infinity.

Definition average_wait_time (s : State) : PyFloat :=
  match wait_times (lists s) with
  | [] => Infinity
  | w => Finite (Qsum w / inject_Z (Z.of_nat (length w)))
  end.


Definition average_queue_length (s : State) : Q :=
  match queue_lengths (lists s) with
  | [] => 0
  | l => inject_Z (Zsum l) / inject_Z (Z.of_nat (length l))
  end.

End Simulation.

(** ** What the scripts compute after the run

    The percentage both scripts print and the data of their plots. *)

Section Plots.

Local Open Scope nat_scope.

Variable R : Random.

(** [range(start, stop, step)] for a positive [step]. *)
Definition py_range (start stop step : Z) : list Z :=
  map (fun k => (start + Z.of_nat k * step)%Z)
    (seq 0 (Z.to_nat ((stop - start + step - 1) / step))).

(** uniform.py: [time_bins = list(range(0, SIM_TIME + 1, 10))] *)
Definition time_bins : list Z := py_range 0 (SIM_TIME + 1) 10.

(** [sum(1 for t in l if t < tb)] *)
Definition count_before (l : list Q) (tb : Z) : nat :=
  length (filter (fun t => Qlt_bool t (inject_Z tb)) l).

(** [[0] + [sum(1 for t in l if t < tb) for tb in time_bins[1:]]] *)
Definition counts_per_bin (l : list Q) : list nat :=
  0 :: map (count_before l) (tl time_bins).

Definition arrival_counts (s : State R) : list nat :=
  counts_per_bin (arrival_times (lists s)).
Definition treated_counts (s : State R) : list nat :=
  counts_per_bin (treated_times (lists s)).
Definition left_counts (s : State R) : list nat :=
  counts_per_bin (left_without_treatment_times (lists s)).

(** DTA1.py: [sorted(set(l))], the distinct values of [l] in increasing
    order; of equal values the first one is kept. *)
Fixpoint insert_time (t : Q) (l : list Q) : list Q :=
  match l with
  | [] => [t]
  | x :: l' =>
      match (t ?= x)%Q with
      | Lt => t :: l
      | Eq => l
      | Gt => x :: insert_time t l'
      end
  end.

Definition sorted_set (l : list Q) : list Q :=
  fold_left (fun acc t => insert_time t acc) l [].

Definition time_points (s : State R) : list Q :=
  sorted_set (arrival_times (lists s) ++ treated_times (lists s)
              ++ left_without_treatment_times (lists s)).

(** [sum(1 for t in l if t <= time)] *)
Definition count_upto (l : list Q) (time : Q) : nat :=
  length (filter (fun t => Qle_bool t time) l).

Definition cumulative_arrivals (s : State R) : list nat :=
  map (count_upto (arrival_times (lists s))) (time_points s).
Definition cumulative_treated (s : State R) : list nat :=
  map (count_upto (treated_times (lists s))) (time_points s).
Definition cumulative_left (s : State R) : list nat :=
  map (count_upto (left_without_treatment_times (lists s))) (time_points s).

(** [(treated_count / total_patients) * 100], the percentage both scripts
    print; [None] is [ZeroDivisionError]. *)
Definition percentage_treated (s : State R) : option Q :=
  match total_patients s with
  | O => None
  | S _ =>
      Some (inject_Z (Z.of_nat (treated_count s))
            / inject_Z (Z.of_nat (total_patients s)) * 100)%Q
  end.

End Plots.

(** * Properties, stated *)

(** ** The resource *)

Module ResourceSpec.
Import Resource.
Local Open Scope nat_scope.

(** The capacity invariant of a resource: [0 <= count <= capacity]. *)
Definition ok (r : t) : Prop := 0 <= count r /\ count r <= capacity r.

(** The calls the scripts make on a resource. *)
Inductive op : Type :=
| Request (ev : nat)
| Release (req : nat)
| TriggerPut.

Definition apply (o : op) (r : t) : t :=
  match o with
  | Request ev => fst (request ev r)
  | Release req => release req r
  | TriggerPut => fst (trigger_put r)
  end.

Definition apply_all (ops : list op) (r : t) : t :=
  fold_left (fun r o => apply o r) ops r.

(** Calls that may grant a request. *)
Definition grants (o : op) : nat :=
  match o with
  | Release _ => 0
  | _ => 1
  end.

Definition grants_all (ops : list op) : nat :=
  fold_right (fun o n => grants o + n) 0 ops.

(** Request numbers used by the calls lie in [[lo, hi)]. *)
Definition fresh_op (lo hi : nat) (o : op) : Prop :=
  match o with
  | Request ev => lo <= ev < hi
  | _ => True
  end.


(** All request numbers of a resource are below [n], none waits twice. *)
Definition bounded (n : nat) (r : t) : Prop :=
  (forall x, In x (users r) \/ In x (put_queue r) -> x < n)
  /\ NoDup (put_queue r).

(** One move of the queue: at most one request leaves, from the head, and
    requests numbered from [lo] on join at the tail. *)
Definition queue_move (lo : nat) (r r' : t) : Prop :=
  exists d new,
    d <= 1
    /\ put_queue r' = skipn d (put_queue r) ++ new
    /\ (forall x, In x new -> lo <= x)
    /\ NoDup new.

End ResourceSpec.

(** ** Runs *)

Section Runs.

Local Open Scope nat_scope.
Import ResourceSpec.

Variable R : Random.
Variable script : Script.

(** The doctor resource of the hospital [h]. *)
Definition doctor_at (h : nat) (s : State R) : Resource.t :=
  doctor (nth h (hospitals s) (Hospital_init 0 0)).

(** The states a run goes through after [s0]: the event loop takes a
    step, the script calls [env.run(until=...)], or it starts
    [add_doctors] on some hospital. *)
Inductive reach_from (s0 : State R) : State R -> Prop :=
| reach_refl : reach_from s0 s0
| reach_step s : reach_from s0 s -> reach_from s0 (snd (step script s))
| reach_run at_ s s' :
    reach_from s0 s -> run_start at_ s = Some s' -> reach_from s0 s'
| reach_add_doctors h k s :
    reach_from s0 s -> h < length (hospitals s) ->
    reach_from s0 (spawn_add_doctors h k s).

(** The states of the runs of the script, for any seed. *)
Definition reach (s : State R) : Prop :=
  exists seed, reach_from (boot R seed) s.

(** The state after [n] more steps of the event loop. *)
Fixpoint steps (n : nat) (s : State R) : State R :=
  match n with
  | O => s
  | S n' => steps n' (snd (step script s))
  end.

(** *** What an action does to the resources *)

(** [r'] arises from [r] by calls of which at most [n] may grant, with
    new requests numbered in [[lo, hi)]. *)
Definition follows (n lo hi : nat) (r r' : Resource.t) : Prop :=
  exists ops,
    r' = apply_all ops r /\ grants_all ops <= n /\ Forall (fresh_op lo hi) ops.

Record ext (n : nat) (s s' : State R) : Prop := {
  ext_events : length (events s) <= length (events s');
  ext_hospitals : length (hospitals s) <= length (hospitals s');
  ext_old : forall h, h < length (hospitals s) ->
    follows n (length (events s)) (length (events s'))
      (doctor_at h s) (doctor_at h s');
  ext_new : forall h, length (hospitals s) <= h < length (hospitals s') ->
    exists cap,
      follows n (length (events s)) (length (events s'))
        (Resource.init cap) (doctor_at h s')
}.

Definition sat_ext {A : Type} (n : nat) (m : M R A) : Prop :=
  forall s, ext n s (exec m s).

(** An action keeps a property of the state. *)
Definition preserves {A : Type} (P : State R -> Prop) (m : M R A) : Prop :=
  forall s, P s -> P (exec m s).

(** *** Invariants of the kernel *)

(** Entries of the heap have distinct numbers, all handed out already. *)
Definition heap_ok_env (e : Environment) : Prop :=
  NoDup (map e_eid (heap e)) /\ Forall (fun x => e_eid x < eid e) (heap e).

Definition heap_ok (s : State R) : Prop := heap_ok_env (env s).

(** Callbacks that run code of the scripts or grant a request. *)
Definition active (cb : Callback) : nat :=
  match cb with
  | CbResume _ | CbTriggerPut _ => 1
  | _ => 0
  end.

Definition active_all (cbs : list Callback) : nat :=
  fold_right (fun cb n => active cb + n) 0 cbs.

(** Every pending event has at most one such callback. *)
Definition event_ok (o : option (list Callback)) : Prop :=
  match o with
  | Some cbs => active_all cbs <= 1
  | None => True
  end.

Definition events_ok (s : State R) : Prop := Forall event_ok (events s).

(** Request numbers are numbers of existing events; no request waits
    twice. *)
Definition requests_ok (s : State R) : Prop :=
  forall h, h < length (hospitals s) ->
    bounded (length (events s)) (doctor_at h s).

(** Every resource respects its capacity. *)
Definition capacity_ok (s : State R) : Prop :=
  forall h, h < length (hospitals s) -> ok (doctor_at h s).

(** The invariant of the kernel. *)
Definition inv (s : State R) : Prop :=
  events_ok s /\ heap_ok s /\ requests_ok s /\ capacity_ok s.

(** *** Patients between arrival and departure *)

(** A patient that has arrived and not yet left, by where it stands. *)
Definition arrived_w (p : Pc) : nat :=
  match p with
  | PatientPut _ _ _ | PatientRequest _ _ _ _ | PatientTreat _ _ _ => 1
  | _ => 0
  end.

(** A patient that holds a doctor and waits for its treatment to end. *)
Definition in_treatment_w (p : Pc) : nat :=
  match p with
  | PatientTreat _ _ _ => 1
  | _ => 0
  end.

Definition total (w : Pc -> nat) (l : list Process) : nat :=
  fold_right (fun p n => w (pc p) + n) 0 l.

Definition in_hospital (s : State R) : nat := total arrived_w (procs s).
Definition in_treatment (s : State R) : nat := total in_treatment_w (procs s).

(** A patient process that has not reached the end of [patient]. *)
Definition patient_alive (p : Pc) : bool :=
  match p with
  | PatientStart _ _ | PatientPut _ _ _ | PatientRequest _ _ _ _
  | PatientTreat _ _ _ => true
  | _ => false
  end.

(** The timestamps of the log entries of one kind. *)
Definition arrival_log (l : list LogEvent) : list Q :=
  flat_map (fun e => match e with Arrived _ t => [t] | _ => [] end) l.

Definition grant_log (l : list LogEvent) : list Q :=
  flat_map (fun e => match e with Granted _ t => [t] | _ => [] end) l.

Definition treated_log (l : list LogEvent) : list Q :=
  flat_map (fun e => match e with Treated _ t => [t] | _ => [] end) l.

Definition left_log (l : list LogEvent) : list Q :=
  flat_map (fun e => match e with LeftWithoutTreatment _ t => [t] | _ => [] end) l.

(** How the result lists relate to the log, to each other and to the
    processes. *)
Record stats_ok (s : State R) : Prop := {
  log_arrivals : arrival_times (lists s) = arrival_log (log s);
  log_treated : treated_times (lists s) = treated_log (log s);
  log_left : left_without_treatment_times (lists s) = left_log (log s);
  log_grants : length (wait_times (lists s)) = length (grant_log (log s));
  samples_count :
    length (queue_lengths (lists s)) =
    length (arrival_times (lists s)) + length (wait_times (lists s));
  arrivals_count :
    total_patients s =
    treated_count s + left_without_treatment_count s + in_hospital s;
  grants_count :
    length (wait_times (lists s)) =
    treated_count s + left_without_treatment_count s + in_treatment s
}.

(** *** Where the processes stand, and the store of names *)

(** Before [setup] has started there are only [add_doctors] processes
    besides it. *)
Definition idle (p : Pc) : Prop :=
  match p with
  | AddDoctors _ _ | Finished => True
  | _ => False
  end.

(** Once [setup] has started, every patient, every treatment and [setup]
    itself refer to the hospital [setup] created, the second object of the
    store. *)
Definition post_pc (p : Pc) : Prop :=
  match p with
  | SetupStart _ _ _ => False
  | PatientStart _ h | PatientPut _ h _ | PatientRequest _ h _ _
  | PatientTreat _ h _ | TreatStart h _ | TreatWait h _
  | SetupLoop h _ _ => h = 1
  | AddDoctors _ _ | Finished => True
  end.

(** The samples of uniform.py read off the log: one at every arrival and
    one at every grant, each the number of arrivals logged before it,
    counted from [n]. *)
Fixpoint samples_from (n : nat) (l : list LogEvent) : list Z :=
  match l with
  | [] => []
  | Arrived _ _ :: l' => Z.of_nat n :: samples_from (S n) l'
  | Granted _ _ :: l' => Z.of_nat n :: samples_from n l'
  | _ :: l' => samples_from n l'
  end.

Definition before_setup (s : State R) : Prop :=
  length (hospitals s) = 1 /\ lists s = no_lists /\ log s = []
  /\ exists pr rest,
       procs s = pr :: rest
       /\ (exists tt ti, pc pr = SetupStart NUM_DOCTORS tt ti)
       /\ Forall (fun p => idle (pc p)) rest.

(** uniform.py: the store holds one name per arrival, and the samples are
    those read off the log. *)
Definition store_ok (s : State R) : Prop :=
  len_items (nth 1 (hospitals s) (Hospital_init 0 0))
  = Z.of_nat (length (arrival_times (lists s)))
  /\ queue_lengths (lists s) = samples_from 0 (log s).

Definition after_setup (s : State R) : Prop :=
  length (hospitals s) = 2
  /\ Forall (fun p => post_pc (pc p)) (procs s)
  /\ Resource.capacity (doctor_at 1 s) = NUM_DOCTORS
  /\ (script = Uniform -> store_ok s).

Definition placed (s : State R) : Prop := before_setup s \/ after_setup s.

Definition sound (s : State R) : Prop := stats_ok s /\ placed s.

(** Requests never disappear from the pool. *)
Definition grows (r r' : Resource.t) : Prop :=
  forall x, In x (Resource.users r ++ Resource.put_queue r) ->
            In x (Resource.users r' ++ Resource.put_queue r').

(** The names in the store of the hospital [h] (uniform.py). *)
Definition items_at (h : nat) (s : State R) : list nat :=
  Store.items (queue (nth h (hospitals s) (Hospital_init 0 0))).

(** [l'] is [l] with more elements at its end. *)
Definition extends (l l' : list nat) : Prop := exists k, l' = l ++ k.


End Runs.

Arguments events_ok {R} s.
Arguments heap_ok {R} s.
Arguments requests_ok {R} s.

(** ** Means *)


(** ** Time, the log, the stop event *)

Section RunInvariants.

Local Open Scope nat_scope.
Import ResourceSpec.

Variable R : Random.
Variable script : Script.

(** The time a log entry was recorded at. *)
Definition log_time (e : LogEvent) : Q :=
  match e with
  | Arrived _ t | Granted _ t | Treated _ t | LeftWithoutTreatment _ t => t
  end.

(** The arrival time a suspended patient remembers lies in the past. *)
Definition pc_time_ok (t : Q) (p : Pc) : Prop :=
  match p with
  | PatientPut _ _ a | PatientRequest _ _ a _ => (0 <= a /\ a <= t)%Q
  | _ => True
  end.

(** [setup] runs with the constants of the script. *)
Definition pc_params_ok (p : Pc) : Prop :=
  match p with
  | SetupStart _ tr ti => tr = TREATMENT_TIME /\ ti = T_INTER
  | SetupLoop _ ti _ => ti = T_INTER
  | _ => True
  end.

(** The clock and everything that carries a time. *)
Record time_ok (s : State R) : Prop := {
  now_nonneg : (0 <= now (env s))%Q;
  heap_future : Forall (fun e => (now (env s) <= e_time e)%Q) (heap (env s));
  procs_past : Forall (fun p => pc_time_ok (now (env s)) (pc p)) (procs s);
  log_past :
    Forall (fun e => (0 <= log_time e /\ log_time e <= now (env s))%Q) (log s);
  log_sorted : StronglySorted Qle (map log_time (log s));
  waits_past :
    Forall (fun w => (0 <= w /\ w <= now (env s))%Q) (wait_times (lists s));
  params_hospitals :
    Forall (fun H => treatment_time H = TREATMENT_TIME) (hospitals s);
  params_procs : Forall (fun p => pc_params_ok (pc p)) (procs s)
}.

(** The invariants of the placement and of the clock together. *)
Definition timed (s : State R) : Prop := sound script s /\ time_ok s.

Definition is_arrival (e : LogEvent) : bool :=
  match e with Arrived _ _ => true | _ => false end.
Definition is_grant (e : LogEvent) : bool :=
  match e with Granted _ _ => true | _ => false end.
Definition is_treated (e : LogEvent) : bool :=
  match e with Treated _ _ => true | _ => false end.
Definition is_left (e : LogEvent) : bool :=
  match e with LeftWithoutTreatment _ _ => true | _ => false end.

(** A list of times is in order and lies between 0 and [t]. *)
Definition chronological (t : Q) (l : list Q) : Prop :=
  StronglySorted Qle l /\ Forall (fun x => (0 <= x /\ x <= t)%Q) l.

(** A set of times closed downwards. *)
Definition downward (p : Q -> bool) : Prop :=
  forall t t', (t <= t')%Q -> p t' = true -> p t = true.

(** [x] occurs in [l], up to equality of numbers. *)
Definition occurs (x : Q) (l : list Q) : Prop := exists y, In y l /\ (y == x)%Q.

(** Patients that have left, treated or not, by the log. *)
Definition departures (l : list LogEvent) : nat :=
  length (treated_log l) + length (left_log l).

(** At every point of the log no more patients have been granted a doctor
    than have arrived, and no more have left than have been granted. *)
Definition balanced (l : list LogEvent) : Prop :=
  forall k,
    departures (firstn k l) <= length (grant_log (firstn k l))
    /\ length (grant_log (firstn k l)) <= length (arrival_log (firstn k l)).

(** Arrivals minus grants. *)
Definition net (l : list LogEvent) : Z :=
  (Z.of_nat (length (arrival_log l)) - Z.of_nat (length (grant_log l)))%Z.

(** The samples of DTA1.py read off the log: the counter goes up at an
    arrival and down at a grant, and is recorded after either. *)
Fixpoint dta_samples (n : Z) (l : list LogEvent) : list Z :=
  match l with
  | [] => []
  | Arrived _ _ :: l' => (n + 1)%Z :: dta_samples (n + 1) l'
  | Granted _ _ :: l' => (n - 1)%Z :: dta_samples (n - 1) l'
  | _ :: l' => dta_samples n l'
  end.

(** The times of the arrivals and grants of the log. *)
Definition stamp_log (l : list LogEvent) : list Q :=
  flat_map (fun e => match e with
                     | Arrived _ t | Granted _ t => [t]
                     | _ => []
                     end) l.

Record log_ok (s : State R) : Prop := {
  log_balanced : balanced (log s);
  stamps_ok :
    time_stamps (lists s) =
    match script with DTA1 => stamp_log (log s) | Uniform => [] end;
  counter_ok :
    queue_length (nth 1 (hospitals s) (Hospital_init 0 0)) =
    match script with DTA1 => net (log s) | Uniform => 0%Z end;
  counter_ref :
    queue_length (nth hospital_ref (hospitals s) (Hospital_init 0 0)) = 0%Z;
  dta_samples_ok :
    script = DTA1 -> queue_lengths (lists s) = dta_samples 0 (log s)
}.

(** The placement, the statistics and the log together. *)
Definition logged (s : State R) : Prop := sound script s /\ log_ok s.

(** A callback a segment of the scripts may put on a new event: never the
    one that stops the loop; a [_resume] is that of the running process or
    of a process created by the segment. *)
Definition cb_new_ok (pid n : nat) (cb : Callback) : Prop :=
  match cb with
  | CbStop => False
  | CbResume p => p = pid \/ n <= p
  | _ => True
  end.

Definition event_new_ok (pid n : nat) (o : option (list Callback)) : Prop :=
  exists cbs, o = Some cbs /\ Forall (cb_new_ok pid n) cbs.

(** While [env.run(until=at_)] runs: the stop event [ev0] is pending and
    scheduled at [at_], it is the only event that stops the loop, and it is
    neither a request nor a process. *)
Record armed (at_ : Q) (ev0 : nat) (s : State R) : Prop := {
  stop_bound : ev0 < length (events s);
  stop_pending : callbacks_of ev0 (events s) = [CbStop];
  stop_unique : forall ev, In CbStop (callbacks_of ev (events s)) -> ev = ev0;
  stop_scheduled : exists e, In e (heap (env s)) /\ e_event e = ev0;
  stop_time :
    Forall (fun e => e_event e = ev0 -> (e_time e == at_)%Q) (heap (env s));
  stop_no_request :
    forall h, ~ In ev0 (Resource.put_queue (doctor_at h s));
  stop_no_process : Forall (fun p => proc_event p <> ev0) (procs s)
}.

(** Outside [env.run] no event stops the loop. *)
Definition no_stop (s : State R) : Prop :=
  forall ev, ~ In CbStop (callbacks_of ev (events s)).

(** Where the event of a heap entry pushed by a segment comes from: it is
    new, the process itself, or a request that was waiting. *)
Definition pushed_ok (s s' : State R) (pr : Process) (e : Entry) : Prop :=
  length (events s) <= e_event e < length (events s')
  \/ e_event e = proc_event pr
  \/ exists h, In (e_event e) (Resource.put_queue (doctor_at h s)).

(** The state between popping an entry and calling its callbacks. *)
Definition popped (e : Entry) (s : State R) : State R :=
  set_events (list_upd (e_event e) (fun _ => None) (events s))
    (set_env {| now := e_time e;
                heap := heap_remove (e_eid e) (heap (env s));
                eid := eid (env s) |} s).

(** Heap entries and processes refer to events that exist. *)
Definition refs_ok (s : State R) : Prop :=
  Forall (fun e => e_event e < length (events s)) (heap (env s))
  /\ Forall (fun p => proc_event p < length (events s)) (procs s).

(** The draw of [patient] that decides between treatment and leaving. *)
Definition treat_drawn (s : State R) : bool :=
  Qlt_bool (fst (rng_random R (random_state s))) TREAT_PROBABILITY.

(** What a call does to the resource of the hospital [h'], when it is
    made on the hospital [h] of a store of [hs] hospitals. *)
Definition res_after (hs : nat) (rop : option (nat * op)) (h' : nat)
    (r : Resource.t) : Resource.t :=
  match rop with
  | Some (h, o) => if (h' =? h) && (h' <? hs) then apply o r else r
  | None => r
  end.

(** A process created by a segment: its event and its [Initialize] event
    are the next two events. *)
Fixpoint new_procs (ev : nat) (pcs : list Pc) : list Process :=
  match pcs with
  | [] => []
  | p :: pcs' => {| pc := p; proc_event := ev |} :: new_procs (S (S ev)) pcs'
  end.

(** The events and callbacks [env.process] creates for the processes
    numbered from [n] on. *)
Fixpoint new_proc_events (n : nat) (pcs : list Pc)
    : list (option (list Callback)) :=
  match pcs with
  | [] => []
  | _ :: pcs' => Some [] :: Some [CbResume n] :: new_proc_events (S n) pcs'
  end.

(** ... and the events of the heap entries it pushes. *)
Fixpoint new_proc_inits (ev : nat) (pcs : list Pc) : list nat :=
  match pcs with
  | [] => []
  | _ :: pcs' => S ev :: new_proc_inits (S (S ev)) pcs'
  end.

(** The effect of one segment, read off [segment]: where it leaves the
    process, the processes it creates, its call on a resource, the events
    it creates with their callbacks, and the events it schedules, in
    order. *)
Record Effect : Type := {
  eff_pc : Pc;
  eff_news : list Pc;
  eff_rop : option (nat * op);
  eff_events : list (option (list Callback));
  eff_pushed : list nat
}.

Definition granted_by (h ev : nat) (s : State R) : list nat :=
  match snd (Resource.request ev (doctor_at h s)) with
  | Some x => [x]
  | None => []
  end.

Definition effect (pid : nat) (pr : Process) (s : State R) : Effect :=
  let evs := length (events s) in
  let n := length (procs s) in
  let request name h a :=
    {| eff_pc := PatientRequest name h a evs; eff_news := [];
       eff_rop := Some (h, Request evs);
       eff_events := [Some [CbTriggerGet h; CbResume pid]];
       eff_pushed := granted_by h evs s |} in
  let leave h req :=
    {| eff_pc := Finished; eff_news := [];
       eff_rop := Some (h, Release req);
       eff_events := [Some [CbTriggerPut h]];
       eff_pushed := [evs; proc_event pr] |} in
  let done :=
    {| eff_pc := Finished; eff_news := []; eff_rop := None;
       eff_events := []; eff_pushed := [proc_event pr] |} in
  let setup next news :=
    {| eff_pc := next; eff_news := news; eff_rop := None;
       eff_events := new_proc_events n news ++ [Some [CbResume pid]];
       eff_pushed := new_proc_inits evs news ++ [evs + 2 * length news] |} in
  match pc pr with
  | PatientStart name h =>
      match script with
      | DTA1 => request name h (now (env s))
      | Uniform =>
          {| eff_pc := PatientPut name h (now (env s)); eff_news := [];
             eff_rop := None;
             eff_events := [Some [CbStoreTriggerGet h]; Some [CbResume pid]];
             eff_pushed := [evs; S evs] |}
      end
  | PatientPut name h a => request name h a
  | PatientRequest name h a req =>
      if treat_drawn s
      then {| eff_pc := PatientTreat name h req;
              eff_news := [TreatStart h name]; eff_rop := None;
              eff_events := [Some [CbResume pid]; Some [CbResume n]];
              eff_pushed := [S evs] |}
      else leave h req
  | PatientTreat name h req => leave h req
  | TreatStart h p =>
      {| eff_pc := TreatWait h p; eff_news := []; eff_rop := None;
         eff_events := [Some [CbResume pid]]; eff_pushed := [evs] |}
  | TreatWait h p => done
  | SetupStart nd tr ti =>
      setup (SetupLoop (length (hospitals s)) ti (S (initial_patients script)))
        (map (fun i => PatientStart i (length (hospitals s)))
           (seq 1 (initial_patients script)))
  | SetupLoop hosp ti i =>
      setup (SetupLoop hosp ti (S i)) [PatientStart i hosp]
  | AddDoctors h (S k) =>
      {| eff_pc := AddDoctors h k; eff_news := [];
         eff_rop := Some (h, Request evs);
         eff_events := [Some [CbTriggerGet h]; Some [CbResume pid]];
         eff_pushed := granted_by h evs s ++ [S evs] |}
  | AddDoctors h O => done
  | Finished =>
      {| eff_pc := Finished; eff_news := []; eff_rop := None;
         eff_events := []; eff_pushed := [] |}
  end.

(** The request a patient holds or waits for. *)
Definition claim (p : Pc) : list nat :=
  match p with
  | PatientRequest _ _ _ req | PatientTreat _ _ req => [req]
  | _ => []
  end.

(** A request that waits: it sits in no other queue than that of its
    hospital, it is not scheduled, and its patient is resumed by it. *)
Definition parked (pid h req : nat) (s : State R) : Prop :=
  (forall h', In req (Resource.put_queue (doctor_at h' s)) -> h' = h)
  /\ ~ In req (map e_event (heap (env s)))
  /\ In (CbResume pid) (callbacks_of req (events s)).

(** How requests, processes and callbacks are tied together, while the
    callbacks [cbs] of the popped event remain to be called. *)
Record tied (cbs : list Callback) (s : State R) : Prop := {
  tied_requests : requests_ok s;
  tied_refs : refs_ok s;
  tied_active : active_all cbs <= 1;
  claims_bounded : forall pr r,
    In pr (procs s) -> In r (claim (pc pr)) -> r < length (events s);
  claims_distinct : forall p q pr pr' r,
    nth_error (procs s) p = Some pr -> nth_error (procs s) q = Some pr' ->
    In r (claim (pc pr)) -> In r (claim (pc pr')) -> p = q;
  claims_events : forall pr pr',
    In pr (procs s) -> In pr' (procs s) ->
    ~ In (proc_event pr) (claim (pc pr'));
  treated_hold : forall pr n h req,
    In pr (procs s) -> pc pr = PatientTreat n h req ->
    In req (Resource.users (doctor_at h s));
  waiting_tied : forall pid pr n h a req,
    nth_error (procs s) pid = Some pr -> pc pr = PatientRequest n h a req ->
    In req (Resource.users (doctor_at h s))
    \/ (~ In (CbResume pid) cbs /\ parked pid h req s);
  resumes_free : forall p ev,
    In (CbResume p) cbs -> ~ In (CbResume p) (callbacks_of ev (events s));
  resumes_unique : forall p ev ev',
    In (CbResume p) (callbacks_of ev (events s)) ->
    In (CbResume p) (callbacks_of ev' (events s)) -> ev = ev';
  resumes_bounded : forall p,
    In (CbResume p) cbs
    \/ (exists ev, In (CbResume p) (callbacks_of ev (events s))) ->
    p < length (procs s)
}.

(** The processes resumed by the events [evs], in order. *)
Definition resumes (cbs : list Callback) : list nat :=
  flat_map (fun cb => match cb with CbResume p => [p] | _ => [] end) cbs.

Definition pending_resumes (evs : list (option (list Callback))) : list nat :=
  flat_map (fun o => match o with Some cbs => resumes cbs | None => [] end) evs.

(** The requests of the patients in treatment. *)
Definition treated_requests (l : list Process) : list nat :=
  flat_map (fun p => match pc p with PatientTreat _ _ r => [r] | _ => [] end) l.

Definition pushed_own (s : State R) (pr : Process) (l : list nat) : Prop :=
  Forall (fun x => length (events s) <= x \/ x = proc_event pr) l.

Definition quiet (pid : nat) (pr : Process) (s : State R) (e : Effect) : Prop :=
  eff_rop e = None
  /\ claim (eff_pc e) = claim (pc pr)
  /\ (forall n h req, eff_pc e = PatientTreat n h req ->
        exists a, pc pr = PatientRequest n h a req)
  /\ (forall n h a req, eff_pc e <> PatientRequest n h a req)
  /\ pushed_own s pr (eff_pushed e).

Definition releasing (pid : nat) (pr : Process) (s : State R) (e : Effect)
    (h req : nat) : Prop :=
  eff_rop e = Some (h, Release req)
  /\ In req (claim (pc pr))
  /\ eff_pc e = Finished
  /\ pushed_own s pr (eff_pushed e).

Definition requesting (pid : nat) (pr : Process) (s : State R) (e : Effect)
    (h : nat) : Prop :=
  eff_rop e = Some (h, Request (length (events s)))
  /\ claim (pc pr) = []
  /\ ((exists n a,
         eff_pc e = PatientRequest n h a (length (events s))
         /\ In (CbResume pid) (callbacks_of 0 (eff_events e)))
      \/ claim (eff_pc e) = [])
  /\ eff_events e <> []
  /\ eff_news e = []
  /\ exists rest,
       eff_pushed e = granted_by h (length (events s)) s ++ rest
       /\ Forall (fun x => length (events s) < x) rest.

(** The arrivals a process still owes among the patients [setup] starts
    with: all of them before [setup] has started, one for each of them
    that has not started. *)
Definition due (p : Pc) : nat :=
  match p with
  | SetupStart _ _ _ => initial_patients script
  | PatientStart name _ => if name <=? initial_patients script then 1 else 0
  | _ => 0
  end.

(** The arrivals a segment records. *)
Definition arrives (p : Pc) : nat :=
  match p with
  | PatientStart _ _ => 1
  | _ => 0
  end.

(** A process that owes an arrival is about to be resumed, at time 0: by
    an entry of the heap or by one of the callbacks [cbs] that remain to be
    called. *)
Definition resumed_at_0 (cbs : list Callback) (s : State R) (pid : nat) : Prop :=
  (now (env s) == 0)%Q
  /\ ((exists e, In e (heap (env s)) /\ (e_time e == 0)%Q
                 /\ In (CbResume pid) (callbacks_of (e_event e) (events s)))
      \/ In (CbResume pid) cbs).

Record early (cbs : list Callback) (s : State R) : Prop := {
  early_count :
    initial_patients script <= total_patients s + total due (procs s);
  early_due : forall pid pr,
    nth_error (procs s) pid = Some pr -> 0 < due (pc pr) ->
    resumed_at_0 cbs s pid;
  early_later : forall pr h ti i,
    In pr (procs s) -> pc pr = SetupLoop h ti i -> initial_patients script < i;
  early_stop : forall ev p,
    In CbStop (callbacks_of ev (events s)) ->
    ~ In (CbResume p) (callbacks_of ev (events s));
  early_stop_now : forall p, In CbStop cbs -> ~ In (CbResume p) cbs
}.

(** A process that has not asked for a doctor yet and will. *)
Definition starter (p : Pc) : Prop :=
  match p with
  | SetupStart _ _ _ | PatientStart _ _ | PatientPut _ _ _ => True
  | _ => False
  end.

(** No doctor has been asked for. *)
Definition idle_all (s : State R) : Prop :=
  forall h, Resource.users (doctor_at h s) = []
            /\ Resource.put_queue (doctor_at h s) = [].

Definition no_add_doctors (s : State R) : Prop :=
  forall pr h k, In pr (procs s) -> pc pr <> AddDoctors h k.

(** On the way to the first grant: a wait time has been recorded; or, at
    time 0 and before [add_doctors], either no doctor has been asked for
    and a process that will ask is about to be resumed, or a patient that
    has asked is about to be resumed. *)
Definition first_grant (cbs : list Callback) (s : State R) : Prop :=
  wait_times (lists s) <> []
  \/ (no_add_doctors s
      /\ ((idle_all s
           /\ exists pid pr,
                nth_error (procs s) pid = Some pr /\ starter (pc pr)
                /\ resumed_at_0 cbs s pid)
          \/ (exists pid pr n h a req,
                nth_error (procs s) pid = Some pr
                /\ pc pr = PatientRequest n h a req
                /\ resumed_at_0 cbs s pid))).

(** [setup] and nothing else. *)
Definition is_setup (p : Pc) : Prop :=
  match p with
  | SetupStart _ _ _ | SetupLoop _ _ _ => True
  | _ => False
  end.

(** A patient started by the loop of [setup] that has not arrived yet
    (uniform.py: the names above 3). *)
Definition late (p : Pc) : nat :=
  match p with
  | PatientStart name _ => if initial_patients Uniform <? name then 1 else 0
  | _ => 0
  end.

(** The number of turns the loop of [setup] has made when its counter is
    [i]. *)
Definition loops (i : nat) : Z := Z.of_nat (i - S (initial_patients Uniform)).

(** uniform.py, while [setup] is in its loop with the counter at [i]: the
    loop made its last turn at time [L], between 5 and 9 minutes after the
    one before; its next turn is scheduled between 5 and 9 minutes after
    [L]; the patients started so far are [i - 1], of which at most the
    last has not arrived, and only as long as the clock stands at [L]. *)
Record pace (cbs : list Callback) (s : State R) (i : nat) (L : Q) : Prop := {
  pace_count : total_patients s + total arrives (procs s) = i - 1;
  pace_last :
    (inject_Z (5 * loops i) <= L /\ L <= inject_Z (9 * loops i)
     /\ L <= now (env s))%Q;
  pace_next_min : forall e,
    In e (heap (env s)) ->
    In (CbResume 0) (callbacks_of (e_event e) (events s)) ->
    (L + 5 <= e_time e)%Q;
  pace_now_min : In (CbResume 0) cbs -> (L + 5 <= now (env s))%Q;
  pace_next_max :
    (exists e, In e (heap (env s)) /\ (e_time e <= L + 9)%Q
               /\ In (CbResume 0) (callbacks_of (e_event e) (events s)))
    \/ (In (CbResume 0) cbs /\ (now (env s) <= L + 9)%Q);
  pace_late : total late (procs s) <= 1;
  pace_late_due : forall pid pr,
    nth_error (procs s) pid = Some pr -> 0 < late (pc pr) ->
    (now (env s) <= L)%Q
    /\ ((exists e, In e (heap (env s)) /\ (e_time e <= L)%Q
                   /\ In (CbResume pid) (callbacks_of (e_event e) (events s)))
        \/ In (CbResume pid) cbs)
}.

(** [setup] is the first process; the event it waits for is neither a
    request nor a process. *)
Record paced (cbs : list Callback) (s : State R) : Prop := {
  paced_setup : exists pr, nth_error (procs s) 0 = Some pr /\ is_setup (pc pr);
  paced_only : forall pid pr,
    nth_error (procs s) pid = Some pr -> is_setup (pc pr) -> pid = 0;
  paced_loop : forall pr h ti i,
    nth_error (procs s) 0 = Some pr -> pc pr = SetupLoop h ti i ->
    exists L, pace cbs s i L;
  paced_quiet : forall ev,
    In (CbResume 0) (callbacks_of ev (events s)) ->
    (forall h, ~ In ev (Resource.put_queue (doctor_at h s)))
    /\ Forall (fun p => proc_event p <> ev) (procs s)
}.

End RunInvariants.

(** * Properties, proved *)

(** ** The resource keeps its invariants *)

Module ResourceFacts.
Import Resource.
Export ResourceSpec.
Local Open Scope nat_scope.

Lemma length_list_remove x l : length (list_remove x l) <= length l.
Proof.
  induction l as [|y l IH]; simpl; [lia|].
  destruct (Nat.eqb x y); simpl; lia.
Qed.

Lemma In_list_remove x y l : In y (list_remove x l) -> In y l.
Proof.
  induction l as [|z l IH]; simpl; [tauto|].
  destruct (Nat.eqb x z); simpl; intuition.
Qed.

Lemma In_list_remove_neq x y l : x <> y -> In y l -> In y (list_remove x l).
Proof.
  intros Hxy. induction l as [|z l IH]; simpl; [tauto|].
  destruct (Nat.eqb_spec x z) as [->|Hne]; simpl; intuition congruence.
Qed.

Lemma ok_init cap : ok (init cap).
Proof. unfold ok, count; simpl; lia. Qed.

Lemma capacity_trigger_put r : capacity (fst (trigger_put r)) = capacity r.
Proof.
  unfold trigger_put. destruct (put_queue r); [reflexivity|].
  destruct (length (users r) <? capacity r); reflexivity.
Qed.

Lemma ok_trigger_put r : ok r -> ok (fst (trigger_put r)).
Proof.
  unfold ok, count, trigger_put. intros [_ H].
  destruct (put_queue r) as [|ev q]; simpl; [lia|].
  destruct (Nat.ltb_spec (length (users r)) (capacity r)); simpl;
    rewrite ?length_app; simpl; lia.
Qed.

Lemma capacity_apply o r : capacity (apply o r) = capacity r.
Proof.
  destruct o; simpl; [unfold request| |]; rewrite ?capacity_trigger_put;
    reflexivity.
Qed.

Lemma ok_apply o r : ok r -> ok (apply o r).
Proof.
  destruct o; simpl; intros H.
  - unfold request. apply ok_trigger_put. exact H.
  - unfold ok, count, release in *; simpl.
    pose proof (length_list_remove req (users r)). lia.
  - apply ok_trigger_put. exact H.
Qed.

Lemma apply_all_app ops1 ops2 r :
  apply_all (ops1 ++ ops2) r = apply_all ops2 (apply_all ops1 r).
Proof. unfold apply_all. apply fold_left_app. Qed.

Lemma capacity_apply_all ops r : capacity (apply_all ops r) = capacity r.
Proof.
  revert r. induction ops as [|o ops IH]; intros r; simpl; [reflexivity|].
  rewrite IH. apply capacity_apply.
Qed.

Lemma ok_apply_all ops r : ok r -> ok (apply_all ops r).
Proof.
  revert r. induction ops as [|o ops IH]; intros r H; simpl; [exact H|].
  apply IH, ok_apply, H.
Qed.

Lemma grants_all_app ops1 ops2 :
  grants_all (ops1 ++ ops2) = grants_all ops1 + grants_all ops2.
Proof. induction ops1; simpl; lia. Qed.

(** Releases leave the queue alone and only remove users. *)
Lemma apply_all_cons o ops r :
  apply_all (o :: ops) r = apply_all ops (apply o r).
Proof. reflexivity. Qed.

Lemma releases_only ops r :
  grants_all ops = 0 ->
  put_queue (apply_all ops r) = put_queue r
  /\ forall x, In x (users (apply_all ops r)) -> In x (users r).
Proof.
  revert r. induction ops as [|o ops IH]; intros r H.
  - simpl. auto.
  - rewrite apply_all_cons.
    destruct o; simpl in H; try lia.
    destruct (IH (apply (Release req) r) H) as [Hq Hu]. split.
    + rewrite Hq. reflexivity.
    + intros x Hx. apply Hu in Hx. simpl in Hx.
      eapply In_list_remove; eauto.
Qed.

Lemma bounded_weaken lo hi r : lo <= hi -> bounded lo r -> bounded hi r.
Proof.
  intros Hle [Hb Hn]. split; [|exact Hn].
  intros x Hx. apply Hb in Hx. lia.
Qed.

Lemma trigger_put_move lo r :
  bounded lo r ->
  bounded lo (fst (trigger_put r))
  /\ (put_queue (fst (trigger_put r)) = put_queue r
      \/ put_queue (fst (trigger_put r)) = skipn 1 (put_queue r)).
Proof.
  destruct r as [cap us q]. unfold bounded, trigger_put. simpl.
  intros [Hb Hn]. destruct q as [|ev q]; simpl; [auto|].
  destruct (length us <? cap); simpl; [|auto].
  split; [|right; reflexivity]. split.
  - intros x [Hx|Hx].
    + apply in_app_or in Hx. destruct Hx as [Hx|[<-|[]]];
        apply Hb; [left; exact Hx | right; left; reflexivity].
    + apply Hb. right. right. exact Hx.
  - inversion Hn; assumption.
Qed.

Ltac solve_move d new :=
  exists d, new; simpl; rewrite ?app_nil_r;
  repeat split;
  first [ lia | reflexivity
        | intros ? [<-|[]]; lia
        | intros ? []
        | repeat constructor; simpl; tauto ].

(** One call: the numbering stays sound and the queue makes one move. *)
Lemma apply_move lo hi o r :
  lo <= hi -> bounded lo r -> fresh_op lo hi o ->
  bounded hi (apply o r) /\ queue_move lo r (apply o r).
Proof.
  intros Hle Hbd Hf. destruct o as [ev|req|]; simpl in *.
  - (* request *)
    set (r1 := mk (capacity r) (users r) (put_queue r ++ [ev])).
    assert (Hb1 : bounded hi r1).
    { destruct Hbd as [Hb Hn]. split; simpl.
      - intros x [Hx|Hx].
        + assert (x < lo) by (apply Hb; left; exact Hx). lia.
        + apply in_app_or in Hx. destruct Hx as [Hx|[<-|[]]]; [|lia].
          assert (x < lo) by (apply Hb; right; exact Hx). lia.
      - apply NoDup_app; [exact Hn | repeat constructor; simpl; tauto |].
        intros x Hx [<-|[]].
        assert (ev < lo) by (apply Hb; right; exact Hx). lia. }
    unfold request. fold r1.
    destruct (trigger_put_move Hb1) as [Hb2 Hq]. split; [exact Hb2|].
    unfold queue_move. destruct Hq as [Hq|Hq]; rewrite Hq; subst r1; simpl.
    + solve_move 0 [ev].
    + destruct (put_queue r) as [|x q]; simpl.
      * solve_move 0 (@nil nat).
      * solve_move 1 [ev].
  - (* release *)
    split.
    + destruct Hbd as [Hb Hn]. split; simpl; [|exact Hn].
      intros x [Hx|Hx].
      * apply In_list_remove in Hx.
        assert (x < lo) by (apply Hb; left; exact Hx). lia.
      * assert (x < lo) by (apply Hb; right; exact Hx). lia.
    + solve_move 0 (@nil nat).
  - (* trigger_put *)
    destruct (trigger_put_move Hbd) as [Hb2 Hq].
    split; [eapply bounded_weaken; eauto|].
    unfold queue_move. destruct Hq as [Hq|Hq]; rewrite Hq.
    + solve_move 0 (@nil nat).
    + solve_move 1 (@nil nat).
Qed.

Lemma releases_bounded lo ops r :
  grants_all ops = 0 -> bounded lo r -> bounded lo (apply_all ops r).
Proof.
  intros H [Hb Hn]. destruct (releases_only ops r H) as [Hq Hu].
  split; [|rewrite Hq; exact Hn].
  intros x [Hx|Hx]; apply Hb; [left; auto | right; rewrite <- Hq; exact Hx].
Qed.

(** The calls of one event: at most one of them may grant. *)
Lemma apply_all_move lo hi ops r :
  lo <= hi -> bounded lo r -> Forall (fresh_op lo hi) ops ->
  grants_all ops <= 1 ->
  bounded hi (apply_all ops r) /\ queue_move lo r (apply_all ops r).
Proof.
  intros Hle. revert r.
  induction ops as [|o ops IH]; intros r Hbd Hf Hg.
  - simpl. split; [eapply bounded_weaken; eauto|].
    solve_move 0 (@nil nat).
  - rewrite apply_all_cons.
    inversion Hf as [|? ? Hfo Hfs]; subst.
    simpl in Hg.
    destruct (grants o) eqn:Hgo.
    + (* a release first *)
      destruct o; simpl in Hgo; try discriminate.
      assert (Hbd' : bounded lo (apply (Release req) r)).
      { destruct Hbd as [Hb Hn]. split; simpl; [|exact Hn].
        intros x [Hx|Hx]; apply Hb;
          [left; eapply In_list_remove; eauto | right; exact Hx]. }
      destruct (IH _ Hbd' Hfs) as [Hb2 Hm]; [lia|].
      split; [exact Hb2|]. exact Hm.
    + (* the granting call, then releases only *)
      assert (Hz : grants_all ops = 0) by lia.
      destruct (@apply_move lo hi o r Hle Hbd Hfo) as [Hb1 Hm1].
      split; [apply releases_bounded; assumption|].
      destruct (releases_only ops (apply o r) Hz) as [Hq _].
      destruct Hm1 as (d & new & Hd & Hq1 & Hnew & Hnd).
      exists d, new. rewrite Hq, Hq1. auto.
Qed.

End ResourceFacts.

(** ** The kernel keeps its invariants *)

Section KernelFacts.

Local Open Scope nat_scope.
Import ResourceFacts.

Variable R : Random.
Variable script : Script.

Lemma exec_bind A B (m : M R A) (k : A -> M R B) s :
  exec (bind m k) s = exec (k (fst (m s))) (exec m s).
Proof. reflexivity. Qed.

(** *** Lists updated at an index *)

Lemma length_list_upd A i (f : A -> A) l : length (list_upd i f l) = length l.
Proof.
  revert i. induction l as [|x l IH]; intros [|i]; simpl; auto.
Qed.

Lemma nth_list_upd A i j (f : A -> A) l d :
  nth j (list_upd i f l) d =
  if (j =? i) && (j <? length l) then f (nth j l d) else nth j l d.
Proof.
  revert i j. induction l as [|x l IH]; intros [|i] [|j]; simpl; auto.
  rewrite Bool.andb_false_r. reflexivity.
Qed.

Lemma Forall_list_upd A (P : A -> Prop) i (f : A -> A) l :
  Forall P l -> (forall x, P x -> P (f x)) -> Forall P (list_upd i f l).
Proof.
  intros H Hf. revert i.
  induction H as [|x l Hx Hl IH]; intros [|i]; simpl; auto.
Qed.

(** *** Composition of resource effects *)

Lemma follows_refl n lo hi r : follows n lo hi r r.
Proof. exists []. simpl. repeat split; [lia | constructor]. Qed.

Lemma fresh_op_weaken lo hi lo' hi' o :
  lo' <= lo -> hi <= hi' -> fresh_op lo hi o -> fresh_op lo' hi' o.
Proof. destruct o; simpl; auto. lia. Qed.

Lemma follows_weaken n n' lo hi lo' hi' r r' :
  n <= n' -> lo' <= lo -> hi <= hi' ->
  follows n lo hi r r' -> follows n' lo' hi' r r'.
Proof.
  intros Hn Hlo Hhi (ops & -> & Hg & Hf). exists ops.
  repeat split; [lia|].
  eapply Forall_impl; [|exact Hf].
  intros o. apply fresh_op_weaken; assumption.
Qed.

Lemma follows_trans n m lo mid hi r r1 r2 :
  lo <= mid -> mid <= hi ->
  follows n lo mid r r1 -> follows m mid hi r1 r2 ->
  follows (n + m) lo hi r r2.
Proof.
  intros H1 H2 (ops1 & -> & Hg1 & Hf1) (ops2 & -> & Hg2 & Hf2).
  exists (ops1 ++ ops2). rewrite apply_all_app, grants_all_app.
  repeat split; [lia|]. apply Forall_app. split.
  - eapply Forall_impl; [|exact Hf1].
    intros o. apply fresh_op_weaken; lia.
  - eapply Forall_impl; [|exact Hf2].
    intros o. apply fresh_op_weaken; lia.
Qed.

Lemma ext_refl (s : State R) : ext 0 s s.
Proof.
  constructor; try lia.
  intros h _. apply follows_refl.
Qed.

Lemma ext_trans n m (s s1 s2 : State R) :
  ext n s s1 -> ext m s1 s2 -> ext (n + m) s s2.
Proof.
  intros [E1 H1 O1 N1] [E2 H2 O2 N2]. constructor; try lia.
  - intros h Hh. eapply follows_trans; [exact E1 | exact E2 | auto |].
    apply O2. lia.
  - intros h Hh.
    destruct (Nat.lt_ge_cases h (length (hospitals s1))) as [Hlt|Hge].
    + destruct (N1 h) as [cap Hc]; [lia|]. exists cap.
      eapply follows_trans; [exact E1 | exact E2 | exact Hc |].
      apply O2. exact Hlt.
    + destruct (N2 h) as [cap Hc]; [lia|]. exists cap.
      eapply follows_weaken; [| | |exact Hc]; lia.
Qed.

Lemma ext_weaken n m (s s' : State R) : n <= m -> ext n s s' -> ext m s s'.
Proof.
  intros Hle [E H O N]. constructor; auto.
  - intros h Hh. eapply follows_weaken; [| | |apply O; exact Hh]; lia.
  - intros h Hh. destruct (N h Hh) as [cap Hc]. exists cap.
    eapply follows_weaken; [| | |exact Hc]; lia.
Qed.

(** An action that leaves the hospitals alone and forgets no event. *)
Lemma ext_frame (s s' : State R) :
  hospitals s' = hospitals s -> length (events s) <= length (events s') ->
  ext 0 s s'.
Proof.
  intros Hh He. constructor; auto.
  - rewrite Hh. lia.
  - intros h _. unfold doctor_at. rewrite Hh. apply follows_refl.
  - rewrite Hh. intros h Hlt. lia.
Qed.

Lemma sat_ext_bind0 A B (m : M R A) (k : A -> M R B) :
  sat_ext 0 m -> (forall a, sat_ext 0 (k a)) -> sat_ext 0 (bind m k).
Proof.
  intros Hm Hk s. rewrite exec_bind.
  exact (ext_trans (Hm s) (Hk _ _)).
Qed.

Lemma sat_ext_bind_l A B (m : M R A) (k : A -> M R B) :
  sat_ext 1 m -> (forall a, sat_ext 0 (k a)) -> sat_ext 1 (bind m k).
Proof.
  intros Hm Hk s. rewrite exec_bind.
  exact (ext_trans (Hm s) (Hk _ _)).
Qed.

Lemma sat_ext_bind_r A B (m : M R A) (k : A -> M R B) :
  sat_ext 0 m -> (forall a, sat_ext 1 (k a)) -> sat_ext 1 (bind m k).
Proof.
  intros Hm Hk s. rewrite exec_bind.
  exact (ext_trans (Hm s) (Hk _ _)).
Qed.

Lemma sat_ext_01 A (m : M R A) : sat_ext 0 m -> sat_ext 1 m.
Proof. intros H s. eapply ext_weaken; [|apply H]. lia. Qed.

Lemma sat_ext_frame A (m : M R A) :
  (forall s, hospitals (exec m s) = hospitals s) ->
  (forall s, length (events s) <= length (events (exec m s))) ->
  sat_ext 0 m.
Proof. intros Hh He s. apply ext_frame; auto. Qed.

Lemma preserves_bind A B (P : State R -> Prop) (m : M R A) (k : A -> M R B) :
  preserves P m -> (forall a, preserves P (k a)) -> preserves P (bind m k).
Proof. intros Hm Hk s H. rewrite exec_bind. apply Hk, Hm, H. Qed.

(** *** Effects of the primitive actions on the resources *)

Ltac frame :=
  apply sat_ext_frame; intros s; cbn;
  rewrite ?length_app, ?length_list_upd; simpl; try reflexivity; lia.

Lemma sat_ext_ret A (a : A) : sat_ext 0 (@ret R A a).
Proof. frame. Qed.

Lemma sat_ext_env_now : sat_ext 0 (@env_now R).
Proof. frame. Qed.

Lemma sat_ext_get_hospital h : sat_ext 0 (@get_hospital R h).
Proof. frame. Qed.

Lemma sat_ext_new_event cbs : sat_ext 0 (@new_event R cbs).
Proof. frame. Qed.

Lemma sat_ext_schedule ev prio delay : sat_ext 0 (@schedule R ev prio delay).
Proof. frame. Qed.

Lemma sat_ext_timeout delay : sat_ext 0 (@timeout R delay).
Proof. frame. Qed.

Lemma sat_ext_process start : sat_ext 0 (@process R start).
Proof. frame. Qed.

Lemma sat_ext_yield pid ev next : sat_ext 0 (@yield R pid ev next).
Proof. frame. Qed.

Lemma sat_ext_finish pid pev : sat_ext 0 (@finish R pid pev).
Proof. frame. Qed.

Lemma sat_ext_append_arrival_times t : sat_ext 0 (@append_arrival_times R t).
Proof. frame. Qed.

Lemma sat_ext_append_treated_times t : sat_ext 0 (@append_treated_times R t).
Proof. frame. Qed.

Lemma sat_ext_append_left_without_treatment_times t :
  sat_ext 0 (@append_left_without_treatment_times R t).
Proof. frame. Qed.

Lemma sat_ext_append_wait_times t : sat_ext 0 (@append_wait_times R t).
Proof. frame. Qed.

Lemma sat_ext_append_queue_lengths n : sat_ext 0 (@append_queue_lengths R n).
Proof. frame. Qed.

Lemma sat_ext_append_time_stamps t : sat_ext 0 (@append_time_stamps R t).
Proof. frame. Qed.

Lemma sat_ext_add_log e : sat_ext 0 (@add_log R e).
Proof. frame. Qed.

Lemma sat_ext_random_random : sat_ext 0 (@random_random R).
Proof. frame. Qed.

Lemma sat_ext_random_expovariate lambd : sat_ext 0 (@random_expovariate R lambd).
Proof. frame. Qed.

Lemma sat_ext_random_randint a b : sat_ext 0 (@random_randint R a b).
Proof. frame. Qed.

Lemma doctor_at_upd (s s' : State R) h h' f :
  hospitals s' = list_upd h f (hospitals s) ->
  doctor_at h' s' =
  if (h' =? h) && (h' <? length (hospitals s))
  then doctor (f (nth h' (hospitals s) (Hospital_init 0 0)))
  else doctor_at h' s.
Proof.
  intros H. unfold doctor_at. rewrite H, nth_list_upd.
  destruct ((h' =? h) && (h' <? length (hospitals s))); reflexivity.
Qed.

(** An update of the hospital [h] that acts on its doctor by [n]-granting
    calls. *)
Lemma ext_upd n (s s' : State R) h f :
  hospitals s' = list_upd h f (hospitals s) ->
  length (events s) <= length (events s') ->
  follows n (length (events s)) (length (events s'))
    (doctor_at h s) (doctor (f (nth h (hospitals s) (Hospital_init 0 0)))) ->
  ext n s s'.
Proof.
  intros Hh He Hf. constructor; auto.
  - rewrite Hh, length_list_upd. lia.
  - intros h' Hlt. rewrite (@doctor_at_upd s s' h h' f Hh).
    destruct (Nat.eqb_spec h' h) as [->|Hne]; simpl.
    + destruct (Nat.ltb_spec h (length (hospitals s))); [exact Hf|lia].
    + apply follows_refl.
  - rewrite Hh, length_list_upd. intros h' Hlt. lia.
Qed.

Lemma follows_one n lo hi o r :
  grants o <= n -> fresh_op lo hi o -> follows n lo hi r (apply o r).
Proof.
  intros Hg Hf. exists [o]. simpl. repeat split; [lia|].
  constructor; [exact Hf | constructor].
Qed.

Lemma sat_ext_upd_hospital h f :
  (forall H, doctor (f H) = doctor H) -> sat_ext 0 (@upd_hospital R h f).
Proof.
  intros Hf s. eapply ext_upd; [reflexivity | cbn; lia |].
  rewrite Hf. apply follows_refl.
Qed.

Lemma sat_ext_new_hospital num_doctors treatment_time :
  sat_ext 0 (@new_hospital R num_doctors treatment_time).
Proof.
  intros s. constructor; cbn; rewrite ?length_app; simpl; try lia.
  - intros h Hlt. unfold doctor_at. cbn. rewrite app_nth1 by exact Hlt.
    apply follows_refl.
  - intros h Hh. assert (h = length (hospitals s)) as -> by lia.
    exists num_doctors. unfold doctor_at. cbn.
    rewrite nth_middle. apply follows_refl.
Qed.

Lemma sat_ext_request h : sat_ext 1 (@request R h).
Proof.
  intros s. eapply ext_upd; [reflexivity | cbn; rewrite length_app; lia |].
  cbn. rewrite length_app. simpl.
  apply (@follows_one 1 _ _ (Request (length (events s)))); simpl; lia.
Qed.

Lemma sat_ext_release h req : sat_ext 0 (@release R h req).
Proof.
  intros s. eapply ext_upd; [reflexivity | cbn; rewrite length_app; lia |].
  cbn. apply (@follows_one 0 _ _ (Release req)); simpl; auto.
Qed.

Lemma sat_ext_trigger_put h : sat_ext 1 (@trigger_put R h).
Proof.
  intros s. eapply ext_upd; [reflexivity | cbn; lia |].
  cbn. apply (@follows_one 1 _ _ TriggerPut); simpl; auto.
Qed.

Lemma sat_ext_store_put h name : sat_ext 0 (@store_put R h name).
Proof.
  intros s. eapply ext_upd; [reflexivity | cbn; rewrite length_app; lia |].
  cbn. apply follows_refl.
Qed.

(** *** Effects of the segments *)

Create HintDb ext0 discriminated.

Hint Resolve sat_ext_ret sat_ext_env_now sat_ext_get_hospital
  sat_ext_new_event sat_ext_schedule sat_ext_timeout sat_ext_process
  sat_ext_yield sat_ext_finish sat_ext_append_arrival_times
  sat_ext_append_treated_times sat_ext_append_left_without_treatment_times
  sat_ext_append_wait_times sat_ext_append_queue_lengths
  sat_ext_append_time_stamps sat_ext_add_log sat_ext_random_random
  sat_ext_random_expovariate sat_ext_random_randint sat_ext_new_hospital
  sat_ext_release sat_ext_store_put : ext0.

Hint Extern 1 (sat_ext 0 (upd_hospital _ _)) =>
  apply sat_ext_upd_hospital; intros ?; reflexivity : ext0.

Ltac ext0 :=
  repeat first
    [ solve [auto with ext0]
    | apply sat_ext_bind0; [|intro]
    | match goal with
      | |- sat_ext _ (if ?c then _ else _) => destruct c
      end ].

Ltac ext1 :=
  first
    [ apply sat_ext_request
    | apply sat_ext_01; solve [ext0]
    | apply sat_ext_bind_l; [solve [ext1] | intro; solve [ext0]]
    | apply sat_ext_bind_r; [solve [ext0] | intro; ext1] ].

Lemma sat_ext_spawn_patients hospital names :
  sat_ext 0 (@spawn_patients R hospital names).
Proof. induction names; simpl; ext0. Qed.

Lemma sat_ext_setup_wait pid hospital t_inter i :
  sat_ext 0 (@setup_wait R script pid hospital t_inter i).
Proof. unfold setup_wait. destruct script; ext0. Qed.

Hint Resolve sat_ext_spawn_patients sat_ext_setup_wait : ext0.

Lemma sat_ext_segment pid pr : sat_ext 1 (@segment R script pid pr).
Proof.
  unfold segment.
  destruct (pc pr) as [name h|name h a|name h a req|name h req|h p|h p
                      |nd tt ti|hosp ti i|h [|n]| ];
    unfold patient_arrive, patient_request, patient_granted,
      patient_treated, treat_start, setup_start, setup_loop,
      add_doctors_loop;
    try destruct script; ext1.
Qed.

Lemma sat_ext_resume pid : sat_ext 1 (@resume R script pid).
Proof.
  intros s. unfold exec, resume.
  destruct (nth_error (procs s) pid) as [pr|].
  - apply sat_ext_segment.
  - simpl. eapply ext_weaken; [|apply ext_refl]. lia.
Qed.

Lemma sat_ext_bind A B n p (m : M R A) (k : A -> M R B) :
  sat_ext n m -> (forall a, sat_ext p (k a)) -> sat_ext (n + p) (bind m k).
Proof.
  intros Hm Hk s. rewrite exec_bind.
  exact (ext_trans (Hm s) (Hk _ _)).
Qed.

Lemma sat_ext_run_callback cb : sat_ext (active cb) (@run_callback R script cb).
Proof.
  destruct cb; simpl.
  - apply sat_ext_bind_l; [apply sat_ext_resume | intro; apply sat_ext_ret].
  - apply sat_ext_bind_l; [apply sat_ext_trigger_put | intro; apply sat_ext_ret].
  - apply sat_ext_ret.
  - apply sat_ext_ret.
  - apply sat_ext_ret.
Qed.

Lemma sat_ext_run_callbacks cbs :
  sat_ext (active_all cbs) (@run_callbacks R script cbs).
Proof.
  induction cbs as [|cb cbs IH]; simpl.
  - apply sat_ext_ret.
  - apply sat_ext_bind; [apply sat_ext_run_callback|].
    intros [|]; [|exact IH].
    intros s. eapply ext_weaken; [|apply sat_ext_ret]. lia.
Qed.

Lemma callbacks_of_ok ev evs :
  Forall event_ok evs -> active_all (callbacks_of ev evs) <= 1.
Proof.
  intros H. unfold callbacks_of.
  destruct (nth_error evs ev) as [[cbs|]|] eqn:E; simpl; try lia.
  apply nth_error_In in E.
  rewrite Forall_forall in H. exact (H _ E).
Qed.

(** One step of the event loop makes at most one grant per resource. *)
Lemma step_ext (s : State R) : events_ok s -> ext 1 s (snd (step script s)).
Proof.
  intros He. unfold step, fire.
  destruct (heappop (heap (env s))) as [[e rest]|]; simpl.
  - eapply ext_weaken;
      [|eapply ext_trans; [|apply sat_ext_run_callbacks]].
    + instantiate (1 := 0). simpl. apply callbacks_of_ok, He.
    + apply ext_frame; cbn; [reflexivity|].
      rewrite length_list_upd. lia.
  - eapply ext_weaken; [|apply ext_refl]. lia.
Qed.

Lemma run_start_ext at_ (s s' : State R) : run_start at_ s = Some s' -> ext 0 s s'.
Proof.
  unfold run_start. destruct (Qle_bool at_ (now (env s))); [discriminate|].
  intros [= <-]. apply ext_frame; cbn; [reflexivity|].
  rewrite length_app. lia.
Qed.

Lemma spawn_add_doctors_ext h k (s : State R) : ext 0 s (spawn_add_doctors h k s).
Proof. apply sat_ext_process. Qed.

(** *** Events keep at most one active callback *)

Lemma list_upd_middle A (f : A -> A) l x r :
  list_upd (length l) f (l ++ x :: r) = l ++ f x :: r.
Proof. induction l as [|y l IH]; simpl; [reflexivity|]. rewrite IH. reflexivity. Qed.

Lemma list_upd_last A (f : A -> A) l x :
  list_upd (length l) f (l ++ [x]) = l ++ [f x].
Proof. apply list_upd_middle. Qed.

Lemma events_ok_app (s : State R) evs :
  events_ok s -> Forall event_ok evs -> Forall event_ok (events s ++ evs).
Proof. intros H1 H2. apply Forall_app. split; assumption. Qed.

Ltac events_leaf :=
  intros s H; unfold events_ok in *; cbn;
  rewrite <- ?app_assoc; simpl;
  rewrite ?list_upd_middle;
  first [ exact H
        | apply events_ok_app; [exact H|];
          repeat first [apply Forall_cons | apply Forall_nil]; simpl; lia ].

Lemma events_ok_new_event cbs :
  active_all cbs <= 1 -> preserves events_ok (@new_event R cbs).
Proof.
  intros Hc s H. unfold events_ok in *; cbn.
  apply events_ok_app; [exact H|]. constructor; [exact Hc | constructor].
Qed.

Lemma events_ok_timeout_yield delay pid next :
  preserves events_ok
    (bind (@timeout R delay) (fun t => yield pid t next)).
Proof. events_leaf. Qed.

Lemma events_ok_request_yield h pid (next : nat -> Pc) :
  preserves events_ok
    (bind (@request R h) (fun req => yield pid req (next req))).
Proof. events_leaf. Qed.

Lemma events_ok_process_yield start pid next :
  preserves events_ok
    (bind (@process R start) (fun p => yield pid p next)).
Proof. events_leaf. Qed.

Lemma events_ok_process start : preserves events_ok (@process R start).
Proof. events_leaf. Qed.

Lemma events_ok_request h : preserves events_ok (@request R h).
Proof. events_leaf. Qed.

Lemma events_ok_release h req : preserves events_ok (@release R h req).
Proof. events_leaf. Qed.

Lemma events_ok_trigger_put h : preserves events_ok (@trigger_put R h).
Proof. events_leaf. Qed.

Lemma events_ok_store_put h name : preserves events_ok (@store_put R h name).
Proof. events_leaf. Qed.

Lemma events_ok_finish pid pev : preserves events_ok (@finish R pid pev).
Proof. events_leaf. Qed.

Create HintDb evok discriminated.

Hint Resolve events_ok_timeout_yield events_ok_request_yield
  events_ok_process_yield events_ok_process events_ok_request
  events_ok_release events_ok_trigger_put events_ok_store_put
  events_ok_finish : evok.

Hint Extern 5 (preserves events_ok _) => solve [events_leaf] : evok.

Ltac evok :=
  repeat first
    [ solve [auto with evok]
    | apply preserves_bind; [|intro]
    | match goal with
      | |- preserves _ (if ?c then _ else _) => destruct c
      end ].

Lemma events_ok_spawn_patients hospital names :
  preserves events_ok (@spawn_patients R hospital names).
Proof. induction names; simpl; evok. Qed.

Hint Resolve events_ok_spawn_patients : evok.

Lemma events_ok_segment pid pr : preserves events_ok (@segment R script pid pr).
Proof.
  unfold segment.
  destruct (pc pr) as [name h|name h a|name h a req|name h req|h p|h p
                      |nd tt ti|hosp ti i|h [|n]| ];
    unfold patient_arrive, patient_request, patient_granted,
      patient_treated, treat_start, setup_start, setup_loop, setup_wait,
      add_doctors_loop;
    try destruct script; evok.
Qed.

Lemma events_ok_resume pid : preserves events_ok (@resume R script pid).
Proof.
  intros s H. unfold exec, resume.
  destruct (nth_error (procs s) pid) as [pr|]; [|exact H].
  apply events_ok_segment, H.
Qed.

Lemma events_ok_run_callbacks cbs :
  preserves events_ok (@run_callbacks R script cbs).
Proof.
  induction cbs as [|cb cbs IH]; simpl; [intros s H; exact H|].
  apply preserves_bind.
  - destruct cb; simpl;
      try (apply preserves_bind; [|intros ? ? H; exact H]);
      auto using events_ok_resume, events_ok_trigger_put;
      intros s H; exact H.
  - intros [|]; [intros s H; exact H | exact IH].
Qed.

Lemma step_events_ok (s : State R) :
  events_ok s -> events_ok (snd (step script s)).
Proof.
  intros H. unfold step, fire.
  destruct (heappop (heap (env s))) as [[e rest]|]; simpl; [|exact H].
  apply events_ok_run_callbacks. unfold events_ok. cbn.
  apply Forall_list_upd; [exact H | intros; exact I].
Qed.

(** *** Heap entries keep distinct numbers *)

Lemma heap_ok_env_push ev prio delay e :
  heap_ok_env e -> heap_ok_env (env_push ev prio delay e).
Proof.
  intros [Hn Hf]. split; simpl.
  - rewrite map_app. simpl. apply NoDup_app; [exact Hn| |].
    + repeat constructor. simpl. tauto.
    + intros x Hx [<-|[]]. apply in_map_iff in Hx.
      destruct Hx as (y & Hy & Hin).
      rewrite Forall_forall in Hf. apply Hf in Hin. lia.
  - apply Forall_app. split.
    + eapply Forall_impl; [|exact Hf]. simpl. intros; lia.
    + constructor; [simpl; lia | constructor].
Qed.

Ltac heap_leaf :=
  intros s H; unfold heap_ok in *; cbn;
  repeat first
    [ exact H
    | apply heap_ok_env_push
    | match goal with
      | |- heap_ok_env (match ?c with _ => _ end) => destruct c
      end ].

Lemma heap_ok_schedule ev prio delay : preserves heap_ok (@schedule R ev prio delay).
Proof. heap_leaf. Qed.

Lemma heap_ok_timeout delay : preserves heap_ok (@timeout R delay).
Proof. heap_leaf. Qed.

Lemma heap_ok_process start : preserves heap_ok (@process R start).
Proof. heap_leaf. Qed.

Lemma heap_ok_finish pid pev : preserves heap_ok (@finish R pid pev).
Proof. heap_leaf. Qed.

Lemma heap_ok_request h : preserves heap_ok (@request R h).
Proof. heap_leaf. Qed.

Lemma heap_ok_release h req : preserves heap_ok (@release R h req).
Proof. heap_leaf. Qed.

Lemma heap_ok_trigger_put h : preserves heap_ok (@trigger_put R h).
Proof. heap_leaf. Qed.

Lemma heap_ok_store_put h name : preserves heap_ok (@store_put R h name).
Proof. heap_leaf. Qed.

Create HintDb heapok discriminated.

Hint Resolve heap_ok_schedule heap_ok_timeout heap_ok_process
  heap_ok_finish heap_ok_request heap_ok_release heap_ok_trigger_put
  heap_ok_store_put : heapok.

Hint Extern 5 (preserves heap_ok _) => solve [intros ? H; exact H] : heapok.

Ltac heapok :=
  repeat first
    [ solve [auto with heapok]
    | apply preserves_bind; [|intro]
    | match goal with
      | |- preserves _ (if ?c then _ else _) => destruct c
      end ].

Lemma heap_ok_spawn_patients hospital names :
  preserves heap_ok (@spawn_patients R hospital names).
Proof. induction names; simpl; heapok. Qed.

Hint Resolve heap_ok_spawn_patients : heapok.

Lemma heap_ok_segment pid pr : preserves heap_ok (@segment R script pid pr).
Proof.
  unfold segment.
  destruct (pc pr) as [name h|name h a|name h a req|name h req|h p|h p
                      |nd tt ti|hosp ti i|h [|n]| ];
    unfold patient_arrive, patient_request, patient_granted,
      patient_treated, treat_start, setup_start, setup_loop, setup_wait,
      add_doctors_loop;
    try destruct script; heapok.
Qed.

Lemma heap_ok_resume pid : preserves heap_ok (@resume R script pid).
Proof.
  intros s H. unfold exec, resume.
  destruct (nth_error (procs s) pid) as [pr|]; [|exact H].
  apply heap_ok_segment, H.
Qed.

Lemma heap_ok_run_callbacks cbs :
  preserves heap_ok (@run_callbacks R script cbs).
Proof.
  induction cbs as [|cb cbs IH]; simpl; [intros s H; exact H|].
  apply preserves_bind.
  - destruct cb; simpl;
      try (apply preserves_bind; [|intros ? ? H; exact H]);
      auto using heap_ok_resume, heap_ok_trigger_put;
      intros s H; exact H.
  - intros [|]; [intros s H; exact H | exact IH].
Qed.

Lemma In_heap_remove n x l : In x (heap_remove n l) -> In x l.
Proof.
  induction l as [|y l IH]; simpl; [tauto|].
  destruct (e_eid y =? n); simpl; intuition.
Qed.

Lemma NoDup_heap_remove n l :
  NoDup (map e_eid l) -> NoDup (map e_eid (heap_remove n l)).
Proof.
  induction l as [|y l IH]; simpl; [auto|].
  intros H. inversion H as [|? ? Hy Hl]; subst.
  destruct (e_eid y =? n); simpl; [exact Hl|].
  constructor; [|auto].
  intros Hin. apply Hy. apply in_map_iff in Hin.
  destruct Hin as (z & Hz & Hin). apply in_map_iff.
  exists z. split; [exact Hz|]. eapply In_heap_remove; eauto.
Qed.

Lemma heappop_ok e x rest t :
  heap_ok_env e -> heappop (heap e) = Some (x, rest) ->
  heap_ok_env {| now := t; heap := rest; eid := eid e |}.
Proof.
  intros [Hn Hf]. unfold heappop.
  destruct (heap e) as [|y l] eqn:E; [discriminate|].
  intros [= <- <-]. split; simpl.
  - apply (NoDup_heap_remove _ (y :: l)). exact Hn.
  - rewrite Forall_forall in *. intros z Hz. apply Hf.
    eapply (In_heap_remove _ _ (y :: l)). exact Hz.
Qed.

Lemma step_heap_ok (s : State R) : heap_ok s -> heap_ok (snd (step script s)).
Proof.
  intros H. unfold step, fire.
  destruct (heappop (heap (env s))) as [[e rest]|] eqn:E; simpl; [|exact H].
  apply heap_ok_run_callbacks. unfold heap_ok. cbn.
  eapply heappop_ok; eauto.
Qed.

(** *** What follows from the resource effects *)

Lemma ext_capacity n (s s' : State R) h :
  ext n s s' -> h < length (hospitals s) ->
  Resource.capacity (doctor_at h s') = Resource.capacity (doctor_at h s).
Proof.
  intros E Hh. destruct (ext_old E Hh) as (ops & -> & _).
  apply capacity_apply_all.
Qed.

Lemma ext_capacity_ok n (s s' : State R) :
  ext n s s' -> capacity_ok s -> capacity_ok s'.
Proof.
  intros E H h Hh.
  destruct (Nat.lt_ge_cases h (length (hospitals s))) as [Hlt|Hge].
  - destruct (ext_old E Hlt) as (ops & -> & _).
    apply ok_apply_all, H, Hlt.
  - destruct (ext_new E (conj Hge Hh)) as (cap & ops & -> & _).
    apply ok_apply_all, ok_init.
Qed.

Lemma bounded_init n cap : bounded n (Resource.init cap).
Proof. split; simpl; [tauto | constructor]. Qed.

Lemma ext_requests_ok (s s' : State R) :
  ext 1 s s' -> requests_ok s -> requests_ok s'.
Proof.
  intros E H h Hh. pose proof (ext_events E) as Hev.
  destruct (Nat.lt_ge_cases h (length (hospitals s))) as [Hlt|Hge].
  - destruct (ext_old E Hlt) as (ops & -> & Hg & Hf).
    apply (@apply_all_move (length (events s)) (length (events s')));
      auto.
  - destruct (ext_new E (conj Hge Hh)) as (cap & ops & -> & Hg & Hf).
    apply (@apply_all_move (length (events s)) (length (events s')));
      auto using bounded_init.
Qed.


(** *** The invariant holds in every state of every run *)

Lemma inv_ext (s s' : State R) :
  inv s -> ext 1 s s' -> events_ok s' -> heap_ok s' -> inv s'.
Proof.
  intros (_ & _ & Hr & Hc) E He Hh.
  split; [exact He | split; [exact Hh | split]].
  - eapply ext_requests_ok; eauto.
  - eapply ext_capacity_ok; eauto.
Qed.

Lemma inv_step (s : State R) : inv s -> inv (snd (step script s)).
Proof.
  intros H. apply (inv_ext H).
  - apply step_ext, H.
  - apply step_events_ok, H.
  - apply step_heap_ok, H.
Qed.

Lemma inv_run_start at_ (s s' : State R) :
  inv s -> run_start at_ s = Some s' -> inv s'.
Proof.
  intros H Hrun. apply (inv_ext H).
  - eapply ext_weaken; [|eapply run_start_ext; eauto]. lia.
  - revert Hrun. unfold run_start.
    destruct (Qle_bool at_ (now (env s))); [discriminate|].
    intros [= <-]. destruct H as (He & _).
    unfold events_ok in *. cbn. apply events_ok_app; [exact He|].
    constructor; [simpl; lia | constructor].
  - revert Hrun. unfold run_start.
    destruct (Qle_bool at_ (now (env s))); [discriminate|].
    intros [= <-]. destruct H as (_ & Hh & _).
    unfold heap_ok in *. cbn. apply heap_ok_env_push, Hh.
Qed.

Lemma inv_spawn_add_doctors h k (s : State R) :
  inv s -> inv (spawn_add_doctors h k s).
Proof.
  intros H. apply (inv_ext H).
  - eapply ext_weaken; [|apply spawn_add_doctors_ext]. lia.
  - apply events_ok_process, H.
  - apply heap_ok_process, H.
Qed.

Lemma inv_fresh seed : inv (fresh R seed).
Proof.
  split; [constructor | split; [split; constructor | split]].
  - intros h Hh. simpl in Hh. assert (h = 0) as -> by lia.
    split; simpl; [tauto | constructor].
  - intros h Hh. simpl in Hh. assert (h = 0) as -> by lia.
    unfold ok, Resource.count. simpl. lia.
Qed.

Lemma inv_boot seed : inv (boot R seed).
Proof.
  apply (inv_ext (inv_fresh seed)).
  - eapply ext_weaken; [|apply sat_ext_process]. lia.
  - apply events_ok_process, inv_fresh.
  - apply heap_ok_process, inv_fresh.
Qed.

Lemma inv_reach_from (s0 s : State R) :
  inv s0 -> reach_from script s0 s -> inv s.
Proof.
  intros H0 Hr. induction Hr.
  - exact H0.
  - apply inv_step. assumption.
  - eapply inv_run_start; eauto.
  - apply inv_spawn_add_doctors. assumption.
Qed.

Lemma inv_reach (s : State R) : reach script s -> inv s.
Proof. intros [seed Hr]. eapply inv_reach_from; eauto using inv_boot. Qed.

End KernelFacts.

(** Runs a segment symbolically: every projection of the final state
    becomes an expression over the initial one. *)
Ltac norm :=
  unfold exec, bind; cbn;
  repeat (match goal with
          | |- context [if ?c then _ else _] => destruct c eqn:?
          end; cbn).

(** ** The result lists *)

Section StatisticsFacts.

Local Open Scope nat_scope.

Variable R : Random.
Variable script : Script.

Lemma total_app w l l' : total w (l ++ l') = total w l + total w l'.
Proof. induction l; simpl; lia. Qed.

Lemma total_set_pc w i p l x :
  nth_error l i = Some x ->
  total w (list_upd i (fun pr => {| pc := p; proc_event := proc_event pr |}) l)
    + w (pc x) =
  total w l + w p.
Proof.
  revert i. induction l as [|y l IH]; intros [|i] H; simpl in *;
    try discriminate.
  - injection H as ->. lia.
  - specialize (IH _ H). lia.
Qed.

Lemma total_set_pc_app w i p l l' x :
  nth_error l i = Some x ->
  total w (list_upd i (fun pr => {| pc := p; proc_event := proc_event pr |})
             (l ++ l')) + w (pc x) =
  total w l + total w l' + w p.
Proof.
  intros H. rewrite <- total_app. apply total_set_pc.
  rewrite nth_error_app1; [exact H|]. apply nth_error_Some. congruence.
Qed.

Ltac refold_total :=
  repeat match goal with
  | |- context [fold_right (fun p n => ?w (pc p) + n) 0 ?l] =>
      change (fold_right (fun p n => w (pc p) + n) 0 l) with (total w l)
  end.

Ltac count_procs Hp Epc :=
  refold_total;
  repeat match goal with
  | |- context [total ?w (list_upd ?i
                  (fun pr => {| pc := ?p; proc_event := _ |}) (?l ++ ?l'))] =>
      let E := fresh "E" in
      pose proof (@total_set_pc_app w i p l l' _ Hp) as E;
      rewrite Epc in E; cbn in E;
      let X := fresh "X" in
      set (X := total w (list_upd i _ (l ++ l'))) in *; clearbody X
  | |- context [total ?w (list_upd ?i
                  (fun pr => {| pc := ?p; proc_event := _ |}) ?l)] =>
      let E := fresh "E" in
      pose proof (@total_set_pc w i p l _ Hp) as E;
      rewrite Epc in E; cbn in E;
      let X := fresh "X" in
      set (X := total w (list_upd i _ l)) in *; clearbody X
  end.

Ltac unfold_stats :=
  unfold total_patients, treated_count, left_without_treatment_count,
    in_hospital, in_treatment, arrival_log, grant_log, treated_log,
    left_log in *.

Lemma stats_ok_segment pid pr (s : State R) :
  stats_ok s -> nth_error (procs s) pid = Some pr ->
  stats_ok (exec (segment script pid pr) s).
Proof.
  intros [L1 L2 L3 L4 H1 H2 H3] Hp. unfold_stats.
  unfold segment.
  destruct (pc pr) as [name h|name h a|name h a req|name h req|h p|h p
                      |nd tt ti|hosp ti i|h [|n]| ] eqn:Epc;
    unfold patient_arrive, patient_request, patient_granted,
      patient_treated, treat_start, setup_start, setup_loop, setup_wait,
      add_doctors_loop, initial_patients;
    try destruct script.
  all: constructor; unfold_stats; norm;
    rewrite ?flat_map_app, ?length_app, <- ?app_assoc;
    cbn [length app flat_map]; rewrite ?app_nil_r;
    count_procs Hp Epc.
  all: first [lia | congruence].
Qed.

Lemma stats_ok_resume pid : preserves (@stats_ok R) (resume script pid).
Proof.
  intros s H. unfold exec, resume.
  destruct (nth_error (procs s) pid) as [pr|] eqn:Hp; [|exact H].
  apply stats_ok_segment; assumption.
Qed.

Lemma stats_ok_frame (s s' : State R) :
  lists s' = lists s -> procs s' = procs s -> log s' = log s ->
  stats_ok s -> stats_ok s'.
Proof.
  intros Hl Hp Hg [L1 L2 L3 L4 H1 H2 H3].
  constructor; unfold_stats; rewrite Hl, ?Hp, ?Hg; assumption.
Qed.

Lemma stats_ok_run_callbacks cbs :
  preserves (@stats_ok R) (run_callbacks script cbs).
Proof.
  induction cbs as [|cb cbs IH]; simpl; [intros s H; exact H|].
  apply preserves_bind.
  - destruct cb; simpl; try (intros s H; exact H).
    + apply preserves_bind; [apply stats_ok_resume | intros ? ? H; exact H].
    + intros s H. eapply stats_ok_frame; [| | |exact H]; reflexivity.
  - intros [|]; [intros s H; exact H | exact IH].
Qed.

Lemma stats_ok_step (s : State R) : stats_ok s -> stats_ok (snd (step script s)).
Proof.
  intros H. unfold step, fire.
  destruct (heappop (heap (env s))) as [[e rest]|]; simpl; [|exact H].
  apply stats_ok_run_callbacks.
  eapply stats_ok_frame; [| | |exact H]; reflexivity.
Qed.

Lemma stats_ok_process start (s : State R) :
  arrived_w start = 0 -> stats_ok s -> stats_ok (exec (process start) s).
Proof.
  intros Hw [L1 L2 L3 L4 H1 H2 H3].
  assert (Hi : in_treatment_w start = 0)
    by (destruct start; simpl in *; congruence).
  constructor; unfold_stats; cbn; refold_total; rewrite ?total_app; simpl;
    first [assumption | lia].
Qed.

Lemma stats_ok_reach_from (s0 s : State R) :
  stats_ok s0 -> reach_from script s0 s -> stats_ok s.
Proof.
  intros H0 Hr. induction Hr as [|s Hr IH|at_ s s' Hr IH Hrun|h k s Hr IH Hh].
  - exact H0.
  - apply stats_ok_step, IH.
  - revert Hrun. unfold run_start.
    destruct (Qle_bool at_ (now (env s))); [discriminate|].
    intros [= <-]. eapply stats_ok_frame; [| | |exact IH]; reflexivity.
  - apply stats_ok_process; [reflexivity | exact IH].
Qed.

Lemma stats_ok_boot seed : stats_ok (boot R seed).
Proof. apply stats_ok_process; [reflexivity|]. constructor; reflexivity. Qed.

Lemma stats_ok_reach (s : State R) : reach script s -> stats_ok s.
Proof.
  intros [seed Hr]. eapply stats_ok_reach_from; eauto using stats_ok_boot.
Qed.

End StatisticsFacts.

(** ** Runs of the script and reachable states *)

Section ReachFacts.

Local Open Scope nat_scope.

Variable R : Random.
Variable script : Script.


Lemma reach_from_steps n (s0 s : State R) :
  reach_from script s0 s -> reach_from script s0 (steps script n s).
Proof.
  revert s. induction n as [|n IH]; intros s H; simpl; [exact H|].
  apply IH, reach_step, H.
Qed.

Lemma reach_steps n seed : reach script (steps script n (boot R seed)).
Proof. exists seed. apply reach_from_steps, reach_refl. Qed.

Lemma reach_from_run_loop fuel (s0 s s' : State R) :
  reach_from script s0 s -> run_loop script fuel s = Some s' ->
  reach_from script s0 s'.
Proof.
  revert s. induction fuel as [|fuel IH]; intros s H; simpl; [discriminate|].
  destruct (step script s) as [o s1] eqn:E.
  assert (H1 : reach_from script s0 s1).
  { replace s1 with (snd (step script s)) by (rewrite E; reflexivity).
    apply reach_step, H. }
  destruct o; [apply IH; exact H1 | |]; intros [= <-]; exact H1.
Qed.

Lemma reach_from_run at_ fuel (s0 s s' : State R) :
  reach_from script s0 s -> run script at_ fuel s = Some s' ->
  reach_from script s0 s'.
Proof.
  unfold run. intros H.
  destruct (run_start at_ s) as [s1|] eqn:E; [|discriminate].
  apply reach_from_run_loop. eapply reach_run; eauto.
Qed.

(** Every state the script ends in is a reachable one. *)
Lemma main_reach fuel1 fuel2 (s : State R) :
  main R script fuel1 fuel2 = Some s -> reach script s.
Proof.
  unfold main.
  destruct (run script (inject_Z SIM_TIME) fuel1 (boot R RANDOM_SEED))
    as [s1|] eqn:E1; [|discriminate].
  intros E2. exists RANDOM_SEED.
  eapply reach_from_run; [|exact E2].
  apply reach_add_doctors.
  - eapply reach_from_run; [apply reach_refl | exact E1].
  - assert (Hr : reach_from script (boot R RANDOM_SEED) s1)
      by (eapply reach_from_run; [apply reach_refl | exact E1]).
    clear E1 E2. induction Hr as [|s' Hr IH|at_ s' s'' Hr IH Hrun|h k s' Hr IH Hh].
    + unfold hospital_ref. cbn. lia.
    + pose proof (ext_hospitals (step_ext script (s:=s')
                    (proj1 (inv_reach_from (inv_boot R RANDOM_SEED) Hr)))).
      unfold hospital_ref in *. lia.
    + pose proof (ext_hospitals (run_start_ext _ _ Hrun)).
      unfold hospital_ref in *. lia.
    + pose proof (ext_hospitals (spawn_add_doctors_ext h k s')).
      unfold hospital_ref in *. lia.
Qed.

End ReachFacts.


(** ** Which hospital the processes use *)

Section PlacementFacts.

Local Open Scope nat_scope.
Import ResourceFacts.

Variable R : Random.
Variable script : Script.

Lemma samples_from_app n l l' :
  samples_from n (l ++ l') =
  samples_from n l ++ samples_from (n + length (arrival_log l)) l'.
Proof.
  revert n. induction l as [|x l IH]; intros n; simpl.
  - rewrite Nat.add_0_r. reflexivity.
  - destruct x; simpl; rewrite IH, ?Nat.add_succ_r; reflexivity.
Qed.

Lemma after_setup_segment pid pr (s : State R) :
  stats_ok s -> after_setup script s -> nth_error (procs s) pid = Some pr ->
  after_setup script (exec (segment script pid pr) s).
Proof.
  intros St (Hlen & Hpc & Hcap & Hst) Hp.
  assert (Hpost : post_pc (pc pr)).
  { rewrite Forall_forall in Hpc. apply (Hpc pr). eapply nth_error_In; eauto. }
  split; [|split; [|split]].
  - unfold segment.
    destruct (pc pr) as [name h|name h a|name h a req|name h req|h p|h p
                        |nd tt ti|hosp ti i|h [|n]| ] eqn:Epc;
      simpl in Hpost; try contradiction;
      unfold patient_arrive, patient_request, patient_granted,
        patient_treated, treat_start, setup_start, setup_loop, setup_wait,
        add_doctors_loop, initial_patients;
      try destruct script; norm; rewrite ?length_list_upd; exact Hlen.
  - unfold segment.
    destruct (pc pr) as [name h|name h a|name h a req|name h req|h p|h p
                        |nd tt ti|hosp ti i|h [|n]| ] eqn:Epc;
      simpl in Hpost; try contradiction;
      unfold patient_arrive, patient_request, patient_granted,
        patient_treated, treat_start, setup_start, setup_loop, setup_wait,
        add_doctors_loop, initial_patients;
      try destruct script; norm.
    all: try exact Hpc.
    all: apply Forall_list_upd; [|intros; simpl; auto];
      try apply Forall_app; try split; try exact Hpc;
      repeat constructor; simpl; auto.
  - rewrite (ext_capacity (sat_ext_segment script pid pr s)); [exact Hcap|lia].
  - intros ->. specialize (Hst eq_refl). destruct Hst as [Hit Hq].
    pose proof (log_arrivals St) as La.
    unfold segment.
    destruct (pc pr) as [name h|name h a|name h a req|name h req|h p|h p
                        |nd tt ti|hosp ti i|h [|n]| ] eqn:Epc;
      simpl in Hpost; try contradiction; subst;
      unfold patient_arrive, patient_request, patient_granted,
        patient_treated, treat_start, setup_start, setup_loop, setup_wait,
        add_doctors_loop, initial_patients, store_ok;
      unfold exec, bind; cbn -[list_upd nth];
      repeat (match goal with
              | |- context [if ?c then _ else _] => destruct c eqn:?
              end; cbn -[list_upd nth]).
    all: rewrite ?nth_list_upd, ?Hlen; cbn -[list_upd nth].
    all: repeat match goal with
         | |- context [if ?c then _ else _] => destruct c eqn:?
         end; cbn -[list_upd nth].
    all: rewrite <- ?app_assoc, ?samples_from_app; cbn -[list_upd nth];
      rewrite ?app_nil_r.
    all: unfold len_items in *; cbn -[list_upd nth]; rewrite ?length_app;
      cbn -[list_upd nth].
    all: try (split; [lia || assumption | ]).
    all: try assumption.
    all: rewrite Hq, Hit, La; reflexivity.
Qed.

Lemma idle_post p : idle p -> post_pc p.
Proof. destruct p; simpl; tauto. Qed.

Lemma before_setup_segment pid pr (s : State R) :
  before_setup s -> nth_error (procs s) pid = Some pr ->
  placed script (exec (segment script pid pr) s).
Proof.
  intros (Hlen & Hl & Hg & pr0 & rest & Hprocs & (tt & ti & Hpc0) & Hrest) Hp.
  rewrite Hprocs in Hp. destruct pid as [|i]; simpl in Hp.
  - (* setup starts *)
    injection Hp as <-. right.
    destruct (hospitals s) as [|H0 [|]] eqn:Eh; try discriminate.
    unfold segment. rewrite Hpc0. unfold setup_start, setup_wait, initial_patients.
    split; [|split; [|split]].
    + destruct script; norm; rewrite ?Eh; reflexivity.
    + destruct script; norm; rewrite ?Eh, Hprocs; cbn;
        (constructor; [reflexivity|]);
        rewrite <- ?app_assoc; apply Forall_app; split;
        try (eapply Forall_impl; [|exact Hrest]; intros; apply idle_post; assumption);
        repeat constructor.
    + destruct script; unfold doctor_at; norm; rewrite ?Eh; reflexivity.
    + intros ->. unfold store_ok. norm. rewrite ?Eh, Hl, Hg. split; reflexivity.
  - (* add_doctors, or nothing *)
    left.
    assert (Hi : idle (pc pr)).
    { rewrite Forall_forall in Hrest. apply (Hrest pr). eapply nth_error_In; eauto. }
    unfold segment.
    destruct (pc pr) as [name h|name h a|name h a req|name h req|h p|h p
                        |nd tt' ti'|hosp ti' i'|h [|n]| ] eqn:Epc;
      simpl in Hi; try contradiction;
      unfold add_doctors_loop; unfold before_setup; norm;
      rewrite ?length_list_upd, ?Hprocs; cbn.
    all: (split; [exact Hlen | split; [exact Hl | split; [exact Hg|]]]).
    all: eexists; eexists; split; [reflexivity|]; split; [eauto|].
    all: try (apply Forall_list_upd; [exact Hrest | intros; exact I]).
    exact Hrest.
Qed.

Lemma placed_same (s s' : State R) :
  procs s' = procs s -> lists s' = lists s -> log s' = log s ->
  hospitals s' = hospitals s -> placed script s -> placed script s'.
Proof.
  intros Hp Hl Hg Hh.
  unfold placed, before_setup, after_setup, store_ok, doctor_at.
  rewrite Hp, Hl, Hg, Hh. tauto.
Qed.

Lemma placed_trigger_put h (s : State R) :
  placed script s -> placed script (exec (trigger_put h) s).
Proof.
  intros [(Hlen & Hrest)|(Hlen & Hpc & Hcap & Hst)]; [left|right].
  - split; [|exact Hrest]. cbn. rewrite length_list_upd. exact Hlen.
  - split; [|split; [|split]].
    + cbn. rewrite length_list_upd. exact Hlen.
    + exact Hpc.
    + rewrite (ext_capacity (@sat_ext_trigger_put R h s)); [exact Hcap|lia].
    + intros E. specialize (Hst E). unfold store_ok in *. cbn.
      rewrite nth_list_upd.
      destruct ((1 =? h) && (1 <? length (hospitals s))); exact Hst.
Qed.

Lemma placed_resume pid (s : State R) :
  stats_ok s -> placed script s -> placed script (exec (resume script pid) s).
Proof.
  intros St H. unfold exec, resume.
  destruct (nth_error (procs s) pid) as [pr|] eqn:Hp; [|exact H].
  destruct H as [H|H].
  - eapply before_setup_segment; eauto.
  - right. eapply after_setup_segment; eauto.
Qed.

Lemma sound_run_callbacks cbs :
  preserves (@sound R script) (run_callbacks script cbs).
Proof.
  induction cbs as [|cb cbs IH]; simpl; [intros s H; exact H|].
  apply preserves_bind.
  - destruct cb; simpl; try (intros s H; exact H).
    + apply preserves_bind; [|intros ? ? H; exact H].
      intros s [St H]. split.
      * apply stats_ok_resume, St.
      * apply placed_resume; assumption.
    + intros s [St H]. split.
      * eapply stats_ok_frame; [| | |exact St]; reflexivity.
      * apply (placed_trigger_put h H).
  - intros [|]; [intros s H; exact H | exact IH].
Qed.

Lemma sound_step (s : State R) : sound script s -> sound script (snd (step script s)).
Proof.
  intros [St H]. unfold step, fire.
  destruct (heappop (heap (env s))) as [[e rest]|]; simpl; [|split; assumption].
  apply sound_run_callbacks. split.
  - eapply stats_ok_frame; [| | |exact St]; reflexivity.
  - eapply placed_same; [| | | |exact H]; reflexivity.
Qed.

Lemma placed_spawn_add_doctors h k (s : State R) :
  placed script s -> placed script (spawn_add_doctors h k s).
Proof.
  intros [(Hlen & Hl & Hg & pr & rest & Hprocs & Hpc & Hrest)
         |(Hlen & Hpc & Hcap & Hst)]; [left|right].
  - split; [exact Hlen | split; [exact Hl | split; [exact Hg|]]].
    exists pr, (rest ++ [{| pc := AddDoctors h k; proc_event := length (events s) |}]).
    split; [cbn; rewrite Hprocs; reflexivity | split; [exact Hpc|]].
    apply Forall_app. split; [exact Hrest | repeat constructor].
  - split; [exact Hlen | split; [|split; [exact Hcap | exact Hst]]].
    cbn. apply Forall_app. split; [exact Hpc | repeat constructor].
Qed.

Lemma sound_boot seed : sound script (boot R seed).
Proof.
  split; [apply stats_ok_boot|]. left.
  split; [reflexivity | split; [reflexivity | split; [reflexivity|]]].
  eexists; eexists. split; [reflexivity|]. split; [|constructor].
  exists TREATMENT_TIME, T_INTER. reflexivity.
Qed.

Lemma sound_reach_from (s0 s : State R) :
  sound script s0 -> reach_from script s0 s -> sound script s.
Proof.
  intros H0 Hr. induction Hr as [|s Hr IH|at_ s s' Hr IH Hrun|h k s Hr IH Hh].
  - exact H0.
  - apply sound_step, IH.
  - revert Hrun. unfold run_start.
    destruct (Qle_bool at_ (now (env s))); [discriminate|].
    intros [= <-]. destruct IH as [St H]. split.
    + eapply stats_ok_frame; [| | |exact St]; reflexivity.
    + eapply placed_same; [| | | |exact H]; reflexivity.
  - destruct IH as [St H]. split.
    + apply stats_ok_process; [reflexivity | exact St].
    + apply placed_spawn_add_doctors, H.
Qed.

Lemma sound_reach (s : State R) : reach script s -> sound script s.
Proof. intros [seed Hr]. eapply sound_reach_from; eauto using sound_boot. Qed.


Lemma grows_refl r : grows r r.
Proof. intros x H. exact H. Qed.

Lemma grows_trans r1 r2 r3 : grows r1 r2 -> grows r2 r3 -> grows r1 r3.
Proof. intros H1 H2 x H. apply H2, H1, H. Qed.

Lemma grows_trigger_put r : grows r (fst (Resource.trigger_put r)).
Proof.
  intros x H. unfold Resource.trigger_put.
  destruct (Resource.put_queue r) as [|ev q] eqn:E; simpl.
  - rewrite E. exact H.
  - destruct (length (Resource.users r) <? Resource.capacity r); simpl.
    + rewrite <- app_assoc. exact H.
    + rewrite E. exact H.
Qed.

Lemma grows_request ev r : grows r (fst (Resource.request ev r)).
Proof.
  unfold Resource.request. eapply grows_trans; [|apply grows_trigger_put].
  intros x H. simpl. apply in_app_or in H. apply in_or_app.
  destruct H as [H|H]; [left; exact H | right; apply in_or_app; left; exact H].
Qed.

Lemma grows_segment pid pr (s : State R) :
  placed script s -> nth_error (procs s) pid = Some pr ->
  grows (doctor_at hospital_ref s)
        (doctor_at hospital_ref (exec (segment script pid pr) s)).
Proof.
  intros Hpl Hp.
  assert (Hpc : post_pc (pc pr)
                \/ (length (hospitals s) = 1
                    /\ exists nd tt ti, pc pr = SetupStart nd tt ti)).
  { destruct Hpl as [(Hlen & _ & _ & pr0 & rest & Hprocs & (tt & ti & Hpc0) & Hrest)
                    |(_ & Hpc & _)].
    - rewrite Hprocs in Hp. destruct pid as [|i]; simpl in Hp.
      + injection Hp as <-. right. eauto.
      + left. apply idle_post. rewrite Forall_forall in Hrest.
        apply (Hrest pr). eapply nth_error_In; eauto.
    - left. rewrite Forall_forall in Hpc. apply (Hpc pr).
      eapply nth_error_In; eauto. }
  unfold hospital_ref, doctor_at, segment.
  destruct Hpc as [Hpc|(Hlen & nd & tt & ti & Hpc)].
  - destruct (pc pr) as [name h|name h a|name h a req|name h req|h p|h p
                        |nd tt ti|hosp ti i|h [|n]| ] eqn:Epc;
      simpl in Hpc; try contradiction; subst;
      unfold patient_arrive, patient_request, patient_granted,
        patient_treated, treat_start, setup_start, setup_loop, setup_wait,
        add_doctors_loop, initial_patients;
      try destruct script;
      unfold exec, bind; cbn -[list_upd nth];
      repeat (match goal with
              | |- context [if ?c then _ else _] => destruct c eqn:?
              end; cbn -[list_upd nth]);
      rewrite ?nth_list_upd;
      repeat match goal with
             | |- context [(?a =? ?b) && ?c] =>
                 destruct (Nat.eqb_spec a b) as [?|?];
                 [try discriminate; subst|]; cbn [andb]
             end;
      repeat match goal with
             | |- context [if ?c then _ else _] => destruct c
             end;
      cbn [doctor with_doctor with_queue with_queue_length];
      first [apply grows_refl | apply grows_request].
  - rewrite Hpc. unfold setup_start, setup_wait, initial_patients.
    destruct script; unfold exec, bind; cbn -[list_upd nth];
      destruct (hospitals s); try discriminate; cbn; apply grows_refl.
Qed.

Lemma grows_trigger_put_at h (s : State R) :
  grows (doctor_at hospital_ref s) (doctor_at hospital_ref (exec (trigger_put h) s)).
Proof.
  unfold hospital_ref, doctor_at. cbn -[list_upd nth]. rewrite nth_list_upd.
  destruct (Nat.eqb_spec 0 h) as [<-|Hne]; cbn [andb]; [|apply grows_refl].
  destruct (0 <? length (hospitals s)); [|apply grows_refl].
  cbn [doctor with_doctor]. apply grows_trigger_put.
Qed.

Lemma grows_run_callbacks cbs (s : State R) :
  sound script s ->
  grows (doctor_at hospital_ref s)
        (doctor_at hospital_ref (exec (run_callbacks script cbs) s)).
Proof.
  revert s. induction cbs as [|cb cbs IH]; intros s Hs; [apply grows_refl|].
  simpl. rewrite exec_bind.
  assert (H1 : sound script (exec (run_callback script cb) s)
               /\ grows (doctor_at hospital_ref s)
                        (doctor_at hospital_ref (exec (run_callback script cb) s))).
  { destruct cb; simpl; try (split; [exact Hs | apply grows_refl]).
    - rewrite exec_bind. change (exec (ret false) ?x) with x.
      destruct Hs as [St Hpl]. split.
      + split; [apply stats_ok_resume, St | apply placed_resume; assumption].
      + unfold exec at 1, resume.
        destruct (nth_error (procs s) pid) as [pr|] eqn:Hp; [|apply grows_refl].
        apply grows_segment; assumption.
    - rewrite exec_bind. change (exec (ret false) ?x) with x.
      destruct Hs as [St Hpl]. split.
      + split; [|apply (placed_trigger_put h Hpl)].
        eapply stats_ok_frame; [| | |exact St]; reflexivity.
      + apply grows_trigger_put_at. }
  destruct H1 as [Hs1 Hg1].
  destruct (fst (run_callback script cb s)); [exact Hg1|].
  eapply grows_trans; [exact Hg1 | apply IH, Hs1].
Qed.

Lemma grows_step (s : State R) :
  sound script s ->
  grows (doctor_at hospital_ref s) (doctor_at hospital_ref (snd (step script s))).
Proof.
  intros [St H]. unfold step, fire.
  destruct (heappop (heap (env s))) as [[e rest]|]; simpl; [|apply grows_refl].
  match goal with
  | |- grows _ (doctor_at _ (snd (run_callbacks _ ?cbs ?s2))) =>
      change (doctor_at hospital_ref s) with (doctor_at hospital_ref s2);
      apply (@grows_run_callbacks cbs s2)
  end.
  split.
  - eapply stats_ok_frame; [| | |exact St]; reflexivity.
  - eapply placed_same; [| | | |exact H]; reflexivity.
Qed.

Lemma grows_reach_from (s0 s : State R) :
  sound script s0 -> reach_from script s0 s ->
  grows (doctor_at hospital_ref s0) (doctor_at hospital_ref s).
Proof.
  intros H0 Hr. induction Hr as [|s Hr IH|at_ s s' Hr IH Hrun|h k s Hr IH Hh].
  - apply grows_refl.
  - eapply grows_trans; [exact IH|]. apply grows_step.
    eapply sound_reach_from; eauto.
  - revert Hrun. unfold run_start.
    destruct (Qle_bool at_ (now (env s))); [discriminate|].
    intros [= <-]. exact IH.
  - exact IH.
Qed.

(** One turn of the loop of [add_doctors] files one request and nothing
    else. *)
Lemma add_doctors_loop_request pid pev h n (s : State R) :
  h < length (hospitals s) ->
  doctor_at h (exec (add_doctors_loop pid pev h (S n)) s)
  = fst (Resource.request (length (events s)) (doctor_at h s)).
Proof.
  intros Hh. unfold doctor_at, add_doctors_loop.
  unfold exec, bind. cbn -[list_upd nth]. rewrite nth_list_upd.
  rewrite Nat.eqb_refl. destruct (Nat.ltb_spec h (length (hospitals s))); [|lia].
  reflexivity.
Qed.

Lemma request_full ev r :
  Resource.count r = Resource.capacity r ->
  fst (Resource.request ev r)
  = Resource.mk (Resource.capacity r) (Resource.users r)
      (Resource.put_queue r ++ [ev]).
Proof.
  unfold Resource.count, Resource.request, Resource.trigger_put. simpl.
  intros H. destruct (Resource.put_queue r ++ [ev]) eqn:E; [reflexivity|].
  rewrite H, Nat.ltb_irrefl. reflexivity.
Qed.

Lemma extends_refl l : extends l l.
Proof. exists []. rewrite app_nil_r. reflexivity. Qed.

Lemma extends_trans l1 l2 l3 : extends l1 l2 -> extends l2 l3 -> extends l1 l3.
Proof. intros [k1 ->] [k2 ->]. exists (k1 ++ k2). rewrite app_assoc. reflexivity. Qed.

Lemma extends_put name l : extends l (l ++ [name]).
Proof. exists [name]. reflexivity. Qed.

Lemma extends_segment pid pr h (s : State R) :
  h < length (hospitals s) ->
  extends (items_at h s) (items_at h (exec (segment script pid pr) s)).
Proof.
  intros Hh. unfold items_at, segment.
  destruct (pc pr) as [name h'|name h' a|name h' a req|name h' req|h' p|h' p
                      |nd tt ti|hosp ti i|h' [|n]| ] eqn:Epc;
    unfold patient_arrive, patient_request, patient_granted,
      patient_treated, treat_start, setup_start, setup_loop, setup_wait,
      add_doctors_loop, initial_patients;
    try destruct script;
    unfold exec, bind; cbn -[list_upd nth];
    repeat (match goal with
            | |- context [if ?c then _ else _] => destruct c eqn:?
            end; cbn -[list_upd nth]);
    rewrite ?nth_list_upd, ?app_nth1 by exact Hh;
    repeat match goal with
           | |- context [(?a =? ?b) && ?c] =>
               destruct (Nat.eqb_spec a b) as [?|?]; [subst|]; cbn [andb]
           end;
    repeat match goal with
           | |- context [if ?c then _ else _] => destruct c
           end;
    cbn [queue with_doctor with_queue with_queue_length Store.put Store.items];
    first [apply extends_refl | apply extends_put].
Qed.

Lemma extends_trigger_put h' h (s : State R) :
  extends (items_at h s) (items_at h (exec (trigger_put h') s)).
Proof.
  unfold items_at. cbn -[list_upd nth]. rewrite nth_list_upd.
  destruct ((h =? h') && (h <? length (hospitals s))); apply extends_refl.
Qed.

Lemma extends_run_callback cb h (s : State R) :
  h < length (hospitals s) ->
  extends (items_at h s) (items_at h (exec (run_callback script cb) s)).
Proof.
  intros Hh. destruct cb; simpl; try apply extends_refl.
  - rewrite exec_bind. change (exec (ret false) ?x) with x.
    unfold exec at 1, resume.
    destruct (nth_error (procs s) pid) as [pr|]; [|apply extends_refl].
    apply extends_segment, Hh.
  - rewrite exec_bind. change (exec (ret false) ?x) with x.
    apply extends_trigger_put.
Qed.

Lemma extends_run_callbacks cbs h (s : State R) :
  h < length (hospitals s) ->
  extends (items_at h s) (items_at h (exec (run_callbacks script cbs) s)).
Proof.
  revert s. induction cbs as [|cb cbs IH]; intros s Hh; [apply extends_refl|].
  simpl. rewrite exec_bind.
  pose proof (@extends_run_callback cb h s Hh) as H1.
  pose proof (ext_hospitals (sat_ext_run_callback script cb s)) as Hl.
  destruct (fst (run_callback script cb s)); [exact H1|].
  eapply extends_trans; [exact H1 | apply IH; lia].
Qed.

Lemma extends_step h (s : State R) :
  h < length (hospitals s) ->
  extends (items_at h s) (items_at h (snd (step script s))).
Proof.
  intros Hh. unfold step, fire.
  destruct (heappop (heap (env s))) as [[e rest]|]; simpl; [|apply extends_refl].
  match goal with
  | |- extends _ (items_at _ (snd (run_callbacks _ ?cbs ?s2))) =>
      change (items_at h s) with (items_at h s2);
      apply (@extends_run_callbacks cbs h s2)
  end.
  exact Hh.
Qed.

Lemma reach_from_hospitals (s0 s : State R) :
  inv s0 -> reach_from script s0 s ->
  length (hospitals s0) <= length (hospitals s)
  /\ forall h, h < length (hospitals s0) ->
       Resource.capacity (doctor_at h s) = Resource.capacity (doctor_at h s0).
Proof.
  intros H0 Hr. induction Hr as [|s Hr IH|at_ s s' Hr IH Hrun|h k s Hr IH Hh].
  - split; [lia | reflexivity].
  - destruct IH as [Hl Hc].
    pose proof (step_ext script (proj1 (inv_reach_from H0 Hr))) as E.
    split; [pose proof (ext_hospitals E); lia|].
    intros h Hh. rewrite (ext_capacity E); [apply Hc, Hh | lia].
  - destruct IH as [Hl Hc].
    pose proof (run_start_ext _ _ Hrun) as E.
    split; [pose proof (ext_hospitals E); lia|].
    intros h Hh. rewrite (ext_capacity E); [apply Hc, Hh | lia].
  - destruct IH as [Hl Hc].
    pose proof (spawn_add_doctors_ext h k s) as E.
    split; [pose proof (ext_hospitals E); lia|].
    intros h' Hh'. rewrite (ext_capacity E); [apply Hc, Hh' | lia].
Qed.

Lemma extends_reach_from h (s0 s : State R) :
  inv s0 -> reach_from script s0 s -> h < length (hospitals s0) ->
  extends (items_at h s0) (items_at h s).
Proof.
  intros H0 Hr Hh. induction Hr as [|s Hr IH|at_ s s' Hr IH Hrun|h' k s Hr IH Hh'].
  - apply extends_refl.
  - eapply extends_trans; [exact IH|]. apply extends_step.
    pose proof (proj1 (reach_from_hospitals H0 Hr)). lia.
  - revert Hrun. unfold run_start.
    destruct (Qle_bool at_ (now (env s))); [discriminate|].
    intros [= <-]. exact IH.
  - exact IH.
Qed.

Lemma capacity_reach (s : State R) h :
  reach script s -> h < length (hospitals s) ->
  Resource.capacity (doctor_at h s) = NUM_DOCTORS.
Proof.
  intros Hr Hh. destruct (sound_reach Hr) as [_ Hpl].
  destruct Hr as [seed Hr].
  destruct (reach_from_hospitals (inv_boot R seed) Hr) as [_ Hc].
  assert (H0 : Resource.capacity (doctor_at 0 s) = NUM_DOCTORS).
  { rewrite Hc; [reflexivity | cbn; lia]. }
  destruct Hpl as [(Hlen & _)|(Hlen & _ & Hcap & _)].
  - assert (h = 0) as -> by lia. exact H0.
  - destruct h as [|[|h]]; [exact H0 | exact Hcap | lia].
Qed.

Lemma samples_from_sorted n l :
  StronglySorted Z.le (samples_from n l)
  /\ Forall (Z.le (Z.of_nat n)) (samples_from n l).
Proof.
  revert n. induction l as [|e l IH]; intros n; simpl.
  - split; constructor.
  - destruct (IH n) as [S0 F0]. destruct (IH (S n)) as [S1 F1].
    destruct e; try (split; assumption).
    + split; [constructor; [exact S1|] | constructor; [lia|]];
        (eapply Forall_impl; [|exact F1]); simpl; intros; lia.
    + split; [constructor; [exact S0 | exact F0] | constructor; [lia | exact F0]].
Qed.

End PlacementFacts.

(** ** The queue of a resource is served in order *)

Section FifoFacts.

Local Open Scope nat_scope.
Import ResourceFacts.

Variable R : Random.
Variable script : Script.






End FifoFacts.

(** ** The next event is determined *)

Section DeterminismFacts.

Local Open Scope nat_scope.

Variable R : Random.
Variable script : Script.

Ltac key_cases :=
  unfold key_lt;
  repeat match goal with
         | |- context [(?x ?= ?y)%Q] => destruct (Qcompare_spec x y)
         end;
  try discriminate; try reflexivity; try (exfalso; lra);
  repeat match goal with
         | |- context [?a <? ?b] => destruct (Nat.ltb_spec a b)
         | |- context [?a =? ?b] => destruct (Nat.eqb_spec a b)
         end;
  simpl; intros; try discriminate; try reflexivity; try lia.

Lemma key_lt_asym a b : key_lt a b = true -> key_lt b a = false.
Proof. key_cases. Qed.

Lemma key_le_trans a b c :
  key_lt b a = false -> key_lt c b = false -> key_lt c a = false.
Proof. key_cases. Qed.

Lemma key_le_antisym a b :
  key_lt a b = false -> key_lt b a = false -> e_eid a = e_eid b.
Proof. key_cases. Qed.

Lemma key_lt_irrefl a : key_lt a a = false.
Proof. key_cases. Qed.

Lemma heap_min_spec l e :
  (heap_min e l = e \/ In (heap_min e l) l)
  /\ key_lt e (heap_min e l) = false
  /\ forall x, In x l -> key_lt x (heap_min e l) = false.
Proof.
  revert e. induction l as [|x l IH]; intros e; simpl.
  - split; [left; reflexivity | split; [apply key_lt_irrefl | intros x []]].
  - destruct (IH (if key_lt x e then x else e)) as (Hin & Hle & Hall).
    set (m := heap_min (if key_lt x e then x else e) l) in *.
    destruct (key_lt x e) eqn:E.
    + split; [|split].
      * destruct Hin as [->|Hin]; auto.
      * eapply key_le_trans; [exact Hle|]. apply key_lt_asym, E.
      * intros y [<-|Hy]; [exact Hle | apply Hall, Hy].
    + split; [|split].
      * destruct Hin as [->|Hin]; auto.
      * exact Hle.
      * intros y [<-|Hy]; [|apply Hall, Hy].
        eapply key_le_trans; [exact Hle | exact E].
Qed.

Lemma heappop_is_next l m rest :
  heappop l = Some (m, rest) ->
  is_next m l /\ rest = heap_remove (e_eid m) l.
Proof.
  destruct l as [|e l]; [discriminate|]. unfold heappop.
  intros [= <- <-]. destruct (heap_min_spec l e) as (Hin & Hle & Hall).
  split; [split|reflexivity].
  - destruct Hin as [->|Hin]; [left; reflexivity | right; exact Hin].
  - intros x [<-|Hx]; [exact Hle | apply Hall, Hx].
Qed.

Lemma NoDup_map_eq A B (f : A -> B) l x y :
  NoDup (map f l) -> In x l -> In y l -> f x = f y -> x = y.
Proof.
  induction l as [|z l IH]; simpl; intros Hnd Hx Hy E; [destruct Hx|].
  inversion Hnd as [|? ? Hn Hnd']; subst.
  destruct Hx as [->|Hx], Hy as [->|Hy]; auto.
  - exfalso. apply Hn. rewrite E. apply in_map, Hy.
  - exfalso. apply Hn. rewrite <- E. apply in_map, Hx.
Qed.

(** The entries of a heap have distinct numbers, so only one of them can
    be the next. *)
Lemma is_next_unique l e e' :
  NoDup (map e_eid l) -> is_next e l -> is_next e' l -> e = e'.
Proof.
  intros Hnd [He Hmin] [He' Hmin'].
  apply (@NoDup_map_eq _ _ e_eid l e e' Hnd He He').
  apply key_le_antisym; [apply Hmin', He | apply Hmin, He'].
Qed.

Lemma step_next_step (s : State R) : next_step script s (step script s).
Proof.
  unfold step. destruct (heappop (heap (env s))) as [[e rest]|] eqn:E.
  - destruct (heappop_is_next _ E) as [Hn ->]. apply next_fire, Hn.
  - apply next_empty. destruct (heap (env s)); [reflexivity | discriminate].
Qed.

Lemma next_step_step (s : State R) o :
  heap_ok s -> next_step script s o -> o = step script s.
Proof.
  intros [Hnd _] H. destruct H as [He|e Hn]; unfold step.
  - rewrite He. reflexivity.
  - destruct (heappop (heap (env s))) as [[m rest]|] eqn:E.
    + destruct (heappop_is_next _ E) as [Hm ->].
      rewrite (is_next_unique Hnd Hn Hm). reflexivity.
    + destruct (heap (env s)); [destruct Hn as [[] _] | discriminate].
Qed.

Lemma run_to_inv (s s' : State R) : run_to script s s' -> inv s -> inv s'.
Proof.
  induction 1 as [s s1 s' Hs _ IH|s s' Hs|s s' Hs]; intros Hi;
    pose proof (next_step_step (proj1 (proj2 Hi)) Hs) as E;
    pose proof (inv_step script Hi) as Hi'; rewrite <- E in Hi'; auto.
Qed.

Lemma run_to_fun (s s1 s2 : State R) :
  inv s -> run_to script s s1 -> run_to script s s2 -> s1 = s2.
Proof.
  intros Hi H1. revert s2 Hi.
  induction H1 as [s sa s1 Hs _ IH|s s1 Hs|s s1 Hs]; intros s2 Hi H2;
    pose proof (next_step_step (proj1 (proj2 Hi)) Hs) as E;
    destruct H2 as [s sb s2 Hs2 H2|s s2 Hs2|s s2 Hs2];
    pose proof (next_step_step (proj1 (proj2 Hi)) Hs2) as E2;
    rewrite <- E in E2; try discriminate; injection E2 as E2.
  - subst sb. apply IH; [|exact H2].
    pose proof (inv_step script Hi) as Hi'. rewrite <- E in Hi'. exact Hi'.
  - symmetry. exact E2.
  - symmetry. exact E2.
Qed.

Lemma run_loop_run_to fuel (s s' : State R) :
  run_loop script fuel s = Some s' -> run_to script s s'.
Proof.
  revert s. induction fuel as [|fuel IH]; intros s; simpl; [discriminate|].
  pose proof (step_next_step s) as Hs.
  destruct (step script s) as [[| |] s1].
  - intros H. eapply run_continue; [exact Hs | apply IH, H].
  - intros [= <-]. apply run_stop, Hs.
  - intros [= <-]. apply run_empty, Hs.
Qed.

Lemma execution_fun seed (s s' : State R) :
  execution script seed s -> execution script seed s' -> s = s'.
Proof.
  intros [s0 s1 s2 sa H0 H1 H2 H3] [s0' s1' s2' sb H0' H1' H2' H3'].
  rewrite H0 in H0'. injection H0' as <-.
  assert (Hi0 : inv s0) by (eapply inv_run_start; [apply inv_boot | exact H0]).
  pose proof (run_to_fun Hi0 H1 H1') as <-.
  rewrite H2 in H2'. injection H2' as <-.
  assert (Hi2 : inv s2).
  { eapply inv_run_start; [|exact H2].
    apply inv_spawn_add_doctors. eapply run_to_inv; eauto. }
  exact (run_to_fun Hi2 H3 H3').
Qed.

Lemma main_execution fuel1 fuel2 (s : State R) :
  main R script fuel1 fuel2 = Some s -> execution script RANDOM_SEED s.
Proof.
  unfold main, run.
  destruct (run_start (inject_Z SIM_TIME) (boot R RANDOM_SEED))
    as [s0|] eqn:E0; [|discriminate].
  destruct (run_loop script fuel1 s0) as [s1|] eqn:E1; [|discriminate].
  destruct (run_start 300 (spawn_add_doctors hospital_ref 2 s1))
    as [s2|] eqn:E2; [|discriminate].
  intros E3. econstructor; eauto using run_loop_run_to.
Qed.

End DeterminismFacts.

(** ** Sums and means *)


Lemma Zsum_fold_right l : Zsum l = fold_right Z.add 0%Z l.
Proof.
  unfold Zsum.
  assert (H : forall a, fold_left Z.add l a = (a + fold_right Z.add 0 l)%Z).
  { induction l as [|x l IH]; intros a; simpl.
    - lia.
    - rewrite IH. lia. }
  rewrite H. lia.
Qed.

Lemma inject_length_nonzero A (x : A) l :
  ~ inject_Z (Z.of_nat (length (x :: l))) == 0.
Proof. unfold Qeq. simpl. lia. Qed.


(** * The claims *)

Section Claims.

Local Open Scope nat_scope.
Import ResourceFacts.

(** C3.  At every point of every run the number of doctor slots in use
    lies between 0 and the capacity of the resource, for every hospital
    of the run; and whatever call is made next on the resource (a
    request of a patient or of [add_doctors], a release, a
    [_trigger_put]) keeps it so. *)
Theorem capacity_invariant (R : Random) (script : Script) (s : State R)
    (h : nat) :
  reach script s -> h < length (hospitals s) ->
  (0 <= Resource.count (doctor_at h s)
   /\ Resource.count (doctor_at h s) <= Resource.capacity (doctor_at h s))
  /\ forall o,
       Resource.count (apply o (doctor_at h s))
       <= Resource.capacity (apply o (doctor_at h s)).
Proof.
  intros Hr Hh.
  destruct (inv_reach Hr) as (_ & _ & _ & Hc).
  split; [exact (Hc h Hh)|].
  intros o. exact (proj2 (ok_apply o (Hc h Hh))).
Qed.

Lemma capacity_invariant_witness :
  let s := steps Uniform 12 (boot (TapeRandom [4; 0; 0; 9] 9) 48) in
  reach Uniform s /\ 1 < length (hospitals s)
  /\ Resource.count (doctor_at 1 s) = 2
  /\ Resource.count (doctor_at 1 s) <= Resource.capacity (doctor_at 1 s).
Proof.
  intros s.
  assert (Hr : reach Uniform s) by apply reach_steps.
  assert (Hh : 1 < length (hospitals s)) by (vm_compute; lia).
  split; [exact Hr | split; [exact Hh | split]].
  - vm_compute. reflexivity.
  - pose proof (capacity_invariant Hr Hh) as [[_ H] _]. exact H.
Defined.

Lemma total_zero w l :
  forallb (fun p => Nat.eqb (w (pc p)) 0) l = true -> total w l = 0.
Proof.
  induction l as [|p l IH]; simpl; [reflexivity|].
  intros H. apply andb_prop in H. destruct H as [H1 H2].
  apply Nat.eqb_eq in H1. rewrite H1, IH; auto.
Qed.

(** C6.  In every state of a run in which no patient process is still
    on its way (each one that was spawned has reached the end of
    [patient], treated or not), the number of arrivals is the number of
    treated patients plus the number of those who left without
    treatment. *)
Theorem conservation (R : Random) (script : Script) (s : State R) :
  reach script s ->
  forallb (fun p => negb (patient_alive (pc p))) (procs s) = true ->
  total_patients s = treated_count s + left_without_treatment_count s.
Proof.
  intros Hr Hall.
  rewrite (arrivals_count (stats_ok_reach Hr)).
  unfold in_hospital. rewrite total_zero; [lia|].
  rewrite forallb_forall in *. intros p Hp. specialize (Hall p Hp).
  destruct (pc p); simpl in *; congruence.
Qed.

Lemma conservation_witness :
  let s := steps Uniform 27 (boot (TapeRandom [4; 0; 0; 9] 9) 48) in
  reach Uniform s
  /\ forallb (fun p => negb (patient_alive (pc p))) (procs s) = true
  /\ total_patients s = 4 /\ treated_count s = 1
  /\ total_patients s = treated_count s + left_without_treatment_count s.
Proof.
  intros s.
  assert (Hr : reach Uniform s) by apply reach_steps.
  assert (Ha : forallb (fun p => negb (patient_alive (pc p))) (procs s) = true)
    by (vm_compute; reflexivity).
  split; [exact Hr | split; [exact Ha | split; [|split]]].
  - vm_compute. reflexivity.
  - vm_compute. reflexivity.
  - pose proof (conservation Hr Ha) as H. exact H.
Defined.




(** C8.  [average_queue_length] is the unweighted arithmetic mean of the
    recorded samples and 0 when there is none; one sample is recorded
    with every arrival (the patient joins the queue) and one with every
    grant (it leaves the queue), and no other. *)
Theorem average_queue_length_sample_mean (R : Random) (script : Script)
    (s : State R) :
  reach script s ->
  match queue_lengths (lists s) with
  | [] => average_queue_length s = 0%Q
  | l => (average_queue_length s * inject_Z (Z.of_nat (length l))
          == inject_Z (fold_right Z.add 0%Z l))%Q
  end
  /\ length (queue_lengths (lists s)) =
     length (arrival_log (log s)) + length (grant_log (log s)).
Proof.
  intros Hr. pose proof (stats_ok_reach Hr) as H. split.
  - unfold average_queue_length.
    destruct (queue_lengths (lists s)) as [|x l]; [reflexivity|].
    rewrite <- Zsum_fold_right.
    unfold Qdiv. rewrite <- Qmult_assoc, (Qmult_comm (/ _)), Qmult_inv_r.
    + ring.
    + apply inject_length_nonzero.
  - rewrite (samples_count H), (log_arrivals H), (log_grants H).
    reflexivity.
Qed.

Lemma average_queue_length_sample_mean_witness :
  let s := steps DTA1 12 (boot (TapeRandom [4; 0; 0; 9] 9) 48) in
  reach DTA1 s
  /\ queue_lengths (lists s) = [1; 2; 3; 4; 3; 2; 1]%Z
  /\ length (queue_lengths (lists s)) =
     length (arrival_log (log s)) + length (grant_log (log s)).
Proof.
  intros s.
  assert (Hr : reach DTA1 s) by apply reach_steps.
  split; [exact Hr | split].
  - vm_compute. reflexivity.
  - pose proof (average_queue_length_sample_mean Hr) as [_ H]. exact H.
Defined.



(** C2 *)
(** C2.  [add_doctors] never changes the capacity of a pool: in every
    state of every run each pool has the capacity [NUM_DOCTORS] it was
    created with; one turn of [add_doctors] is exactly one call of
    [request] on the pool, which leaves the capacity alone; and a request
    made on the pool [add_doctors] is given is never taken out again, as
    nothing releases it. *)
Theorem add_doctors_leaves_capacity (R : Random) (script : Script)
    (s : State R) :
  reach script s ->
  (forall h, h < length (hospitals s) ->
     Resource.capacity (doctor_at h s) = NUM_DOCTORS)
  /\ (forall pid pev h n, h < length (hospitals s) ->
        let s' := exec (add_doctors_loop pid pev h (S n)) s in
        doctor_at h s'
        = fst (Resource.request (length (events s)) (doctor_at h s))
        /\ Resource.capacity (doctor_at h s') = NUM_DOCTORS)
  /\ (forall s', reach_from script s s' ->
        grows (doctor_at hospital_ref s) (doctor_at hospital_ref s')).
Proof.
  intros Hr. split; [|split].
  - intros h Hh. exact (capacity_reach Hr Hh).
  - intros pid pev h n Hh s'. subst s'.
    rewrite add_doctors_loop_request by exact Hh. split; [reflexivity|].
    unfold Resource.request. rewrite capacity_trigger_put. simpl.
    apply (capacity_reach Hr Hh).
  - intros s' Hr'. eapply grows_reach_from; [|exact Hr'].
    apply sound_reach, Hr.
Qed.

Lemma add_doctors_leaves_capacity_witness :
  let R := TapeRandom [4; 0; 0; 9] 9 in
  let s := spawn_add_doctors hospital_ref 2 (steps Uniform 40 (boot R 48)) in
  let s' := steps Uniform 6 s in
  reach Uniform s
  /\ Resource.users (doctor_at hospital_ref s) = []
  /\ Resource.users (doctor_at hospital_ref s') = [46; 49]
  /\ Resource.capacity (doctor_at hospital_ref s') = NUM_DOCTORS.
Proof.
  intros R s s'.
  assert (Hr : reach Uniform s).
  { exists 48%Z. apply reach_add_doctors.
    - apply reach_from_steps, reach_refl.
    - vm_compute. lia. }
  assert (Hr' : reach Uniform s').
  { destruct Hr as [seed Hr]. exists seed. apply reach_from_steps, Hr. }
  split; [exact Hr | split; [|split]].
  - vm_compute. reflexivity.
  - vm_compute. reflexivity.
  - pose proof (add_doctors_leaves_capacity Hr') as (H & _ & _).
    apply H. vm_compute. lia.
Defined.

(** C10.  In uniform.py names put in the store are never taken out, so
    the store of a hospital only grows along a run; each sample of
    [queue_lengths] is the number of arrivals before it (the samples are
    those read off the log by [samples_from]), the samples never decrease,
    and the store holds one name per arrival.  The sample is not the
    number of patients waiting: in the run shown the last sample is 3 while
    one request waits. *)
Theorem uniform_samples_count_arrivals (R : Random) (s : State R) :
  reach Uniform s ->
  queue_lengths (lists s) = samples_from 0 (log s)
  /\ StronglySorted Z.le (queue_lengths (lists s))
  /\ (length (hospitals s) = 2 -> length (items_at 1 s) = total_patients s)
  /\ (forall s' h, reach_from Uniform s s' -> h < length (hospitals s) ->
        extends (items_at h s) (items_at h s'))
  /\ (let s1 := steps Uniform 11 (boot (TapeRandom [4; 0; 0; 9] 9) 48) in
      last (queue_lengths (lists s1)) 0%Z = 3%Z
      /\ length (Resource.put_queue (doctor_at 1 s1)) = 1).
Proof.
  intros Hr.
  assert (Hq : queue_lengths (lists s) = samples_from 0 (log s)
               /\ (length (hospitals s) = 2 ->
                   length (items_at 1 s) = total_patients s)).
  { destruct (sound_reach Hr) as [_ [(Hlen & Hl & Hg & _)|(Hlen & _ & _ & Hst)]].
    - rewrite Hl, Hg. split; [reflexivity | intros; lia].
    - destruct (Hst eq_refl) as [Hit Hq]. split; [exact Hq|].
      intros _. unfold len_items in Hit. apply Nat2Z.inj in Hit. exact Hit. }
  destruct Hq as [Hq Hit].
  split; [exact Hq | split; [|split; [exact Hit | split]]].
  - rewrite Hq. apply (samples_from_sorted 0 (log s)).
  - intros s' h Hr' Hh. eapply extends_reach_from; eauto using inv_reach.
  - vm_compute. split; reflexivity.
Qed.

Lemma uniform_samples_count_arrivals_witness :
  let s := steps Uniform 13 (boot (TapeRandom [4; 0; 0; 9] 9) 48) in
  reach Uniform s
  /\ log s = [Arrived 1 0; Arrived 2 0; Arrived 3 0; Granted 1 0;
              Granted 2 0; LeftWithoutTreatment 2 0]
  /\ samples_from 0 (log s) = [0; 1; 2; 3; 3]%Z
  /\ queue_lengths (lists s) = samples_from 0 (log s).
Proof.
  intros s.
  assert (Hr : reach Uniform s) by apply reach_steps.
  split; [exact Hr | split; [|split]].
  - vm_compute. reflexivity.
  - vm_compute. reflexivity.
  - pose proof (uniform_samples_count_arrivals Hr) as (H & _). exact H.
Defined.

(** One turn of [add_doctors] on a pool that is fully occupied: nobody is
    granted, the pool keeps its capacity and its users, and the request of
    the "doctor" joins the queue behind the waiting patients. *)
Lemma add_doctors_loop_full (R : Random) pid pev h n (s : State R) :
  h < length (hospitals s) ->
  Resource.count (doctor_at h s) = Resource.capacity (doctor_at h s) ->
  doctor_at h (exec (add_doctors_loop pid pev h (S n)) s)
  = Resource.mk (Resource.capacity (doctor_at h s))
      (Resource.users (doctor_at h s))
      (Resource.put_queue (doctor_at h s) ++ [length (events s)]).
Proof.
  intros Hh Hfull. rewrite add_doctors_loop_request by exact Hh.
  apply request_full, Hfull.
Qed.

(** C1, at the failing input.  DTA1.py with a stream of draws that has
    both doctors busy from 151 on and the patients 5, 6 and 7 waiting at
    time 200: the pool the patients use has its two slots taken and the
    queue [25; 29; 41].  The script then runs [add_doctors] with
    [num_doctors_to_add] = 2 on the module-level hospital and goes on to
    300: the capacity of every pool is still 2, the two requests of
    [add_doctors] are granted on a pool no patient uses, no waiting
    patient is granted and [wait_times] is what it was.  Had [add_doctors]
    been given the hospital of the patients, its two requests would have
    queued up behind them, with the same two users and no grant. *)
Lemma add_doctors_grants_no_patient :
  let R := TapeRandom [59; 150; 150; 150; 150; 59; 59; 150; 150; 150; 150] 59 in
  match run DTA1 (inject_Z SIM_TIME) 100 (boot R RANDOM_SEED) with
  | None => False
  | Some s1 =>
      now (env s1) == 200
      /\ doctor_at 1 s1 = Resource.mk 2 [14; 15] [25; 29; 41]
      /\ match run DTA1 300 100 (spawn_add_doctors hospital_ref 2 s1) with
         | None => False
         | Some s =>
             main R DTA1 100 100 = Some s
             /\ doctor_at 1 s = Resource.mk 2 [14; 15] [25; 29; 41; 52]
             /\ doctor_at hospital_ref s = Resource.mk 2 [45; 47] []
             /\ grant_log (log s) = grant_log (log s1)
             /\ wait_times (lists s) = wait_times (lists s1)
         end
      /\ match run DTA1 300 100 (spawn_add_doctors 1 2 s1) with
         | None => False
         | Some s =>
             doctor_at 1 s = Resource.mk 2 [14; 15] [25; 29; 41; 45; 47; 52]
             /\ grant_log (log s) = grant_log (log s1)
         end
  end.
Proof. vm_compute. repeat split; reflexivity. Qed.



(** C5.  For every stream of draws, script and seed, two executions of
    the script end in the same state: the same event log (arrivals,
    grants, treatments and departures with their times) and the same
    lists of results.  An execution may fire, at each step, any entry of
    the heap that has none before it; the numbers [eid] of the entries
    make that entry unique. *)
Theorem same_seed_same_log (R : Random) (script : Script) seed (s s' : State R) :
  execution script seed s -> execution script seed s' ->
  log s = log s' /\ lists s = lists s' /\ s = s'.
Proof.
  intros H H'. rewrite (execution_fun H H'). auto.
Qed.

Lemma same_seed_same_log_witness :
  let R := TapeRandom [59; 150; 150; 150; 150; 59; 59; 150; 150; 150; 150] 59 in
  match main R DTA1 100 100, main R DTA1 150 120 with
  | Some s, Some s' =>
      execution DTA1 RANDOM_SEED s /\ execution DTA1 RANDOM_SEED s'
      /\ log s = log s'
  | _, _ => False
  end.
Proof.
  intros R.
  destruct (main R DTA1 100 100) as [s|] eqn:E1;
    [|vm_compute in E1; discriminate].
  destruct (main R DTA1 150 120) as [s'|] eqn:E2;
    [|vm_compute in E2; discriminate].
  pose proof (main_execution _ _ _ E1) as H1.
  pose proof (main_execution _ _ _ E2) as H2.
  split; [exact H1 | split; [exact H2|]].
  pose proof (same_seed_same_log H1 H2) as [H _]. exact H.
Defined.

End Claims.

(** * Further properties of the scripts *)

Local Open Scope nat_scope.

Section TimeLemmas.

Local Open Scope nat_scope.
Import ResourceFacts.

Variable R : Random.
Variable script : Script.

Lemma Forall_list_upd_const A (P : A -> Prop) i (f : A -> A) l :
  (forall x, P (f x)) -> Forall P l -> Forall P (list_upd i f l).
Proof. intros Hf H. apply Forall_list_upd; auto. Qed.

Lemma sorted_snoc l (t : Q) :
  StronglySorted Qle l -> Forall (fun x => (x <= t)%Q) l ->
  StronglySorted Qle (l ++ [t]).
Proof.
  induction 1 as [|x l Hs IH Hx]; intros Hl; simpl.
  - constructor; constructor.
  - inversion Hl; subst. constructor; [apply IH; assumption|].
    apply Forall_app. split; [exact Hx | constructor; [assumption|constructor]].
Qed.

Lemma log_sorted_snoc (l : list LogEvent) e t :
  log_time e = t ->
  StronglySorted Qle (map log_time l) ->
  Forall (fun e => (0 <= log_time e /\ log_time e <= t)%Q) l ->
  StronglySorted Qle (map log_time (l ++ [e])).
Proof.
  intros <- Hs Hl. rewrite map_app. simpl. apply sorted_snoc; [exact Hs|].
  rewrite Forall_map. eapply Forall_impl; [|exact Hl]. simpl. tauto.
Qed.

Lemma placed_hospital (s : State R) pr h :
  placed script s -> In pr (procs s) ->
  match pc pr with
  | PatientStart _ h' | PatientPut _ h' _ | PatientRequest _ h' _ _
  | PatientTreat _ h' _ | TreatStart h' _ | TreatWait h' _
  | SetupLoop h' _ _ => h' = h
  | _ => False
  end -> h < length (hospitals s).
Proof.
  intros [(Hlen & _ & _ & pr0 & rest & Hprocs & (tr & ti & Hpc0) & Hrest)
         |(Hlen & Hpc & _)] Hin Hh.
  - rewrite Hprocs in Hin. destruct Hin as [<-|Hin].
    + rewrite Hpc0 in Hh. destruct Hh.
    + rewrite Forall_forall in Hrest. specialize (Hrest _ Hin).
      destruct (pc pr); simpl in *; tauto.
  - rewrite Forall_forall in Hpc. specialize (Hpc _ Hin).
    destruct (pc pr); simpl in *; try tauto; subst; lia.
Qed.

Lemma nth_params (hs : list Hospital) h d :
  Forall (fun H => treatment_time H = TREATMENT_TIME) hs ->
  h < length hs -> treatment_time (nth h hs d) = TREATMENT_TIME.
Proof.
  intros H Hh. rewrite Forall_forall in H. apply H, nth_In, Hh.
Qed.

End TimeLemmas.

Ltac grants :=
  repeat (match goal with
          | |- context [match ?o with Some _ => _ | None => _ end] =>
              destruct o eqn:?
          end; cbn).

Ltac time_leaf :=
  match goal with
  | |- (_ <= _)%Q => cbn in *; lra
  | |- (_ <= _ /\ _ <= _)%Q => cbn in *; lra
  | |- Forall _ (_ ++ _) => apply Forall_app; split; time_leaf
  | |- Forall _ (list_upd _ _ _) =>
      apply Forall_list_upd; [time_leaf | intros ? ?; cbn; auto; try lra]
  | |- Forall _ [_] => constructor; [cbn; auto; try lra | constructor]
  | |- Forall _ (_ :: _) => constructor; [cbn; auto; try lra | time_leaf]
  | |- Forall _ [] => constructor
  | |- StronglySorted Qle (map log_time (_ ++ [_])) =>
      eapply log_sorted_snoc; [reflexivity | time_leaf | time_leaf]
  | |- _ => assumption
  | |- _ => idtac
  end.

Section TimeFacts.

Local Open Scope nat_scope.
Import ResourceFacts.

Variable R : Random.
Variable script : Script.

Lemma time_ok_segment pid pr (s : State R) :
  placed script s -> time_ok s -> nth_error (procs s) pid = Some pr ->
  time_ok (exec (segment script pid pr) s).
Proof.
  intros Hpl [T1 T2 T3 T4 T5 T6 T7 T8] Hp.
  pose proof (nth_error_In _ _ Hp) as Hin.
  assert (Ht : pc_time_ok (now (env s)) (pc pr))
    by (rewrite Forall_forall in T3; apply T3, Hin).
  assert (Hq : pc_params_ok (pc pr))
    by (rewrite Forall_forall in T8; apply T8, Hin).
  pose proof (fun h => @placed_hospital R script s pr h Hpl Hin) as Hh.
  unfold segment.
  destruct (pc pr) as [name h|name h a|name h a req|name h req|h p|h p
                      |nd tt ti|hosp ti i|h [|n]| ] eqn:Epc;
    unfold patient_arrive, patient_request, patient_granted,
      patient_treated, treat_start, setup_start, setup_loop, setup_wait,
      add_doctors_loop, initial_patients;
    try destruct script.
  all: cbn in Ht, Hq, Hh.
  all: constructor; norm; grants.
  all: time_leaf.
  all: try lra.
  all: try tauto.
  all: try rewrite (nth_params _ T7 (Hh h eq_refl)).
  all: try match goal with H : _ /\ _ |- _ => destruct H as [-> ->] end.
  all: try match goal with H : _ = T_INTER |- _ => rewrite H in * end.
  all: try (match goal with
            | |- context [rng_expovariate R ?l ?g] =>
                pose proof (expovariate_nonneg R l g)
            end; lra).
  all: try (match goal with
            | |- context [rng_randint R ?a ?b ?g] =>
                let Hr := fresh in
                assert (Hr : (a <= b)%Z)
                  by (unfold TREATMENT_TIME, T_INTER; lia);
                apply (@randint_range R a b g) in Hr;
                unfold TREATMENT_TIME, T_INTER in *;
                let d := fresh "d" in
                set (d := fst (rng_randint R _ _ g)) in *;
                assert (0 <= inject_Z d)%Q
                  by (unfold Qle; simpl; lia);
                lra
            end).
Qed.

Lemma time_ok_resume pid (s : State R) :
  placed script s -> time_ok s -> time_ok (exec (resume script pid) s).
Proof.
  intros Hpl H. unfold exec, resume.
  destruct (nth_error (procs s) pid) as [pr|] eqn:Hp; [|exact H].
  apply time_ok_segment; assumption.
Qed.

Lemma time_ok_trigger_put h (s : State R) :
  time_ok s -> time_ok (exec (trigger_put h) s).
Proof.
  intros [T1 T2 T3 T4 T5 T6 T7 T8]. constructor; norm; grants; time_leaf.
Qed.

Lemma timed_run_callbacks cbs : preserves (@timed R script) (run_callbacks script cbs).
Proof.
  induction cbs as [|cb cbs IH]; simpl; [intros s H; exact H|].
  apply preserves_bind.
  - destruct cb; simpl; try (intros s H; exact H).
    + apply preserves_bind; [|intros ? ? H; exact H].
      intros s [Hs Ht]. split.
      * apply (@sound_run_callbacks R script [CbResume pid] s Hs).
      * apply time_ok_resume; [apply Hs | exact Ht].
    + apply preserves_bind; [|intros ? ? H; exact H].
      intros s [Hs Ht]. split.
      * apply (@sound_run_callbacks R script [CbTriggerPut h] s Hs).
      * apply time_ok_trigger_put, Ht.
  - intros [|]; [intros s H; exact H | exact IH].
Qed.

Lemma key_le_time a b : key_lt b a = false -> (e_time a <= e_time b)%Q.
Proof.
  unfold key_lt. destruct (Qcompare_spec (e_time b) (e_time a));
    intros; try discriminate; lra.
Qed.

Lemma pc_time_ok_mono t t' p : (t <= t')%Q -> pc_time_ok t p -> pc_time_ok t' p.
Proof. destruct p; simpl; intros; try exact I; lra. Qed.

(** Moving the clock forward to the time of the next entry. *)
Lemma time_ok_pop (s : State R) e rest :
  time_ok s -> heappop (heap (env s)) = Some (e, rest) ->
  (now (env s) <= e_time e)%Q
  /\ time_ok (set_env {| now := e_time e; heap := rest; eid := eid (env s) |} s).
Proof.
  intros [T1 T2 T3 T4 T5 T6 T7 T8] Hpop.
  destruct (heappop_is_next _ Hpop) as [[Hin Hmin] ->].
  assert (Hle : (now (env s) <= e_time e)%Q).
  { rewrite Forall_forall in T2. apply T2, Hin. }
  split; [exact Hle|]. constructor; cbn.
  - lra.
  - apply Forall_forall. intros x Hx. apply key_le_time, Hmin.
    eapply In_heap_remove, Hx.
  - eapply Forall_impl; [|exact T3]. intros p. apply pc_time_ok_mono, Hle.
  - eapply Forall_impl; [|exact T4]. cbn. intros; lra.
  - exact T5.
  - eapply Forall_impl; [|exact T6]. cbn. intros; lra.
  - exact T7.
  - exact T8.
Qed.

Lemma timed_step (s : State R) : timed script s -> timed script (snd (step script s)).
Proof.
  intros [Hs Ht]. pose proof (sound_step Hs) as Hs'. revert Hs'.
  unfold step, fire.
  destruct (heappop (heap (env s))) as [[e rest]|] eqn:E; simpl;
    [|intros; split; assumption].
  intros _. apply timed_run_callbacks. split.
  - destruct Hs as [St Hp]. split.
    + eapply stats_ok_frame; [| | |exact St]; reflexivity.
    + eapply placed_same; [| | | |exact Hp]; reflexivity.
  - destruct (time_ok_pop Ht E) as [_ [T1 T2 T3 T4 T5 T6 T7 T8]].
    constructor; assumption.
Qed.

Lemma Qle_bool_false a b : Qle_bool a b = false -> (b < a)%Q.
Proof.
  intros H. apply Qnot_le_lt. intros Hle.
  apply Qle_bool_iff in Hle. congruence.
Qed.

Lemma time_ok_run_start at_ (s s' : State R) :
  time_ok s -> run_start at_ s = Some s' -> time_ok s'.
Proof.
  intros [T1 T2 T3 T4 T5 T6 T7 T8]. unfold run_start.
  destruct (Qle_bool at_ (now (env s))) eqn:E; [discriminate|].
  apply Qle_bool_false in E. intros [= <-].
  constructor; norm; time_leaf.
Qed.

Lemma time_ok_process start (s : State R) :
  pc_time_ok (now (env s)) start -> pc_params_ok start ->
  time_ok s -> time_ok (exec (process start) s).
Proof.
  intros H1 H2 [T1 T2 T3 T4 T5 T6 T7 T8]. constructor; norm; time_leaf.
Qed.

Lemma time_ok_boot seed : time_ok (boot R seed).
Proof.
  apply time_ok_process; [exact I | split; reflexivity|].
  constructor; cbn; repeat constructor; cbn; try lra; try reflexivity.
Qed.

Lemma timed_reach_from (s0 s : State R) :
  timed script s0 -> reach_from script s0 s -> timed script s.
Proof.
  intros H0 Hr. induction Hr as [|s Hr IH|at_ s s' Hr IH Hrun|h k s Hr IH Hh].
  - exact H0.
  - apply timed_step, IH.
  - split.
    + eapply sound_reach_from; [apply IH|].
      eapply reach_run; [apply reach_refl | exact Hrun].
    + eapply time_ok_run_start; [apply IH | exact Hrun].
  - split.
    + eapply sound_reach_from; [apply IH|].
      apply reach_add_doctors; [apply reach_refl | exact Hh].
    + apply time_ok_process; [exact I | exact I | apply IH].
Qed.

Lemma timed_reach (s : State R) : reach script s -> timed script s.
Proof.
  intros [seed Hr]. eapply timed_reach_from; [|exact Hr].
  split; [apply sound_boot | apply time_ok_boot].
Qed.

End TimeFacts.

Section TimeClaims.

Local Open Scope nat_scope.
Import ResourceFacts.

Variable R : Random.
Variable script : Script.

(** A callback leaves the clock alone. *)
Lemma now_segment pid pr (s : State R) :
  now (env (exec (segment script pid pr) s)) = now (env s).
Proof.
  unfold segment.
  destruct (pc pr) as [name h|name h a|name h a req|name h req|h p|h p
                      |nd tr ti|hosp ti i|h [|n]| ];
    unfold patient_arrive, patient_request, patient_granted,
      patient_treated, treat_start, setup_start, setup_loop, setup_wait,
      add_doctors_loop, initial_patients;
    try destruct script; norm; grants; try reflexivity.
Qed.

Lemma now_run_callbacks cbs (s : State R) :
  now (env (snd (run_callbacks script cbs s))) = now (env s).
Proof.
  revert s. induction cbs as [|cb cbs IH]; intros s; [reflexivity|].
  simpl. unfold bind.
  assert (H : now (env (snd (run_callback script cb s))) = now (env s)).
  { destruct cb; try reflexivity.
    - simpl. unfold bind, resume; simpl.
      destruct (nth_error (procs s) pid) as [pr|]; [|reflexivity].
      apply now_segment.
    - simpl. norm; grants; reflexivity. }
  destruct (fst (run_callback script cb s)); simpl; [exact H|].
  rewrite IH. exact H.
Qed.

Lemma now_step (s : State R) :
  time_ok s -> (now (env s) <= now (env (snd (step script s))))%Q.
Proof.
  intros Ht. unfold step, fire.
  destruct (heappop (heap (env s))) as [[e rest]|] eqn:E; simpl; [|lra].
  rewrite now_run_callbacks. simpl. apply (time_ok_pop Ht E).
Qed.

Lemma now_reach_from (s s' : State R) :
  timed script s -> reach_from script s s' ->
  (now (env s) <= now (env s'))%Q.
Proof.
  intros H0 Hr. induction Hr as [|s' Hr IH|at_ s' s'' Hr IH Hrun|h k s' Hr IH Hh].
  - lra.
  - pose proof (now_step (proj2 (timed_reach_from H0 Hr))). lra.
  - revert Hrun. unfold run_start.
    destruct (Qle_bool at_ (now (env s'))); [discriminate|].
    intros [= <-]. exact IH.
  - exact IH.
Qed.

(** Log entries of one kind, in terms of [filter]. *)
Lemma sorted_filter (f : LogEvent -> bool) l :
  StronglySorted Qle (map log_time l) ->
  StronglySorted Qle (map log_time (filter f l)).
Proof.
  induction l as [|e l IH]; simpl; intros H; [constructor|].
  inversion H as [|? ? Hs Hf]; subst.
  destruct (f e); simpl; [|apply IH, Hs].
  constructor; [apply IH, Hs|].
  rewrite Forall_map in *. apply Forall_forall. intros x Hx.
  apply filter_In in Hx. rewrite Forall_forall in Hf. apply Hf, Hx.
Qed.

Lemma arrival_log_filter l : arrival_log l = map log_time (filter is_arrival l).
Proof. induction l as [|[] l IH]; simpl; congruence. Qed.

Lemma treated_log_filter l : treated_log l = map log_time (filter is_treated l).
Proof. induction l as [|[] l IH]; simpl; congruence. Qed.

Lemma left_log_filter l : left_log l = map log_time (filter is_left l).
Proof. induction l as [|[] l IH]; simpl; congruence. Qed.

Lemma past_filter (f : LogEvent -> bool) (t : Q) l :
  Forall (fun e => (0 <= log_time e /\ log_time e <= t)%Q) l ->
  Forall (fun x => (0 <= x /\ x <= t)%Q) (map log_time (filter f l)).
Proof.
  intros H. rewrite Forall_map. apply Forall_forall. intros x Hx.
  apply filter_In in Hx. rewrite Forall_forall in H. apply H, Hx.
Qed.

(** X1.  The clock never goes back: along a run [env.now] starts at or
    after 0 and never decreases, and no entry of the event heap lies in the
    past, so no [Timeout] of the scripts has a negative delay. *)
Theorem clock_never_goes_back (s s' : State R) :
  reach script s -> reach_from script s s' ->
  (0 <= now (env s))%Q /\ (now (env s) <= now (env s'))%Q
  /\ Forall (fun e => (now (env s') <= e_time e)%Q) (heap (env s')).
Proof.
  intros Hr Hr'. pose proof (timed_reach Hr) as Ht.
  split; [apply Ht | split].
  - apply (now_reach_from Ht Hr').
  - apply (timed_reach_from Ht Hr').
Qed.

Lemma reach_chronological (s : State R) :
  reach script s ->
  chronological (now (env s)) (arrival_times (lists s))
  /\ chronological (now (env s)) (treated_times (lists s))
  /\ chronological (now (env s)) (left_without_treatment_times (lists s))
  /\ Forall (fun w => (0 <= w /\ w <= now (env s))%Q) (wait_times (lists s)).
Proof.
  intros Hr. destruct (timed_reach Hr) as [[St _] Ht].
  rewrite (log_arrivals St), (log_treated St), (log_left St).
  rewrite arrival_log_filter, treated_log_filter, left_log_filter.
  repeat split;
    first [apply sorted_filter, Ht | apply past_filter, Ht | apply Ht].
Qed.

(** X2.  In every state of a run [arrival_times], [treated_times] and
    [left_without_treatment_times] are in increasing order of time, all
    their entries lie between 0 and the clock, and every recorded wait
    time is between 0 and the clock. *)
Theorem result_lists_chronological (s : State R) :
  reach script s ->
  chronological (now (env s)) (arrival_times (lists s))
  /\ chronological (now (env s)) (treated_times (lists s))
  /\ chronological (now (env s)) (left_without_treatment_times (lists s))
  /\ Forall (fun w => (0 <= w /\ w <= now (env s))%Q) (wait_times (lists s)).
Proof. apply reach_chronological. Qed.

End TimeClaims.

Lemma clock_never_goes_back_witness :
  let R := TapeRandom [4; 0; 0; 9] 9 in
  let s := steps DTA1 20 (boot R 48) in
  let s' := steps DTA1 20 s in
  (now (env s) == 1)%Q /\ (now (env s') == 35)%Q
  /\ (now (env s) <= now (env s'))%Q.
Proof.
  intros R s s'.
  assert (Hr : reach DTA1 s) by apply reach_steps.
  assert (Hr' : reach_from DTA1 s s') by apply reach_from_steps, reach_refl.
  split; [vm_compute; reflexivity | split; [vm_compute; reflexivity|]].
  pose proof (clock_never_goes_back Hr Hr') as (_ & H & _). exact H.
Defined.

Lemma result_lists_chronological_witness :
  let R := TapeRandom [4; 0; 0; 9] 9 in
  let s := steps DTA1 40 (boot R 48) in
  arrival_times (lists s) <> []
  /\ chronological (now (env s)) (arrival_times (lists s)).
Proof.
  intros R s.
  assert (Hr : reach DTA1 s) by apply reach_steps.
  split; [vm_compute; discriminate|].
  pose proof (result_lists_chronological Hr) as (H & _). exact H.
Defined.

Section PlotFacts.

Local Open Scope nat_scope.
Import ResourceFacts.


Lemma time_bins_eq :
  time_bins = map (fun k => (10 * Z.of_nat k)%Z) (seq 0 21).
Proof. reflexivity. Qed.

Lemma downward_before tb : downward (fun t => Qlt_bool t (inject_Z tb)).
Proof.
  intros t t' Hle. unfold Qlt_bool. rewrite !negb_true_iff.
  intros H. destruct (Qle_bool (inject_Z tb) t) eqn:E; [|reflexivity].
  apply Qle_bool_iff in E.
  assert (Qle_bool (inject_Z tb) t' = true) by (apply Qle_bool_iff; lra).
  congruence.
Qed.

Lemma downward_upto T : downward (fun t => Qle_bool t T).
Proof.
  intros t t' Hle H. apply Qle_bool_iff in H. apply Qle_bool_iff. lra.
Qed.

Lemma Qlt_bool_iff a b : Qlt_bool a b = true <-> (a < b)%Q.
Proof.
  unfold Qlt_bool. rewrite negb_true_iff. split.
  - intros H. apply Qnot_le_lt. intros Hle. apply Qle_bool_iff in Hle. congruence.
  - intros H. destruct (Qle_bool b a) eqn:E; [|reflexivity].
    apply Qle_bool_iff in E. lra.
Qed.

(** Counting under a larger threshold gives at least as much. *)
Lemma filter_length_le A (p q : A -> bool) l :
  (forall x, p x = true -> q x = true) ->
  length (filter p l) <= length (filter q l).
Proof.
  intros H. induction l as [|x l IH]; simpl; [lia|].
  destruct (p x) eqn:E.
  - rewrite (H _ E). simpl. lia.
  - destruct (q x); simpl; lia.
Qed.

Lemma count_before_mono l a b :
  (a <= b)%Z -> count_before l a <= count_before l b.
Proof.
  intros H. apply filter_length_le. intros t. rewrite !Qlt_bool_iff.
  intros Ht. assert (inject_Z a <= inject_Z b)%Q by (rewrite <- Zle_Qle; exact H).
  lra.
Qed.

Lemma count_upto_mono l a b :
  (a <= b)%Q -> count_upto l a <= count_upto l b.
Proof.
  intros H. apply filter_length_le. intros t Ht.
  apply Qle_bool_iff in Ht. apply Qle_bool_iff. lra.
Qed.

Lemma count_before_zero l :
  Forall (fun t => (0 <= t)%Q) l -> count_before l 0 = 0.
Proof.
  unfold count_before. induction 1 as [|t l Ht _ IH]; simpl; [reflexivity|].
  destruct (Qlt_bool t (inject_Z 0)) eqn:E; [|exact IH].
  apply Qlt_bool_iff in E. change (inject_Z 0) with 0%Q in E. lra.
Qed.

Lemma occurs_cons x y l : occurs x (y :: l) <-> (y == x)%Q \/ occurs x l.
Proof.
  unfold occurs. split.
  - intros (z & [<-|Hz] & E); [left; exact E | right; exists z; auto].
  - intros [E|(z & Hz & E)]; [exists y | exists z]; simpl; auto.
Qed.

Lemma occurs_nil x : ~ occurs x [].
Proof. intros (y & [] & _). Qed.

Lemma occurs_app x l l' : occurs x (l ++ l') <-> occurs x l \/ occurs x l'.
Proof.
  unfold occurs. split.
  - intros (y & Hy & E). apply in_app_or in Hy.
    destruct Hy; [left | right]; exists y; auto.
  - intros [(y & Hy & E)|(y & Hy & E)]; exists y; split; auto using in_or_app.
Qed.

Lemma insert_time_occurs t x l :
  occurs x (insert_time t l) <-> (t == x)%Q \/ occurs x l.
Proof.
  induction l as [|y l IH]; simpl.
  - rewrite occurs_cons. reflexivity.
  - destruct (Qcompare_spec t y) as [E|E|E].
    + rewrite occurs_cons. split; [tauto|].
      intros [H|H]; [|exact H]. left. rewrite <- H. symmetry. exact E.
    + rewrite !occurs_cons. reflexivity.
    + rewrite !occurs_cons, IH. tauto.
Qed.

Lemma insert_time_sorted t l :
  StronglySorted Qlt l -> StronglySorted Qlt (insert_time t l).
Proof.
  induction 1 as [|y l Hs IH Hy]; simpl.
  - constructor; constructor.
  - destruct (Qcompare_spec t y) as [E|E|E].
    + constructor; assumption.
    + constructor; [constructor; assumption|].
      constructor; [exact E|].
      eapply Forall_impl; [|exact Hy]. intros z Hz. lra.
    + constructor; [exact IH|].
      apply Forall_forall. intros z Hz.
      assert (Ho : occurs z (insert_time t l)) by (exists z; split; [exact Hz|reflexivity]).
      apply insert_time_occurs in Ho. destruct Ho as [Ho|(w & Hw & Ew)].
      * lra.
      * rewrite Forall_forall in Hy. specialize (Hy _ Hw). lra.
Qed.

Lemma fold_insert_sorted l acc :
  StronglySorted Qlt acc ->
  StronglySorted Qlt (fold_left (fun acc t => insert_time t acc) l acc).
Proof.
  revert acc. induction l as [|t l IH]; intros acc H; simpl; [exact H|].
  apply IH, insert_time_sorted, H.
Qed.

Lemma fold_insert_occurs x l acc :
  occurs x (fold_left (fun acc t => insert_time t acc) l acc)
  <-> occurs x acc \/ occurs x l.
Proof.
  revert acc. induction l as [|t l IH]; intros acc; simpl.
  - split; [tauto|]. intros [H|H]; [exact H|]. destruct (occurs_nil H).
  - rewrite IH, insert_time_occurs, occurs_cons. tauto.
Qed.

Lemma sorted_set_sorted l : StronglySorted Qlt (sorted_set l).
Proof. apply fold_insert_sorted. constructor. Qed.

Lemma sorted_set_occurs x l : occurs x (sorted_set l) <-> occurs x l.
Proof.
  unfold sorted_set. rewrite fold_insert_occurs. split; [|tauto].
  intros [H|H]; [destruct (occurs_nil H) | exact H].
Qed.

(** The last value of a strictly increasing list bounds the others. *)
Lemma sorted_last_max l d x :
  StronglySorted Qlt l -> In x l -> (x <= last l d)%Q.
Proof.
  intros H. revert x.
  induction H as [|y l Hs IH Hy]; intros x Hx; [destruct Hx|].
  destruct l as [|z l].
  - destruct Hx as [<-|[]]. simpl. lra.
  - change (last (y :: z :: l) d) with (last (z :: l) d).
    destruct Hx as [<-|Hx]; [|apply IH, Hx].
    assert (z <= last (z :: l) d)%Q by (apply IH; left; reflexivity).
    inversion Hy; subst. lra.
Qed.

Lemma count_upto_all l T :
  Forall (fun t => (t <= T)%Q) l -> count_upto l T = length l.
Proof.
  unfold count_upto. induction 1 as [|t l Ht _ IH]; simpl; [reflexivity|].
  apply Qle_bool_iff in Ht. rewrite Ht. simpl. rewrite IH. reflexivity.
Qed.

Lemma sorted_Qlt_map_count l points :
  StronglySorted Qlt points ->
  StronglySorted le (map (count_upto l) points).
Proof.
  induction 1 as [|y ps Hs IH Hy]; simpl; constructor; [exact IH|].
  rewrite Forall_map. eapply Forall_impl; [|exact Hy].
  intros z Hz. apply count_upto_mono. lra.
Qed.

End PlotFacts.

Section LogLemmas.

Local Open Scope nat_scope.
Import ResourceFacts.


Lemma firstn_snoc A k (l : list A) x :
  firstn k (l ++ [x]) = firstn k l \/ firstn k (l ++ [x]) = l ++ [x].
Proof.
  destruct (Nat.le_gt_cases k (length l)) as [H|H].
  - left. rewrite firstn_app. replace (k - length l) with 0 by lia.
    simpl. apply app_nil_r.
  - right. apply firstn_all2. rewrite length_app. simpl. lia.
Qed.

Lemma balanced_whole l :
  balanced l ->
  departures l <= length (grant_log l)
  /\ length (grant_log l) <= length (arrival_log l).
Proof. intros H. specialize (H (length l)). rewrite firstn_all in H. exact H. Qed.

Lemma balanced_snoc l e :
  balanced l ->
  departures (l ++ [e]) <= length (grant_log (l ++ [e])) ->
  length (grant_log (l ++ [e])) <= length (arrival_log (l ++ [e])) ->
  balanced (l ++ [e]).
Proof.
  intros H H1 H2 k. destruct (firstn_snoc k l e) as [-> | ->].
  - apply H.
  - split; assumption.
Qed.

Lemma dta_samples_app n l l' :
  dta_samples n (l ++ l') = dta_samples n l ++ dta_samples (n + net l) l'.
Proof.
  revert n. induction l as [|e l IH]; intros n; simpl.
  - f_equal. unfold net. simpl. lia.
  - assert (Heq : forall m m', m = m' -> dta_samples m l' = dta_samples m' l')
      by (intros; subst; reflexivity).
    destruct e; simpl; rewrite IH;
      repeat match goal with
             | |- _ :: _ = _ :: _ => apply f_equal
             | |- _ ++ _ = _ ++ _ => apply f_equal
             end;
      apply Heq; unfold net, arrival_log, grant_log;
      cbn [flat_map app length]; lia.
Qed.

Lemma total_In w l (pr : Process) : In pr l -> w (pc pr) <= total w l.
Proof.
  induction l as [|x l IH]; simpl; [tauto|].
  intros [<-|H]; [lia|]. specialize (IH H). lia.
Qed.

Lemma total_gap w w' l (pr : Process) :
  (forall p, w' p <= w p) -> In pr l ->
  total w' l + (w (pc pr) - w' (pc pr)) <= total w l.
Proof.
  intros Hw. induction l as [|x l IH]; simpl; [tauto|].
  assert (Hl : total w' l <= total w l).
  { clear IH. induction l as [|y l IH]; simpl; [lia|].
    specialize (Hw (pc y)). lia. }
  intros [<-|H].
  - specialize (Hw (pc x)). lia.
  - specialize (IH H). specialize (Hw (pc x)). lia.
Qed.

Lemma placed_patient_hospital R script (s : State R) pr :
  placed script s -> In pr (procs s) ->
  match pc pr with
  | PatientStart _ h | PatientPut _ h _ | PatientRequest _ h _ _
  | PatientTreat _ h _ | TreatStart h _ | TreatWait h _
  | SetupLoop h _ _ => h = 1 /\ length (hospitals s) = 2
  | SetupStart _ _ _ => length (hospitals s) = 1 /\ log s = []
  | _ => True
  end.
Proof.
  intros [(Hlen & _ & Hlog & pr0 & rest & Hprocs & (tr & ti & Hpc0) & Hrest)
         |(Hlen & Hpc & _)] Hin.
  - rewrite Hprocs in Hin. destruct Hin as [<-|Hin].
    + rewrite Hpc0. auto.
    + rewrite Forall_forall in Hrest. specialize (Hrest _ Hin).
      destruct (pc pr); simpl in *; tauto.
  - rewrite Forall_forall in Hpc. specialize (Hpc _ Hin).
    destruct (pc pr); simpl in *; tauto.
Qed.

Lemma queue_length_upd f k h (l : list Hospital) d :
  (forall H, queue_length (f H) = queue_length H) ->
  queue_length (nth k (list_upd h f l) d) = queue_length (nth k l d).
Proof.
  intros Hf. rewrite nth_list_upd.
  destruct ((k =? h) && (k <? length l)); [apply Hf | reflexivity].
Qed.

Lemma queue_length_upd_doctor r k h (l : list Hospital) d :
  queue_length (nth k (list_upd h (with_doctor r) l) d)
  = queue_length (nth k l d).
Proof. apply queue_length_upd. reflexivity. Qed.

Lemma queue_length_upd_queue q k h (l : list Hospital) d :
  queue_length (nth k (list_upd h (with_queue q) l) d)
  = queue_length (nth k l d).
Proof. apply queue_length_upd. reflexivity. Qed.

Lemma queue_length_upd_counter n k h (l : list Hospital) d :
  queue_length (nth k (list_upd h (with_queue_length n) l) d)
  = if (k =? h) && (k <? length l) then n else queue_length (nth k l d).
Proof.
  rewrite nth_list_upd.
  destruct ((k =? h) && (k <? length l)); reflexivity.
Qed.

End LogLemmas.

Ltac counters Hlen :=
  rewrite ?queue_length_upd_doctor, ?queue_length_upd_queue,
    ?queue_length_upd_counter, ?length_list_upd, ?Hlen;
  cbn [Nat.eqb Nat.ltb Nat.leb andb].

Ltac unfold_logs :=
  unfold net, departures, arrival_log, grant_log, treated_log, left_log,
    stamp_log in *;
  rewrite <- ?app_assoc; cbn [app];
  rewrite ?flat_map_app, ?length_app; cbn [flat_map app length];
  rewrite ?app_nil_r.

Section LogFacts.

Local Open Scope nat_scope.
Import ResourceFacts.

Variable R : Random.
Variable script : Script.

Lemma log_ok_segment pid pr (s : State R) :
  sound script s -> log_ok script s -> nth_error (procs s) pid = Some pr ->
  log_ok script (exec (segment script pid pr) s).
Proof.
  intros [St Hpl] [L1 L2 L3 L4 L5] Hp.
  pose proof (nth_error_In _ _ Hp) as Hin.
  pose proof (@placed_patient_hospital R script s pr Hpl Hin) as Hh.
  pose proof (balanced_whole L1) as [B1 B2].
  assert (A1 : length (arrival_log (log s)) = departures (log s) + in_hospital s).
  { unfold departures. rewrite <- (log_arrivals St), <- (log_treated St),
      <- (log_left St). apply (arrivals_count St). }
  assert (A2 : length (grant_log (log s)) = departures (log s) + in_treatment s).
  { unfold departures. rewrite <- (log_grants St), <- (log_treated St),
      <- (log_left St). apply (grants_count St). }
  assert (A3 : in_treatment_w (pc pr) <= in_treatment s)
    by apply (@total_In in_treatment_w (procs s) pr Hin).
  assert (A4 : in_treatment s + (arrived_w (pc pr) - in_treatment_w (pc pr))
               <= in_hospital s).
  { apply (@total_gap arrived_w in_treatment_w); [|exact Hin].
    intros []; simpl; lia. }
  unfold segment.
  destruct (pc pr) as [name h|name h a|name h a req|name h req|h p|h p
                      |nd tr ti|hosp ti i|h [|n]| ] eqn:Epc;
    unfold patient_arrive, patient_request, patient_granted,
      patient_treated, treat_start, setup_start, setup_loop, setup_wait,
      add_doctors_loop, initial_patients;
    cbn in Hh, A3, A4;
    try destruct script.
  all: try match type of Hh with
            | _ = 1 /\ _ => destruct Hh as [-> Hlen]
            | _ /\ log _ = [] => destruct Hh as [Hlen Hlog]
            end.
  all: try (destruct (hospitals s) as [|H0 [|H1 [|]]] eqn:Eh;
            try discriminate Hlen; cbn in L3, L4).
  all: constructor; norm; grants; unfold hospital_ref in *.
  all: try assumption.
  all: match goal with
       | |- balanced _ =>
           rewrite <- ?app_assoc; cbn [app];
           repeat match goal with
                  | |- balanced (_ ++ [_; _]) =>
                      change (?l ++ [?x; ?y]) with (l ++ [x] ++ [y]);
                      rewrite app_assoc
                  end;
           repeat apply balanced_snoc; try assumption; unfold_logs; lia
       | |- _ = flat_map _ _ => unfold_logs; rewrite L2; reflexivity
       | |- queue_length _ = _ =>
           rewrite ?Eh; cbn [nth list_upd app queue_length with_doctor
                             with_queue with_queue_length Hospital_init];
           counters Hlen; try assumption;
           try (rewrite ?L3, ?Hlog; unfold_logs; lia)
       | |- _ -> _ =>
           intros E; try discriminate E;
           rewrite <- ?app_assoc; cbn [app];
           rewrite ?dta_samples_app, <- ?L5 by reflexivity;
           rewrite ?Eh;
           cbn [dta_samples nth list_upd app queue_length with_doctor
                with_queue with_queue_length Hospital_init];
           rewrite ?L3, ?app_nil_r;
           try reflexivity;
           try (apply f_equal; apply f_equal2; [lia | reflexivity])
       | |- _ => idtac
       end.
Qed.

Lemma log_ok_same (s s' : State R) :
  log s' = log s -> lists s' = lists s ->
  (forall k, queue_length (nth k (hospitals s') (Hospital_init 0 0))
             = queue_length (nth k (hospitals s) (Hospital_init 0 0))) ->
  log_ok script s -> log_ok script s'.
Proof.
  intros Hl Hls Hq [L1 L2 L3 L4 L5].
  constructor; rewrite ?Hl, ?Hls, ?Hq; assumption.
Qed.

Lemma log_ok_trigger_put h (s : State R) :
  log_ok script s -> log_ok script (exec (trigger_put h) s).
Proof.
  apply log_ok_same; try reflexivity.
  intros k. norm. grants; apply queue_length_upd_doctor.
Qed.

Lemma logged_run_callbacks cbs : preserves (@logged R script) (run_callbacks script cbs).
Proof.
  induction cbs as [|cb cbs IH]; simpl; [intros s H; exact H|].
  apply preserves_bind.
  - destruct cb; simpl; try (intros s H; exact H).
    + apply preserves_bind; [|intros ? ? H; exact H].
      intros s [Hs Hl]. split.
      * apply (@sound_run_callbacks R script [CbResume pid] s Hs).
      * unfold exec, resume.
        destruct (nth_error (procs s) pid) as [pr|] eqn:Hp; [|exact Hl].
        apply log_ok_segment; assumption.
    + apply preserves_bind; [|intros ? ? H; exact H].
      intros s [Hs Hl]. split.
      * apply (@sound_run_callbacks R script [CbTriggerPut h] s Hs).
      * apply log_ok_trigger_put, Hl.
  - intros [|]; [intros s H; exact H | exact IH].
Qed.

Lemma logged_step (s : State R) : logged script s -> logged script (snd (step script s)).
Proof.
  intros [Hs Hl]. pose proof (sound_step Hs) as Hs'. revert Hs'.
  unfold step, fire.
  destruct (heappop (heap (env s))) as [[e rest]|] eqn:E; simpl;
    [|intros; split; assumption].
  intros _. apply logged_run_callbacks. split.
  - destruct Hs as [St Hp]. split.
    + eapply stats_ok_frame; [| | |exact St]; reflexivity.
    + eapply placed_same; [| | | |exact Hp]; reflexivity.
  - eapply log_ok_same; [| | |exact Hl]; reflexivity.
Qed.

Lemma log_ok_boot seed : log_ok script (boot R seed).
Proof.
  constructor; cbn; try reflexivity.
  - intros k. rewrite firstn_nil. cbn. lia.
  - destruct script; reflexivity.
  - destruct script; reflexivity.
Qed.

Lemma logged_reach_from (s0 s : State R) :
  logged script s0 -> reach_from script s0 s -> logged script s.
Proof.
  intros H0 Hr. induction Hr as [|s Hr IH|at_ s s' Hr IH Hrun|h k s Hr IH Hh].
  - exact H0.
  - apply logged_step, IH.
  - split.
    + eapply sound_reach_from; [apply IH|].
      eapply reach_run; [apply reach_refl | exact Hrun].
    + revert Hrun. unfold run_start.
      destruct (Qle_bool at_ (now (env s))); [discriminate|].
      intros [= <-]. eapply log_ok_same; [| | |apply IH]; reflexivity.
  - split.
    + eapply sound_reach_from; [apply IH|].
      apply reach_add_doctors; [apply reach_refl | exact Hh].
    + eapply log_ok_same; [| | |apply IH]; reflexivity.
Qed.

Lemma logged_reach (s : State R) : reach script s -> logged script s.
Proof.
  intros [seed Hr]. eapply logged_reach_from; [|exact Hr].
  split; [apply sound_boot | apply log_ok_boot].
Qed.

End LogFacts.

Section ThresholdFacts.

Local Open Scope nat_scope.
Import ResourceFacts.


Lemma filter_arrival_log p l :
  filter p (arrival_log l) = arrival_log (filter (fun e => p (log_time e)) l).
Proof.
  induction l as [|[n t|n t|n t|n t] l IH]; simpl; try reflexivity; try exact IH;
    destruct (p t); simpl; rewrite IH; reflexivity.
Qed.

Lemma filter_treated_log p l :
  filter p (treated_log l) = treated_log (filter (fun e => p (log_time e)) l).
Proof.
  induction l as [|[n t|n t|n t|n t] l IH]; simpl; try reflexivity; try exact IH;
    destruct (p t); simpl; rewrite IH; reflexivity.
Qed.

Lemma filter_left_log p l :
  filter p (left_log l) = left_log (filter (fun e => p (log_time e)) l).
Proof.
  induction l as [|[n t|n t|n t|n t] l IH]; simpl; try reflexivity; try exact IH;
    destruct (p t); simpl; rewrite IH; reflexivity.
Qed.

Lemma filter_grant_log p l :
  filter p (grant_log l) = grant_log (filter (fun e => p (log_time e)) l).
Proof.
  induction l as [|[n t|n t|n t|n t] l IH]; simpl; try reflexivity; try exact IH;
    destruct (p t); simpl; rewrite IH; reflexivity.
Qed.

(** In a log in order of time, the entries up to a threshold are a prefix. *)
Lemma sorted_filter_prefix (p : Q -> bool) l :
  downward p -> StronglySorted Qle (map log_time l) ->
  exists k, filter (fun e => p (log_time e)) l = firstn k l.
Proof.
  intros Hp. induction l as [|e l IH]; simpl; intros Hs.
  - exists 0. reflexivity.
  - inversion Hs as [|? ? Hs' Hf]; subst.
    destruct (p (log_time e)) eqn:E.
    + destruct (IH Hs') as [k Hk]. exists (S k). simpl. rewrite Hk. reflexivity.
    + exists 0. simpl.
      rewrite Forall_map in Hf. clear IH Hs Hs'.
      induction Hf as [|x l Hx _ IH]; simpl; [reflexivity|].
      destruct (p (log_time x)) eqn:Ex; [|exact IH].
      rewrite (Hp _ _ Hx Ex) in E. discriminate.
Qed.

Lemma threshold_balanced (p : Q -> bool) l :
  downward p -> StronglySorted Qle (map log_time l) -> balanced l ->
  length (filter p (treated_log l)) + length (filter p (left_log l))
    <= length (filter p (grant_log l))
  /\ length (filter p (grant_log l)) <= length (filter p (arrival_log l)).
Proof.
  intros Hp Hs Hb.
  rewrite filter_treated_log, filter_left_log, filter_grant_log,
    filter_arrival_log.
  destruct (@sorted_filter_prefix p l Hp Hs) as [k ->]. apply (Hb k).
Qed.

Lemma dta_samples_nonneg n l :
  (forall k, 0 <= n + net (firstn k l))%Z ->
  Forall (fun x => (0 <= x)%Z) (dta_samples n l).
Proof.
  revert n. induction l as [|e l IH]; intros n H; simpl; [constructor|].
  assert (Hk : forall m, (forall k, m + net (firstn k l)
                                    = n + net (firstn (S k) (e :: l)))%Z ->
                         forall k, (0 <= m + net (firstn k l))%Z).
  { intros m Hm k. rewrite Hm. apply H. }
  pose proof (H 1) as H1. simpl in H1.
  destruct e; simpl.
  - constructor; [unfold net in H1; simpl in H1; lia|].
    apply IH, Hk. intros k. unfold net. cbn [firstn arrival_log grant_log flat_map app length].
    fold (arrival_log (firstn k l)) (grant_log (firstn k l)). lia.
  - constructor; [unfold net in H1; simpl in H1; lia|].
    apply IH, Hk. intros k. unfold net. cbn [firstn arrival_log grant_log flat_map app length].
    fold (arrival_log (firstn k l)) (grant_log (firstn k l)). lia.
  - apply IH, Hk. intros k. unfold net. cbn [firstn arrival_log grant_log flat_map app length].
    fold (arrival_log (firstn k l)) (grant_log (firstn k l)). lia.
  - apply IH, Hk. intros k. unfold net. cbn [firstn arrival_log grant_log flat_map app length].
    fold (arrival_log (firstn k l)) (grant_log (firstn k l)). lia.
Qed.

Lemma dta_samples_length n l :
  length (dta_samples n l) = length (stamp_log l).
Proof.
  revert n. induction l as [|[] l IH]; intros n; simpl; auto.
Qed.

End ThresholdFacts.

Section PlotClaims.

Local Open Scope nat_scope.
Import ResourceFacts.

Variable R : Random.

Lemma last_map_ne A (f : A -> nat) l d :
  l <> [] -> last (map f l) 0 = f (last l d).
Proof.
  induction l as [|x l IH]; [congruence|]. intros _.
  destruct l as [|y l]; [reflexivity|].
  change (last (map f (x :: y :: l)) 0) with (last (map f (y :: l)) 0).
  change (last (x :: y :: l) d) with (last (y :: l) d).
  apply IH. discriminate.
Qed.

Lemma count_upto_last l points :
  StronglySorted Qlt points ->
  (forall t, In t l -> occurs t points) ->
  last (map (count_upto l) points) 0 = length l.
Proof.
  intros Hs Hin. destruct points as [|p ps] eqn:E.
  - destruct l as [|t l]; [reflexivity|].
    destruct (Hin t (or_introl eq_refl)) as (y & [] & _).
  - rewrite <- E in *. rewrite (@last_map_ne _ (count_upto l) points 0%Q)
      by (rewrite E; discriminate).
    apply count_upto_all. apply Forall_forall. intros t Ht.
    destruct (Hin t Ht) as (y & Hy & Ey).
    pose proof (@sorted_last_max points 0%Q y Hs Hy). lra.
Qed.

Lemma timed_log_sorted script (s : State R) :
  reach script s -> StronglySorted Qle (map log_time (log s)).
Proof. intros Hr. apply (timed_reach Hr). Qed.

(** X5.  The plot data of uniform.py.  The hard-coded first entry 0 of
    each list of counts is what the formula of the other bins gives for
    the bin 0, so each list has one entry per bin; the arrivals never
    decrease from bin to bin; and whatever the threshold, the patients
    treated before it and those who left before it are together no more
    than the arrivals before it. *)
Theorem bins_conserve (s : State R) :
  reach Uniform s ->
  arrival_counts s = map (count_before (arrival_times (lists s))) time_bins
  /\ treated_counts s = map (count_before (treated_times (lists s))) time_bins
  /\ left_counts s
     = map (count_before (left_without_treatment_times (lists s))) time_bins
  /\ StronglySorted le (arrival_counts s)
  /\ (forall tb,
        count_before (treated_times (lists s)) tb
        + count_before (left_without_treatment_times (lists s)) tb
        <= count_before (arrival_times (lists s)) tb).
Proof.
  intros Hr.
  destruct (reach_chronological Hr) as ((_ & Ha) & (_ & Ht) & (_ & Hl) & _).
  assert (Hz : forall l, Forall (fun x => (0 <= x /\ x <= now (env s))%Q) l ->
                         counts_per_bin l = map (count_before l) time_bins).
  { intros l Hl0. unfold counts_per_bin. rewrite time_bins_eq.
    cbn [seq map tl]. f_equal. change (10 * Z.of_nat 0)%Z with 0%Z.
    symmetry. apply count_before_zero.
    eapply Forall_impl; [|exact Hl0]. cbn. tauto. }
  split; [apply Hz, Ha | split; [apply Hz, Ht | split; [apply Hz, Hl | split]]].
  - unfold arrival_counts. rewrite (Hz _ Ha), time_bins_eq.
    cbn [seq map]. repeat (constructor; [|repeat constructor;
      apply count_before_mono; lia]). constructor.
  - intros tb. destruct (logged_reach Hr) as [[St _] Hl0].
    unfold count_before.
    rewrite (log_arrivals St), (log_treated St), (log_left St).
    pose proof (@threshold_balanced (fun t => Qlt_bool t (inject_Z tb)) (log s)
                  (@downward_before tb) (timed_log_sorted Hr)
                  (log_balanced Hl0)) as [H1 H2].
    lia.
Qed.

(** X6.  The plot data of DTA1.py.  [time_points] is strictly increasing
    and holds exactly the times of the three lists; the three cumulative
    curves never decrease; at every time the treated and the left
    together are no more than the arrived; and each curve ends at the
    count the script prints ([total_patients], [treated_count],
    [left_without_treatment_count]). *)
Theorem cumulative_conserve (s : State R) :
  reach DTA1 s ->
  StronglySorted Qlt (time_points s)
  /\ (forall t, occurs t (time_points s) <->
        occurs t (arrival_times (lists s) ++ treated_times (lists s)
                  ++ left_without_treatment_times (lists s)))
  /\ StronglySorted le (cumulative_arrivals s)
  /\ StronglySorted le (cumulative_treated s)
  /\ StronglySorted le (cumulative_left s)
  /\ (forall time,
        count_upto (treated_times (lists s)) time
        + count_upto (left_without_treatment_times (lists s)) time
        <= count_upto (arrival_times (lists s)) time)
  /\ last (cumulative_arrivals s) 0 = total_patients s
  /\ last (cumulative_treated s) 0 = treated_count s
  /\ last (cumulative_left s) 0 = left_without_treatment_count s.
Proof.
  intros Hr.
  pose proof (sorted_set_sorted
    (arrival_times (lists s) ++ treated_times (lists s)
     ++ left_without_treatment_times (lists s))) as Hs.
  assert (Hin : forall l,
    incl l (arrival_times (lists s) ++ treated_times (lists s)
            ++ left_without_treatment_times (lists s)) ->
    forall t, In t l -> occurs t (time_points s)).
  { intros l Hl t Ht. apply sorted_set_occurs. exists t.
    split; [apply Hl, Ht | reflexivity]. }
  split; [exact Hs | split; [intros t; apply sorted_set_occurs|]].
  split; [apply sorted_Qlt_map_count, Hs|].
  split; [apply sorted_Qlt_map_count, Hs|].
  split; [apply sorted_Qlt_map_count, Hs|].
  split; [|split; [|split]].
  - intros time. destruct (logged_reach Hr) as [[St _] Hl0].
    unfold count_upto.
    rewrite (log_arrivals St), (log_treated St), (log_left St).
    pose proof (@threshold_balanced (fun t => Qle_bool t time) (log s)
                  (@downward_upto time) (timed_log_sorted Hr)
                  (log_balanced Hl0)) as [H1 H2].
    lia.
  - apply count_upto_last; [exact Hs|]. apply Hin.
    intros x Hx. apply in_or_app. left. exact Hx.
  - apply count_upto_last; [exact Hs|]. apply Hin.
    intros x Hx. apply in_or_app. right. apply in_or_app. left. exact Hx.
  - apply count_upto_last; [exact Hs|]. apply Hin.
    intros x Hx. apply in_or_app. right. apply in_or_app. right. exact Hx.
Qed.

Lemma net_firstn_nonneg l k : balanced l -> (0 <= 0 + net (firstn k l))%Z.
Proof. intros H. destruct (H k) as [_ H2]. unfold net. lia. Qed.

(** X7.  In DTA1.py every sample of [queue_lengths] is the number of
    arrivals minus the number of grants logged so far, never negative;
    [time_stamps] has one entry per sample, in order of time; the counter
    [queue_length] of the patients' hospital is the number of patients that
    have arrived and not been granted a doctor, and that of the
    module-level hospital stays 0. *)
Theorem dta1_samples_count_waiting (s : State R) :
  reach DTA1 s ->
  queue_lengths (lists s) = dta_samples 0 (log s)
  /\ Forall (fun x => (0 <= x)%Z) (queue_lengths (lists s))
  /\ length (time_stamps (lists s)) = length (queue_lengths (lists s))
  /\ StronglySorted Qle (time_stamps (lists s))
  /\ queue_length (nth 1 (hospitals s) (Hospital_init 0 0))
     = Z.of_nat (in_hospital s - in_treatment s)
  /\ queue_length (nth hospital_ref (hospitals s) (Hospital_init 0 0)) = 0%Z.
Proof.
  intros Hr. destruct (logged_reach Hr) as [[St _] [L1 L2 L3 L4 L5]].
  specialize (L5 eq_refl). rewrite L5, L2.
  split; [reflexivity | split; [|split; [|split; [|split]]]].
  - apply dta_samples_nonneg. intros k. apply net_firstn_nonneg, L1.
  - symmetry. apply dta_samples_length.
  - pose proof (timed_log_sorted Hr) as Hs.
    assert (E : stamp_log (log s)
                = map log_time (filter (fun e => is_arrival e || is_grant e) (log s))).
    { clear. induction (log s) as [|[] l IH]; simpl; congruence. }
    rewrite E. apply sorted_filter, Hs.
  - rewrite L3. unfold net.
    pose proof (arrivals_count St) as A1. pose proof (grants_count St) as A2.
    pose proof (balanced_whole L1) as [_ B2].
    unfold total_patients in A1.
    rewrite <- (log_arrivals St), <- (log_grants St), A1, A2 in *. lia.
  - exact L4.
Qed.

(** X4.  The percentage of treated patients both scripts print:
    dividing raises [ZeroDivisionError] exactly when no patient has
    arrived; otherwise the value lies between 0 and 100. *)
Theorem percentage_in_range script (s : State R) :
  reach script s ->
  match percentage_treated s with
  | None => total_patients s = 0
  | Some q => total_patients s <> 0 /\ (0 <= q /\ q <= 100)%Q
  end.
Proof.
  intros Hr. pose proof (arrivals_count (stats_ok_reach Hr)) as A.
  unfold percentage_treated.
  destruct (total_patients s) as [|n] eqn:E; [reflexivity|].
  split; [discriminate|].
  assert (Hle : (Z.of_nat (treated_count s) <= Z.of_nat (S n))%Z) by lia.
  assert (Hpos : (0 < Z.of_nat (S n))%Z) by lia.
  assert (H0 : (0 <= Z.of_nat (treated_count s))%Z) by lia.
  set (a := Z.of_nat (treated_count s)) in *.
  set (b := Z.of_nat (S n)) in *.
  assert (Hb : (0 < inject_Z b)%Q)
    by (change 0%Q with (inject_Z 0); rewrite <- Zlt_Qlt; exact Hpos).
  assert (Ha : (0 <= inject_Z a)%Q)
    by (change 0%Q with (inject_Z 0); rewrite <- Zle_Qle; exact H0).
  assert (Hab : (inject_Z a <= inject_Z b)%Q) by (rewrite <- Zle_Qle; exact Hle).
  assert (Hq : (0 <= inject_Z a / inject_Z b /\ inject_Z a / inject_Z b <= 1)%Q).
  { split.
    - apply Qle_shift_div_l; [exact Hb | lra].
    - apply Qle_shift_div_r; [exact Hb | lra]. }
  lra.
Qed.

End PlotClaims.

Lemma bins_conserve_witness :
  let R := TapeRandom [4; 0; 0; 9] 9 in
  let s := steps Uniform 60 (boot R 48) in
  firstn 4 (arrival_counts s) = [0; 4; 5; 6]
  /\ firstn 4 (left_counts s) = [0; 3; 4; 5]
  /\ arrival_counts s = map (count_before (arrival_times (lists s))) time_bins
  /\ (forall tb,
        count_before (treated_times (lists s)) tb
        + count_before (left_without_treatment_times (lists s)) tb
        <= count_before (arrival_times (lists s)) tb).
Proof.
  intros R s.
  assert (Hr : reach Uniform s) by apply reach_steps.
  split; [vm_compute; reflexivity | split; [vm_compute; reflexivity|]].
  pose proof (bins_conserve Hr) as (H1 & _ & _ & _ & H2).
  split; [exact H1 | exact H2].
Defined.

Lemma cumulative_conserve_witness :
  let R := TapeRandom [4; 0; 0; 9] 9 in
  let s := steps DTA1 60 (boot R 48) in
  cumulative_arrivals s = [4; 4; 5; 6; 7; 8; 9; 10; 11; 12]
  /\ total_patients s = 12
  /\ last (cumulative_arrivals s) 0 = total_patients s.
Proof.
  intros R s.
  assert (Hr : reach DTA1 s) by apply reach_steps.
  split; [vm_compute; reflexivity | split; [vm_compute; reflexivity|]].
  pose proof (cumulative_conserve Hr) as (_ & _ & _ & _ & _ & _ & H & _).
  exact H.
Defined.

Lemma dta1_samples_count_waiting_witness :
  let R := TapeRandom [4; 0; 0; 9] 9 in
  let s := steps DTA1 12 (boot R 48) in
  queue_lengths (lists s) = [1; 2; 3; 4; 3; 2; 1]%Z
  /\ Forall (fun x => (0 <= x)%Z) (queue_lengths (lists s)).
Proof.
  intros R s.
  assert (Hr : reach DTA1 s) by apply reach_steps.
  split; [vm_compute; reflexivity|].
  pose proof (dta1_samples_count_waiting Hr) as (_ & H & _). exact H.
Defined.

Lemma percentage_in_range_witness :
  let R := TapeRandom [4; 0; 0; 9] 9 in
  let s := steps DTA1 60 (boot R 48) in
  percentage_treated s = Some (100 # 12)
  /\ match percentage_treated s with
     | None => total_patients s = 0
     | Some q => total_patients s <> 0 /\ (0 <= q /\ q <= 100)%Q
     end.
Proof.
  intros R s.
  assert (Hr : reach DTA1 s) by apply reach_steps.
  split; [vm_compute; reflexivity|].
  exact (percentage_in_range Hr).
Defined.

Lemma list_upd_app_r A (f : A -> A) l l' k :
  list_upd (length l + k) f (l ++ l') = l ++ list_upd k f l'.
Proof.
  induction l as [|x l IH]; simpl; [reflexivity|]. rewrite IH. reflexivity.
Qed.

Ltac events_norm :=
  rewrite <- ?app_assoc; cbn [app];
  rewrite ?length_app; cbn [length];
  rewrite ?list_upd_middle, ?list_upd_app_r;
  cbn [list_upd option_map app].

Section StopFacts.

Local Open Scope nat_scope.
Import ResourceFacts.

Variable R : Random.
Variable script : Script.

Lemma segment_events pid pr (s : State R) :
  exists new,
    events (exec (segment script pid pr) s) = events s ++ new
    /\ Forall (event_new_ok pid (length (procs s))) new.
Proof.
  unfold segment.
  destruct (pc pr) as [name h|name h a|name h a req|name h req|h p|h p
                      |nd tr ti|hosp ti i|h [|n]| ] eqn:Epc;
    unfold patient_arrive, patient_request, patient_granted,
      patient_treated, treat_start, setup_start, setup_loop, setup_wait,
      add_doctors_loop, initial_patients;
    try destruct script.
  all: norm; grants; events_norm.
  all: try (exists []; split; [symmetry; apply app_nil_r | constructor]).
  all: eexists; (split; [reflexivity|]).
  all: repeat (constructor;
               [eexists; split; [reflexivity|];
                repeat (constructor; [cbn; try exact I; lia|]); constructor|]).
  all: constructor.
Qed.

Lemma callbacks_of_app_old ev (evs new : list (option (list Callback))) :
  ev < length evs -> callbacks_of ev (evs ++ new) = callbacks_of ev evs.
Proof.
  intros H. unfold callbacks_of. rewrite nth_error_app1 by exact H. reflexivity.
Qed.

Lemma callbacks_of_app_new pid n ev (evs new : list (option (list Callback))) :
  Forall (event_new_ok pid n) new -> length evs <= ev ->
  Forall (cb_new_ok pid n) (callbacks_of ev (evs ++ new)).
Proof.
  intros Hn H. unfold callbacks_of. rewrite nth_error_app2 by exact H.
  destruct (nth_error new (ev - length evs)) as [[cbs|]|] eqn:E;
    try constructor.
  apply nth_error_In in E. rewrite Forall_forall in Hn.
  destruct (Hn _ E) as (cbs' & [= <-] & Hc). exact Hc.
Qed.

Lemma trigger_put_granted r n :
  snd (Resource.trigger_put r) = Some n ->
  exists q, Resource.put_queue r = n :: q.
Proof.
  unfold Resource.trigger_put. destruct (Resource.put_queue r) as [|ev q];
    [discriminate|].
  destruct (length (Resource.users r) <? Resource.capacity r); [|discriminate].
  intros [= <-]. exists q. reflexivity.
Qed.

Lemma request_granted ev r n :
  snd (Resource.request ev r) = Some n ->
  n = ev \/ In n (Resource.put_queue r).
Proof.
  intros H. apply trigger_put_granted in H. destruct H as [q Hq].
  simpl in Hq. destruct (Resource.put_queue r) as [|x l]; simpl in Hq.
  - injection Hq as <- _. left. reflexivity.
  - injection Hq as <- _. right. left. reflexivity.
Qed.

Lemma doctor_upd f k h (l : list Hospital) d :
  (forall H, doctor (f H) = doctor H) ->
  doctor (nth k (list_upd h f l) d) = doctor (nth k l d).
Proof.
  intros Hf. rewrite nth_list_upd.
  destruct ((k =? h) && (k <? length l)); [apply Hf | reflexivity].
Qed.

Lemma doctor_upd_counter n k h (l : list Hospital) d :
  doctor (nth k (list_upd h (with_queue_length n) l) d) = doctor (nth k l d).
Proof. apply doctor_upd. reflexivity. Qed.

Lemma segment_heap pid pr (s : State R) :
  exists pushed,
    heap (env (exec (segment script pid pr) s)) = heap (env s) ++ pushed
    /\ Forall (pushed_ok s (exec (segment script pid pr) s) pr) pushed.
Proof.
  unfold segment.
  destruct (pc pr) as [name h|name h a|name h a req|name h req|h p|h p
                      |nd tr ti|hosp ti i|h [|n]| ] eqn:Epc;
    unfold patient_arrive, patient_request, patient_granted,
      patient_treated, treat_start, setup_start, setup_loop, setup_wait,
      add_doctors_loop, initial_patients;
    try destruct script.
  all: unfold pushed_ok; norm; grants; rewrite <- ?app_assoc; cbn [app].
  all: try (exists []; split; [symmetry; apply app_nil_r | constructor]).
  all: eexists; (split; [reflexivity|]).
  all: repeat match goal with
              | H : snd (Resource.request _ _) = Some _ |- _ =>
                  apply request_granted in H;
                  rewrite ?doctor_upd_counter in H
              end.
  all: repeat (constructor;
               [cbn [e_event];
                rewrite ?length_list_upd, ?length_app; cbn [length];
                first [ left; lia
                      | right; left; reflexivity
                      | match goal with
                        | H : _ = length (events _) \/ In _ _ |- _ =>
                            destruct H as [->|H];
                            [left; lia | right; right; eexists; exact H]
                        end ]|]).
  all: constructor.
Qed.

Lemma trigger_put_heap h (s : State R) :
  exists pushed,
    heap (env (exec (trigger_put h) s)) = heap (env s) ++ pushed
    /\ Forall (fun e => In (e_event e) (Resource.put_queue (doctor_at h s)))
         pushed.
Proof.
  norm. destruct (snd (Resource.trigger_put _)) eqn:E; cbn.
  - eexists. split; [reflexivity|]. constructor; [|constructor].
    apply trigger_put_granted in E. destruct E as [q Hq].
    unfold doctor_at. rewrite Hq. left. reflexivity.
  - exists []. split; [symmetry; apply app_nil_r | constructor].
Qed.

Lemma ext_no_request ev0 (s s' : State R) :
  ext 1 s s' -> requests_ok s -> ev0 < length (events s) ->
  (forall h, ~ In ev0 (Resource.put_queue (doctor_at h s))) ->
  forall h, ~ In ev0 (Resource.put_queue (doctor_at h s')).
Proof.
  intros E Hreq Hb Hno h Hin.
  assert (Hmove : forall r r', bounded (length (events s)) r ->
            follows 1 (length (events s)) (length (events s')) r r' ->
            ~ In ev0 (Resource.put_queue r) ->
            ~ In ev0 (Resource.put_queue r')).
  { intros r r' Hbd (ops & -> & Hg & Hf) Hn Hi.
    destruct (@apply_all_move (length (events s)) (length (events s')) ops r
                (ext_events E) Hbd Hf Hg) as [_ (d & new & _ & Hq & Hnew & _)].
    rewrite Hq in Hi. apply in_app_or in Hi. destruct Hi as [Hi|Hi].
    - apply Hn. revert Hi. generalize (Resource.put_queue r). clear.
      induction d as [|d IH]; intros l Hi; [exact Hi|].
      destruct l as [|x l]; [destruct Hi|]. right. apply IH, Hi.
    - apply Hnew in Hi. lia. }
  destruct (Nat.lt_ge_cases h (length (hospitals s))) as [Hlt|Hge].
  - apply (Hmove _ _ (Hreq h Hlt) (ext_old E Hlt) (Hno h) Hin).
  - destruct (Nat.lt_ge_cases h (length (hospitals s'))) as [Hlt'|Hge'].
    + destruct (ext_new E (conj Hge Hlt')) as (cap & Hf).
      apply (Hmove _ _ (bounded_init _ cap) Hf); [intros []|exact Hin].
    + unfold doctor_at in Hin. rewrite nth_overflow in Hin by exact Hge'.
      destruct Hin.
Qed.

Lemma segment_proc_events ev0 pid pr (s : State R) :
  ev0 < length (events s) ->
  Forall (fun p => proc_event p <> ev0) (procs s) ->
  Forall (fun p => proc_event p <> ev0) (procs (exec (segment script pid pr) s)).
Proof.
  intros Hb H. unfold segment.
  destruct (pc pr) as [name h|name h a|name h a req|name h req|h p|h p
                      |nd tr ti|hosp ti i|h [|n]| ] eqn:Epc;
    unfold patient_arrive, patient_request, patient_granted,
      patient_treated, treat_start, setup_start, setup_loop, setup_wait,
      add_doctors_loop, initial_patients;
    try destruct script.
  all: norm; grants.
  all: repeat match goal with
       | |- Forall _ (list_upd _ _ _) =>
           apply Forall_list_upd; [|intros ? ?; cbn; assumption]
       | |- Forall _ (_ ++ _) => apply Forall_app; split
       | |- Forall _ [_] =>
           constructor; [cbn; rewrite ?length_app; cbn; lia | constructor]
       | |- _ => assumption
       end.
Qed.

Lemma armed_segment at_ ev0 pid pr (s : State R) :
  requests_ok s -> nth_error (procs s) pid = Some pr ->
  armed at_ ev0 s -> armed at_ ev0 (exec (segment script pid pr) s).
Proof.
  intros Hreq Hp [A1 A2 A3 [e0 [A4 A4']] A5 A6 A7].
  destruct (segment_events pid pr s) as (new & Hev & Hnew).
  destruct (segment_heap pid pr s) as (pushed & Hheap & Hpushed).
  constructor.
  - rewrite Hev, length_app. lia.
  - rewrite Hev, callbacks_of_app_old by exact A1. exact A2.
  - intros ev Hin. rewrite Hev in Hin.
    destruct (Nat.lt_ge_cases ev (length (events s))) as [Hlt|Hge].
    + rewrite callbacks_of_app_old in Hin by exact Hlt. apply A3, Hin.
    + pose proof (@callbacks_of_app_new _ _ ev (events s) new Hnew Hge) as Hc.
      rewrite Forall_forall in Hc. destruct (Hc _ Hin).
  - exists e0. split; [|exact A4']. rewrite Hheap. apply in_or_app. left. exact A4.
  - rewrite Hheap. apply Forall_app. split; [exact A5|].
    eapply Forall_impl; [|exact Hpushed]. intros e [Ho|[Ho|[h Ho]]] He.
    + lia.
    + exfalso. rewrite Forall_forall in A7.
      apply (A7 pr (nth_error_In _ _ Hp)). congruence.
    + exfalso. apply (A6 h). rewrite <- He. exact Ho.
  - apply (ext_no_request (@sat_ext_segment R script pid pr s) Hreq A1 A6).
  - apply segment_proc_events; assumption.
Qed.

Lemma armed_trigger_put at_ ev0 h (s : State R) :
  requests_ok s ->
  armed at_ ev0 s -> armed at_ ev0 (exec (trigger_put h) s).
Proof.
  intros Hreq [A1 A2 A3 [e0 [A4 A4']] A5 A6 A7].
  destruct (trigger_put_heap h s) as (pushed & Hheap & Hpushed).
  constructor; try assumption.
  - exists e0. split; [|exact A4']. rewrite Hheap. apply in_or_app. left. exact A4.
  - rewrite Hheap. apply Forall_app. split; [exact A5|].
    eapply Forall_impl; [|exact Hpushed]. intros e Ho He.
    exfalso. apply (A6 h). rewrite <- He. exact Ho.
  - apply (ext_no_request (@sat_ext_trigger_put R h s) Hreq A1 A6).
Qed.

Lemma run_callback_stop cb (s : State R) :
  fst (run_callback script cb s) = true <-> cb = CbStop.
Proof.
  destruct cb; simpl; unfold bind; simpl; split;
    solve [discriminate | reflexivity].
Qed.

Lemma run_callbacks_stop cbs (s : State R) :
  fst (run_callbacks script cbs s) = true <-> In CbStop cbs.
Proof.
  revert s. induction cbs as [|cb cbs IH]; intros s; simpl.
  - split; [discriminate | tauto].
  - unfold bind. pose proof (run_callback_stop cb s) as Hcb.
    destruct (fst (run_callback script cb s)); simpl.
    + split; [intros _; left; apply (proj1 Hcb); reflexivity | reflexivity].
    + rewrite IH. split; [tauto|].
      intros [H|H]; [|exact H]. apply (proj2 Hcb) in H. discriminate.
Qed.

Lemma callbacks_of_upd_same ev (evs : list (option (list Callback))) :
  callbacks_of ev (list_upd ev (fun _ => None) evs) = [].
Proof.
  unfold callbacks_of. revert ev.
  induction evs as [|x evs IH]; intros [|ev]; simpl; auto.
Qed.

Lemma callbacks_of_upd_other ev ev' f (evs : list (option (list Callback))) :
  ev <> ev' -> callbacks_of ev' (list_upd ev f evs) = callbacks_of ev' evs.
Proof.
  unfold callbacks_of. revert ev ev'.
  induction evs as [|x evs IH]; intros [|ev] [|ev'] H; simpl; auto;
    try congruence.
Qed.

Lemma In_heap_remove_other n x l :
  In x l -> e_eid x <> n -> In x (heap_remove n l).
Proof.
  induction l as [|y l IH]; simpl; [tauto|].
  intros [<-|H] Hn.
  - destruct (Nat.eqb_spec (e_eid y) n); [contradiction | left; reflexivity].
  - destruct (e_eid y =? n); [exact H | right; apply IH; assumption].
Qed.

Lemma armed_popped at_ ev0 e (s : State R) :
  heap_ok s -> In e (heap (env s)) ->
  ~ In CbStop (callbacks_of (e_event e) (events s)) ->
  armed at_ ev0 s -> armed at_ ev0 (popped e s).
Proof.
  intros [Hnd _] He Hns [A1 A2 A3 [e0 [A4 A4']] A5 A6 A7].
  assert (Hne : e_event e <> ev0).
  { intros E. apply Hns. rewrite E, A2. left. reflexivity. }
  constructor; cbn.
  - rewrite length_list_upd. exact A1.
  - rewrite callbacks_of_upd_other by exact Hne. exact A2.
  - intros ev Hin. destruct (Nat.eq_dec (e_event e) ev) as [<-|Hd].
    + rewrite callbacks_of_upd_same in Hin. destruct Hin.
    + rewrite callbacks_of_upd_other in Hin by exact Hd. apply A3, Hin.
  - exists e0. split; [|exact A4']. apply In_heap_remove_other; [exact A4|].
    intros E. apply Hne. rewrite <- A4'. f_equal.
    symmetry. apply (@NoDup_map_eq _ _ e_eid (heap (env s)) e0 e Hnd A4 He E).
  - apply Forall_forall. intros x Hx. rewrite Forall_forall in A5.
    apply A5. eapply In_heap_remove, Hx.
  - exact A6.
  - exact A7.
Qed.

Lemma no_stop_popped at_ ev0 e (s : State R) :
  armed at_ ev0 s -> e_event e = ev0 -> no_stop (popped e s).
Proof.
  intros A E ev Hin. cbn in Hin.
  destruct (Nat.eq_dec (e_event e) ev) as [<-|Hd].
  - rewrite callbacks_of_upd_same in Hin. destruct Hin.
  - rewrite callbacks_of_upd_other in Hin by exact Hd.
    apply (stop_unique A) in Hin. congruence.
Qed.

Lemma armed_run_callbacks at_ ev0 cbs :
  preserves (fun s : State R => requests_ok s /\ armed at_ ev0 s)
    (run_callbacks script cbs).
Proof.
  induction cbs as [|cb cbs IH]; simpl; [intros s H; exact H|].
  apply preserves_bind.
  - destruct cb; simpl; try (intros s H; exact H).
    + apply preserves_bind; [|intros ? ? H; exact H].
      intros s [Hreq A]. split.
      * apply (ext_requests_ok (@sat_ext_resume R script pid s) Hreq).
      * unfold exec, resume.
        destruct (nth_error (procs s) pid) as [pr|] eqn:Hp; [|exact A].
        apply armed_segment; assumption.
    + apply preserves_bind; [|intros ? ? H; exact H].
      intros s [Hreq A]. split.
      * apply (ext_requests_ok (@sat_ext_trigger_put R h s) Hreq).
      * apply armed_trigger_put; assumption.
  - intros [|]; [intros s H; exact H | exact IH].
Qed.

Lemma step_popped (s : State R) e rest :
  heappop (heap (env s)) = Some (e, rest) ->
  step script s
  = (if fst (run_callbacks script (callbacks_of (e_event e) (events s))
               (popped e s))
     then Stop else Continue,
     snd (run_callbacks script (callbacks_of (e_event e) (events s))
            (popped e s))).
Proof.
  intros E. unfold step. rewrite E.
  destruct (heappop_is_next _ E) as [_ ->]. reflexivity.
Qed.

(** The loop of [env.run(until=at_)] is left by the stop event, with the
    clock at [at_]. *)
Lemma run_loop_lands at_ ev0 fuel (s s' : State R) :
  inv s -> armed at_ ev0 s -> run_loop script fuel s = Some s' ->
  (now (env s') == at_)%Q /\ no_stop s'.
Proof.
  revert s. induction fuel as [|fuel IH]; intros s Hi A; simpl; [discriminate|].
  destruct (heappop (heap (env s))) as [[e rest]|] eqn:E.
  - rewrite (step_popped _ E).
    destruct (heappop_is_next _ E) as [[He _] _].
    set (cbs := callbacks_of (e_event e) (events s)).
    destruct (fst (run_callbacks script cbs (popped e s))) eqn:Hstop.
    + (* the stop event *)
      intros [= <-]. apply run_callbacks_stop in Hstop.
      assert (Hev : e_event e = ev0) by (apply (stop_unique A), Hstop).
      assert (Hc : cbs = [CbStop]) by (unfold cbs; rewrite Hev; apply A).
      rewrite Hc. simpl. split.
      * pose proof (stop_time A) as Ht. rewrite Forall_forall in Ht.
        apply (Ht e He Hev).
      * eapply no_stop_popped; eauto.
    + (* any other event *)
      assert (Hns : ~ In CbStop cbs).
      { intros H. apply run_callbacks_stop with (s := popped e s) in H.
        congruence. }
      pose proof (inv_step script Hi) as Hi'.
      rewrite (step_popped _ E) in Hi'. simpl in Hi'.
      apply IH; [exact Hi'|].
      apply (armed_run_callbacks cbs). split.
      * destruct Hi as (_ & _ & Hreq & _). intros h Hh.
        unfold popped, doctor_at. cbn. rewrite length_list_upd.
        apply (Hreq h Hh).
      * apply armed_popped; [apply Hi | exact He | exact Hns | exact A].
  - exfalso. destruct (stop_scheduled A) as (e0 & He0 & _).
    destruct (heap (env s)); [destruct He0 | discriminate].
Qed.

End StopFacts.

Section RefFacts.

Local Open Scope nat_scope.
Import ResourceFacts.

Variable R : Random.
Variable script : Script.

Lemma requests_bounded_all (s : State R) h x :
  requests_ok s -> In x (Resource.put_queue (doctor_at h s)) ->
  x < length (events s).
Proof.
  intros Hreq Hin.
  destruct (Nat.lt_ge_cases h (length (hospitals s))) as [Hlt|Hge].
  - apply (Hreq h Hlt). right. exact Hin.
  - unfold doctor_at in Hin. rewrite nth_overflow in Hin by exact Hge.
    destruct Hin.
Qed.

Lemma segment_proc_bounded pid pr (s : State R) :
  Forall (fun p => proc_event p < length (events s)) (procs s) ->
  Forall (fun p => proc_event p < length (events (exec (segment script pid pr) s)))
    (procs (exec (segment script pid pr) s)).
Proof.
  intros H. unfold segment.
  destruct (pc pr) as [name h|name h a|name h a req|name h req|h p|h p
                      |nd tr ti|hosp ti i|h [|n]| ] eqn:Epc;
    unfold patient_arrive, patient_request, patient_granted,
      patient_treated, treat_start, setup_start, setup_loop, setup_wait,
      add_doctors_loop, initial_patients;
    try destruct script.
  all: norm; grants; rewrite ?length_list_upd, ?length_app; cbn [length].
  all: repeat match goal with
       | |- Forall _ (list_upd _ _ _) =>
           apply Forall_list_upd; [|intros ? ?; cbn; assumption]
       | |- Forall _ (_ ++ _) => apply Forall_app; split
       | |- Forall _ [_] =>
           constructor; [cbn; rewrite ?length_app; cbn; lia | constructor]
       | |- Forall _ (procs _) =>
           eapply Forall_impl; [|exact H]; cbn; intros; lia
       end.
Qed.

Lemma refs_ok_segment pid pr (s : State R) :
  requests_ok s -> nth_error (procs s) pid = Some pr ->
  refs_ok s -> refs_ok (exec (segment script pid pr) s).
Proof.
  intros Hreq Hp [Hh Hpr].
  destruct (segment_events script pid pr s) as (new & Hev & _).
  destruct (segment_heap script pid pr s) as (pushed & Hheap & Hpushed).
  split; [|apply segment_proc_bounded, Hpr].
  rewrite Hheap. apply Forall_app. split.
  - eapply Forall_impl; [|exact Hh]. intros e He. cbn beta in *.
    rewrite Hev, length_app. lia.
  - eapply Forall_impl; [|exact Hpushed]. intros e [Ho|[Ho|[h Ho]]]; cbn beta.
    + lia.
    + rewrite Ho, Hev, length_app. rewrite Forall_forall in Hpr.
      specialize (Hpr pr (nth_error_In _ _ Hp)). lia.
    + rewrite Hev, length_app.
      pose proof (requests_bounded_all _ _ Hreq Ho). lia.
Qed.

Lemma refs_ok_trigger_put h (s : State R) :
  requests_ok s -> refs_ok s -> refs_ok (exec (trigger_put h) s).
Proof.
  intros Hreq [Hh Hpr].
  destruct (trigger_put_heap h s) as (pushed & Hheap & Hpushed).
  split; [|exact Hpr].
  rewrite Hheap. apply Forall_app. split; [exact Hh|].
  eapply Forall_impl; [|exact Hpushed]. intros e Ho.
  apply (requests_bounded_all _ _ Hreq Ho).
Qed.

Lemma refs_ok_run_callbacks cbs :
  preserves (fun s : State R => requests_ok s /\ refs_ok s)
    (run_callbacks script cbs).
Proof.
  induction cbs as [|cb cbs IH]; simpl; [intros s H; exact H|].
  apply preserves_bind.
  - destruct cb; simpl; try (intros s H; exact H).
    + apply preserves_bind; [|intros ? ? H; exact H].
      intros s [Hreq A]. split.
      * apply (ext_requests_ok (@sat_ext_resume R script pid s) Hreq).
      * unfold exec, resume.
        destruct (nth_error (procs s) pid) as [pr|] eqn:Hp; [|exact A].
        apply refs_ok_segment; assumption.
    + apply preserves_bind; [|intros ? ? H; exact H].
      intros s [Hreq A]. split.
      * apply (ext_requests_ok (@sat_ext_trigger_put R h s) Hreq).
      * apply refs_ok_trigger_put; assumption.
  - intros [|]; [intros s H; exact H | exact IH].
Qed.

Lemma requests_ok_popped e (s : State R) :
  requests_ok s -> requests_ok (popped e s).
Proof.
  intros Hreq h Hh. unfold popped, doctor_at. cbn. rewrite length_list_upd.
  apply (Hreq h Hh).
Qed.

Lemma refs_ok_step (s : State R) :
  inv s -> refs_ok s -> refs_ok (snd (step script s)).
Proof.
  intros Hi [Hh Hpr].
  destruct (heappop (heap (env s))) as [[e rest]|] eqn:E.
  - rewrite (step_popped _ _ E). simpl.
    apply (refs_ok_run_callbacks (callbacks_of (e_event e) (events s))).
    split; [apply requests_ok_popped, Hi|].
    split; cbn; rewrite length_list_upd; [|exact Hpr].
    apply Forall_forall. intros x Hx. rewrite Forall_forall in Hh.
    apply Hh. eapply In_heap_remove, Hx.
  - unfold step. rewrite E. split; assumption.
Qed.

Lemma refs_ok_process start (s : State R) :
  refs_ok s -> refs_ok (exec (process start) s).
Proof.
  intros [Hh Hpr]. split; cbn; rewrite ?length_app; cbn.
  - apply Forall_app. split.
    + eapply Forall_impl; [|exact Hh]. cbn. intros; lia.
    + constructor; [cbn; rewrite ?length_app; cbn; lia | constructor].
  - apply Forall_app. split.
    + eapply Forall_impl; [|exact Hpr]. cbn. intros; lia.
    + constructor; [cbn; lia | constructor].
Qed.

Lemma refs_ok_run_start at_ (s s' : State R) :
  refs_ok s -> run_start at_ s = Some s' -> refs_ok s'.
Proof.
  intros [Hh Hpr]. unfold run_start.
  destruct (Qle_bool at_ (now (env s))); [discriminate|].
  intros [= <-]. split; cbn; rewrite ?length_app; cbn.
  - apply Forall_app. split.
    + eapply Forall_impl; [|exact Hh]. cbn. intros; lia.
    + constructor; [cbn; lia | constructor].
  - eapply Forall_impl; [|exact Hpr]. cbn. intros; lia.
Qed.

Lemma refs_ok_reach_from (s0 s : State R) :
  inv s0 -> refs_ok s0 -> reach_from script s0 s -> refs_ok s.
Proof.
  intros Hi H0 Hr. induction Hr as [|s Hr IH|at_ s s' Hr IH Hrun|h k s Hr IH Hh].
  - exact H0.
  - apply refs_ok_step; [eapply inv_reach_from; eauto | exact IH].
  - eapply refs_ok_run_start; eauto.
  - apply refs_ok_process, IH.
Qed.

Lemma refs_ok_reach (s : State R) : reach script s -> refs_ok s.
Proof.
  intros [seed Hr]. eapply refs_ok_reach_from; [apply inv_boot| |exact Hr].
  apply refs_ok_process. split; constructor.
Qed.

(** [env.run(until=at_)] arms the loop. *)
Lemma armed_run_start at_ (s s' : State R) :
  requests_ok s -> refs_ok s -> no_stop s ->
  run_start at_ s = Some s' -> armed at_ (length (events s)) s'.
Proof.
  intros Hreq [Hh Hpr] Hns. unfold run_start.
  destruct (Qle_bool at_ (now (env s))); [discriminate|].
  intros [= <-]. constructor; cbn.
  - rewrite length_app. cbn. lia.
  - unfold callbacks_of. rewrite nth_error_app2, Nat.sub_diag by lia.
    reflexivity.
  - intros ev Hin.
    destruct (Nat.lt_ge_cases ev (length (events s))) as [Hlt|Hge].
    + rewrite callbacks_of_app_old in Hin by exact Hlt. destruct (Hns _ Hin).
    + destruct (Nat.eq_dec ev (length (events s))) as [->|Hne]; [reflexivity|].
      unfold callbacks_of in Hin. rewrite nth_error_app2 in Hin by exact Hge.
      destruct (ev - length (events s)) as [|[|k]] eqn:Ek; [lia| |];
        simpl in Hin; destruct Hin.
  - eexists. split; [apply in_or_app; right; left; reflexivity | reflexivity].
  - apply Forall_app. split.
    + eapply Forall_impl; [|exact Hh]. cbn. intros e He E. lia.
    + constructor; [|constructor]. cbn. intros _. ring.
  - intros h Hin. pose proof (requests_bounded_all _ _ Hreq Hin). lia.
  - eapply Forall_impl; [|exact Hpr]. cbn. intros; lia.
Qed.

Lemma no_stop_process start (s : State R) :
  no_stop s -> no_stop (exec (process start) s).
Proof.
  intros Hns ev Hin. cbn in Hin. rewrite <- app_assoc in Hin.
  destruct (Nat.lt_ge_cases ev (length (events s))) as [Hlt|Hge].
  - rewrite callbacks_of_app_old in Hin by exact Hlt. destruct (Hns _ Hin).
  - unfold callbacks_of in Hin. rewrite nth_error_app2 in Hin by exact Hge.
    destruct (ev - length (events s)) as [|[|[|k]]]; simpl in Hin;
      intuition discriminate.
Qed.

Lemma no_stop_boot seed : no_stop (boot R seed).
Proof.
  apply no_stop_process. intros ev Hin. unfold callbacks_of in Hin. cbn in Hin.
  destruct ev; destruct Hin.
Qed.

Lemma run_lands at_ fuel (s s' : State R) :
  inv s -> refs_ok s -> no_stop s ->
  run script at_ fuel s = Some s' ->
  (now (env s') == at_)%Q /\ no_stop s'.
Proof.
  intros Hi Hrefs Hns. unfold run.
  destruct (run_start at_ s) as [s0|] eqn:E; [|discriminate].
  apply (@run_loop_lands R script at_ (length (events s))).
  - eapply inv_run_start; eauto.
  - eapply armed_run_start; eauto. apply Hi.
Qed.

End RefFacts.

Section LandClaims.

Local Open Scope nat_scope.
Import ResourceFacts.

Variable R : Random.
Variable script : Script.


End LandClaims.


Section EffectFacts.

Local Open Scope nat_scope.
Import ResourceFacts.

Variable R : Random.
Variable script : Script.

Lemma list_upd_id A (f : A -> A) i l x :
  nth_error l i = Some x -> f x = x -> list_upd i f l = l.
Proof.
  revert i. induction l as [|y l IH]; intros [|i] H E; simpl in *;
    try discriminate.
  - injection H as ->. rewrite E. reflexivity.
  - rewrite (IH _ H E). reflexivity.
Qed.

Lemma segment_effect_events pid pr (s : State R) :
  events (exec (segment script pid pr) s)
  = events s ++ eff_events (effect script pid pr s).
Proof.
  unfold segment, effect, treat_drawn.
  destruct (pc pr) as [name h|name h a|name h a req|name h req|h p|h p
                      |nd tr ti|hosp ti i|h [|n]| ] eqn:Epc;
    unfold patient_arrive, patient_request, patient_granted,
      patient_treated, treat_start, setup_start, setup_loop, setup_wait,
      add_doctors_loop, initial_patients;
    try (destruct script eqn:Es).
  all: norm; grants; events_norm; cbn; rewrite ?app_nil_r;
       rewrite ?Nat.add_succ_r, ?Nat.add_0_r; try reflexivity.
Qed.

Lemma segment_effect_heap pid pr (s : State R) :
  map e_event (heap (env (exec (segment script pid pr) s)))
  = map e_event (heap (env s)) ++ eff_pushed (effect script pid pr s).
Proof.
  unfold segment, effect, treat_drawn, granted_by, doctor_at.
  destruct (pc pr) as [name h|name h a|name h a req|name h req|h p|h p
                      |nd tr ti|hosp ti i|h [|n]| ] eqn:Epc;
    unfold patient_arrive, patient_request, patient_granted,
      patient_treated, treat_start, setup_start, setup_loop, setup_wait,
      add_doctors_loop, initial_patients;
    try (destruct script eqn:Es).
  all: norm; rewrite ?doctor_upd_counter; grants;
       rewrite <- ?app_assoc; cbn [app];
       rewrite ?length_app; cbn [length];
       rewrite ?map_app; cbn [map e_event app];
       rewrite ?app_nil_r, ?Nat.add_succ_r, ?Nat.add_0_r; try reflexivity.
Qed.

Lemma doctor_nth_upd r k h (l : list Hospital) d :
  doctor (nth k (list_upd h (with_doctor r) l) d)
  = if (k =? h) && (k <? length l) then r else doctor (nth k l d).
Proof.
  rewrite nth_list_upd.
  destruct ((k =? h) && (k <? length l)); reflexivity.
Qed.

Lemma doctor_upd_queue q k h (l : list Hospital) d :
  doctor (nth k (list_upd h (with_queue q) l) d) = doctor (nth k l d).
Proof. apply doctor_upd. reflexivity. Qed.

Lemma doctor_nth_new nd tr k (l : list Hospital) :
  Resource.users (doctor (nth k (l ++ [Hospital_init nd tr]) (Hospital_init 0 0)))
  = Resource.users (doctor (nth k l (Hospital_init 0 0)))
  /\ Resource.put_queue
       (doctor (nth k (l ++ [Hospital_init nd tr]) (Hospital_init 0 0)))
     = Resource.put_queue (doctor (nth k l (Hospital_init 0 0))).
Proof.
  destruct (Nat.lt_ge_cases k (length l)) as [H|H].
  - rewrite app_nth1 by exact H. split; reflexivity.
  - rewrite app_nth2 by exact H. rewrite (nth_overflow l) by exact H.
    destruct (k - length l) as [|[|n]]; split; reflexivity.
Qed.

Lemma segment_effect_procs pid pr (s : State R) :
  nth_error (procs s) pid = Some pr ->
  procs (exec (segment script pid pr) s)
  = list_upd pid
      (fun p => {| pc := eff_pc (effect script pid pr s);
                   proc_event := proc_event p |})
      (procs s
       ++ new_procs (length (events s)) (eff_news (effect script pid pr s))).
Proof.
  intros Hp. unfold segment, effect, treat_drawn.
  destruct (pc pr) as [name h|name h a|name h a req|name h req|h p|h p
                      |nd tr ti|hosp ti i|h [|n]| ] eqn:Epc;
    unfold patient_arrive, patient_request, patient_granted,
      patient_treated, treat_start, setup_start, setup_loop, setup_wait,
      add_doctors_loop, initial_patients;
    try (destruct script eqn:Es).
  all: norm; grants; rewrite <- ?app_assoc; cbn [app];
       rewrite ?length_app; cbn [length];
       rewrite ?app_nil_r, ?Nat.add_succ_r, ?Nat.add_0_r; try reflexivity.
  all: symmetry; apply (@list_upd_id _ _ pid _ pr Hp).
  all: destruct pr; cbn in *; subst; reflexivity.
Qed.

Lemma segment_effect_doctor pid pr (s : State R) h' :
  Resource.users (doctor_at h' (exec (segment script pid pr) s))
  = Resource.users
      (res_after (length (hospitals s)) (eff_rop (effect script pid pr s)) h'
         (doctor_at h' s))
  /\ Resource.put_queue (doctor_at h' (exec (segment script pid pr) s))
     = Resource.put_queue
         (res_after (length (hospitals s)) (eff_rop (effect script pid pr s)) h'
            (doctor_at h' s)).
Proof.
  remember (res_after (length (hospitals s))) as ra eqn:Era.
  unfold segment, effect, treat_drawn, doctor_at.
  destruct (pc pr) as [name h|name h a|name h a req|name h req|h p|h p
                      |nd tr ti|hosp ti i|h [|n]| ] eqn:Epc;
    unfold patient_arrive, patient_request, patient_granted,
      patient_treated, treat_start, setup_start, setup_loop, setup_wait,
      add_doctors_loop, initial_patients;
    try (destruct script eqn:Es).
  all: norm; grants; subst ra; unfold res_after;
       rewrite ?doctor_nth_upd, ?doctor_upd_counter, ?doctor_upd_queue,
         ?length_list_upd;
       try (destruct (Nat.eqb_spec h' h) as [->|]; cbn [andb];
            try destruct (_ <? _));
       try (split; reflexivity).
  all: try apply doctor_nth_new.
Qed.

End EffectFacts.

Section TieLemmas.

Local Open Scope nat_scope.
Import ResourceFacts.

Variable R : Random.
Variable script : Script.

Lemma nth_error_list_upd A i j (f : A -> A) l :
  nth_error (list_upd i f l) j
  = if j =? i then option_map f (nth_error l j) else nth_error l j.
Proof.
  revert i j. induction l as [|x l IH]; intros [|i] [|j]; simpl; auto.
  destruct (j =? i); reflexivity.
Qed.

Lemma In_resumes p cbs : In p (resumes cbs) <-> In (CbResume p) cbs.
Proof.
  unfold resumes. rewrite in_flat_map. split.
  - intros (cb & Hcb & Hp). destruct cb; simpl in Hp; try tauto.
    destruct Hp as [<-|[]]. exact Hcb.
  - intros H. exists (CbResume p). split; [exact H | left; reflexivity].
Qed.

Lemma pending_In q ev evs :
  In (CbResume q) (callbacks_of ev evs) -> In q (pending_resumes evs).
Proof.
  unfold callbacks_of, pending_resumes. intros H.
  destruct (nth_error evs ev) as [[cbs|]|] eqn:E; try destruct H.
  apply in_flat_map. exists (Some cbs). split.
  - eapply nth_error_In, E.
  - apply In_resumes. exact H.
Qed.

Lemma pending_unique evs :
  NoDup (pending_resumes evs) ->
  forall q ev ev',
    In (CbResume q) (callbacks_of ev evs) ->
    In (CbResume q) (callbacks_of ev' evs) -> ev = ev'.
Proof.
  induction evs as [|o evs IH]; intros Hnd q ev ev' H H'.
  - unfold callbacks_of in H. destruct ev; simpl in H; destruct H.
  - unfold pending_resumes in Hnd. simpl in Hnd. fold (pending_resumes evs) in Hnd.
    assert (Ht : NoDup (pending_resumes evs)).
    { clear -Hnd. induction (match o with Some cbs => resumes cbs | None => [] end);
        simpl in Hnd; [exact Hnd|]. inversion Hnd; auto. }
    assert (Hd : forall x,
               In x (match o with Some cbs => resumes cbs | None => [] end) ->
               In x (pending_resumes evs) -> False).
    { clear -Hnd. induction (match o with Some cbs => resumes cbs | None => [] end)
        as [|y l IHl]; simpl in *; [tauto|].
      inversion Hnd as [|? ? Hy Hl]; subst. intros x [<-|Hx] Hx'.
      - apply Hy, in_or_app. right. exact Hx'.
      - exact (IHl Hl x Hx Hx'). }
    destruct ev as [|ev], ev' as [|ev']; auto.
    + exfalso. apply (Hd q).
      * unfold callbacks_of in H. simpl in H. destruct o; [|destruct H].
        apply In_resumes, H.
      * apply (@pending_In q ev'). exact H'.
    + exfalso. apply (Hd q).
      * unfold callbacks_of in H'. simpl in H'. destruct o; [|destruct H'].
        apply In_resumes, H'.
      * apply (@pending_In q ev). exact H.
    + f_equal. apply (IH Ht q); assumption.
Qed.

Lemma callbacks_of_app ev (evs new : list (option (list Callback))) :
  callbacks_of ev (evs ++ new)
  = if ev <? length evs then callbacks_of ev evs
    else callbacks_of (ev - length evs) new.
Proof.
  unfold callbacks_of. destruct (Nat.ltb_spec ev (length evs)).
  - rewrite nth_error_app1 by assumption. reflexivity.
  - rewrite nth_error_app2 by assumption. reflexivity.
Qed.

Lemma callbacks_of_bound ev (evs : list (option (list Callback))) cb :
  In cb (callbacks_of ev evs) -> ev < length evs.
Proof.
  unfold callbacks_of. intros H.
  destruct (nth_error evs ev) eqn:E; [|destruct H].
  apply nth_error_Some. congruence.
Qed.

Lemma In_new_procs x ev news :
  In x (new_procs ev news) -> In (pc x) news /\ ev <= proc_event x.
Proof.
  revert ev. induction news as [|p news IH]; intros ev; simpl; [tauto|].
  intros [<-|H]; simpl; [split; [left; reflexivity | lia]|].
  destruct (IH _ H). split; [right; assumption | lia].
Qed.

Lemma length_new_procs ev news : length (new_procs ev news) = length news.
Proof.
  revert ev. induction news as [|p news IH]; intros ev; simpl; auto.
Qed.

End TieLemmas.

Section EffectShape.

Local Open Scope nat_scope.
Import ResourceFacts.

Variable R : Random.
Variable script : Script.

Lemma effect_shape pid pr (s : State R) :
  let e := effect script pid pr s in
  quiet pid pr s e
  \/ (exists h req, releasing pid pr s e h req)
  \/ (exists h, requesting pid pr s e h).
Proof.
  unfold effect, quiet, releasing, requesting, pushed_own.
  destruct (pc pr) as [name h|name h a|name h a req|name h req|h p|h p
                      |nd tr ti|hosp ti i|h [|n]| ] eqn:Epc;
    try (destruct script eqn:Es);
    try (destruct (treat_drawn s) eqn:Et); cbn.
  all: first
    [ left; repeat split; try discriminate; try reflexivity;
      [ intros ? ? ? [= <- <- <-]; eexists; reflexivity
      | repeat (constructor; [cbn; lia|]); constructor ]
    | left; repeat split; try discriminate; try reflexivity;
      [ repeat (constructor; [first [left; cbn; lia | right; reflexivity]|]);
        constructor ]
    | left; repeat split; try discriminate; try reflexivity; fail
    | right; left; exists h, req; repeat split; try (left; reflexivity);
      repeat (constructor; [first [left; cbn; lia | right; reflexivity]|]);
      constructor
    | right; right; exists h; repeat split; try discriminate;
      [ left; do 2 eexists; split; [reflexivity | cbn; auto]
      | exists []; split; [symmetry; apply app_nil_r | constructor] ]
    | right; right; exists h; repeat split; try discriminate;
      [ right; reflexivity
      | eexists; split; [reflexivity | repeat constructor] ]
    | idtac ].
Qed.

Lemma effect_news_claim pid pr (s : State R) :
  Forall (fun p => claim p = []) (eff_news (effect script pid pr s)).
Proof.
  unfold effect.
  destruct (pc pr) as [name h|name h a|name h a req|name h req|h p|h p
                      |nd tr ti|hosp ti i|h [|n]| ] eqn:Epc;
    try (destruct script eqn:Es);
    try (destruct (treat_drawn s) eqn:Et); cbn.
  all: repeat (constructor; [reflexivity|]); constructor.
Qed.

Lemma effect_resumes pid pr (s : State R) :
  pid < length (procs s) ->
  NoDup (pending_resumes (eff_events (effect script pid pr s)))
  /\ Forall (fun q => q = pid
                      \/ length (procs s) <= q
                         < length (procs s)
                           + length (eff_news (effect script pid pr s)))
       (pending_resumes (eff_events (effect script pid pr s))).
Proof.
  intros Hpid. unfold effect.
  destruct (pc pr) as [name h|name h a|name h a req|name h req|h p|h p
                      |nd tr ti|hosp ti i|h [|n]| ] eqn:Epc;
    try (destruct script eqn:Es);
    try (destruct (treat_drawn s) eqn:Et); cbn.
  all: split;
    [ repeat (constructor; [cbn; lia|]); constructor
    | repeat (constructor; [cbn; lia|]); constructor ].
Qed.

Lemma effect_events_length pid pr (s : State R) :
  length (eff_news (effect script pid pr s)) = 0
  \/ eff_events (effect script pid pr s) <> [].
Proof.
  unfold effect.
  destruct (pc pr) as [name h|name h a|name h a req|name h req|h p|h p
                      |nd tr ti|hosp ti i|h [|n]| ] eqn:Epc;
    try (destruct script eqn:Es);
    try (destruct (treat_drawn s) eqn:Et); cbn;
    first [left; reflexivity | right; discriminate].
Qed.

Lemma effect_new_events pid pr (s : State R) x :
  In x (new_procs (length (events s)) (eff_news (effect script pid pr s))) ->
  proc_event x < length (events s) + length (eff_events (effect script pid pr s)).
Proof.
  unfold effect.
  destruct (pc pr) as [name h|name h a|name h a req|name h req|h p|h p
                      |nd tr ti|hosp ti i|h [|n]| ] eqn:Epc;
    try (destruct script eqn:Es);
    try (destruct (treat_drawn s) eqn:Et); cbn.
  all: intros H; repeat (destruct H as [<-|H]; [cbn; lia|]); destruct H.
Qed.

End EffectShape.

Ltac case_if :=
  match goal with
  | |- context [if ?c then _ else _] => destruct c eqn:?
  end.

Section ResourceSteps.

Local Open Scope nat_scope.
Import ResourceFacts.


Lemma request_users ev r x :
  In x (Resource.users r) -> In x (Resource.users (fst (Resource.request ev r))).
Proof.
  unfold Resource.request, Resource.trigger_put. cbn.
  destruct (Resource.put_queue r ++ [ev]); cbn; auto.
  case_if; cbn; auto. intros H. apply in_or_app. left. exact H.
Qed.

Lemma request_queue ev r x :
  In x (Resource.put_queue (fst (Resource.request ev r))) ->
  In x (Resource.put_queue r) \/ x = ev.
Proof.
  unfold Resource.request, Resource.trigger_put. cbn.
  destruct (Resource.put_queue r ++ [ev]) as [|y q] eqn:E; cbn.
  - tauto.
  - assert (Hq : forall z, In z (y :: q) -> In z (Resource.put_queue r) \/ z = ev).
    { intros z Hz. rewrite <- E in Hz. apply in_app_or in Hz.
      destruct Hz as [Hz|[<-|[]]]; auto. }
    case_if; cbn; intros H; apply Hq.
    + right. exact H.
    + exact H.
Qed.

Lemma request_grant_users ev r x :
  snd (Resource.request ev r) = Some x ->
  In x (Resource.users (fst (Resource.request ev r))).
Proof.
  unfold Resource.request, Resource.trigger_put. cbn.
  destruct (Resource.put_queue r ++ [ev]) as [|y q]; cbn; [discriminate|].
  case_if; cbn; [|discriminate].
  intros [= <-]. apply in_or_app. right. left. reflexivity.
Qed.

Lemma trigger_put_users r x :
  In x (Resource.users r) -> In x (Resource.users (fst (Resource.trigger_put r))).
Proof.
  unfold Resource.trigger_put.
  destruct (Resource.put_queue r); cbn; auto.
  case_if; cbn; auto. intros H. apply in_or_app. left. exact H.
Qed.

Lemma trigger_put_queue r x :
  In x (Resource.put_queue (fst (Resource.trigger_put r))) ->
  In x (Resource.put_queue r).
Proof.
  unfold Resource.trigger_put.
  destruct (Resource.put_queue r) as [|y q] eqn:E; cbn;
    [rewrite E; auto|].
  case_if; cbn; [|rewrite E]; auto.
Qed.

Lemma trigger_put_grant_users r x :
  snd (Resource.trigger_put r) = Some x ->
  In x (Resource.users (fst (Resource.trigger_put r))).
Proof.
  unfold Resource.trigger_put.
  destruct (Resource.put_queue r) as [|y q]; cbn; [discriminate|].
  case_if; cbn; [|discriminate].
  intros [= <-]. apply in_or_app. right. left. reflexivity.
Qed.

Lemma active_none cbs q : active_all cbs = 0 -> ~ In (CbResume q) cbs.
Proof.
  induction cbs as [|cb cbs IH]; simpl; [tauto|].
  intros H [->|Hin]; [simpl in H; discriminate|].
  apply IH; [lia | exact Hin].
Qed.

End ResourceSteps.

Section SegmentTied.

Local Open Scope nat_scope.
Import ResourceFacts.

Variable R : Random.
Variable script : Script.
Variables (p : nat) (pr : Process) (cbs : list Callback) (s : State R).
Hypothesis Hp : nth_error (procs s) p = Some pr.
Hypothesis T : tied (CbResume p :: cbs) s.

Local Abbreviation e := (effect script p pr s).
Local Abbreviation s' := (exec (segment script p pr) s).
Local Abbreviation N := (new_procs (length (events s)) (eff_news e)).

Lemma grant_valid h ev x :
  snd (Resource.request ev (doctor_at h s)) = Some x ->
  h < length (hospitals s).
Proof.
  intros G. destruct (Nat.lt_ge_cases h (length (hospitals s))) as [H|H];
    [exact H|].
  unfold doctor_at in G. rewrite nth_overflow in G by exact H.
  cbn in G. discriminate.
Qed.

Lemma seg_no_resume q : ~ In (CbResume q) cbs.
Proof.
  apply active_none. pose proof (tied_active T) as H. simpl in H. lia.
Qed.

Lemma seg_pid : p < length (procs s).
Proof. apply nth_error_Some. rewrite Hp. discriminate. Qed.

Lemma seg_origin q x :
  nth_error (procs s') q = Some x ->
  (q = p /\ x = {| pc := eff_pc e; proc_event := proc_event pr |})
  \/ (q <> p /\ nth_error (procs s) q = Some x)
  \/ (length (procs s) <= q /\ In x N).
Proof.
  rewrite (segment_effect_procs script _ _ Hp), nth_error_list_upd.
  destruct (Nat.eqb_spec q p) as [->|Hne].
  - rewrite nth_error_app1 by apply seg_pid. rewrite Hp. cbn.
    intros [= <-]. left. split; reflexivity.
  - intros H. destruct (Nat.lt_ge_cases q (length (procs s))) as [Hq|Hq].
    + rewrite nth_error_app1 in H by exact Hq. right. left. split; assumption.
    + rewrite nth_error_app2 in H by exact Hq. right. right.
      split; [exact Hq | eapply nth_error_In, H].
Qed.

Lemma seg_new_claim x : In x N -> claim (pc x) = [].
Proof.
  intros H. apply In_new_procs in H. destruct H as [H _].
  pose proof (effect_news_claim script p pr s) as F.
  rewrite Forall_forall in F. apply F, H.
Qed.

Lemma seg_length_procs :
  length (procs s') = length (procs s) + length (eff_news e).
Proof.
  rewrite (segment_effect_procs script _ _ Hp), length_list_upd, length_app,
    length_new_procs. reflexivity.
Qed.

Lemma seg_length_events :
  length (events s') = length (events s) + length (eff_events e).
Proof. rewrite segment_effect_events, length_app. reflexivity. Qed.

(** What the segment does to the users and the queue of a resource. *)
Lemma seg_users_kept h x :
  In x (Resource.users (doctor_at h s)) ->
  (forall h0 req, eff_rop e = Some (h0, Release req) -> x <> req) ->
  In x (Resource.users (doctor_at h s')).
Proof.
  intros H Hne. rewrite (proj1 (segment_effect_doctor script p pr s h)).
  unfold res_after. destruct (eff_rop e) as [[h0 [ev|req|]]|]; try exact H.
  - case_if; [|exact H]. cbn. apply request_users, H.
  - case_if; [|exact H]. cbn. apply In_list_remove_neq; [|exact H].
    intros E. apply (Hne h0 req eq_refl). symmetry. exact E.
  - case_if; [|exact H]. cbn. apply trigger_put_users, H.
Qed.

Lemma seg_queue_old h x :
  In x (Resource.put_queue (doctor_at h s')) ->
  In x (Resource.put_queue (doctor_at h s))
  \/ (x = length (events s)
      /\ eff_rop e = Some (h, Request (length (events s)))).
Proof.
  rewrite (proj2 (segment_effect_doctor script p pr s h)).
  unfold res_after.
  destruct (effect_shape script p pr s) as [Q|[(h0 & req & Q)|(h0 & Q)]];
    destruct Q as (-> & _); auto.
  - case_if; auto.
  - destruct (Nat.eqb_spec h h0) as [->|]; cbn [andb]; auto.
    case_if; auto. cbn. intros H.
    apply request_queue in H. destruct H; auto.
Qed.

Lemma seg_origin_in x :
  In x (procs s') ->
  x = {| pc := eff_pc e; proc_event := proc_event pr |}
  \/ (exists q, q <> p /\ nth_error (procs s) q = Some x)
  \/ In x N.
Proof.
  intros H. apply In_nth_error in H. destruct H as [q H].
  destruct (seg_origin _ H) as [[_ ->]|[[Hq Hx]|[_ Hx]]]; eauto.
Qed.

Lemma seg_claims_bounded x r :
  In x (procs s') -> In r (claim (pc x)) -> r < length (events s').
Proof.
  intros Hx Hr. rewrite seg_length_events.
  destruct (seg_origin_in _ Hx) as [->|[(q & Hq & Hn)|Hn]].
  - cbn in Hr.
    destruct (effect_shape script p pr s) as [Q|[(h0 & req & Q)|(h0 & Q)]].
    + destruct Q as (_ & Hc & _). rewrite Hc in Hr.
      pose proof (claims_bounded T _ _ (nth_error_In _ _ Hp) Hr). lia.
    + destruct Q as (_ & _ & Hf & _). rewrite Hf in Hr. destruct Hr.
    + destruct Q as (_ & _ & [(n & a & Hc & _)|Hc] & Hv & _).
      * rewrite Hc in Hr. destruct Hr as [<-|[]].
        destruct (eff_events e); [congruence | cbn; lia].
      * rewrite Hc in Hr. destruct Hr.
  - pose proof (claims_bounded T _ _ (nth_error_In _ _ Hn) Hr). lia.
  - rewrite (seg_new_claim _ Hn) in Hr. destruct Hr.
Qed.

Lemma seg_claim_own r :
  In r (claim (eff_pc e)) ->
  In r (claim (pc pr))
  \/ (r = length (events s) /\ eff_news e = [] /\ eff_events e <> []).
Proof.
  intros Hr.
  destruct (effect_shape script p pr s) as [Q|[(h0 & req & Q)|(h0 & Q)]].
  - destruct Q as (_ & Hc & _). rewrite Hc in Hr. left. exact Hr.
  - destruct Q as (_ & _ & Hf & _). rewrite Hf in Hr. destruct Hr.
  - destruct Q as (_ & _ & [(n & a & Hc & _)|Hc] & Hv & Hn & _).
    + rewrite Hc in Hr. destruct Hr as [<-|[]]. right. auto.
    + rewrite Hc in Hr. destruct Hr.
Qed.

Lemma seg_claims_distinct q1 q2 x1 x2 r :
  nth_error (procs s') q1 = Some x1 -> nth_error (procs s') q2 = Some x2 ->
  In r (claim (pc x1)) -> In r (claim (pc x2)) -> q1 = q2.
Proof.
  intros H1 H2 R1 R2.
  destruct (seg_origin _ H1) as [[-> ->]|[[Hq1 Hn1]|[_ Hn1]]];
    destruct (seg_origin _ H2) as [[-> ->]|[[Hq2 Hn2]|[_ Hn2]]];
    try reflexivity;
    try (rewrite (seg_new_claim _ Hn1) in R1; destruct R1);
    try (rewrite (seg_new_claim _ Hn2) in R2; destruct R2).
  - cbn in R1. destruct (seg_claim_own _ R1) as [Ho|(-> & _)].
    + eapply (claims_distinct T); [exact Hp | exact Hn2 | exact Ho | exact R2].
    + pose proof (claims_bounded T _ _ (nth_error_In _ _ Hn2) R2). lia.
  - cbn in R2. destruct (seg_claim_own _ R2) as [Ho|(-> & _)].
    + eapply (claims_distinct T); [exact Hn1 | exact Hp | exact R1 | exact Ho].
    + pose proof (claims_bounded T _ _ (nth_error_In _ _ Hn1) R1). lia.
  - eapply (claims_distinct T); [exact Hn1 | exact Hn2 | exact R1 | exact R2].
Qed.

Lemma seg_claims_events x x' :
  In x (procs s') -> In x' (procs s') -> ~ In (proc_event x) (claim (pc x')).
Proof.
  intros Hx Hx' Hin.
  pose proof (tied_refs T) as [_ Hpe]. rewrite Forall_forall in Hpe.
  assert (Hold : forall r, In r (claim (pc pr))
                           \/ (exists q y, nth_error (procs s) q = Some y
                                           /\ In r (claim (pc y))) ->
                 r = proc_event x -> False).
  { intros r Hr ->.
    assert (Hy : exists y, In y (procs s) /\ In (proc_event x) (claim (pc y))).
    { destruct Hr as [Hr|(q & y & Hq & Hr)].
      - exists pr. split; [eapply nth_error_In, Hp | exact Hr].
      - exists y. split; [eapply nth_error_In, Hq | exact Hr]. }
    destruct Hy as (y & Hy & Hr').
    destruct (seg_origin_in _ Hx) as [->|[(q & Hq & Hn)|Hn]].
    - exact (claims_events T _ _ (nth_error_In _ _ Hp) Hy Hr').
    - exact (claims_events T _ _ (nth_error_In _ _ Hn) Hy Hr').
    - apply In_new_procs in Hn. destruct Hn as [_ Hn].
      pose proof (claims_bounded T _ _ Hy Hr'). lia. }
  destruct (seg_origin_in _ Hx') as [->|[(q & Hq & Hn)|Hn]].
  - cbn in Hin. destruct (seg_claim_own _ Hin) as [Ho|(He & Hnews & _)].
    + exact (Hold _ (or_introl Ho) eq_refl).
    + destruct (seg_origin_in _ Hx) as [->|[(q & Hq & Hn)|Hn]].
      * cbn in He. pose proof (Hpe _ (nth_error_In _ _ Hp)). cbn in *. lia.
      * pose proof (Hpe _ (nth_error_In _ _ Hn)). cbn in *. lia.
      * rewrite Hnews in Hn. destruct Hn.
  - apply (Hold (proc_event x)); [|reflexivity]. right. eauto.
  - rewrite (seg_new_claim _ Hn) in Hin. destruct Hin.
Qed.

Lemma seg_other_claim q x r h0 req :
  q <> p -> nth_error (procs s) q = Some x -> In r (claim (pc x)) ->
  eff_rop e = Some (h0, Release req) -> r <> req.
Proof.
  intros Hq Hn Hr Hrop ->.
  destruct (effect_shape script p pr s) as [Q|[(h1 & req1 & Q)|(h1 & Q)]];
    destruct Q as (Hrop' & Q); rewrite Hrop' in Hrop; try discriminate.
  injection Hrop as <- <-. destruct Q as (Hc & _).
  apply Hq. eapply (claims_distinct T); [exact Hn | exact Hp | exact Hr | exact Hc].
Qed.

Lemma seg_treated_hold x n h req :
  In x (procs s') -> pc x = PatientTreat n h req ->
  In req (Resource.users (doctor_at h s')).
Proof.
  intros Hx Hpc.
  destruct (seg_origin_in _ Hx) as [->|[(q & Hq & Hn)|Hn]].
  - cbn in Hpc.
    destruct (effect_shape script p pr s) as [Q|[(h0 & req0 & Q)|(h0 & Q)]].
    + destruct Q as (Hrop & _ & Ht & _).
      destruct (Ht _ _ _ Hpc) as [a Ha].
      destruct (waiting_tied T p Hp Ha) as [G|[Hno _]].
      * apply seg_users_kept; [exact G|]. intros ? ? E. congruence.
      * exfalso. apply Hno. left. reflexivity.
    + destruct Q as (_ & _ & Hf & _). congruence.
    + destruct Q as (_ & _ & [(n0 & a & Hc & _)|Hc] & _).
      * congruence.
      * rewrite Hpc in Hc. discriminate.
  - apply seg_users_kept.
    + eapply (treated_hold T); [eapply nth_error_In, Hn | exact Hpc].
    + intros h0 req0 Hrop. eapply seg_other_claim; eauto.
      rewrite Hpc. left. reflexivity.
  - pose proof (seg_new_claim _ Hn) as Hc. rewrite Hpc in Hc. discriminate.
Qed.

Lemma seg_heap_old r :
  r <= length (events s) ->
  ~ In r (map e_event (heap (env s))) ->
  ((forall h, eff_rop e <> Some (h, Request (length (events s)))) ->
   r < length (events s) /\ r <> proc_event pr) ->
  (forall h x, eff_rop e = Some (h, Request (length (events s))) ->
               snd (Resource.request (length (events s)) (doctor_at h s)) = Some x ->
               x <> r) ->
  ~ In r (map e_event (heap (env s'))).
Proof.
  intros Hr Hold Hpe Hg. rewrite segment_effect_heap. intros Hin.
  apply in_app_or in Hin. destruct Hin as [Hin|Hin]; [exact (Hold Hin)|].
  destruct (effect_shape script p pr s) as [Q|[(h0 & req & Q)|(h0 & Q)]].
  - destruct Q as (Hrop & _ & _ & _ & Hpush). unfold pushed_own in Hpush.
    rewrite Forall_forall in Hpush.
    destruct Hpe as [Hlt Hne]; [intros h; rewrite Hrop; discriminate|].
    destruct (Hpush _ Hin); [lia | congruence].
  - destruct Q as (Hrop & _ & _ & Hpush). unfold pushed_own in Hpush.
    rewrite Forall_forall in Hpush.
    destruct Hpe as [Hlt Hne]; [intros h; rewrite Hrop; discriminate|].
    destruct (Hpush _ Hin); [lia | congruence].
  - destruct Q as (Hrop & _ & _ & _ & _ & rest & Hpush & Hrest).
    rewrite Hpush in Hin. apply in_app_or in Hin. destruct Hin as [Hin|Hin].
    + unfold granted_by in Hin.
      destruct (snd (Resource.request _ _)) as [x|] eqn:G; [|destruct Hin].
      destruct Hin as [<-|[]]. exact (Hg _ _ Hrop G eq_refl).
    + rewrite Forall_forall in Hrest. specialize (Hrest _ Hin). lia.
Qed.

Lemma seg_granted h x :
  eff_rop e = Some (h, Request (length (events s))) ->
  snd (Resource.request (length (events s)) (doctor_at h s)) = Some x ->
  In x (Resource.users (doctor_at h s')).
Proof.
  intros Hrop G.
  rewrite (proj1 (segment_effect_doctor script p pr s h)), Hrop.
  unfold res_after. rewrite Nat.eqb_refl.
  pose proof (grant_valid _ _ G) as Hv. apply Nat.ltb_lt in Hv. rewrite Hv.
  cbn. apply request_grant_users, G.
Qed.

Lemma seg_heap_bound r : In r (map e_event (heap (env s))) -> r < length (events s).
Proof.
  pose proof (tied_refs T) as [Hhe _]. rewrite Forall_forall in Hhe.
  intros H. apply in_map_iff in H. destruct H as (x & <- & Hx). apply Hhe, Hx.
Qed.

Lemma seg_same_hospital h h0 x :
  snd (Resource.request (length (events s)) (doctor_at h0 s)) = Some x ->
  x < length (events s) ->
  (forall h', In x (Resource.put_queue (doctor_at h' s)) -> h' = h) ->
  h0 = h.
Proof.
  intros G Hx Hu. apply request_granted in G. destruct G as [->|G]; [lia|].
  apply Hu, G.
Qed.

Lemma seg_waiting_tied q x n h a req :
  nth_error (procs s') q = Some x -> pc x = PatientRequest n h a req ->
  In req (Resource.users (doctor_at h s'))
  \/ (~ In (CbResume q) cbs /\ parked q h req s').
Proof.
  intros Hx Hpc.
  pose proof (tied_refs T) as [_ Hpe]. rewrite Forall_forall in Hpe.
  destruct (seg_origin _ Hx) as [[-> ->]|[[Hq Hn]|[_ Hn]]].
  - cbn in Hpc.
    destruct (effect_shape script p pr s) as [Q|[(h0 & req0 & Q)|(h0 & Q)]].
    + destruct Q as (_ & _ & _ & Hnr & _). destruct (Hnr _ _ _ _ Hpc).
    + destruct Q as (_ & _ & Hf & _). congruence.
    + destruct Q as (Hrop & _ & [(n0 & a0 & Hc & Hcb)|Hc] & Hv & _).
      2:{ rewrite Hpc in Hc. discriminate. }
      rewrite Hpc in Hc. injection Hc as -> -> -> ->.
      destruct (snd (Resource.request (length (events s)) (doctor_at h0 s)))
        as [x|] eqn:G.
      1: destruct (Nat.eq_dec x (length (events s))) as [->|Hne];
           [left; apply seg_granted; assumption|].
      all: right; split; [apply seg_no_resume|]; split; [|split].
      all: try (intros h' Hin; destruct (seg_queue_old _ _ Hin) as [Ho|[_ Ho]];
                [pose proof (requests_bounded_all _ _ (tied_requests T) Ho); lia
                |congruence]).
      all: try (apply seg_heap_old;
                [ lia
                | intros Hin; apply seg_heap_bound in Hin; lia
                | intros Hno; destruct (Hno _ Hrop)
                | intros h1 x1 Hr1 G1; rewrite Hr1 in Hrop;
                  injection Hrop as <-; congruence ]).
      all: rewrite segment_effect_events, callbacks_of_app, Nat.ltb_irrefl,
             Nat.sub_diag; exact Hcb.
  - assert (Hreq : In req (claim (pc x))) by (rewrite Hpc; left; reflexivity).
    pose proof (claims_bounded T _ _ (nth_error_In _ _ Hn) Hreq) as Hb.
    destruct (waiting_tied T q Hn Hpc) as [G|[Hno (Hu & Hs & Hcb)]].
    + left. apply seg_users_kept; [exact G|].
      intros h0 req0 Hrop. eapply seg_other_claim; eauto.
    + assert (Hcase :
        (exists h0 x0, eff_rop e = Some (h0, Request (length (events s)))
           /\ snd (Resource.request (length (events s)) (doctor_at h0 s)) = Some x0
           /\ x0 = req)
        \/ (forall h0 x0, eff_rop e = Some (h0, Request (length (events s))) ->
              snd (Resource.request (length (events s)) (doctor_at h0 s)) = Some x0 ->
              x0 <> req)).
      { destruct (eff_rop e) as [[h0 [ev|r0|]]|]; try (right; discriminate).
        destruct (Nat.eq_dec ev (length (events s))) as [->|Hev];
          [|right; intros ? ? [= _ E]; congruence].
        destruct (snd (Resource.request (length (events s)) (doctor_at h0 s)))
          as [x0|] eqn:G.
        - destruct (Nat.eq_dec x0 req) as [->|Hx0].
          + left. exists h0, req. auto.
          + right. intros ? ? [= <-] E. congruence.
        - right. intros ? ? [= <-] E. congruence. }
      destruct Hcase as [(h0 & x0 & Hrop & G & ->)|Hother].
      * left. assert (E : h0 = h) by (eapply seg_same_hospital; eauto).
        rewrite <- E. apply seg_granted; assumption.
      * right. split; [apply seg_no_resume|]. split; [|split].
        { intros h' Hin. destruct (seg_queue_old _ _ Hin) as [Ho|[Ho _]];
            [apply Hu, Ho | lia]. }
        { apply seg_heap_old; [lia | exact Hs | | exact Hother].
          intros _. split; [exact Hb|]. intros E.
          apply (claims_events T _ _ (nth_error_In _ _ Hp) (nth_error_In _ _ Hn)).
          rewrite <- E. exact Hreq. }
        { rewrite segment_effect_events, callbacks_of_app.
          apply Nat.ltb_lt in Hb. rewrite Hb. exact Hcb. }
  - pose proof (seg_new_claim _ Hn) as Hc. rewrite Hpc in Hc. discriminate.
Qed.

Lemma seg_resumes_unique q ev ev' :
  In (CbResume q) (callbacks_of ev (events s')) ->
  In (CbResume q) (callbacks_of ev' (events s')) -> ev = ev'.
Proof.
  rewrite segment_effect_events, !callbacks_of_app.
  destruct (effect_resumes script pr s seg_pid) as [Hnd Hall].
  rewrite Forall_forall in Hall.
  assert (Hmix : forall a b,
            In (CbResume q) (callbacks_of a (events s)) ->
            In (CbResume q) (callbacks_of b (eff_events e)) -> False).
  { intros a b Ha Hb. apply pending_In in Hb.
    destruct (Hall _ Hb) as [->|Hq].
    - apply (resumes_free T p a); [left; reflexivity | exact Ha].
    - assert (q < length (procs s)); [|lia].
      apply (resumes_bounded T). right. exists a. exact Ha. }
  destruct (Nat.ltb_spec ev (length (events s)));
    destruct (Nat.ltb_spec ev' (length (events s))); intros H1 H2.
  - exact (resumes_unique T _ _ _ H1 H2).
  - destruct (Hmix _ _ H1 H2).
  - destruct (Hmix _ _ H2 H1).
  - pose proof (@pending_unique _ Hnd _ _ _ H1 H2). lia.
Qed.

Lemma seg_resumes_bounded q :
  In (CbResume q) cbs
  \/ (exists ev, In (CbResume q) (callbacks_of ev (events s'))) ->
  q < length (procs s').
Proof.
  rewrite seg_length_procs.
  intros [H|[ev H]]; [destruct (seg_no_resume _ H)|].
  rewrite segment_effect_events, callbacks_of_app in H.
  destruct (effect_resumes script pr s seg_pid) as [_ Hall].
  rewrite Forall_forall in Hall.
  destruct (Nat.ltb_spec ev (length (events s))).
  - assert (q < length (procs s)); [|lia].
    apply (resumes_bounded T). right. exists ev. exact H.
  - apply pending_In in H. pose proof seg_pid.
    destruct (Hall _ H) as [->|Hq]; lia.
Qed.

Lemma tied_segment : tied cbs s'.
Proof.
  split.
  - apply (ext_requests_ok (@sat_ext_segment R script p pr s) (tied_requests T)).
  - apply refs_ok_segment; [apply (tied_requests T) | exact Hp | apply (tied_refs T)].
  - pose proof (tied_active T) as H. simpl in H. lia.
  - apply seg_claims_bounded.
  - apply seg_claims_distinct.
  - apply seg_claims_events.
  - apply seg_treated_hold.
  - apply seg_waiting_tied.
  - intros q ev H. destruct (seg_no_resume _ H).
  - apply seg_resumes_unique.
  - apply seg_resumes_bounded.
Qed.

End SegmentTied.

Section TiedFacts.

Local Open Scope nat_scope.
Import ResourceFacts.

Variable R : Random.
Variable script : Script.

Lemma tied_skip cb cbs (s : State R) : tied (cb :: cbs) s -> tied cbs s.
Proof.
  intros T. split; try apply T.
  - pose proof (tied_active T) as H. simpl in H. lia.
  - intros pid pr n h a req Hn Hpc.
    destruct (waiting_tied T pid Hn Hpc) as [G|[Hno Hpk]]; [left; exact G|].
    right. split; [|exact Hpk]. intros H. apply Hno. right. exact H.
  - intros p ev H. apply (resumes_free T). right. exact H.
  - intros p [H|H]; apply (resumes_bounded T); [left; right; exact H | right; exact H].
Qed.

Lemma tied_nil cbs (s : State R) : tied cbs s -> tied [] s.
Proof.
  induction cbs as [|cb cbs IH]; intros T; [exact T|].
  apply IH. eapply tied_skip, T.
Qed.

Lemma trigger_put_effect h (s : State R) :
  events (exec (trigger_put h) s) = events s
  /\ procs (exec (trigger_put h) s) = procs s
  /\ map e_event (heap (env (exec (trigger_put h) s)))
     = map e_event (heap (env s))
       ++ match snd (Resource.trigger_put (doctor_at h s)) with
          | Some x => [x]
          | None => []
          end
  /\ forall h', doctor_at h' (exec (trigger_put h) s)
                = res_after (length (hospitals s)) (Some (h, TriggerPut)) h'
                    (doctor_at h' s).
Proof.
  unfold doctor_at, res_after. norm.
  all: repeat split; try reflexivity.
  all: try (destruct (snd (Resource.trigger_put _)); cbn;
            rewrite ?map_app, ?app_nil_r; reflexivity).
  all: intros h'; rewrite doctor_nth_upd;
       destruct (Nat.eqb_spec h' h) as [->|]; cbn [andb]; try reflexivity;
       case_if; reflexivity.
Qed.

Lemma trigger_put_valid h (s : State R) x :
  snd (Resource.trigger_put (doctor_at h s)) = Some x ->
  h < length (hospitals s).
Proof.
  intros G. destruct (Nat.lt_ge_cases h (length (hospitals s))) as [H|H];
    [exact H|].
  unfold doctor_at in G. rewrite nth_overflow in G by exact H.
  cbn in G. discriminate.
Qed.

Lemma tied_trigger_put h cbs (s : State R) :
  tied (CbTriggerPut h :: cbs) s -> tied cbs (exec (trigger_put h) s).
Proof.
  intros T. destruct (trigger_put_effect h s) as (He & Hp & Hh & Hd).
  assert (Hu : forall h' x, In x (Resource.users (doctor_at h' s)) ->
                 In x (Resource.users (doctor_at h' (exec (trigger_put h) s)))).
  { intros h' x Hx. rewrite Hd. unfold res_after. case_if; [|exact Hx].
    cbn. apply trigger_put_users, Hx. }
  assert (Hq : forall h' x,
                 In x (Resource.put_queue (doctor_at h' (exec (trigger_put h) s))) ->
                 In x (Resource.put_queue (doctor_at h' s))).
  { intros h' x. rewrite Hd. unfold res_after. case_if; [|auto].
    cbn. apply trigger_put_queue. }
  split.
  - apply (ext_requests_ok (@sat_ext_trigger_put R h s) (tied_requests T)).
  - apply refs_ok_trigger_put; [apply (tied_requests T) | apply (tied_refs T)].
  - pose proof (tied_active T) as H. simpl in H. lia.
  - rewrite Hp, He. apply (claims_bounded T).
  - rewrite Hp. apply (claims_distinct T).
  - rewrite Hp. apply (claims_events T).
  - rewrite Hp. intros pr n h' req Hin Hpc. apply Hu.
    eapply (treated_hold T); eauto.
  - rewrite Hp. intros pid pr n h' a req Hn Hpc.
    destruct (waiting_tied T pid Hn Hpc) as [G|[Hno (Hun & Hs & Hcb)]];
      [left; apply Hu, G|].
    destruct (snd (Resource.trigger_put (doctor_at h s))) as [x|] eqn:G.
    + destruct (Nat.eq_dec x req) as [->|Hne].
      * left. pose proof (trigger_put_valid _ _ G) as Hv.
        destruct (trigger_put_granted _ G) as [q Eq].
        assert (E : h = h') by (apply Hun; rewrite Eq; left; reflexivity).
        subst h'. rewrite Hd. unfold res_after. rewrite Nat.eqb_refl.
        apply Nat.ltb_lt in Hv. rewrite Hv. cbn.
        apply trigger_put_grant_users, G.
      * right. split; [intros H; apply Hno; right; exact H|].
        split; [|split].
        -- intros h0 Hin. apply Hun, Hq, Hin.
        -- rewrite Hh. intros Hin. apply in_app_or in Hin.
           destruct Hin as [Hin|[Hin|[]]]; [exact (Hs Hin) | congruence].
        -- rewrite He. exact Hcb.
    + right. split; [intros H; apply Hno; right; exact H|].
      split; [|split].
      * intros h0 Hin. apply Hun, Hq, Hin.
      * rewrite Hh, app_nil_r. exact Hs.
      * rewrite He. exact Hcb.
  - rewrite He. intros p ev H. apply (resumes_free T). right. exact H.
  - rewrite He. apply (resumes_unique T).
  - rewrite He, Hp. intros p [H|H]; apply (resumes_bounded T);
      [left; right; exact H | right; exact H].
Qed.

Lemma tied_run_callbacks cbs (s : State R) :
  tied cbs s -> tied [] (snd (run_callbacks script cbs s)).
Proof.
  revert s. induction cbs as [|cb cbs IH]; intros s T; [exact T|].
  destruct cb as [pid|h|h|h| ]; cbn [run_callbacks run_callback];
    unfold bind; cbn.
  - apply IH. unfold resume.
    destruct (nth_error (procs s) pid) as [pr|] eqn:Hp.
    + apply (tied_segment script Hp T).
    + cbn. eapply tied_skip, T.
  - apply IH. apply tied_trigger_put, T.
  - apply IH. eapply tied_skip, T.
  - apply IH. eapply tied_skip, T.
  - eapply tied_nil, T.
Qed.

Lemma callbacks_of_upd_sub ev a cb (evs : list (option (list Callback))) :
  In cb (callbacks_of a (list_upd ev (fun _ => None) evs)) ->
  In cb (callbacks_of a evs) /\ a <> ev.
Proof.
  intros H. destruct (Nat.eq_dec a ev) as [->|Hne].
  - rewrite callbacks_of_upd_same in H. destruct H.
  - rewrite callbacks_of_upd_other in H by auto. auto.
Qed.

Lemma tied_popped e (s : State R) :
  events_ok s -> In e (heap (env s)) -> tied [] s ->
  tied (callbacks_of (e_event e) (events s)) (popped e s).
Proof.
  intros Hev Hin T. pose proof (tied_refs T) as [Hhe Hpe].
  split.
  - apply requests_ok_popped, (tied_requests T).
  - split; cbn; rewrite length_list_upd; [|exact Hpe].
    apply Forall_forall. intros x Hx. rewrite Forall_forall in Hhe.
    apply Hhe. eapply In_heap_remove, Hx.
  - apply callbacks_of_ok, Hev.
  - cbn. rewrite length_list_upd. apply (claims_bounded T).
  - apply (claims_distinct T).
  - apply (claims_events T).
  - apply (treated_hold T).
  - cbn. intros pid pr n h a req Hn Hpc.
    destruct (waiting_tied T pid Hn Hpc) as [G|[_ (Hun & Hs & Hcb)]];
      [left; exact G|].
    assert (Hne : e_event e <> req).
    { intros E. apply Hs. rewrite <- E. apply in_map, Hin. }
    right. split; [|split; [|split]].
    + intros H. apply Hne. symmetry.
      exact (resumes_unique T _ _ _ Hcb H).
    + exact Hun.
    + cbn. intros H. apply Hs. apply in_map_iff in H.
      destruct H as (x & <- & Hx). apply in_map. eapply In_heap_remove, Hx.
    + cbn. rewrite callbacks_of_upd_other by exact Hne. exact Hcb.
  - cbn. intros p ev H H'. apply callbacks_of_upd_sub in H'.
    destruct H' as [H' Hne]. apply Hne. exact (resumes_unique T _ _ _ H' H).
  - cbn. intros p ev ev' H H'. apply callbacks_of_upd_sub in H, H'.
    exact (resumes_unique T _ _ _ (proj1 H) (proj1 H')).
  - cbn. intros p [H|[ev H]]; apply (resumes_bounded T); right.
    + eexists. exact H.
    + apply callbacks_of_upd_sub in H. exists ev. apply H.
Qed.

Lemma tied_step (s : State R) :
  inv s -> tied [] s -> tied [] (snd (step script s)).
Proof.
  intros Hi T.
  destruct (heappop (heap (env s))) as [[e rest]|] eqn:E.
  - rewrite (step_popped _ _ E). simpl.
    apply tied_run_callbacks, tied_popped; [apply Hi| |exact T].
    apply (heappop_is_next _ E).
  - unfold step. rewrite E. exact T.
Qed.

End TiedFacts.

Section TiedReach.

Local Open Scope nat_scope.
Import ResourceFacts.

Variable R : Random.
Variable script : Script.

Lemma doctor_at_frame (s s' : State R) h :
  hospitals s' = hospitals s -> doctor_at h s' = doctor_at h s.
Proof. unfold doctor_at. intros ->. reflexivity. Qed.

Lemma tied_run_start at_ (s s' : State R) :
  run_start at_ s = Some s' -> tied [] s -> tied [] s'.
Proof.
  intros Hrun T.
  pose proof (run_start_ext _ _ Hrun) as Hext.
  assert (Hrefs : refs_ok s')
    by (eapply refs_ok_run_start; [apply (tied_refs T) | exact Hrun]).
  revert Hrun. unfold run_start.
  destruct (Qle_bool at_ (now (env s))); [discriminate|].
  intros [= <-]. split.
  - eapply ext_requests_ok; [|apply (tied_requests T)].
    eapply ext_weaken; [|exact Hext]. lia.
  - exact Hrefs.
  - simpl. lia.
  - cbn. rewrite length_app. intros pr r Hin Hr.
    pose proof (claims_bounded T _ _ Hin Hr). lia.
  - apply (claims_distinct T).
  - apply (claims_events T).
  - apply (treated_hold T).
  - cbn. intros pid pr n h a req Hn Hpc.
    assert (Hb : req < length (events s)).
    { apply (claims_bounded T pr); [eapply nth_error_In, Hn|].
      rewrite Hpc. left. reflexivity. }
    destruct (waiting_tied T pid Hn Hpc) as [G|[_ (Hun & Hs & Hcb)]];
      [left; exact G|].
    right. split; [intros []|]. split; [exact Hun|]. split; cbn.
    + rewrite map_app. intros H. apply in_app_or in H.
      destruct H as [H|[H|[]]]; [exact (Hs H)|]. cbn in H. lia.
    + rewrite callbacks_of_app_old by exact Hb. exact Hcb.
  - intros p ev [].
  - cbn. intros p ev ev'. rewrite !callbacks_of_app.
    assert (Hnew : forall k, ~ In (CbResume p) (callbacks_of k [Some [@CbStop]])).
    { intros [|[|k]]; cbn; intuition discriminate. }
    repeat case_if; intros H H';
      try (exfalso; eapply Hnew; eassumption).
    exact (resumes_unique T _ _ _ H H').
  - cbn. intros p [[]|[ev H]]. revert H. rewrite callbacks_of_app.
    case_if; intros H.
    + apply (resumes_bounded T). right. exists ev. exact H.
    + exfalso. revert H. generalize (ev - length (events s)).
      intros [|[|k]]; cbn; intuition discriminate.
Qed.

Lemma tied_process start (s : State R) :
  claim start = [] -> tied [] s -> tied [] (exec (process start) s).
Proof.
  intros Hc T. pose proof (tied_refs T) as [Hhe Hpe].
  rewrite Forall_forall in Hhe, Hpe.
  assert (Hnew : forall p k,
            In (CbResume p)
              (callbacks_of k [Some []; Some [CbResume (length (procs s))]]) ->
            p = length (procs s) /\ k = 1).
  { intros p [|[|[|k]]]; cbn; intros H; try tauto.
    destruct H as [[= <-]|[]]. auto. }
  assert (Hold : forall p ev,
            In (CbResume p) (callbacks_of ev (events s)) -> p < length (procs s)).
  { intros p ev H. apply (resumes_bounded T). right. exists ev. exact H. }
  split.
  - apply (ext_requests_ok (s:=s)); [|apply (tied_requests T)].
    eapply ext_weaken; [|apply sat_ext_process]. lia.
  - apply refs_ok_process, (tied_refs T).
  - simpl. lia.
  - cbn. rewrite <- app_assoc, length_app. intros pr r Hin Hr.
    apply in_app_or in Hin. destruct Hin as [Hin|[<-|[]]].
    + pose proof (claims_bounded T _ _ Hin Hr). lia.
    + cbn in Hr. rewrite Hc in Hr. destruct Hr.
  - cbn. intros p q pr pr' r Hp Hq Hr Hr'.
    assert (Hin : forall k x, nth_error (procs s ++ [{| pc := start;
                   proc_event := length (events s) |}]) k = Some x ->
                 In r (claim (pc x)) -> nth_error (procs s) k = Some x).
    { intros k x Hk Hx.
      destruct (Nat.lt_ge_cases k (length (procs s))) as [Hlt|Hge].
      - rewrite nth_error_app1 in Hk by exact Hlt. exact Hk.
      - rewrite nth_error_app2 in Hk by exact Hge.
        apply nth_error_In in Hk. destruct Hk as [<-|[]].
        cbn in Hx. rewrite Hc in Hx. destruct Hx. }
    eapply (claims_distinct T); eauto.
  - cbn. intros pr pr' Hin Hin' Hr.
    apply in_app_or in Hin, Hin'.
    destruct Hin' as [Hin'|[<-|[]]];
      [|cbn in Hr; rewrite Hc in Hr; destruct Hr].
    destruct Hin as [Hin|[<-|[]]].
    + exact (claims_events T _ _ Hin Hin' Hr).
    + cbn in Hr. pose proof (claims_bounded T _ _ Hin' Hr). lia.
  - cbn. intros pr n h req Hin Hpc. apply in_app_or in Hin.
    destruct Hin as [Hin|[<-|[]]].
    + eapply (treated_hold T); eauto.
    + cbn in Hpc. rewrite Hpc in Hc. discriminate.
  - cbn. intros pid pr n h a req Hn Hpc.
    assert (Hn' : nth_error (procs s) pid = Some pr).
    { destruct (Nat.lt_ge_cases pid (length (procs s))) as [Hlt|Hge].
      - rewrite nth_error_app1 in Hn by exact Hlt. exact Hn.
      - rewrite nth_error_app2 in Hn by exact Hge.
        apply nth_error_In in Hn. destruct Hn as [<-|[]].
        cbn in Hpc. rewrite Hpc in Hc. discriminate. }
    assert (Hb : req < length (events s)).
    { apply (claims_bounded T pr); [eapply nth_error_In, Hn'|].
      rewrite Hpc. left. reflexivity. }
    destruct (waiting_tied T pid Hn' Hpc) as [G|[_ (Hun & Hs & Hcb)]];
      [left; exact G|].
    right. split; [intros []|]. split; [exact Hun|]. split; cbn.
    + rewrite map_app. intros H. apply in_app_or in H.
      destruct H as [H|[H|[]]]; [exact (Hs H)|]. cbn in H.
      rewrite length_app in H. cbn in H. lia.
    + rewrite <- app_assoc. rewrite callbacks_of_app_old by exact Hb. exact Hcb.
  - intros p ev [].
  - cbn. rewrite <- app_assoc. cbn. intros p ev ev'. rewrite !callbacks_of_app.
    repeat case_if; intros H H'.
    + exact (resumes_unique T _ _ _ H H').
    + apply Hold in H. apply Hnew in H'. lia.
    + apply Hold in H'. apply Hnew in H. lia.
    + apply Hnew in H, H'.
      apply Nat.ltb_ge in Heqb, Heqb0. lia.
  - cbn. rewrite <- app_assoc, length_app. cbn.
    intros p [[]|[ev H]]. revert H. rewrite callbacks_of_app.
    case_if; intros H.
    + apply Hold in H. lia.
    + apply Hnew in H. lia.
Qed.

Lemma tied_fresh seed : tied [] (fresh R seed).
Proof.
  split; [apply (inv_fresh R seed)|..]; cbn;
    try (intros; contradiction); try lia.
  all: try (split; constructor).
  - intros p q pr pr' r H. destruct p; discriminate.
  - intros pid pr n h a req H. destruct pid; discriminate.
  - intros p ev ev' H. destruct ev; destruct H.
  - intros p [[]|[ev H]]. destruct ev; destruct H.
Qed.

Lemma tied_reach (s : State R) : reach script s -> tied [] s.
Proof.
  intros [seed Hr].
  assert (H0 : tied [] (boot R seed))
    by (apply tied_process; [reflexivity | apply tied_fresh]).
  pose proof (inv_boot R seed) as Hi0.
  induction Hr as [|s Hr IH|at_ s s' Hr IH Hrun|h k s Hr IH Hh].
  - exact H0.
  - apply tied_step; [eapply inv_reach_from; eauto | exact IH].
  - eapply tied_run_start; eauto.
  - apply tied_process; [reflexivity | exact IH].
Qed.

End TiedReach.

Section Exclusion.

Local Open Scope nat_scope.
Import ResourceFacts.

Variable R : Random.
Variable script : Script.

Lemma treated_requests_length (l : list Process) :
  length (treated_requests l) = total in_treatment_w l.
Proof.
  unfold treated_requests, total.
  induction l as [|x l IH]; simpl; [reflexivity|].
  rewrite length_app, IH. destruct (pc x); reflexivity.
Qed.

Lemma In_treated_requests r (l : list Process) :
  In r (treated_requests l) ->
  exists q x n h, nth_error l q = Some x /\ pc x = PatientTreat n h r.
Proof.
  unfold treated_requests. rewrite in_flat_map.
  intros (x & Hx & Hr). apply In_nth_error in Hx. destruct Hx as [q Hq].
  destruct (pc x) as [| | |n h r'| | | | | | ] eqn:E; simpl in Hr;
    try contradiction.
  destruct Hr as [<-|[]]. exists q, x, n, h. auto.
Qed.

Lemma treated_requests_distinct (l : list Process) :
  (forall p q pr pr' r,
     nth_error l p = Some pr -> nth_error l q = Some pr' ->
     In r (claim (pc pr)) -> In r (claim (pc pr')) -> p = q) ->
  NoDup (treated_requests l).
Proof.
  induction l as [|x l IH]; intros H; [constructor|].
  assert (Hl : NoDup (treated_requests l)).
  { apply IH. intros p q pr pr' r Hp Hq Hr Hr'.
    assert (E : S p = S q) by (eapply H; [exact Hp | exact Hq | exact Hr | exact Hr']).
    congruence. }
  unfold treated_requests. simpl. fold (treated_requests l).
  destruct (pc x) as [| | |n h r| | | | | | ] eqn:E; try exact Hl.
  simpl. constructor; [|exact Hl]. intros Hin.
  destruct (In_treated_requests _ _ Hin) as (q & y & n' & h' & Hq & Hy).
  assert (E' : 0 = S q); [|discriminate].
  eapply (H 0 (S q) x y r); [reflexivity | exact Hq | |].
  - rewrite E. left. reflexivity.
  - rewrite Hy. left. reflexivity.
Qed.

Lemma treated_requests_reach (s : State R) :
  reach script s -> NoDup (treated_requests (procs s)).
Proof.
  intros Hr. apply treated_requests_distinct, (claims_distinct (tied_reach Hr)).
Qed.

Lemma in_treatment_count (s : State R) :
  reach script s ->
  in_treatment s <= Resource.count (doctor_at 1 s)
  /\ Resource.count (doctor_at 1 s) <= NUM_DOCTORS.
Proof.
  intros Hr. pose proof (tied_reach Hr) as T.
  destruct (sound_reach Hr) as [_ Hpl].
  destruct (inv_reach Hr) as (_ & _ & _ & Hcap).
  unfold in_treatment. rewrite <- treated_requests_length.
  destruct Hpl as [(Hlen & _ & _ & pr0 & rest & Hprocs & (tr & ti & Hpc0) & Hrest)
                  |(Hlen & Hpc & Hc & _)].
  - assert (E : treated_requests (procs s) = []).
    { rewrite Hprocs. unfold treated_requests. simpl. rewrite Hpc0. simpl.
      clear -Hrest. induction Hrest as [|y l Hy _ IH]; [reflexivity|].
      simpl. rewrite IH. destruct (pc y); simpl in Hy; try destruct Hy;
        reflexivity. }
    rewrite E. unfold doctor_at. rewrite nth_overflow by lia.
    cbn. unfold NUM_DOCTORS. lia.
  - split.
    + apply NoDup_incl_length.
      * apply treated_requests_distinct, (claims_distinct T).
      * intros r Hin.
        destruct (In_treated_requests _ _ Hin) as (q & y & n & h & Hq & Hy).
        apply nth_error_In in Hq.
        rewrite Forall_forall in Hpc. pose proof (Hpc _ Hq) as Hpost.
        rewrite Hy in Hpost. simpl in Hpost. subst h.
        eapply (treated_hold T); eauto.
    + rewrite <- Hc. apply (Hcap 1). lia.
Qed.

End Exclusion.

Section ExclusionClaims.

Local Open Scope nat_scope.
Import ResourceFacts.

Variable R : Random.
Variable script : Script.

(** X8.  The doctors are never overbooked.  In every state of a run,
    every patient that is in treatment (suspended at
    [yield env.process(hospital.treat(name))]) holds a request that the
    doctor resource of its hospital has granted, distinct patients hold
    distinct requests, and so the patients in treatment are never more
    than the granted requests of the hospital [setup] created, which are
    never more than [NUM_DOCTORS]. *)
Theorem doctors_never_overbooked (s : State R) :
  reach script s ->
  (forall pr n h req,
     In pr (procs s) -> pc pr = PatientTreat n h req ->
     In req (Resource.users (doctor_at h s)))
  /\ NoDup (treated_requests (procs s))
  /\ length (treated_requests (procs s)) = in_treatment s
  /\ in_treatment s <= Resource.count (doctor_at 1 s)
  /\ Resource.count (doctor_at 1 s) <= NUM_DOCTORS.
Proof.
  intros Hr. split; [|split; [|split]].
  - intros pr n h req Hin Hpc.
    eapply (treated_hold (tied_reach Hr)); eauto.
  - exact (treated_requests_reach Hr).
  - apply treated_requests_length.
  - exact (in_treatment_count Hr).
Qed.

End ExclusionClaims.

Lemma doctors_never_overbooked_witness :
  let R := TapeRandom [0; 0; 0; 0; 0; 0] 0 in
  let s := steps DTA1 8 (boot R 48) in
  in_treatment s = 2
  /\ in_treatment s <= Resource.count (doctor_at 1 s)
  /\ Resource.count (doctor_at 1 s) <= NUM_DOCTORS.
Proof.
  intros R s.
  assert (Hr : reach DTA1 s) by apply reach_steps.
  split; [vm_compute; reflexivity|].
  exact (proj2 (proj2 (proj2 (doctors_never_overbooked Hr)))).
Defined.

Section EarlyLists.

Local Open Scope nat_scope.
Import ResourceFacts.


Lemma callbacks_of_app_plus c (evs new : list (option (list Callback))) :
  callbacks_of (length evs + c) (evs ++ new) = callbacks_of c new.
Proof.
  unfold callbacks_of. rewrite nth_error_app2 by lia.
  replace (length evs + c - length evs) with c by lia. reflexivity.
Qed.

End EarlyLists.

Ltac pick_entry l :=
  lazymatch l with
  | ?x :: ?l' =>
      first [ exists x; split; [apply in_or_app; right; cbn; auto 10|];
              split; [cbn; lra|];
              cbn [e_event]; rewrite callbacks_of_app_plus; cbn;
              left; f_equal; lia
            | pick_entry l' ]
  end.

Section EarlyEffect.

Local Open Scope nat_scope.
Import ResourceFacts.

Variable R : Random.
Variable script : Script.

Lemma segment_now pid pr (s : State R) :
  now (env (exec (segment script pid pr) s)) = now (env s).
Proof.
  unfold segment.
  destruct (pc pr) as [name h|name h a|name h a req|name h req|h p|h p
                      |nd tr ti|hosp ti i|h [|n]| ] eqn:Epc;
    unfold patient_arrive, patient_request, patient_granted,
      patient_treated, treat_start, setup_start, setup_loop, setup_wait,
      add_doctors_loop, initial_patients;
    try (destruct script eqn:Es).
  all: norm; grants; reflexivity.
Qed.

Lemma segment_arrivals pid pr (s : State R) :
  total_patients (exec (segment script pid pr) s)
  = total_patients s + arrives (pc pr).
Proof.
  unfold segment, total_patients.
  destruct (pc pr) as [name h|name h a|name h a req|name h req|h p|h p
                      |nd tr ti|hosp ti i|h [|n]| ] eqn:Epc;
    unfold patient_arrive, patient_request, patient_granted,
      patient_treated, treat_start, setup_start, setup_loop, setup_wait,
      add_doctors_loop, initial_patients;
    try (destruct script eqn:Es).
  all: norm; grants; rewrite ?length_app; cbn [length arrives]; lia.
Qed.

Lemma segment_new_entries pid pr (s : State R) q x :
  nth_error (procs s) pid = Some pr ->
  length (procs s) <= q ->
  nth_error (procs (exec (segment script pid pr) s)) q = Some x ->
  exists e,
    In e (heap (env (exec (segment script pid pr) s)))
    /\ (e_time e == now (env s))%Q
    /\ In (CbResume q)
         (callbacks_of (e_event e) (events (exec (segment script pid pr) s))).
Proof.
  intros Hp Hq.
  assert (Hpid : pid < length (procs s))
    by (apply nth_error_Some; rewrite Hp; discriminate).
  unfold segment.
  destruct (pc pr) as [name h|name h a|name h a req|name h req|h p|h p
                      |nd tr ti|hosp ti i|h [|n]| ] eqn:Epc;
    unfold patient_arrive, patient_request, patient_granted,
      patient_treated, treat_start, setup_start, setup_loop, setup_wait,
      add_doctors_loop, initial_patients;
    try (destruct script eqn:Es).
  all: norm; grants; rewrite ?nth_error_list_upd;
       replace (q =? pid) with false by (symmetry; apply Nat.eqb_neq; lia);
       rewrite <- ?app_assoc; cbn [app].
  all: try (intros Hn; exfalso;
            assert (Hlt : q < length (procs s))
              by (apply nth_error_Some; rewrite Hn; discriminate); lia).
  all: events_norm; intros Hn;
       rewrite nth_error_app2 in Hn by exact Hq;
       destruct (q - length (procs s)) as [|[|[|[|k]]]] eqn:Ek;
       cbn in Hn; try discriminate;
       try (destruct k; discriminate).
  all: match goal with
       | |- exists e, In e (_ ++ ?l) /\ _ => pick_entry l
       end.
Qed.

End EarlyEffect.

Section EffectDue.

Local Open Scope nat_scope.
Import ResourceFacts.

Variable R : Random.
Variable script : Script.

Lemma effect_pc_due pid pr (s : State R) :
  due script (eff_pc (effect script pid pr s)) = 0.
Proof.
  unfold effect.
  destruct (pc pr) as [name h|name h a|name h a req|name h req|h p|h p
                      |nd tr ti|hosp ti i|h [|n]| ] eqn:Epc;
    try (destruct script eqn:Es);
    try (destruct (treat_drawn s) eqn:Et); reflexivity.
Qed.

Lemma effect_due pid pr (s : State R) :
  due script (pc pr)
  <= arrives (pc pr)
     + total (due script)
         (new_procs (length (events s)) (eff_news (effect script pid pr s))).
Proof.
  unfold effect.
  destruct (pc pr) as [name h|name h a|name h a req|name h req|h p|h p
                      |nd tr ti|hosp ti i|h [|n]| ] eqn:Epc;
    try (destruct script eqn:Es);
    try (destruct (treat_drawn s) eqn:Et); cbn; try lia.
  all: destruct (name <=? _); lia.
Qed.

Lemma effect_news_due pid pr (s : State R) x :
  (forall h ti i, pc pr = SetupLoop h ti i -> initial_patients script < i) ->
  In x (new_procs (length (events s)) (eff_news (effect script pid pr s))) ->
  0 < due script (pc x) -> 0 < due script (pc pr).
Proof.
  intros Hl. unfold effect.
  destruct (pc pr) as [name h|name h a|name h a req|name h req|h p|h p
                      |nd tr ti|hosp ti i|h [|n]| ] eqn:Epc;
    try (destruct script eqn:Es);
    try (destruct (treat_drawn s) eqn:Et); cbn; try tauto; try lia.
  all: try (intros [<-|[]]; cbn; try lia).
  all: pose proof (Hl _ _ _ eq_refl) as Hi; cbn in Hi;
       destruct (Nat.leb_spec i 4); destruct (Nat.leb_spec i 3); cbn; lia.
Qed.

Lemma effect_later pid pr (s : State R) h ti i :
  (forall h ti i, pc pr = SetupLoop h ti i -> initial_patients script < i) ->
  eff_pc (effect script pid pr s) = SetupLoop h ti i ->
  initial_patients script < i.
Proof.
  intros Hl. unfold effect.
  destruct (pc pr) as [name h0|name h0 a|name h0 a req|name h0 req|h0 p|h0 p
                      |nd tr ti0|hosp ti0 i0|h0 [|n]| ] eqn:Epc;
    try (destruct script eqn:Es);
    try (destruct (treat_drawn s) eqn:Et); cbn; try discriminate.
  all: intros [= <- <- <-]; try (cbn; lia).
  all: pose proof (Hl _ _ _ eq_refl) as Hi; cbn in *; lia.
Qed.

Lemma effect_news_later pid pr (s : State R) x h ti i :
  In x (new_procs (length (events s)) (eff_news (effect script pid pr s))) ->
  pc x <> SetupLoop h ti i.
Proof.
  unfold effect.
  destruct (pc pr) as [name h0|name h0 a|name h0 a req|name h0 req|h0 p|h0 p
                      |nd tr ti0|hosp ti0 i0|h0 [|n]| ] eqn:Epc;
    try (destruct script eqn:Es);
    try (destruct (treat_drawn s) eqn:Et); cbn; try tauto.
  all: intros H; repeat (destruct H as [<-|H]; [discriminate|]); destruct H.
Qed.

End EffectDue.

Section SegmentEarly.

Local Open Scope nat_scope.
Import ResourceFacts.

Variable R : Random.
Variable script : Script.
Variables (p : nat) (pr : Process) (cbs : list Callback) (s : State R).
Hypothesis Hp : nth_error (procs s) p = Some pr.
Hypothesis Ea : early script (CbResume p :: cbs) s.

Local Abbreviation e := (effect script p pr s).
Local Abbreviation s' := (exec (segment script p pr) s).
Local Abbreviation N := (new_procs (length (events s)) (eff_news e)).

Lemma early_own_later h ti i :
  pc pr = SetupLoop h ti i -> initial_patients script < i.
Proof. apply (early_later Ea), (nth_error_In _ _ Hp). Qed.

Lemma early_seg_count :
  initial_patients script <= total_patients s' + total (due script) (procs s').
Proof.
  pose proof (early_count Ea) as H0.
  rewrite segment_arrivals, (segment_effect_procs script _ _ Hp).
  pose proof (@total_set_pc_app (due script) p (eff_pc e) (procs s) N pr Hp) as Ht.
  rewrite effect_pc_due in Ht.
  pose proof (effect_due script p pr s). lia.
Qed.

Lemma early_seg_due q x :
  nth_error (procs s') q = Some x -> 0 < due script (pc x) ->
  resumed_at_0 cbs s' q.
Proof.
  intros Hx Hd. unfold resumed_at_0. rewrite segment_now.
  destruct (seg_origin script _ _ Hp _ Hx) as [[-> ->]|[[Hq Hn]|[Hq Hn]]].
  - cbn in Hd. rewrite effect_pc_due in Hd. lia.
  - destruct (early_due Ea q Hn Hd) as [H0 [(e0 & Hin & Ht & Hcb)|Hcb]].
    + split; [exact H0|]. left. exists e0. split; [|split; [exact Ht|]].
      * destruct (segment_heap script p pr s) as (pushed & -> & _).
        apply in_or_app. left. exact Hin.
      * rewrite segment_effect_events, callbacks_of_app_old; [exact Hcb|].
        eapply callbacks_of_bound, Hcb.
    + split; [exact H0|]. right. destruct Hcb as [[= E']|Hcb]; [congruence|].
      exact Hcb.
  - assert (Hown : 0 < due script (pc pr)).
    { eapply effect_news_due; [apply early_own_later | exact Hn | exact Hd]. }
    destruct (early_due Ea p Hp Hown) as [H0 _].
    split; [exact H0|]. left.
    destruct (@segment_new_entries R script p pr s q x Hp Hq Hx)
      as (e0 & Hin & Ht & Hcb).
    exists e0. split; [exact Hin|]. split; [|exact Hcb].
    rewrite Ht. exact H0.
Qed.

Lemma early_seg_later x h ti i :
  In x (procs s') -> pc x = SetupLoop h ti i -> initial_patients script < i.
Proof.
  intros Hx Hpc.
  destruct (seg_origin_in script _ _ Hp _ Hx) as [->|[(q & Hq & Hn)|Hn]].
  - cbn in Hpc. eapply effect_later; [apply early_own_later | exact Hpc].
  - eapply (early_later Ea); [eapply nth_error_In, Hn | exact Hpc].
  - exfalso. eapply effect_news_later; eauto.
Qed.

Lemma early_seg_stop ev q :
  In CbStop (callbacks_of ev (events s')) ->
  ~ In (CbResume q) (callbacks_of ev (events s')).
Proof.
  destruct (segment_events script p pr s) as (new & -> & Hnew).
  destruct (Nat.lt_ge_cases ev (length (events s))) as [Hlt|Hge].
  - rewrite callbacks_of_app_old by exact Hlt. apply (early_stop Ea).
  - intros Hs. pose proof (callbacks_of_app_new _ Hnew Hge) as F.
    rewrite Forall_forall in F. destruct (F _ Hs).
Qed.

Lemma early_segment : early script cbs s'.
Proof.
  split.
  - apply early_seg_count.
  - apply early_seg_due.
  - apply early_seg_later.
  - apply early_seg_stop.
  - intros q Hs Hq. apply (early_stop_now Ea q); right; assumption.
Qed.

End SegmentEarly.

Section EarlyFacts.

Local Open Scope nat_scope.
Import ResourceFacts.

Variable R : Random.
Variable script : Script.

Lemma early_skip cb cbs (s : State R) :
  (forall pid, cb = CbResume pid -> nth_error (procs s) pid = None) ->
  early script (cb :: cbs) s -> early script cbs s.
Proof.
  intros Hcb Ea. split; try apply Ea.
  - intros pid pr Hn Hd.
    destruct (early_due Ea pid Hn Hd) as [H0 [He|[->|Hin]]].
    + split; [exact H0 | left; exact He].
    + rewrite (Hcb pid eq_refl) in Hn. discriminate.
    + split; [exact H0 | right; exact Hin].
  - intros q Hs Hq. apply (early_stop_now Ea q); right; assumption.
Qed.

Lemma early_stopped cbs (s : State R) :
  early script (CbStop :: cbs) s -> early script [] s.
Proof.
  intros Ea. split; try apply Ea.
  - intros pid pr Hn Hd.
    destruct (early_due Ea pid Hn Hd) as [H0 [He|Hin]].
    + split; [exact H0 | left; exact He].
    + exfalso. apply (early_stop_now Ea pid); [left; reflexivity | exact Hin].
  - intros q [].
Qed.

Lemma early_trigger_put h cbs (s : State R) :
  early script (CbTriggerPut h :: cbs) s ->
  early script cbs (exec (trigger_put h) s).
Proof.
  intros Ea. destruct (trigger_put_effect h s) as (He & Hpr & _ & _).
  destruct (trigger_put_heap h s) as (pushed & Hh & _).
  assert (Hl : total_patients (exec (trigger_put h) s) = total_patients s)
    by (unfold total_patients; norm; grants; reflexivity).
  assert (Hn : now (env (exec (trigger_put h) s)) = now (env s))
    by (norm; grants; reflexivity).
  split.
  - rewrite Hl, Hpr. apply (early_count Ea).
  - rewrite Hpr. intros pid pr Hp Hd. unfold resumed_at_0. rewrite Hn, He, Hh.
    destruct (early_due Ea pid Hp Hd) as [H0 [(e0 & Hin & Ht & Hcb)|[[=]|Hin]]].
    + split; [exact H0|]. left. exists e0.
      split; [apply in_or_app; left; exact Hin | auto].
    + split; [exact H0 | right; exact Hin].
  - rewrite Hpr. apply (early_later Ea).
  - rewrite He. apply (early_stop Ea).
  - intros q Hs Hq. apply (early_stop_now Ea q); right; assumption.
Qed.

Lemma early_run_callbacks cbs (s : State R) :
  early script cbs s -> early script [] (snd (run_callbacks script cbs s)).
Proof.
  revert s. induction cbs as [|cb cbs IH]; intros s Ea; [exact Ea|].
  destruct cb as [pid|h|h|h| ]; cbn [run_callbacks run_callback];
    unfold bind; cbn.
  - apply IH. unfold resume.
    destruct (nth_error (procs s) pid) as [pr|] eqn:Hp.
    + apply (early_segment Hp Ea).
    + cbn. eapply early_skip; [|exact Ea]. intros ? [= <-]. exact Hp.
  - apply IH. apply early_trigger_put, Ea.
  - apply IH. eapply early_skip; [|exact Ea]. discriminate.
  - apply IH. eapply early_skip; [|exact Ea]. discriminate.
  - eapply early_stopped, Ea.
Qed.

Lemma early_popped e (s : State R) :
  time_ok s -> heap_ok s -> is_next e (heap (env s)) ->
  early script [] s ->
  early script (callbacks_of (e_event e) (events s)) (popped e s).
Proof.
  intros Ht [Hnd _] [Hin Hmin] Ea. split.
  - apply (early_count Ea).
  - cbn. intros pid pr Hn Hd.
    destruct (early_due Ea pid Hn Hd) as [H0 [(e0 & Hin0 & Ht0 & Hcb)|[]]].
    assert (Hte : (e_time e == 0)%Q).
    { pose proof (key_le_time _ _ (Hmin _ Hin0)) as Hle.
      pose proof (heap_future Ht) as Hf. rewrite Forall_forall in Hf.
      pose proof (Hf _ Hin). lra. }
    split; [exact Hte|].
    destruct (Nat.eq_dec (e_event e0) (e_event e)) as [E|Hne].
    + right. rewrite <- E. exact Hcb.
    + left. exists e0. cbn. split; [|split; [exact Ht0|]].
      * apply In_heap_remove_other; [exact Hin0|]. intros Heq.
        apply Hne. f_equal. eapply NoDup_map_eq; eauto.
      * rewrite callbacks_of_upd_other by auto. exact Hcb.
  - apply (early_later Ea).
  - cbn. intros ev q Hs Hq. apply callbacks_of_upd_sub in Hs, Hq.
    exact (early_stop Ea ev q (proj1 Hs) (proj1 Hq)).
  - intros q. apply (early_stop Ea).
Qed.

Lemma early_step (s : State R) :
  time_ok s -> heap_ok s -> early script [] s ->
  early script [] (snd (step script s)).
Proof.
  intros Ht Hh Ea.
  destruct (heappop (heap (env s))) as [[e rest]|] eqn:E.
  - rewrite (step_popped _ _ E). simpl.
    apply early_run_callbacks, early_popped; try assumption.
    apply (heappop_is_next _ E).
  - unfold step. rewrite E. exact Ea.
Qed.

Lemma early_grow (s s' : State R) new pushed added :
  procs s' = procs s ++ added ->
  Forall (fun x => due script (pc x) = 0
                   /\ forall h ti i, pc x <> SetupLoop h ti i) added ->
  events s' = events s ++ new ->
  (forall ev, ~ In CbStop (callbacks_of ev new)
              \/ forall q, ~ In (CbResume q) (callbacks_of ev new)) ->
  heap (env s') = heap (env s) ++ pushed ->
  now (env s') = now (env s) ->
  lists s' = lists s ->
  early script [] s -> early script [] s'.
Proof.
  intros Hpr Had Hev Hnew Hh Hn Hl Ea. rewrite Forall_forall in Had. split.
  - unfold total_patients. rewrite Hl, Hpr, total_app.
    pose proof (early_count Ea). unfold total_patients in *. lia.
  - rewrite Hpr. intros pid pr Hp Hd. unfold resumed_at_0. rewrite Hn, Hev, Hh.
    assert (Hp' : nth_error (procs s) pid = Some pr).
    { destruct (Nat.lt_ge_cases pid (length (procs s))) as [Hlt|Hge].
      - rewrite nth_error_app1 in Hp by exact Hlt. exact Hp.
      - rewrite nth_error_app2 in Hp by exact Hge.
        apply nth_error_In in Hp. destruct (Had _ Hp) as [H0 _]. lia. }
    destruct (early_due Ea pid Hp' Hd) as [H0 [(e0 & Hin & Ht & Hcb)|[]]].
    split; [exact H0|]. left. exists e0.
    split; [apply in_or_app; left; exact Hin|]. split; [exact Ht|].
    rewrite callbacks_of_app_old; [exact Hcb|].
    eapply callbacks_of_bound, Hcb.
  - rewrite Hpr. intros pr h ti i Hin Hpc. apply in_app_or in Hin.
    destruct Hin as [Hin|Hin]; [eapply (early_later Ea); eauto|].
    destruct (Had _ Hin) as [_ Hno]. destruct (Hno _ _ _ Hpc).
  - rewrite Hev. intros ev q. rewrite callbacks_of_app. case_if.
    + apply (early_stop Ea).
    + intros Hs Hq. destruct (Hnew (ev - length (events s))) as [H|H];
        [exact (H Hs) | exact (H q Hq)].
  - intros q [].
Qed.

Lemma early_run_start at_ (s s' : State R) :
  run_start at_ s = Some s' -> early script [] s -> early script [] s'.
Proof.
  unfold run_start. destruct (Qle_bool at_ (now (env s))); [discriminate|].
  intros [= <-].
  apply (@early_grow s _ [Some [@CbStop]]
           [{| e_time := now (env s) + (at_ - now (env s)); e_prio := URGENT;
               e_eid := eid (env s); e_event := length (events s) |}] []);
    try reflexivity.
  - cbn. symmetry. apply app_nil_r.
  - constructor.
  - intros ev. right. intros q. destruct ev as [|[|ev]]; cbn; intuition discriminate.
Qed.

Lemma early_process start (s : State R) :
  due script start = 0 -> (forall h ti i, start <> SetupLoop h ti i) ->
  early script [] s -> early script [] (exec (process start) s).
Proof.
  intros Hd Hl.
  apply (@early_grow s _ [Some []; Some [CbResume (length (procs s))]]
           [{| e_time := now (env s) + 0; e_prio := URGENT;
               e_eid := eid (env s); e_event := S (length (events s)) |}]
           [{| pc := start; proc_event := length (events s) |}]);
    try reflexivity.
  - constructor; [|constructor]. cbn. split; assumption.
  - cbn. rewrite <- app_assoc. reflexivity.
  - intros ev. left. destruct ev as [|[|[|ev]]]; cbn; intuition discriminate.
  - cbn. rewrite length_app. cbn. rewrite Nat.add_1_r. reflexivity.
Qed.

Lemma early_boot seed : early script [] (boot R seed).
Proof.
  split; cbn.
  - unfold total_patients. cbn. lia.
  - intros [|[|pid]] pr; cbn; try discriminate. intros [= <-] _.
    split; [reflexivity|]. left. eexists. split; [left; reflexivity|].
    split; [cbn; lra|]. cbn. left. reflexivity.
  - intros pr h ti i [<-|[]]. discriminate.
  - intros [|[|[|ev]]] q; cbn; intuition discriminate.
  - intros q [].
Qed.

Lemma early_reach (s : State R) : reach script s -> early script [] s.
Proof.
  intros [seed Hr].
  pose proof (early_boot seed) as H0.
  assert (Hall : forall s1, reach_from script (boot R seed) s1 ->
                   time_ok s1 /\ heap_ok s1).
  { intros s1 H1. split.
    - apply (@timed_reach R script). exists seed. exact H1.
    - apply (@inv_reach R script). exists seed. exact H1. }
  induction Hr as [|s Hr IH|at_ s s' Hr IH Hrun|h k s Hr IH Hh].
  - exact H0.
  - destruct (Hall _ Hr). apply early_step; auto.
  - eapply early_run_start; eauto.
  - apply early_process; [reflexivity | discriminate | exact IH].
Qed.

Lemma total_none w (l : list Process) :
  (forall x, In x l -> w (pc x) = 0) -> total w l = 0.
Proof.
  unfold total. induction l as [|x l IH]; intros H; simpl; [reflexivity|].
  rewrite (H x (or_introl eq_refl)), IH; [reflexivity|].
  intros y Hy. apply H. right. exact Hy.
Qed.

Lemma early_arrived (s : State R) :
  reach script s -> (0 < now (env s))%Q ->
  initial_patients script <= total_patients s.
Proof.
  intros Hr Hnow. pose proof (early_reach Hr) as Ea.
  pose proof (early_count Ea) as Hc.
  rewrite (@total_none (due script)) in Hc; [lia|].
  intros x Hx. apply In_nth_error in Hx. destruct Hx as [pid Hpid].
  destruct (due script (pc x)) as [|d] eqn:Ed; [reflexivity|].
  destruct (early_due Ea pid Hpid) as [H0 _]; [lia | lra].
Qed.

End EarlyFacts.

Section EarlyClaims.

Local Open Scope nat_scope.
Import ResourceFacts.

Variable R : Random.
Variable script : Script.

Lemma main_clock fuel1 fuel2 (s : State R) :
  main R script fuel1 fuel2 = Some s -> (now (env s) == 300)%Q.
Proof.
  unfold main.
  destruct (run script (inject_Z SIM_TIME) fuel1 (boot R RANDOM_SEED))
    as [s1|] eqn:E1; [|discriminate].
  intros E2.
  assert (Hr0 : reach script (boot R RANDOM_SEED))
    by (exists RANDOM_SEED; apply reach_refl).
  destruct (@run_lands R script _ _ _ _ (inv_boot R RANDOM_SEED)
              (refs_ok_reach Hr0) (no_stop_boot R RANDOM_SEED) E1) as [_ Hs1].
  assert (Hr1 : reach script s1).
  { exists RANDOM_SEED. eapply reach_from_run; [apply reach_refl | exact E1]. }
  apply (@run_lands R script _ _ _ _
           (inv_spawn_add_doctors hospital_ref 2 (inv_reach Hr1))
           (refs_ok_process _ (refs_ok_reach Hr1))
           (no_stop_process _ Hs1) E2).
Qed.

(** X9.  When the script has made its two runs, the patients [setup]
    starts with have all arrived (4 in DTA1.py, 3 in uniform.py): they are
    started at time 0 and the runs end later.  So [total_patients] is
    not 0 where the script prints the percentage of treated patients, and
    the division there never raises [ZeroDivisionError]. *)
Theorem percentage_defined fuel1 fuel2 (s : State R) :
  main R script fuel1 fuel2 = Some s ->
  initial_patients script <= total_patients s
  /\ exists q, percentage_treated s = Some q.
Proof.
  intros Hm.
  assert (Hi : initial_patients script <= total_patients s).
  { apply early_arrived; [eapply main_reach, Hm|].
    rewrite (main_clock _ _ Hm). reflexivity. }
  split; [exact Hi|]. unfold percentage_treated.
  destruct (total_patients s) as [|n] eqn:E.
  - destruct script; cbn in Hi; lia.
  - eexists. reflexivity.
Qed.

End EarlyClaims.

Lemma percentage_defined_witness :
  let R := TapeRandom [59; 150; 150; 150; 150; 59; 59; 150; 150; 150; 150] 59 in
  match main R DTA1 100 100 with
  | Some s => 4 <= total_patients s /\ exists q, percentage_treated s = Some q
  | None => False
  end.
Proof.
  intros R.
  destruct (main R DTA1 100 100) as [s|] eqn:E;
    [|vm_compute in E; discriminate].
  exact (percentage_defined _ _ _ E).
Defined.

Section FirstEffect.

Local Open Scope nat_scope.
Import ResourceFacts.

Variable R : Random.
Variable script : Script.

Lemma segment_waits pid pr (s : State R) :
  wait_times (lists (exec (segment script pid pr) s))
  = wait_times (lists s)
    ++ match pc pr with
       | PatientRequest _ _ a _ => [(now (env s) - a)%Q]
       | _ => []
       end.
Proof.
  unfold segment.
  destruct (pc pr) as [name h|name h a|name h a req|name h req|h p|h p
                      |nd tr ti|hosp ti i|h [|n]| ] eqn:Epc;
    unfold patient_arrive, patient_request, patient_granted,
      patient_treated, treat_start, setup_start, setup_loop, setup_wait,
      add_doctors_loop, initial_patients;
    try (destruct script eqn:Es).
  all: norm; grants; rewrite ?app_nil_r; reflexivity.
Qed.

Lemma effect_no_add pid pr (s : State R) :
  (forall h k, pc pr <> AddDoctors h k) ->
  (forall h k, eff_pc (effect script pid pr s) <> AddDoctors h k)
  /\ forall x h k,
       In x (new_procs (length (events s)) (eff_news (effect script pid pr s))) ->
       pc x <> AddDoctors h k.
Proof.
  intros Hno. unfold effect.
  destruct (pc pr) as [name h0|name h0 a|name h0 a req|name h0 req|h0 p|h0 p
                      |nd tr ti0|hosp ti0 i0|h0 [|n]| ] eqn:Epc;
    try (destruct script eqn:Es);
    try (destruct (treat_drawn s) eqn:Et); cbn.
  all: try (exfalso; eapply Hno; reflexivity).
  all: split; [discriminate|].
  all: intros x h k H; repeat (destruct H as [<-|H]; [discriminate|]); destruct H.
Qed.

Lemma effect_rop_cases pid pr (s : State R) :
  (forall h k, pc pr <> AddDoctors h k) ->
  eff_rop (effect script pid pr s) = None
  \/ (exists h req, eff_rop (effect script pid pr s) = Some (h, Release req))
  \/ (exists n h, (pc pr = PatientStart n h /\ script = DTA1)
                  \/ exists a, pc pr = PatientPut n h a).
Proof.
  intros Hno. unfold effect.
  destruct (pc pr) as [name h0|name h0 a|name h0 a req|name h0 req|h0 p|h0 p
                      |nd tr ti0|hosp ti0 i0|h0 [|n]| ] eqn:Epc;
    try (destruct script eqn:Es);
    try (destruct (treat_drawn s) eqn:Et); cbn.
  all: try (exfalso; eapply Hno; reflexivity).
  all: first [ left; reflexivity
             | right; left; do 2 eexists; reflexivity
             | right; right; do 2 eexists; left; split; reflexivity
             | right; right; do 2 eexists; right; eexists; reflexivity ].
Qed.

Lemma request_idle ev r :
  Resource.users r = [] -> Resource.put_queue r = [] ->
  0 < Resource.capacity r -> snd (Resource.request ev r) = Some ev.
Proof.
  destruct r as [c u q]. cbn. intros -> -> Hc.
  destruct c; [lia | reflexivity].
Qed.

Lemma segment_first_request pid pr (s : State R) n h :
  nth_error (procs s) pid = Some pr ->
  (pc pr = PatientStart n h /\ script = DTA1)
  \/ (exists a, pc pr = PatientPut n h a) ->
  Resource.users (doctor_at h s) = [] ->
  Resource.put_queue (doctor_at h s) = [] ->
  0 < Resource.capacity (doctor_at h s) ->
  exists e x a req,
    In e (heap (env (exec (segment script pid pr) s)))
    /\ (e_time e == now (env s))%Q
    /\ In (CbResume pid)
         (callbacks_of (e_event e) (events (exec (segment script pid pr) s)))
    /\ nth_error (procs (exec (segment script pid pr) s)) pid = Some x
    /\ pc x = PatientRequest n h a req.
Proof.
  intros Hp Hpc Hu Hq Hc.
  assert (Hpid : pid < length (procs s))
    by (apply nth_error_Some; rewrite Hp; discriminate).
  assert (Hg' : forall ev,
            snd (Resource.request ev (doctor (nth h (hospitals s)
              (Hospital_init 0 0)))) = Some ev).
  { intros ev. apply request_idle; assumption. }
  assert (Hg : forall ev n0,
            snd (Resource.request ev (doctor (nth h
              (list_upd h (with_queue_length n0) (hospitals s))
              (Hospital_init 0 0)))) = Some ev).
  { intros ev n0. rewrite doctor_upd_counter. apply Hg'. }
  unfold segment.
  destruct Hpc as [[Hpc ->]|[a Hpc]]; rewrite Hpc;
    unfold patient_arrive, patient_request.
  all: norm; rewrite ?Hg, ?Hg'; cbn; rewrite ?nth_error_list_upd, Nat.eqb_refl, Hp;
       cbn; events_norm.
  all: eexists; do 3 eexists;
       (split; [apply in_or_app; right; left; reflexivity|]);
       (split; [cbn; lra|]);
       (split; [|split; reflexivity]).
  all: cbn [e_event]; rewrite <- (Nat.add_0_r (length (events s))) at 1;
       rewrite callbacks_of_app_plus; cbn; auto.
Qed.

End FirstEffect.

Section FirstEffect2.

Local Open Scope nat_scope.
Import ResourceFacts.

Variable R : Random.
Variable script : Script.

Lemma segment_put_entry pid pr (s : State R) n h :
  nth_error (procs s) pid = Some pr ->
  script = Uniform -> pc pr = PatientStart n h ->
  exists x a,
    (nth_error (procs (exec (segment script pid pr) s)) pid = Some x
     /\ pc x = PatientPut n h a)
    /\ exists e,
         In e (heap (env (exec (segment script pid pr) s)))
         /\ (e_time e == now (env s))%Q
         /\ In (CbResume pid)
              (callbacks_of (e_event e)
                 (events (exec (segment script pid pr) s))).
Proof.
  intros Hp -> Hpc. unfold segment. rewrite Hpc. unfold patient_arrive.
  norm. rewrite ?nth_error_list_upd, Nat.eqb_refl, Hp. cbn.
  do 2 eexists. split; [split; reflexivity|].
  events_norm. rewrite <- ?app_assoc. cbn [app].
  match goal with
  | |- exists e, In e (_ ++ ?l) /\ _ => pick_entry l
  end.
Qed.

Lemma effect_setup_first pid pr (s : State R) nd tr ti :
  nth_error (procs s) pid = Some pr ->
  pc pr = SetupStart nd tr ti ->
  exists x,
    nth_error (procs (exec (segment script pid pr) s)) (length (procs s)) = Some x
    /\ starter (pc x).
Proof.
  intros Hp Hpc.
  assert (Hpid : pid < length (procs s))
    by (apply nth_error_Some; rewrite Hp; discriminate).
  rewrite (segment_effect_procs script _ _ Hp), nth_error_list_upd.
  replace (length (procs s) =? pid) with false
    by (symmetry; apply Nat.eqb_neq; lia).
  rewrite nth_error_app2, Nat.sub_diag by lia.
  unfold effect. rewrite Hpc. destruct script; cbn; eexists; split;
    try reflexivity; exact I.
Qed.

Lemma effect_starter_rop pid pr (s : State R) :
  starter (pc pr) ->
  ((exists nd tr ti, pc pr = SetupStart nd tr ti)
   /\ eff_rop (effect script pid pr s) = None)
  \/ ((exists n h, pc pr = PatientStart n h) /\ script = Uniform
      /\ eff_rop (effect script pid pr s) = None)
  \/ (exists h ev, eff_rop (effect script pid pr s) = Some (h, Request ev)).
Proof.
  unfold effect.
  destruct (pc pr) as [name h|name h a|name h a req|name h req|h p|h p
                      |nd tr ti|hosp ti i|h [|n]| ] eqn:Epc;
    try (destruct script eqn:Es); cbn; try tauto; intros _.
  all: first [ left; split; [do 3 eexists|]; reflexivity
             | right; left; split; [do 2 eexists; reflexivity|];
               split; reflexivity
             | right; right; do 2 eexists; reflexivity ].
Qed.

End FirstEffect2.

Section SegmentFirst.

Local Open Scope nat_scope.
Import ResourceFacts.

Variable R : Random.
Variable script : Script.
Variables (p : nat) (pr : Process) (cbs : list Callback) (s : State R).
Hypothesis Hp : nth_error (procs s) p = Some pr.
Hypothesis Hpl : placed script s.
Hypothesis Fg : first_grant (CbResume p :: cbs) s.

Local Abbreviation e := (effect script p pr s).
Local Abbreviation s' := (exec (segment script p pr) s).
Local Abbreviation N := (new_procs (length (events s)) (eff_news e)).

Lemma first_seg_waits : wait_times (lists s) <> [] -> wait_times (lists s') <> [].
Proof.
  intros H. rewrite segment_waits. intros E. apply app_eq_nil in E.
  apply H, E.
Qed.

Lemma first_seg_no_add : no_add_doctors s -> no_add_doctors s'.
Proof.
  intros Hno x h k Hx.
  assert (Hown : forall h k, pc pr <> AddDoctors h k)
    by (intros h0 k0; apply Hno, (nth_error_In _ _ Hp)).
  destruct (effect_no_add script p pr s Hown) as [Hpc Hnew].
  destruct (seg_origin_in script _ _ Hp _ Hx) as [->|[(q & Hq & Hn)|Hn]].
  - apply Hpc.
  - apply Hno. eapply nth_error_In, Hn.
  - apply Hnew, Hn.
Qed.

(** A pending resumption of another process is not disturbed. *)
Lemma first_seg_other q :
  q <> p -> resumed_at_0 (CbResume p :: cbs) s q -> resumed_at_0 cbs s' q.
Proof.
  intros Hq [H0 [(e0 & Hin & Ht & Hcb)|Hcb]]; unfold resumed_at_0;
    rewrite segment_now.
  - split; [exact H0|]. left. exists e0. split; [|split; [exact Ht|]].
    + destruct (segment_heap script p pr s) as (pushed & -> & _).
      apply in_or_app. left. exact Hin.
    + rewrite segment_effect_events, callbacks_of_app_old; [exact Hcb|].
      eapply callbacks_of_bound, Hcb.
  - split; [exact H0|]. right. destruct Hcb as [[= E']|Hcb]; [congruence|].
    exact Hcb.
Qed.

Lemma first_seg_other_proc q x :
  q <> p -> nth_error (procs s) q = Some x -> nth_error (procs s') q = Some x.
Proof.
  intros Hq Hn. rewrite (segment_effect_procs script _ _ Hp), nth_error_list_upd.
  replace (q =? p) with false by (symmetry; apply Nat.eqb_neq; exact Hq).
  rewrite nth_error_app1; [exact Hn|]. apply nth_error_Some. congruence.
Qed.

Lemma first_seg_patient n h :
  In pr (procs s) ->
  (pc pr = PatientStart n h \/ exists a, pc pr = PatientPut n h a) ->
  0 < Resource.capacity (doctor_at h s).
Proof.
  intros Hin Hpc.
  destruct Hpl as [(_ & _ & _ & pr0 & rest & Hprocs & (tr & ti & Hpc0) & Hrest)
                  |(_ & Hpost & Hc & _)].
  - exfalso. rewrite Hprocs in Hin. destruct Hin as [<-|Hin].
    + destruct Hpc as [Hpc|[a Hpc]]; congruence.
    + rewrite Forall_forall in Hrest. specialize (Hrest _ Hin).
      destruct Hpc as [Hpc|[a Hpc]]; rewrite Hpc in Hrest; exact Hrest.
  - rewrite Forall_forall in Hpost. specialize (Hpost _ Hin).
    destruct Hpc as [Hpc|[a Hpc]]; rewrite Hpc in Hpost; cbn in Hpost;
      subst h; rewrite Hc; unfold NUM_DOCTORS; lia.
Qed.

Lemma first_seg_idle :
  idle_all s ->
  eff_rop e = None \/ (exists h req, eff_rop e = Some (h, Release req)) ->
  idle_all s'.
Proof.
  intros Hi Hrop h. destruct (Hi h) as [Hu Hq].
  destruct (segment_effect_doctor script p pr s h) as [-> ->].
  unfold res_after. destruct Hrop as [->|(h0 & req & ->)]; [auto|].
  case_if; [|auto]. cbn. rewrite Hu, Hq. auto.
Qed.

Lemma first_segment : first_grant cbs s'.
Proof.
  destruct Fg as [Hw|[Hno [[Hidle (q & x & Hq & Hst & Hres)]
                         |(q & x & n & h & a & req & Hq & Hpc & Hres)]]].
  - left. apply first_seg_waits, Hw.
  - (* nobody has asked yet *)
    assert (Hown : forall h k, pc pr <> AddDoctors h k)
      by (intros h0 k0; apply Hno, (nth_error_In _ _ Hp)).
    pose proof (proj1 Hres) as H0.
    destruct (effect_rop_cases script p pr s Hown)
      as [Hrop|[Hrop|(n & h & Hreq)]].
    3:{ (* the first request: it is granted at once *)
      right. split; [apply first_seg_no_add, Hno|]. right.
      assert (Hc : 0 < Resource.capacity (doctor_at h s)).
      { eapply first_seg_patient; [exact (nth_error_In _ _ Hp)|].
        destruct Hreq as [[Hpc _]|Hpc]; [left; exact Hpc | right; exact Hpc]. }
      destruct (@segment_first_request R script p pr s n h Hp Hreq
                  (proj1 (Hidle h)) (proj2 (Hidle h)) Hc)
        as (e0 & y & a & req & Hin & Ht & Hcb & Hy & Hpc).
      exists p, y, n, h, a, req. split; [exact Hy|]. split; [exact Hpc|].
      split; [rewrite segment_now; exact H0|]. left. exists e0.
      split; [exact Hin|]. split; [rewrite Ht; exact H0 | exact Hcb]. }
    all: right; split; [apply first_seg_no_add, Hno|]; left;
         (split; [apply first_seg_idle; auto|]).
    all: destruct (Nat.eq_dec q p) as [->|Hne];
         [|exists q, x; split; [apply first_seg_other_proc; assumption|];
           split; [exact Hst | apply first_seg_other; assumption]].
    all: rewrite Hp in Hq; injection Hq as <-.
    all: destruct (effect_starter_rop script p pr s Hst)
           as [[(nd & tr & ti & Epc) _]
              |[[(n & h & Epc) [Hs _]]|(h & ev & Hreq)]];
         [ | |first [ rewrite Hrop in Hreq
                    | destruct Hrop as (? & ? & Hrop); rewrite Hrop in Hreq ];
              discriminate].
    all: try (destruct (@effect_setup_first R script p pr s _ _ _ Hp Epc)
                as (y & Hy & Hsy);
              exists (length (procs s)), y; split; [exact Hy|];
              split; [exact Hsy|];
              destruct (@segment_new_entries R script p pr s _ y Hp
                          (Nat.le_refl _) Hy) as (e0 & Hin & Ht & Hcb);
              split; [rewrite segment_now; exact H0|]; left; exists e0;
              split; [exact Hin|]; split; [rewrite Ht; exact H0 | exact Hcb]).
    all: destruct (@segment_put_entry R script p pr s _ _ Hp Hs Epc)
           as (y & a & [Hy Hpy] & e0 & Hin & Ht & Hcb);
         exists p, y; split; [exact Hy|];
         split; [rewrite Hpy; exact I|];
         split; [rewrite segment_now; exact H0|]; left; exists e0;
         split; [exact Hin|]; split; [rewrite Ht; exact H0 | exact Hcb].
  - (* a patient that has asked is about to be resumed *)
    destruct (Nat.eq_dec q p) as [->|Hne].
    + left. rewrite Hp in Hq. injection Hq as <-.
      rewrite segment_waits, Hpc. intros E. apply app_eq_nil in E.
      destruct E as [_ E]. discriminate.
    + right. split; [apply first_seg_no_add, Hno|]. right.
      exists q, x, n, h, a, req.
      split; [apply first_seg_other_proc; assumption|].
      split; [exact Hpc | apply first_seg_other; assumption].
Qed.

End SegmentFirst.

Section FirstFacts.

Local Open Scope nat_scope.
Import ResourceFacts.

Variable R : Random.
Variable script : Script.

Lemma first_frame cbs cbs' (s s' : State R) :
  wait_times (lists s') = wait_times (lists s) ->
  procs s' = procs s ->
  (idle_all s -> idle_all s') ->
  (forall q pr, nth_error (procs s) q = Some pr ->
                resumed_at_0 cbs s q -> resumed_at_0 cbs' s' q) ->
  first_grant cbs s -> first_grant cbs' s'.
Proof.
  intros Hw Hpr Hid Hres
    [H|[Hno [[Hidle (q & x & Hq & Hst & Hr)]
            |(q & x & n & h & a & req & Hq & Hpc & Hr)]]].
  - left. rewrite Hw. exact H.
  - right. split; [unfold no_add_doctors; rewrite Hpr; exact Hno|]. left.
    split; [apply Hid, Hidle|]. exists q, x. rewrite Hpr. eauto.
  - right. split; [unfold no_add_doctors; rewrite Hpr; exact Hno|]. right.
    exists q, x, n, h, a, req. rewrite Hpr. eauto.
Qed.

Lemma first_skip cb cbs (s : State R) :
  (forall pid, cb = CbResume pid -> nth_error (procs s) pid = None) ->
  first_grant (cb :: cbs) s -> first_grant cbs s.
Proof.
  intros Hcb. apply first_frame; auto.
  intros q pr Hq [H0 [He|[->|Hin]]].
  - split; [exact H0 | left; exact He].
  - rewrite (Hcb q eq_refl) in Hq. discriminate.
  - split; [exact H0 | right; exact Hin].
Qed.

Lemma first_stopped cbs (s : State R) :
  early script (CbStop :: cbs) s ->
  first_grant (CbStop :: cbs) s -> first_grant [] s.
Proof.
  intros Ea. apply first_frame; auto.
  intros q pr Hq [H0 [He|Hin]].
  - split; [exact H0 | left; exact He].
  - exfalso. apply (early_stop_now Ea q); [left; reflexivity | exact Hin].
Qed.

Lemma first_trigger_put h cbs (s : State R) :
  first_grant (CbTriggerPut h :: cbs) s ->
  first_grant cbs (exec (trigger_put h) s).
Proof.
  destruct (trigger_put_effect h s) as (He & Hpr & _ & Hd).
  destruct (trigger_put_heap h s) as (pushed & Hh & _).
  assert (Hn : now (env (exec (trigger_put h) s)) = now (env s))
    by (norm; grants; reflexivity).
  apply first_frame.
  - norm; grants; reflexivity.
  - exact Hpr.
  - intros Hi h'. rewrite Hd. destruct (Hi h') as [Hu Hq].
    unfold res_after. case_if; [|auto]. cbn.
    unfold Resource.trigger_put. rewrite Hq. cbn. auto.
  - intros q pr Hq [H0 [(e0 & Hin & Ht & Hcb)|[[=]|Hin]]];
      unfold resumed_at_0; rewrite Hn, He, Hh.
    + split; [exact H0|]. left. exists e0.
      split; [apply in_or_app; left; exact Hin | auto].
    + split; [exact H0 | right; exact Hin].
Qed.

Lemma first_run_callbacks cbs (s : State R) :
  sound script s -> early script cbs s -> first_grant cbs s ->
  first_grant [] (snd (run_callbacks script cbs s)).
Proof.
  revert s. induction cbs as [|cb cbs IH]; intros s Hs Ea Fg; [exact Fg|].
  destruct cb as [pid|h|h|h| ]; cbn [run_callbacks run_callback];
    unfold bind; cbn.
  - assert (Hs' : sound script (exec (resume script pid) s))
      by apply (@sound_run_callbacks R script [CbResume pid] s Hs).
    apply IH; [exact Hs'| |]; unfold exec, resume in *;
      destruct (nth_error (procs s) pid) as [pr|] eqn:Hp.
    + apply (early_segment Hp Ea).
    + cbn. eapply early_skip; [|exact Ea]. intros ? [= <-]. exact Hp.
    + apply (first_segment Hp (proj2 Hs) Fg).
    + cbn. eapply first_skip; [|exact Fg]. intros ? [= <-]. exact Hp.
  - apply IH.
    + apply (@sound_run_callbacks R script [CbTriggerPut h] s Hs).
    + apply early_trigger_put, Ea.
    + apply first_trigger_put, Fg.
  - apply IH; [exact Hs| |].
    + eapply early_skip; [|exact Ea]. discriminate.
    + eapply first_skip; [|exact Fg]. discriminate.
  - apply IH; [exact Hs| |].
    + eapply early_skip; [|exact Ea]. discriminate.
    + eapply first_skip; [|exact Fg]. discriminate.
  - eapply first_stopped; eauto.
Qed.

Lemma resumed_popped e (s : State R) q :
  time_ok s -> heap_ok s -> is_next e (heap (env s)) ->
  resumed_at_0 [] s q ->
  resumed_at_0 (callbacks_of (e_event e) (events s)) (popped e s) q.
Proof.
  intros Ht [Hnd _] [Hin Hmin] [H0 [(e0 & Hin0 & Ht0 & Hcb)|[]]].
  assert (Hte : (e_time e == 0)%Q).
  { pose proof (key_le_time _ _ (Hmin _ Hin0)) as Hle.
    pose proof (heap_future Ht) as Hf. rewrite Forall_forall in Hf.
    pose proof (Hf _ Hin). lra. }
  split; [exact Hte|].
  destruct (Nat.eq_dec (e_event e0) (e_event e)) as [E|Hne].
  - right. rewrite <- E. exact Hcb.
  - left. exists e0. cbn. split; [|split; [exact Ht0|]].
    + apply In_heap_remove_other; [exact Hin0|]. intros Heq.
      apply Hne. f_equal. eapply NoDup_map_eq; eauto.
    + rewrite callbacks_of_upd_other by auto. exact Hcb.
Qed.

Lemma first_step (s : State R) :
  reach script s -> first_grant [] s -> first_grant [] (snd (step script s)).
Proof.
  intros Hr Fg.
  destruct (heappop (heap (env s))) as [[e rest]|] eqn:E.
  - rewrite (step_popped _ _ E). simpl.
    destruct (timed_reach Hr) as [[St Hpl] Ht].
    assert (Hh : heap_ok s) by apply (inv_reach Hr).
    pose proof (proj1 (heappop_is_next _ E)) as Hnext.
    apply first_run_callbacks.
    + split.
      * eapply stats_ok_frame; [| | |exact St]; reflexivity.
      * eapply placed_same; [| | | |exact Hpl]; reflexivity.
    + apply early_popped; try assumption. apply early_reach, Hr.
    + revert Fg. apply first_frame; try reflexivity; auto.
      intros q pr _. apply resumed_popped; assumption.
  - unfold step. rewrite E. exact Fg.
Qed.

Lemma first_run_loop fuel (s s' : State R) :
  run_loop script fuel s = Some s' ->
  reach script s -> first_grant [] s ->
  reach script s' /\ first_grant [] s'.
Proof.
  revert s. induction fuel as [|fuel IH]; intros s; simpl; [discriminate|].
  intros Hrun Hr Fg.
  assert (Hr' : reach script (snd (step script s))).
  { destruct Hr as [seed Hr]. exists seed. apply reach_step, Hr. }
  pose proof (first_step Hr Fg) as Fg'.
  destruct (step script s) as [[| |] s1]; cbn in *.
  - apply (IH _ Hrun Hr' Fg').
  - injection Hrun as <-. auto.
  - injection Hrun as <-. auto.
Qed.

Lemma first_run at_ fuel seed (s' : State R) :
  run script at_ fuel (boot R seed) = Some s' ->
  reach script s' /\ first_grant [] s'.
Proof.
  unfold run. destruct (run_start at_ (boot R seed)) as [s0|] eqn:E;
    [|discriminate].
  intros Hrun. apply (first_run_loop _ Hrun).
  - exists seed. eapply reach_run; [apply reach_refl | exact E].
  - revert E. unfold run_start.
    destruct (Qle_bool at_ (now (env (boot R seed)))); [discriminate|].
    intros [= <-]. right. split.
    + intros pr h k [<-|[]]. discriminate.
    + left. split.
      * intros [|[|h]]; split; reflexivity.
      * exists 0. eexists. split; [reflexivity|]. split; [exact I|].
        split; [reflexivity|]. left. eexists.
        split; [left; reflexivity|]. split; [cbn; lra|].
        cbn. left. reflexivity.
Qed.

(** Once a wait time has been recorded, one stays recorded. *)
Lemma waits_run_callbacks cbs (s : State R) :
  wait_times (lists s) <> [] ->
  wait_times (lists (snd (run_callbacks script cbs s))) <> [].
Proof.
  revert s. induction cbs as [|cb cbs IH]; intros s H; [exact H|].
  destruct cb as [pid|h|h|h| ]; cbn [run_callbacks run_callback];
    unfold bind; cbn; try (apply IH; exact H); try exact H.
  apply IH. unfold resume.
  destruct (nth_error (procs s) pid) as [pr|]; [|exact H].
  fold (exec (segment script pid pr) s). rewrite segment_waits.
  intros E. apply app_eq_nil in E. apply H, E.
Qed.

Lemma waits_run at_ fuel (s s' : State R) :
  run script at_ fuel s = Some s' ->
  wait_times (lists s) <> [] -> wait_times (lists s') <> [].
Proof.
  unfold run, run_start.
  destruct (Qle_bool at_ (now (env s))); [discriminate|].
  set (s0 := exec _ s).
  assert (H0 : wait_times (lists s0) = wait_times (lists s)) by reflexivity.
  rewrite <- H0. clearbody s0. clear H0.
  revert s0. induction fuel as [|fuel IH]; intros s0; simpl; [discriminate|].
  intros Hrun Hw.
  assert (Hw' : wait_times (lists (snd (step script s0))) <> []).
  { unfold step, fire. destruct (heappop (heap (env s0))) as [[e rest]|];
      [|exact Hw]. cbn. apply waits_run_callbacks. exact Hw. }
  destruct (step script s0) as [[| |] s1]; cbn in *.
  - apply (IH _ Hrun Hw').
  - injection Hrun as <-. exact Hw'.
  - injection Hrun as <-. exact Hw'.
Qed.

Lemma main_waits fuel1 fuel2 (s : State R) :
  main R script fuel1 fuel2 = Some s -> wait_times (lists s) <> [].
Proof.
  unfold main.
  destruct (run script (inject_Z SIM_TIME) fuel1 (boot R RANDOM_SEED))
    as [s1|] eqn:E1; [|discriminate].
  intros E2. apply (waits_run _ _ _ E2).
  change (wait_times (lists s1) <> []).
  destruct (first_run _ _ _ E1) as [Hr1 [Hw|[_ Hz]]]; [exact Hw|].
  exfalso.
  assert (Hr0 : reach script (boot R RANDOM_SEED))
    by (exists RANDOM_SEED; apply reach_refl).
  destruct (@run_lands R script _ _ _ _ (inv_boot R RANDOM_SEED)
              (refs_ok_reach Hr0) (no_stop_boot R RANDOM_SEED) E1) as [Hn _].
  assert (H0 : (now (env s1) == 0)%Q).
  { destruct Hz as [(_ & q & x & _ & _ & H0 & _)
                   |(q & x & n & h & a & req & _ & _ & H0 & _)]; exact H0. }
  rewrite Hn in H0. discriminate.
Qed.

End FirstFacts.

Section FirstClaims.

Local Open Scope nat_scope.
Import ResourceFacts.

Variable R : Random.
Variable script : Script.

(** X10.  When the script has made its two runs, at least one wait time
    has been recorded: the first patient that asks for a doctor does so
    at time 0, before [add_doctors] is started, while no doctor is taken;
    its request is granted at once and the patient is resumed at time 0.
    So [wait_times] is not empty where [average_wait_time] is computed,
    and the sentinel [float('inf')] is never what the script prints. *)
Theorem average_wait_time_finite fuel1 fuel2 (s : State R) :
  main R script fuel1 fuel2 = Some s ->
  wait_times (lists s) <> []
  /\ 1 <= treated_count s + left_without_treatment_count s + in_treatment s
  /\ exists m, average_wait_time s = Finite m.
Proof.
  intros Hm. pose proof (@main_waits R script fuel1 fuel2 s Hm) as Hw.
  split; [exact Hw|]. split.
  - rewrite <- (grants_count (stats_ok_reach (@main_reach R script fuel1 fuel2 s Hm))).
    destruct (wait_times (lists s)); [congruence | cbn; lia].
  - unfold average_wait_time.
    destruct (wait_times (lists s)); [congruence|]. eexists. reflexivity.
Qed.

End FirstClaims.

Lemma average_wait_time_finite_witness :
  let R := TapeRandom [59; 150; 150; 150; 150; 59; 59; 150; 150; 150; 150] 59 in
  match main R Uniform 300 300 with
  | Some s => wait_times (lists s) <> []
              /\ exists m, average_wait_time s = Finite m
  | None => False
  end.
Proof.
  intros R.
  destruct (main R Uniform 300 300) as [s|] eqn:E;
    [|vm_compute in E; discriminate].
  destruct (average_wait_time_finite _ _ _ E) as (H1 & _ & H2).
  split; [exact H1 | exact H2].
Defined.

Section PaceEffect.

Local Open Scope nat_scope.
Import ResourceFacts.

Variable R : Random.

Lemma uniform_draw (g : rng R) :
  (5 <= inject_Z (fst (rng_randint R 5 9 g)) <= 9)%Q.
Proof.
  assert (Hr : (5 <= 9)%Z) by lia.
  apply (@randint_range R _ _ g) in Hr.
  set (d := fst (rng_randint R _ _ g)) in *.
  split; unfold Qle; cbn; lia.
Qed.

Lemma setup_segment_entries pid pr (s : State R) :
  nth_error (procs s) pid = Some pr ->
  Forall (fun p => proc_event p < length (events s)) (procs s) ->
  (exists nd tr, pc pr = SetupStart nd tr T_INTER)
  \/ (exists h i, pc pr = SetupLoop h T_INTER i) ->
  (forall e,
     In e (heap (env (exec (segment Uniform pid pr) s))) ->
     In (CbResume pid)
       (callbacks_of (e_event e) (events (exec (segment Uniform pid pr) s))) ->
     In e (heap (env s))
     \/ ((now (env s) + 5 <= e_time e)%Q
         /\ length (events s) <= e_event e
         /\ Forall (fun x => proc_event x <> e_event e)
              (procs (exec (segment Uniform pid pr) s))))
  /\ exists e,
       In e (heap (env (exec (segment Uniform pid pr) s)))
       /\ (e_time e <= now (env s) + 9)%Q
       /\ In (CbResume pid)
            (callbacks_of (e_event e) (events (exec (segment Uniform pid pr) s))).
Proof.
  intros Hp Hpe Hpc.
  assert (Hpid : pid < length (procs s))
    by (apply nth_error_Some; rewrite Hp; discriminate).
  pose proof (uniform_draw (random_state s)) as Hd.
  unfold segment.
  destruct Hpc as [(nd & tr & ->)|(h & i & ->)];
    unfold setup_start, setup_loop, setup_wait, initial_patients.
  all: norm; events_norm; rewrite <- ?app_assoc; cbn [app].
  all: split;
    [ intros e Hin Hcb; apply in_app_or in Hin;
      destruct Hin as [Hin|Hin]; [left; exact Hin | right];
      cbn in Hin;
      repeat (destruct Hin as [<-|Hin];
              [cbn [e_event e_time] in *;
               rewrite callbacks_of_app_plus in Hcb; cbn in Hcb;
               try (exfalso; destruct Hcb as [[= E]|[]]; lia)|]);
      try destruct Hin
    | match goal with
      | |- exists e, In e (_ ++ ?l) /\ _ => pick_entry l
      end ].
  all: split; [lra|]; split; [lia|].
  all: apply Forall_list_upd;
       [ apply Forall_app; split;
         [ eapply Forall_impl; [|exact Hpe]; cbn; intros; lia
         | repeat (constructor; [cbn; lia|]); constructor ]
       | intros ? ?; cbn; assumption ].
Qed.

Lemma setup_segment_events pid pr (s : State R) ev :
  nth_error (procs s) pid = Some pr ->
  Forall (fun p => proc_event p < length (events s)) (procs s) ->
  (exists nd tr, pc pr = SetupStart nd tr T_INTER)
  \/ (exists h i, pc pr = SetupLoop h T_INTER i) ->
  length (events s) <= ev ->
  In (CbResume pid)
    (callbacks_of ev (events (exec (segment Uniform pid pr) s))) ->
  Forall (fun x => proc_event x <> ev)
    (procs (exec (segment Uniform pid pr) s)).
Proof.
  intros Hp Hpe Hpc Hev.
  assert (Hpid : pid < length (procs s))
    by (apply nth_error_Some; rewrite Hp; discriminate).
  replace ev with (length (events s) + (ev - length (events s))) by lia.
  generalize (ev - length (events s)). clear Hev ev. intros c.
  unfold segment.
  destruct Hpc as [(nd & tr & ->)|(h & i & ->)];
    unfold setup_start, setup_loop, setup_wait, initial_patients.
  all: norm; events_norm; rewrite <- ?app_assoc; cbn [app].
  all: rewrite callbacks_of_app_plus.
  all: destruct c as [|[|[|[|[|[|[|c]]]]]]]; cbn; intros Hcb;
       try (destruct c; destruct Hcb; fail);
       try destruct Hcb as [[= E]|[]]; try (exfalso; lia); try destruct Hcb.
  all: apply Forall_list_upd;
       [ apply Forall_app; split;
         [ eapply Forall_impl; [|exact Hpe]; cbn; intros; lia
         | repeat (constructor; [cbn; lia|]); constructor ]
       | intros ? ?; cbn; assumption ].
Qed.

End PaceEffect.

Section PaceEffect2.

Local Open Scope nat_scope.
Import ResourceFacts.

Variable R : Random.
Variable script : Script.

Lemma effect_not_setup pid pr (s : State R) :
  ~ is_setup (pc pr) ->
  ~ is_setup (eff_pc (effect script pid pr s))
  /\ arrives (eff_pc (effect script pid pr s)) = 0
  /\ late (eff_pc (effect script pid pr s)) = 0
  /\ Forall (fun x => ~ is_setup (pc x) /\ arrives (pc x) = 0 /\ late (pc x) = 0)
       (new_procs (length (events s)) (eff_news (effect script pid pr s))).
Proof.
  intros Hno. unfold effect.
  destruct (pc pr) as [name h0|name h0 a|name h0 a req|name h0 req|h0 p|h0 p
                      |nd tr ti0|hosp ti0 i0|h0 [|n]| ] eqn:Epc;
    try (destruct script eqn:Es);
    try (destruct (treat_drawn s) eqn:Et); cbn in *; try tauto.
  all: repeat split; auto.
  all: repeat (constructor; [cbn; auto|]); constructor.
Qed.

Lemma effect_setup_news pid pr (s : State R) :
  Forall (fun x => ~ is_setup (pc x))
    (new_procs (length (events s)) (eff_news (effect script pid pr s))).
Proof.
  unfold effect.
  destruct (pc pr) as [name h0|name h0 a|name h0 a req|name h0 req|h0 p|h0 p
                      |nd tr ti0|hosp ti0 i0|h0 [|n]| ] eqn:Epc;
    try (destruct script eqn:Es);
    try (destruct (treat_drawn s) eqn:Et); cbn.
  all: repeat (constructor; [cbn; auto|]); constructor.
Qed.

Lemma inject_Z_le a b : (a <= b)%Z -> (inject_Z a <= inject_Z b)%Q.
Proof. intros H. rewrite <- Zle_Qle. exact H. Qed.

Lemma loops_succ i : initial_patients Uniform < i -> loops (S i) = (loops i + 1)%Z.
Proof. unfold loops. cbn. intros H. lia. Qed.

Lemma pace_bounds_succ i (L t : Q) :
  initial_patients Uniform < i ->
  (inject_Z (5 * loops i) <= L)%Q -> (L <= inject_Z (9 * loops i))%Q ->
  (L + 5 <= t)%Q -> (t <= L + 9)%Q ->
  (inject_Z (5 * loops (S i)) <= t /\ t <= inject_Z (9 * loops (S i)))%Q.
Proof.
  intros Hi H1 H2 H3 H4. rewrite (loops_succ Hi).
  replace (5 * (loops i + 1))%Z with (5 * loops i + 5)%Z by lia.
  replace (9 * (loops i + 1))%Z with (9 * loops i + 9)%Z by lia.
  rewrite !inject_Z_plus. change (inject_Z 5) with 5%Q.
  change (inject_Z 9) with 9%Q. lra.
Qed.

End PaceEffect2.

Section PaceEffect3.

Local Open Scope nat_scope.
Import ResourceFacts.

Variable R : Random.

Lemma setup_effect pid pr (s : State R) :
  (forall nd tr ti, pc pr = SetupStart nd tr ti ->
     eff_pc (effect Uniform pid pr s) = SetupLoop (length (hospitals s)) ti 4
     /\ eff_rop (effect Uniform pid pr s) = None
     /\ total arrives
          (new_procs (length (events s)) (eff_news (effect Uniform pid pr s))) = 3
     /\ Forall (fun x => late (pc x) = 0)
          (new_procs (length (events s)) (eff_news (effect Uniform pid pr s))))
  /\ (forall h ti i, pc pr = SetupLoop h ti i ->
        eff_pc (effect Uniform pid pr s) = SetupLoop h ti (S i)
        /\ eff_rop (effect Uniform pid pr s) = None
        /\ new_procs (length (events s)) (eff_news (effect Uniform pid pr s))
           = [{| pc := PatientStart i h; proc_event := length (events s) |}]).
Proof.
  unfold effect. split.
  - intros nd tr ti ->. cbn. repeat split.
    repeat (constructor; [reflexivity|]). constructor.
  - intros h ti i ->. cbn. repeat split.
Qed.

End PaceEffect3.

Section SegmentPaced.

Local Open Scope nat_scope.
Import ResourceFacts.

Variable R : Random.
Variables (p : nat) (pr : Process) (cbs : list Callback) (s : State R).
Hypothesis Hp : nth_error (procs s) p = Some pr.
Hypothesis Hs : sound Uniform s.
Hypothesis Ht : time_ok s.
Hypothesis T : tied (CbResume p :: cbs) s.
Hypothesis Ea : early Uniform (CbResume p :: cbs) s.
Hypothesis Pa : paced (CbResume p :: cbs) s.

Local Abbreviation e := (effect Uniform p pr s).
Local Abbreviation s' := (exec (segment Uniform p pr) s).
Local Abbreviation N := (new_procs (length (events s)) (eff_news e)).

Lemma pace_old_event ev :
  ev < length (events s) ->
  callbacks_of ev (events s') = callbacks_of ev (events s).
Proof.
  intros H. rewrite segment_effect_events. apply callbacks_of_app_old, H.
Qed.

Lemma pace_old_entry x :
  In x (heap (env s)) ->
  callbacks_of (e_event x) (events s') = callbacks_of (e_event x) (events s).
Proof.
  intros H. apply pace_old_event.
  pose proof (tied_refs T) as [Hh _]. rewrite Forall_forall in Hh. apply Hh, H.
Qed.

Lemma pace_heap_grows x : In x (heap (env s)) -> In x (heap (env s')).
Proof.
  intros H. destruct (segment_heap Uniform p pr s) as (pushed & -> & _).
  apply in_or_app. left. exact H.
Qed.

Lemma pace_new_event ev :
  p <> 0 -> length (events s) <= ev ->
  ~ In (CbResume 0) (callbacks_of ev (events s')).
Proof.
  intros Hp0 Hev Hin.
  destruct (segment_events Uniform p pr s) as (new & Hnew & Hok).
  rewrite Hnew in Hin.
  pose proof (callbacks_of_app_new _ Hok Hev) as F.
  rewrite Forall_forall in F. specialize (F _ Hin). cbn in F.
  assert (p < length (procs s))
    by (apply nth_error_Some; rewrite Hp; discriminate).
  lia.
Qed.

(** The entries a segment of another process pushes do not resume
    [setup]. *)
Lemma pace_pushed x :
  p <> 0 -> In x (heap (env s')) ->
  In (CbResume 0) (callbacks_of (e_event x) (events s')) ->
  In x (heap (env s))
  /\ In (CbResume 0) (callbacks_of (e_event x) (events s)).
Proof.
  intros Hp0 Hin Hcb.
  destruct (segment_heap Uniform p pr s) as (pushed & Hh & Hok).
  rewrite Hh in Hin. apply in_app_or in Hin. destruct Hin as [Hin|Hin].
  - split; [exact Hin|]. rewrite <- (pace_old_entry _ Hin). exact Hcb.
  - exfalso. rewrite Forall_forall in Hok.
    pose proof (tied_refs T) as [_ Hpe]. rewrite Forall_forall in Hpe.
    destruct (Hok _ Hin) as [Hnew|[Hown|[h Hq]]].
    + apply (pace_new_event Hp0 (proj1 Hnew) Hcb).
    + assert (Hb : e_event x < length (events s))
        by (rewrite Hown; apply Hpe, (nth_error_In _ _ Hp)).
      rewrite (pace_old_event Hb) in Hcb.
      destruct (paced_quiet Pa _ Hcb) as [_ Hno].
      rewrite Forall_forall in Hno.
      apply (Hno pr (nth_error_In _ _ Hp)). symmetry. exact Hown.
    + assert (Hb : e_event x < length (events s))
        by (apply (requests_bounded_all _ _ (tied_requests T) Hq)).
      rewrite (pace_old_event Hb) in Hcb.
      destruct (paced_quiet Pa _ Hcb) as [Hno _]. apply (Hno h Hq).
Qed.

Lemma pace_quiet_old ev :
  ev < length (events s) ->
  In (CbResume 0) (callbacks_of ev (events s)) ->
  (forall h, ~ In ev (Resource.put_queue (doctor_at h s')))
  /\ Forall (fun x => proc_event x <> ev) (procs s').
Proof.
  intros Hb Hcb. destruct (paced_quiet Pa _ Hcb) as [Hq Hpe]. split.
  - apply (ext_no_request (@sat_ext_segment R Uniform p pr s)
             (tied_requests T) Hb Hq).
  - apply segment_proc_events; assumption.
Qed.

Lemma pace_other_proc q x :
  q <> p -> nth_error (procs s) q = Some x -> nth_error (procs s') q = Some x.
Proof.
  intros Hq Hn. rewrite (segment_effect_procs Uniform _ _ Hp), nth_error_list_upd.
  replace (q =? p) with false by (symmetry; apply Nat.eqb_neq; exact Hq).
  rewrite nth_error_app1; [exact Hn|]. apply nth_error_Some. congruence.
Qed.

Lemma pace_totals w :
  total w (procs s') + w (pc pr)
  = total w (procs s) + total w N + w (eff_pc e).
Proof.
  rewrite (segment_effect_procs Uniform _ _ Hp).
  apply total_set_pc_app, Hp.
Qed.

Lemma total_all w (l : list Process) :
  Forall (fun x => w (pc x) = 0) l -> total w l = 0.
Proof.
  intros H. apply total_none. rewrite Forall_forall in H. exact H.
Qed.

Lemma paced_seg_other : p <> 0 -> paced cbs s'.
Proof.
  intros Hp0.
  destruct (paced_setup Pa) as (pr0 & H0 & Hset).
  assert (Hnot : ~ is_setup (pc pr)).
  { intros H. apply Hp0. apply (paced_only Pa _ Hp H). }
  destruct (effect_not_setup Uniform p pr s Hnot) as (Hn1 & Hn2 & Hn3 & Hn4).
  rewrite Forall_forall in Hn4.
  split.
  - exists pr0. split; [apply pace_other_proc; auto | exact Hset].
  - intros q x Hx Hsx.
    destruct (seg_origin Uniform _ _ Hp _ Hx) as [[-> ->]|[[Hq Hn]|[Hq Hn]]].
    + cbn in Hsx. contradiction.
    + apply (paced_only Pa _ Hn Hsx).
    + destruct (Hn4 _ Hn) as [Hno _]. contradiction.
  - intros x h ti i Hx Hpc.
    assert (Hx0 : nth_error (procs s) 0 = Some x).
    { destruct (seg_origin Uniform _ _ Hp _ Hx) as [[E _]|[[_ Hn]|[Hq _]]].
      - congruence.
      - exact Hn.
      - exfalso. assert (0 < length (procs s))
          by (apply nth_error_Some; rewrite H0; discriminate). lia. }
    destruct (paced_loop Pa Hx0 Hpc) as [L [C1 C2 C3 C4 C5 C6 C7]].
    exists L. split.
    + rewrite segment_arrivals. pose proof (pace_totals arrives) as Hw.
      rewrite Hn2, (@total_all arrives N) in Hw; [lia|].
      apply Forall_forall. intros y Hy. apply (Hn4 _ Hy).
    + rewrite segment_now. exact C2.
    + intros x0 Hin Hcb. destruct (pace_pushed _ Hp0 Hin Hcb) as [Hin' Hcb'].
      apply (C3 _ Hin' Hcb').
    + rewrite segment_now. intros Hin. apply C4. right. exact Hin.
    + rewrite segment_now. destruct C5 as [(x0 & Hin & Hle & Hcb)|[Hin Hle]].
      * left. exists x0. split; [apply pace_heap_grows, Hin|].
        split; [exact Hle|]. rewrite (pace_old_entry _ Hin). exact Hcb.
      * right. split; [|exact Hle]. destruct Hin as [[= E]|Hin];
          [congruence | exact Hin].
    + pose proof (pace_totals late) as Hw.
      rewrite Hn3, (@total_all late N) in Hw; [lia|].
      apply Forall_forall. intros y Hy. apply (Hn4 _ Hy).
    + intros q y Hy Hl. rewrite segment_now.
      destruct (seg_origin Uniform _ _ Hp _ Hy) as [[-> ->]|[[Hq Hn]|[Hq Hn]]].
      * cbn in Hl. rewrite Hn3 in Hl. lia.
      * destruct (C7 _ _ Hn Hl) as [Hle [(x0 & Hin & Hle0 & Hcb)|Hin]].
        -- split; [exact Hle|]. left. exists x0.
           split; [apply pace_heap_grows, Hin|].
           split; [exact Hle0|]. rewrite (pace_old_entry _ Hin). exact Hcb.
        -- split; [exact Hle|]. right. destruct Hin as [[= E]|Hin];
             [congruence | exact Hin].
      * destruct (Hn4 _ Hn) as (_ & _ & Hl0). rewrite Hl0 in Hl. lia.
  - intros ev Hcb.
    destruct (Nat.lt_ge_cases ev (length (events s))) as [Hb|Hb].
    + rewrite (pace_old_event Hb) in Hcb. apply (pace_quiet_old Hb Hcb).
    + destruct (pace_new_event Hp0 Hb Hcb).
Qed.

End SegmentPaced.

Section SetupPaced.

Local Open Scope nat_scope.
Import ResourceFacts.

Variable R : Random.
Variables (pr : Process) (cbs : list Callback) (s : State R).
Hypothesis Hp : nth_error (procs s) 0 = Some pr.
Hypothesis Hs : sound Uniform s.
Hypothesis Ht : time_ok s.
Hypothesis T : tied (CbResume 0 :: cbs) s.
Hypothesis Ea : early Uniform (CbResume 0 :: cbs) s.
Hypothesis Pa : paced (CbResume 0 :: cbs) s.

Local Abbreviation e := (effect Uniform 0 pr s).
Local Abbreviation s' := (exec (segment Uniform 0 pr) s).
Local Abbreviation N := (new_procs (length (events s)) (eff_news e)).

Lemma setup_is : is_setup (pc pr).
Proof.
  destruct (paced_setup Pa) as (pr0 & H0 & Hset). congruence.
Qed.

Lemma setup_kind :
  (exists nd tr, pc pr = SetupStart nd tr T_INTER)
  \/ (exists h i, pc pr = SetupLoop h T_INTER i).
Proof.
  pose proof setup_is as H.
  pose proof (params_procs Ht) as Hq. rewrite Forall_forall in Hq.
  specialize (Hq pr (nth_error_In _ _ Hp)).
  destruct (pc pr) as [| | | | | |nd tr ti|h ti i| | ]; cbn in H, Hq;
    try contradiction.
  - destruct Hq as [_ ->]. left. eauto.
  - rewrite Hq. right. eauto.
Qed.

Lemma setup_no_old ev : ~ In (CbResume 0) (callbacks_of ev (events s)).
Proof. apply (resumes_free T). left. reflexivity. Qed.

Lemma setup_no_more : ~ In (CbResume 0) cbs.
Proof.
  apply active_none. pose proof (tied_active T) as H. simpl in H. lia.
Qed.

Lemma setup_refs : Forall (fun p => proc_event p < length (events s)) (procs s).
Proof. apply (tied_refs T). Qed.

Lemma setup_next_min x :
  In x (heap (env s')) ->
  In (CbResume 0) (callbacks_of (e_event x) (events s')) ->
  (now (env s) + 5 <= e_time x)%Q.
Proof.
  intros Hin Hcb.
  destruct (proj1 (@setup_segment_entries R 0 pr s Hp setup_refs setup_kind) _ Hin Hcb)
    as [Hold|[Hle _]]; [|exact Hle].
  exfalso. rewrite (@pace_old_entry R 0 pr cbs s T _ Hold) in Hcb.
  exact (setup_no_old _ Hcb).
Qed.

Lemma setup_quiet ev :
  In (CbResume 0) (callbacks_of ev (events s')) ->
  (forall h, ~ In ev (Resource.put_queue (doctor_at h s')))
  /\ Forall (fun p => proc_event p <> ev) (procs s').
Proof.
  intros Hcb.
  destruct (Nat.lt_ge_cases ev (length (events s))) as [Hb|Hb].
  { exfalso. rewrite segment_effect_events, callbacks_of_app_old in Hcb by exact Hb.
    exact (setup_no_old _ Hcb). }
  split; [|apply (@setup_segment_events R 0 pr s ev Hp setup_refs setup_kind Hb Hcb)].
  intros h Hin.
  rewrite (proj2 (segment_effect_doctor Uniform 0 pr s h)) in Hin.
  assert (Hrop : eff_rop e = None).
  { destruct (setup_effect 0 pr s) as [H1 H2].
    destruct setup_kind as [(nd & tr & Hpc)|(h0 & i & Hpc)].
    - apply (H1 _ _ _ Hpc).
    - apply (H2 _ _ _ Hpc). }
  rewrite Hrop in Hin. cbn in Hin.
  pose proof (requests_bounded_all _ _ (tied_requests T) Hin). lia.
Qed.

Lemma setup_only q x :
  nth_error (procs s') q = Some x -> is_setup (pc x) -> q = 0.
Proof.
  intros Hx Hsx.
  destruct (seg_origin Uniform _ _ Hp _ Hx) as [[-> _]|[[Hq Hn]|[Hq Hn]]].
  - reflexivity.
  - apply (paced_only Pa _ Hn Hsx).
  - pose proof (effect_setup_news Uniform 0 pr s) as F.
    rewrite Forall_forall in F. destruct (F _ Hn Hsx).
Qed.

Lemma setup_own x :
  nth_error (procs s') 0 = Some x ->
  x = {| pc := eff_pc e; proc_event := proc_event pr |}.
Proof.
  intros Hx.
  destruct (seg_origin Uniform _ _ Hp _ Hx) as [[_ ->]|[[Hq _]|[Hq _]]].
  - reflexivity.
  - congruence.
  - exfalso. assert (0 < length (procs s))
      by (apply nth_error_Some; rewrite Hp; discriminate). lia.
Qed.

(** The first turn: [setup] starts its patients and draws the first
    inter-arrival time. *)
Lemma setup_first_turn nd tr :
  pc pr = SetupStart nd tr T_INTER -> pace cbs s' 4 (now (env s)).
Proof.
  intros Hpc.
  destruct (setup_effect 0 pr s) as [H1 _].
  destruct (H1 _ _ _ Hpc) as (Hpc' & Hrop & Harr & Hlate).
  assert (Hnow : (now (env s) == 0)%Q).
  { destruct (early_due Ea 0 Hp) as [H0 _]; [rewrite Hpc; cbn; lia | exact H0]. }
  assert (Hbefore : before_setup s).
  { destruct Hs as [_ [Hb|(_ & Hpost & _)]]; [exact Hb|].
    rewrite Forall_forall in Hpost.
    specialize (Hpost pr (nth_error_In _ _ Hp)). rewrite Hpc in Hpost.
    destruct Hpost. }
  destruct Hbefore as (_ & Hlists & _ & pr0 & rest & Hprocs & _ & Hrest).
  assert (Hpr0 : pr0 = pr) by (rewrite Hprocs in Hp; cbn in Hp; congruence).
  subst pr0.
  assert (Hidle : forall w, (forall x, idle (pc x) -> w (pc x) = 0) ->
                  w (SetupStart nd tr T_INTER) = 0 ->
                  total w (procs s) = 0).
  { intros w Hw Hw0. rewrite Hprocs. unfold total. cbn. rewrite Hpc, Hw0.
    apply total_all. eapply Forall_impl; [|exact Hrest]. exact Hw. }
  assert (Ha0 : total arrives (procs s) = 0)
    by (apply Hidle; [intros x; destruct (pc x); cbn; tauto | reflexivity]).
  assert (Hl0 : total late (procs s) = 0)
    by (apply Hidle; [intros x; destruct (pc x); cbn; tauto | reflexivity]).
  pose proof (@pace_totals R 0 pr s Hp arrives) as Wa.
  pose proof (@pace_totals R 0 pr s Hp late) as Wl.
  rewrite Hpc' in Wa, Wl. rewrite Hpc in Wa, Wl. cbn in Wa, Wl.
  rewrite (@total_all late N) in Wl by exact Hlate.
  assert (Htp : total_patients s = 0)
    by (unfold total_patients; rewrite Hlists; reflexivity).
  split.
  - rewrite segment_arrivals, Hpc, Htp. cbn [arrives]. lia.
  - rewrite segment_now. change (inject_Z (5 * loops 4)) with 0%Q.
    change (inject_Z (9 * loops 4)) with 0%Q. repeat split; lra.
  - intros x Hin Hcb. pose proof (setup_next_min _ Hin Hcb). lra.
  - intros H. destruct (setup_no_more H).
  - left.
    destruct (proj2 (@setup_segment_entries R 0 pr s Hp setup_refs setup_kind))
      as (x & Hin & Hle & Hcb).
    exists x. auto.
  - lia.
  - intros q y Hy Hl. exfalso.
    assert (Hz : late (pc y) = 0); [|lia].
    destruct (seg_origin Uniform _ _ Hp _ Hy) as [[_ ->]|[[Hq Hn]|[Hq Hn]]].
    + cbn. rewrite Hpc'. reflexivity.
    + apply nth_error_In in Hn. rewrite Hprocs in Hn.
      destruct Hn as [<-|Hn]; [rewrite Hpc; reflexivity|].
      rewrite Forall_forall in Hrest. specialize (Hrest _ Hn).
      destruct (pc y); cbn in *; tauto.
    + rewrite Forall_forall in Hlate. apply Hlate, Hn.
Qed.

(** Another turn of the loop. *)
Lemma setup_next_turn h i L :
  pc pr = SetupLoop h T_INTER i ->
  pace (CbResume 0 :: cbs) s i L -> pace cbs s' (S i) (now (env s)).
Proof.
  intros Hpc [C1 (C2a & C2b & C2c) C3 C4 C5 C6 C7].
  destruct (setup_effect 0 pr s) as [_ H2].
  destruct (H2 _ _ _ Hpc) as (Hpc' & Hrop & Hnew).
  assert (Hi : initial_patients Uniform < i)
    by (eapply (early_later Ea); [eapply nth_error_In, Hp | exact Hpc]).
  assert (Hmin : (L + 5 <= now (env s))%Q) by (apply C4; left; reflexivity).
  assert (Hmax : (now (env s) <= L + 9)%Q).
  { destruct C5 as [(x & _ & _ & Hcb)|[_ H]]; [|exact H].
    destruct (setup_no_old _ Hcb). }
  assert (Hnone : forall y, In y (procs s) -> late (pc y) = 0).
  { intros y Hy. apply In_nth_error in Hy. destruct Hy as [q Hq].
    destruct (late (pc y)) as [|l] eqn:El; [reflexivity|].
    destruct (C7 q y Hq) as [Hle _]; [lia | lra]. }
  pose proof (@pace_totals R 0 pr s Hp arrives) as Wa.
  pose proof (@pace_totals R 0 pr s Hp late) as Wl.
  rewrite Hpc', Hnew in Wa, Wl. rewrite Hpc in Wa, Wl.
  unfold total in Wa at 3. unfold total in Wl at 3. cbn in Wa, Wl.
  rewrite (@total_none late (procs s) Hnone) in Wl.
  destruct (pace_bounds_succ Hi C2a C2b Hmin Hmax) as [B1 B2].
  split.
  - rewrite segment_arrivals, Hpc. cbn [arrives]. lia.
  - rewrite segment_now. split; [exact B1 | split; [exact B2 | lra]].
  - intros x Hin Hcb. exact (setup_next_min _ Hin Hcb).
  - intros H. destruct (setup_no_more H).
  - left.
    destruct (proj2 (@setup_segment_entries R 0 pr s Hp setup_refs setup_kind))
      as (x & Hin & Hle & Hcb).
    exists x. auto.
  - destruct i as [|[|[|[|i]]]]; lia.
  - intros q y Hy Hl. rewrite segment_now. split; [lra|]. left.
    destruct (seg_origin Uniform _ _ Hp _ Hy) as [[_ ->]|[[Hq Hn]|[Hq Hn]]].
    + cbn in Hl. rewrite Hpc' in Hl. cbn in Hl. lia.
    + rewrite (Hnone y (nth_error_In _ _ Hn)) in Hl. lia.
    + destruct (@segment_new_entries R Uniform 0 pr s q y Hp Hq Hy)
        as (x & Hin & Htx & Hcb).
      exists x. split; [exact Hin|]. split; [lra | exact Hcb].
Qed.

Lemma paced_seg_setup : paced cbs s'.
Proof.
  assert (Hown : nth_error (procs s') 0
                 = Some {| pc := eff_pc e; proc_event := proc_event pr |}).
  { rewrite (segment_effect_procs Uniform _ _ Hp), nth_error_list_upd.
    cbn [Nat.eqb]. rewrite nth_error_app1, Hp; [reflexivity|].
    apply nth_error_Some. rewrite Hp. discriminate. }
  destruct (setup_effect 0 pr s) as [H1 H2].
  split.
  - eexists. split; [exact Hown|]. cbn.
    destruct setup_kind as [(nd & tr & Hpc)|(h & i & Hpc)].
    + rewrite (proj1 (H1 _ _ _ Hpc)). exact I.
    + rewrite (proj1 (H2 _ _ _ Hpc)). exact I.
  - apply setup_only.
  - intros x h ti i Hx Hpc. rewrite Hown in Hx. injection Hx as <-.
    cbn in Hpc. exists (now (env s)).
    destruct setup_kind as [(nd & tr & Hpc0)|(h0 & i0 & Hpc0)].
    + rewrite (proj1 (H1 _ _ _ Hpc0)) in Hpc. injection Hpc as _ _ <-.
      eapply setup_first_turn, Hpc0.
    + rewrite (proj1 (H2 _ _ _ Hpc0)) in Hpc. injection Hpc as _ _ <-.
      destruct (paced_loop Pa Hp Hpc0) as [L HL].
      eapply setup_next_turn; eauto.
  - apply setup_quiet.
Qed.

End SetupPaced.

Section PacedFacts.

Local Open Scope nat_scope.
Import ResourceFacts.

Variable R : Random.

Lemma paced_grow cbs cbs' (s s' : State R) new pushed added :
  refs_ok s -> requests_ok s ->
  procs s' = procs s ++ added ->
  Forall (fun x => ~ is_setup (pc x) /\ arrives (pc x) = 0 /\ late (pc x) = 0
                   /\ length (events s) <= proc_event x) added ->
  events s' = events s ++ new ->
  (forall ev, ~ In (CbResume 0) (callbacks_of ev new)) ->
  heap (env s') = heap (env s) ++ pushed ->
  Forall (fun x => length (events s) <= e_event x
                   \/ exists h, In (e_event x)
                                  (Resource.put_queue (doctor_at h s))) pushed ->
  now (env s') = now (env s) ->
  total_patients s' = total_patients s ->
  (forall h ev, In ev (Resource.put_queue (doctor_at h s')) ->
                In ev (Resource.put_queue (doctor_at h s))) ->
  (forall q, In (CbResume q) cbs' -> In (CbResume q) cbs) ->
  (forall q pr, nth_error (procs s) q = Some pr ->
                In (CbResume q) cbs -> In (CbResume q) cbs') ->
  paced cbs s -> paced cbs' s'.
Proof.
  intros [Hhe Hpe] Hreq Hpr Had Hev Hnew Hh Hpu Hn Hl Hq Hc1 Hc2 Pa.
  rewrite Forall_forall in Hhe, Hpe, Had, Hpu.
  destruct (paced_setup Pa) as (pr0 & H0 & Hset).
  assert (Hlen : 0 < length (procs s))
    by (apply nth_error_Some; rewrite H0; discriminate).
  assert (Hold : forall ev, In (CbResume 0) (callbacks_of ev (events s')) ->
                   ev < length (events s)
                   /\ In (CbResume 0) (callbacks_of ev (events s))).
  { intros ev. rewrite Hev, callbacks_of_app.
    destruct (Nat.ltb_spec ev (length (events s))); [auto|].
    intros H'. destruct (Hnew _ H'). }
  assert (Hkeep : forall q x, In x (heap (env s)) ->
                    In (CbResume q) (callbacks_of (e_event x) (events s)) ->
                    In (CbResume q) (callbacks_of (e_event x) (events s'))).
  { intros q x Hin Hcb. rewrite Hev, callbacks_of_app_old; [exact Hcb|].
    apply Hhe, Hin. }
  assert (Horigin : forall q x, nth_error (procs s') q = Some x ->
                      nth_error (procs s) q = Some x \/ In x added).
  { intros q x Hx. rewrite Hpr in Hx.
    destruct (Nat.lt_ge_cases q (length (procs s))) as [Hlt|Hge].
    - rewrite nth_error_app1 in Hx by exact Hlt. left. exact Hx.
    - rewrite nth_error_app2 in Hx by exact Hge. right.
      eapply nth_error_In, Hx. }
  assert (Htot : forall w, (forall x, In x added -> w (pc x) = 0) ->
                   total w (procs s') = total w (procs s)).
  { intros w Hw. rewrite Hpr, total_app, (@total_none w added Hw). lia. }
  split.
  - exists pr0. split; [|exact Hset]. rewrite Hpr, nth_error_app1; assumption.
  - intros q x Hx Hsx. destruct (Horigin _ _ Hx) as [Hn'|Hin].
    + apply (paced_only Pa _ Hn' Hsx).
    + destruct (Had _ Hin) as [Hno _]. contradiction.
  - intros x h ti i Hx Hpc.
    assert (Hx0 : nth_error (procs s) 0 = Some x).
    { destruct (Horigin _ _ Hx) as [Hn'|Hin]; [exact Hn'|].
      destruct (Had _ Hin) as [Hno _]. rewrite Hpc in Hno. destruct (Hno I). }
    destruct (paced_loop Pa Hx0 Hpc) as [L [C1 C2 C3 C4 C5 C6 C7]].
    exists L. split.
    + rewrite Hl, (Htot arrives); [exact C1|]. intros y Hy. apply (Had _ Hy).
    + rewrite Hn. exact C2.
    + intros y Hin Hcb. destruct (Hold _ Hcb) as [Hb Hcb'].
      rewrite Hh in Hin. apply in_app_or in Hin. destruct Hin as [Hin|Hin].
      * apply (C3 _ Hin Hcb').
      * exfalso. destruct (Hpu _ Hin) as [Hge|[h' Hqu]]; [lia|].
        destruct (paced_quiet Pa _ Hcb') as [Hno _]. apply (Hno h' Hqu).
    + rewrite Hn. intros Hin. apply C4, Hc1, Hin.
    + rewrite Hn. destruct C5 as [(y & Hin & Hle & Hcb)|[Hin Hle]].
      * left. exists y. rewrite Hh. split; [apply in_or_app; left; exact Hin|].
        split; [exact Hle | apply Hkeep; assumption].
      * right. split; [eapply Hc2; eauto | exact Hle].
    + rewrite (Htot late); [exact C6|]. intros y Hy. apply (Had _ Hy).
    + intros q y Hy Hlate. rewrite Hn.
      destruct (Horigin _ _ Hy) as [Hn'|Hin].
      * destruct (C7 _ _ Hn' Hlate) as [Hle [(z & Hin & Hle0 & Hcb)|Hin]].
        -- split; [exact Hle|]. left. exists z. rewrite Hh.
           split; [apply in_or_app; left; exact Hin|].
           split; [exact Hle0 | apply Hkeep; assumption].
        -- split; [exact Hle|]. right. eapply Hc2; eauto.
      * destruct (Had _ Hin) as (_ & _ & Hz & _). lia.
  - intros ev Hcb. destruct (Hold _ Hcb) as [Hb Hcb'].
    destruct (paced_quiet Pa _ Hcb') as [Hno Hnp]. split.
    + intros h Hin. apply (Hno h), Hq, Hin.
    + rewrite Hpr. apply Forall_app. split; [exact Hnp|].
      apply Forall_forall. intros y Hy.
      destruct (Had _ Hy) as (_ & _ & _ & Hge). lia.
Qed.

Lemma paced_skip cb cbs (s : State R) :
  refs_ok s -> requests_ok s ->
  (forall pid, cb = CbResume pid -> nth_error (procs s) pid = None) ->
  paced (cb :: cbs) s -> paced cbs s.
Proof.
  intros Hrefs Hreq Hcb.
  apply (@paced_grow (cb :: cbs) cbs s s [] [] []).
  - exact Hrefs.
  - exact Hreq.
  - symmetry. apply app_nil_r.
  - constructor.
  - symmetry. apply app_nil_r.
  - intros ev H. destruct ev; destruct H.
  - symmetry. apply app_nil_r.
  - constructor.
  - reflexivity.
  - reflexivity.
  - auto.
  - intros q H. right. exact H.
  - intros q pr Hn [->|H]; [|exact H].
    rewrite (Hcb q eq_refl) in Hn. discriminate.
Qed.

Lemma paced_stopped cbs (s : State R) :
  refs_ok s -> requests_ok s ->
  early Uniform (CbStop :: cbs) s ->
  paced (CbStop :: cbs) s -> paced [] s.
Proof.
  intros Hrefs Hreq Ea.
  apply (@paced_grow (CbStop :: cbs) [] s s [] [] []).
  - exact Hrefs.
  - exact Hreq.
  - symmetry. apply app_nil_r.
  - constructor.
  - symmetry. apply app_nil_r.
  - intros ev H. destruct ev; destruct H.
  - symmetry. apply app_nil_r.
  - constructor.
  - reflexivity.
  - reflexivity.
  - auto.
  - intros q [].
  - intros q pr _ H. exfalso.
    apply (early_stop_now Ea q); [left; reflexivity | exact H].
Qed.

Lemma paced_trigger_put h cbs (s : State R) :
  refs_ok s -> requests_ok s ->
  paced (CbTriggerPut h :: cbs) s -> paced cbs (exec (trigger_put h) s).
Proof.
  intros Hrefs Hreq.
  destruct (trigger_put_effect h s) as (He & Hpr & _ & Hd).
  destruct (trigger_put_heap h s) as (pushed & Hh & Hpu).
  apply (@paced_grow (CbTriggerPut h :: cbs) cbs s _ [] pushed []).
  - exact Hrefs.
  - exact Hreq.
  - rewrite Hpr. symmetry. apply app_nil_r.
  - constructor.
  - rewrite He. symmetry. apply app_nil_r.
  - intros ev H. destruct ev; destruct H.
  - exact Hh.
  - eapply Forall_impl; [|exact Hpu]. intros x Hx. right. exists h. exact Hx.
  - norm; grants; reflexivity.
  - unfold total_patients. norm; grants; reflexivity.
  - intros h' ev. rewrite Hd. unfold res_after. case_if; [|auto].
    cbn. apply trigger_put_queue.
  - intros q H. right. exact H.
  - intros q pr _ [[=]|H]. exact H.
Qed.

Lemma paced_popped x (s : State R) :
  time_ok s -> heap_ok s -> is_next x (heap (env s)) ->
  paced [] s ->
  paced (callbacks_of (e_event x) (events s)) (popped x s).
Proof.
  intros Ht [Hnd _] [Hin Hmin] Pa.
  assert (Hnow : (now (env s) <= e_time x)%Q).
  { pose proof (heap_future Ht) as Hf. rewrite Forall_forall in Hf.
    apply Hf, Hin. }
  assert (Hstay : forall q y (b : Q),
            In y (heap (env s)) -> (e_time y <= b)%Q ->
            In (CbResume q) (callbacks_of (e_event y) (events s)) ->
            (e_time x <= b)%Q
            /\ ((exists z, In z (heap (env (popped x s)))
                           /\ (e_time z <= b)%Q
                           /\ In (CbResume q)
                                (callbacks_of (e_event z) (events (popped x s))))
                \/ In (CbResume q) (callbacks_of (e_event x) (events s)))).
  { intros q y b Hy Hle Hcb.
    pose proof (key_le_time _ _ (Hmin _ Hy)) as Hxy.
    split; [lra|].
    destruct (Nat.eq_dec (e_event y) (e_event x)) as [E|Hne].
    - right. rewrite <- E. exact Hcb.
    - left. exists y. cbn. split; [|split; [exact Hle|]].
      + apply In_heap_remove_other; [exact Hy|]. intros Heq.
        apply Hne. f_equal. eapply NoDup_map_eq; eauto.
      + rewrite callbacks_of_upd_other by auto. exact Hcb. }
  split.
  - apply (paced_setup Pa).
  - apply (paced_only Pa).
  - intros pr h ti i H0 Hpc.
    destruct (paced_loop Pa H0 Hpc) as [L [C1 C2 C3 C4 C5 C6 C7]].
    exists L. split.
    + exact C1.
    + cbn. destruct C2 as (C2a & C2b & C2c). repeat split; try assumption. lra.
    + cbn. intros y Hy Hcb. apply callbacks_of_upd_sub in Hcb.
      apply C3; [eapply In_heap_remove, Hy | apply Hcb].
    + cbn. intros Hcb. apply (C3 _ Hin Hcb).
    + destruct C5 as [(y & Hy & Hle & Hcb)|[[] _]].
      destruct (Hstay _ _ _ Hy Hle Hcb) as [Hb [Hz|Hz]];
        [left; exact Hz | right; split; [exact Hz | exact Hb]].
    + exact C6.
    + intros q y Hy Hlate.
      destruct (C7 _ _ Hy Hlate) as [Hle [(z & Hz & Hlz & Hcb)|[]]].
      destruct (Hstay _ _ _ Hz Hlz Hcb) as [Hb Hd].
      split; [exact Hb | exact Hd].
  - cbn. intros ev Hcb. apply callbacks_of_upd_sub in Hcb.
    apply (paced_quiet Pa _ (proj1 Hcb)).
Qed.

End PacedFacts.

Section PacedReach.

Local Open Scope nat_scope.
Import ResourceFacts.

Variable R : Random.

Lemma paced_run_callbacks cbs (s : State R) :
  sound Uniform s -> time_ok s -> tied cbs s -> early Uniform cbs s ->
  paced cbs s ->
  paced [] (snd (run_callbacks Uniform cbs s)).
Proof.
  revert s. induction cbs as [|cb cbs IH]; intros s Hs Ht T Ea Pa; [exact Pa|].
  destruct cb as [pid|h|h|h| ]; cbn [run_callbacks run_callback];
    unfold bind; cbn.
  - assert (Hs' : sound Uniform (exec (resume Uniform pid) s))
      by apply (@sound_run_callbacks R Uniform [CbResume pid] s Hs).
    assert (Ht' : time_ok (exec (resume Uniform pid) s))
      by (apply time_ok_resume; [apply Hs | exact Ht]).
    apply IH; [exact Hs' | exact Ht' | | |]; unfold exec, resume in *;
      destruct (nth_error (procs s) pid) as [pr|] eqn:Hp.
    + apply (tied_segment Uniform Hp T).
    + cbn. eapply tied_skip, T.
    + apply (early_segment Hp Ea).
    + cbn. eapply early_skip; [|exact Ea]. intros ? [= <-]. exact Hp.
    + destruct (Nat.eq_dec pid 0) as [->|Hne].
      * eapply paced_seg_setup; eauto.
      * eapply paced_seg_other; eauto.
    + cbn. eapply paced_skip; [apply (tied_refs T) | apply (tied_requests T)
                              | | exact Pa].
      intros ? [= <-]. exact Hp.
  - apply IH.
    + apply (@sound_run_callbacks R Uniform [CbTriggerPut h] s Hs).
    + apply time_ok_trigger_put, Ht.
    + apply tied_trigger_put, T.
    + apply early_trigger_put, Ea.
    + apply paced_trigger_put;
        [apply (tied_refs T) | apply (tied_requests T) | exact Pa].
  - apply IH; [exact Hs | exact Ht | eapply tied_skip, T | |].
    + eapply early_skip; [|exact Ea]. discriminate.
    + apply (@paced_skip R (CbTriggerGet h) cbs s); [apply (tied_refs T) | apply (tied_requests T)
                         | discriminate | exact Pa].
  - apply IH; [exact Hs | exact Ht | eapply tied_skip, T | |].
    + eapply early_skip; [|exact Ea]. discriminate.
    + apply (@paced_skip R (CbStoreTriggerGet h) cbs s); [apply (tied_refs T) | apply (tied_requests T)
                         | discriminate | exact Pa].
  - eapply paced_stopped;
      [apply (tied_refs T) | apply (tied_requests T) | exact Ea | exact Pa].
Qed.

Lemma paced_step (s : State R) :
  reach Uniform s -> paced [] s -> paced [] (snd (step Uniform s)).
Proof.
  intros Hr Pa.
  destruct (heappop (heap (env s))) as [[x rest]|] eqn:E.
  - rewrite (step_popped _ _ E). simpl.
    destruct (timed_reach Hr) as [[St Hpl] Ht].
    pose proof (inv_reach Hr) as Hi.
    assert (Hh : heap_ok s) by apply Hi.
    pose proof (proj1 (heappop_is_next _ E)) as Hnext.
    apply paced_run_callbacks.
    + split.
      * eapply stats_ok_frame; [| | |exact St]; reflexivity.
      * eapply placed_same; [| | | |exact Hpl]; reflexivity.
    + destruct (time_ok_pop Ht E) as [_ [T1 T2 T3 T4 T5 T6 T7 T8]].
      destruct (heappop_is_next _ E) as [_ ->].
      constructor; assumption.
    + apply tied_popped; [apply Hi | apply Hnext | apply (tied_reach Hr)].
    + apply early_popped; try assumption. apply early_reach, Hr.
    + apply paced_popped; assumption.
  - unfold step. rewrite E. exact Pa.
Qed.

Lemma paced_run_start at_ (s s' : State R) :
  refs_ok s -> requests_ok s ->
  run_start at_ s = Some s' -> paced [] s -> paced [] s'.
Proof.
  intros Hrefs Hreq. unfold run_start.
  destruct (Qle_bool at_ (now (env s))); [discriminate|].
  intros [= <-].
  apply (@paced_grow R [] [] s _ [Some [@CbStop]]
           [{| e_time := now (env s) + (at_ - now (env s)); e_prio := URGENT;
               e_eid := eid (env s); e_event := length (events s) |}] []);
    try reflexivity; try assumption.
  - cbn. symmetry. apply app_nil_r.
  - constructor.
  - intros [|[|ev]]; cbn; intuition discriminate.
  - constructor; [left; cbn; lia | constructor].
  - auto.
  - auto.
  - auto.
Qed.

Lemma paced_process h k (s : State R) :
  refs_ok s -> requests_ok s ->
  paced [] s -> paced [] (exec (process (AddDoctors h k)) s).
Proof.
  intros Hrefs Hreq Pa.
  destruct (paced_setup Pa) as (pr0 & H0 & _).
  assert (Hlen : 0 < length (procs s))
    by (apply nth_error_Some; rewrite H0; discriminate).
  revert Pa.
  apply (@paced_grow R [] [] s _ [Some []; Some [CbResume (length (procs s))]]
           [{| e_time := now (env s) + 0; e_prio := URGENT;
               e_eid := eid (env s); e_event := S (length (events s)) |}]
           [{| pc := AddDoctors h k; proc_event := length (events s) |}]);
    try reflexivity; try assumption.
  - constructor; [|constructor]. cbn. repeat split; auto.
  - cbn. rewrite <- app_assoc. reflexivity.
  - intros [|[|[|ev]]]; cbn; try tauto. intros [[= E]|[]]. lia.
  - cbn. rewrite length_app. cbn. rewrite Nat.add_1_r. reflexivity.
  - constructor; [left; cbn; lia | constructor].
  - auto.
  - auto.
  - auto.
Qed.

Lemma paced_boot seed : paced [] (boot R seed).
Proof.
  split; cbn.
  - eexists. split; [reflexivity | exact I].
  - intros [|[|pid]] pr; cbn; try discriminate; auto.
  - intros pr h ti i [= <-]. discriminate.
  - intros [|[|[|ev]]]; cbn; try tauto. intros _. split.
    + intros [|[|h]]; cbn; tauto.
    + constructor; [cbn; lia | constructor].
Qed.

Lemma paced_reach (s : State R) : reach Uniform s -> paced [] s.
Proof.
  intros [seed Hr].
  pose proof (paced_boot seed) as H0.
  assert (Hall : forall s1, reach_from Uniform (boot R seed) s1 ->
                   reach Uniform s1) by (intros s1 H1; exists seed; exact H1).
  induction Hr as [|s Hr IH|at_ s s' Hr IH Hrun|h k s Hr IH Hh].
  - exact H0.
  - apply paced_step; auto.
  - eapply paced_run_start; [| |exact Hrun|auto].
    + apply (refs_ok_reach (Hall _ Hr)).
    + apply (inv_reach (Hall _ Hr)).
  - apply paced_process; auto.
    + apply (refs_ok_reach (Hall _ Hr)).
    + apply (inv_reach (Hall _ Hr)).
Qed.

End PacedReach.

Section PacedBounds.

Local Open Scope nat_scope.
Import ResourceFacts.

Variable R : Random.

Lemma arrives_late p : due Uniform p = 0 -> arrives p = late p.
Proof.
  destruct p as [name h| | | | | |nd tr ti| | | ]; cbn; try reflexivity;
    try discriminate.
  destruct (Nat.leb_spec name 3); [discriminate|]. intros _.
  destruct name as [|[|[|[|name]]]]; try lia; reflexivity.
Qed.

Lemma total_ext w w' (l : list Process) :
  (forall x, In x l -> w (pc x) = w' (pc x)) -> total w l = total w' l.
Proof.
  unfold total. induction l as [|x l IH]; intros H; simpl; [reflexivity|].
  rewrite (H x (or_introl eq_refl)), IH; [reflexivity|].
  intros y Hy. apply H. right. exact Hy.
Qed.

Lemma total_pos w (l : list Process) :
  0 < total w l -> exists x, In x l /\ 0 < w (pc x).
Proof.
  unfold total. induction l as [|x l IH]; simpl; [lia|]. intros H.
  destruct (w (pc x)) as [|k] eqn:E.
  - destruct (IH H) as (y & Hy & Hw). exists y. auto.
  - exists x. split; [left; reflexivity | lia].
Qed.

Lemma paced_bounds (s : State R) :
  reach Uniform s -> (0 < now (env s))%Q ->
  (inject_Z (5 * (Z.of_nat (total_patients s) - 3)) <= now (env s))%Q
  /\ forall n, (inject_Z (9 * Z.of_nat n) < now (env s))%Q ->
               3 + n <= total_patients s.
Proof.
  intros Hr Hnow.
  pose proof (paced_reach Hr) as Pa. pose proof (early_reach Hr) as Ea.
  destruct (timed_reach Hr) as [_ Ht].
  assert (Hdue : forall x, In x (procs s) -> due Uniform (pc x) = 0).
  { intros x Hx. apply In_nth_error in Hx. destruct Hx as [q Hq].
    destruct (due Uniform (pc x)) as [|d] eqn:Ed; [reflexivity|].
    destruct (early_due Ea q Hq) as [H0 _]; [lia | lra]. }
  destruct (paced_setup Pa) as (pr0 & H0 & Hset).
  destruct (pc pr0) as [| | | | | |nd tr ti|h ti i| | ] eqn:Epc;
    try contradiction.
  { pose proof (Hdue pr0 (nth_error_In _ _ H0)) as Hd. rewrite Epc in Hd.
    discriminate. }
  destruct (paced_loop Pa H0 Epc) as [L [C1 (C2a & C2b & C2c) C3 C4 C5 C6 C7]].
  assert (Hi : 3 < i)
    by (eapply (early_later Ea); [eapply nth_error_In, H0 | exact Epc]).
  rewrite (@total_ext arrives late) in C1
    by (intros x Hx; apply arrives_late, Hdue, Hx).
  assert (Hloops : loops i = (Z.of_nat i - 4)%Z) by (unfold loops; cbn; lia).
  split.
  - apply Qle_trans with (inject_Z (5 * loops i)); [|lra].
    apply inject_Z_le. lia.
  - intros n Hn.
    destruct (total late (procs s)) as [|[|l]] eqn:El; [| |lia].
    + destruct C5 as [(y & Hy & Hle & _)|[[] _]].
      pose proof (heap_future Ht) as Hf. rewrite Forall_forall in Hf.
      pose proof (Hf _ Hy) as Hge.
      assert (H : (inject_Z (9 * Z.of_nat n) < inject_Z (9 * loops i + 9))%Q).
      { rewrite inject_Z_plus. change (inject_Z 9) with 9%Q. lra. }
      rewrite <- Zlt_Qlt in H. lia.
    + destruct (@total_pos late (procs s)) as (x & Hx & Hl); [lia|].
      apply In_nth_error in Hx. destruct Hx as [q Hq].
      destruct (C7 _ _ Hq Hl) as [Hle _].
      assert (H : (inject_Z (9 * Z.of_nat n) < inject_Z (9 * loops i))%Q)
        by lra.
      rewrite <- Zlt_Qlt in H. lia.
Qed.

(** X11.  The pace of the arrivals in uniform.py.  [setup] starts a new
    patient every 5 to 9 minutes ([random.randint(t_inter - 2,
    t_inter + 2)] with [T_INTER = 7]), so once the clock has left 0 the
    patients that have arrived beyond the first three are at most one per
    5 minutes elapsed, and at least one per 9 minutes that have fully
    elapsed.  With the clock at 300, where the script ends, between 36
    and 63 patients have arrived. *)
Theorem uniform_arrivals_paced (s : State R) :
  reach Uniform s -> (0 < now (env s))%Q ->
  (inject_Z (5 * (Z.of_nat (total_patients s) - 3)) <= now (env s))%Q
  /\ (forall n, (inject_Z (9 * Z.of_nat n) < now (env s))%Q ->
                3 + n <= total_patients s)
  /\ ((now (env s) == 300)%Q -> 36 <= total_patients s <= 63).
Proof.
  intros Hr Hnow. destruct (paced_bounds Hr Hnow) as [Hup Hlow].
  split; [exact Hup | split; [exact Hlow|]].
  intros H300. split.
  - apply (Hlow 33). rewrite H300. reflexivity.
  - rewrite H300 in Hup. change 300%Q with (inject_Z 300) in Hup.
    rewrite <- Zle_Qle in Hup. lia.
Qed.

End PacedBounds.

Lemma uniform_arrivals_paced_witness :
  let R := TapeRandom [59; 150; 150; 150; 150; 59; 59; 150; 150; 150; 150] 59 in
  match main R Uniform 300 300 with
  | Some s => total_patients s = 36 /\ 36 <= total_patients s <= 63
  | None => False
  end.
Proof.
  intros R.
  destruct (main R Uniform 300 300) as [s|] eqn:E;
    [|vm_compute in E; discriminate].
  assert (Hr : reach Uniform s) by (eapply main_reach, E).
  assert (Hc : (now (env s) == 300)%Q) by (eapply main_clock, E).
  assert (Hn : (0 < now (env s))%Q) by (rewrite Hc; reflexivity).
  split.
  - vm_compute in E. injection E as <-. reflexivity.
  - exact (proj2 (proj2 (uniform_arrivals_paced Hr Hn)) Hc).
Defined.
